(** * rocSPARSE csrmm device kernels: a shallow embedding and its properties

    The development follows [library/src/level3/csrmm_device.h].  Each
    [__device__] function of that header is embedded as the function one
    thread executes; a kernel launch is a list of threads.

    Modelling conventions.
    - The index types [I] and [J] are template parameters of every kernel, so
      indices are mathematical integers ([Z]); thread coordinates are the
      unsigned built-ins of the launch and are naturals.  Overflow of a
      signed index is undefined behaviour in the source, so the theorems
      speak of runs in which no index computation leaves the range of its
      type.
    - The element type [T] is a template parameter as well: it is any type
      with the operations of the class [Scalar] below.  The kernels are
      written against these operations only; algebraic laws are assumed
      exactly in the theorems that need them (class [ScalarLaws]).  Double
      precision is the instance [double_Scalar] over the primitive floats;
      what holds in exact arithmetic only is refuted there.
    - A buffer is a list; a load or store outside the list is undefined
      behaviour in the source and the explicit result [Fault] here.
    - A [for] loop of the source is [for_loop], driven by fuel; every call
      passes enough fuel for a positive stride, and running out of it is the
      separate result [OutOfFuel].
    - [__syncthreads] separates the lanes' stores into a shared tile from the
      loads of that tile.  All lanes of a subgroup are in the same iteration
      of the same row, so after the barrier slot [l] of the tile holds what
      the lane with [lid = l] stored; the tile is therefore computed by the
      collective step [*_fill_*] from the loop variables of the iteration. *)

From Stdlib Require Import ZArith Lia Ring Permutation Floats.
From stdpp Require Import base tactics option list list_numbers.

Local Open Scope Z_scope.

(** ** Enumerations of the public interface *)

(** Modelled from the spec: the declaration of [rocsparse_operation] is in a
    header that is not part of the sources at hand; the three transpose modes
    are none, transpose and conjugate-transpose. *)
Inductive rocsparse_operation : Type :=
  | rocsparse_operation_none
  | rocsparse_operation_transpose
  | rocsparse_operation_conjugate_transpose.

(** Modelled from the spec: the declaration of [rocsparse_order] is missing
    from the sources at hand; a dense matrix is row-major or column-major. *)
Inductive rocsparse_order : Type :=
  | rocsparse_order_row
  | rocsparse_order_column.

(** Modelled from the spec: the declaration of [rocsparse_index_base] is
    missing from the sources at hand; the index base is 0 or 1. *)
Inductive rocsparse_index_base : Type :=
  | rocsparse_index_base_zero
  | rocsparse_index_base_one.

(** The integer an index base converts to in [csr_row_ptr[row] - idx_base]. *)
Definition base_val (b : rocsparse_index_base) : Z :=
  match b with
  | rocsparse_index_base_zero => 0
  | rocsparse_index_base_one => 1
  end.

(** ** The element type *)

(** Modelled from the spec: [rocsparse_conj] and [rocsparse_fma] are declared
    in [common.h], which is not part of the sources at hand; together with
    the arithmetic of [T] they are the operations of this class. *)
Class Scalar (T : Type) : Type := {
  T0 : T;                               (* static_cast<T>(0) *)
  T1 : T;                               (* static_cast<T>(1) *)
  Tadd : T -> T -> T;                   (* operator+, and what atomicAdd adds *)
  Tmul : T -> T -> T;                   (* operator* *)
  Teqb : T -> T -> bool;                (* operator== *)
  rocsparse_conj : T -> T;
  rocsparse_fma : T -> T -> T -> T
}.

(** Exact arithmetic: [T] is a commutative semiring, the fused multiply-add
    is a product followed by a sum, and [==] decides equality. *)
Class ScalarLaws (T : Type) `{Scalar T} : Prop := {
  scalar_sr : semi_ring_theory T0 T1 Tadd Tmul (@eq T);
  fma_spec : forall a b c : T, rocsparse_fma a b c = Tadd (Tmul a b) c;
  Teqb_spec : forall a b : T, Teqb a b = true <-> a = b
}.

(** ** Results, faults and loops *)

Inductive fault : Type :=
  | OOB_row_ptr (i : Z)
  | OOB_col_ind (i : Z)
  | OOB_val (i : Z)
  | OOB_B (i : Z)
  | OOB_C (i : Z)
  | OOB_shared (i : Z).

Inductive result (A : Type) : Type :=
  | Ok (a : A)
  | Fault (f : fault)
  | OutOfFuel.
Arguments Ok {A} a.
Arguments Fault {A} f.
Arguments OutOfFuel {A}.

Definition bind {A B : Type} (m : result A) (k : A -> result B) : result B :=
  match m with
  | Ok a => k a
  | Fault f => Fault f
  | OutOfFuel => OutOfFuel
  end.

Notation "x <- m ;; k" := (bind m (fun x => k))
  (at level 100, m at next level, right associativity).

(** [buf[i]] as an rvalue. *)
Definition load {A : Type} (tag : Z -> fault) (buf : list A) (i : Z) : result A :=
  if i <? 0 then Fault (tag i)
  else match buf !! Z.to_nat i with
       | Some v => Ok v
       | None => Fault (tag i)
       end.

(** [buf[i] = v]. *)
Definition store {A : Type} (tag : Z -> fault) (buf : list A) (i : Z) (v : A)
  : result (list A) :=
  if (0 <=? i) && (i <? Z.of_nat (length buf))
  then Ok (<[Z.to_nat i := v]> buf)
  else Fault (tag i).

(** [for (x = x0; cond x; x += step) s = body x s]. *)
Fixpoint for_loop {S : Type} (fuel : nat) (cond : Z -> bool) (step : Z)
    (body : Z -> S -> result S) (x : Z) (s : S) : result S :=
  if cond x then
    match fuel with
    | O => OutOfFuel
    | Datatypes.S fuel' =>
        s' <- body x s ;; for_loop fuel' cond step body (x + step) s'
    end
  else Ok s.

(** Running a list of steps in order. *)
Fixpoint foldM {A S : Type} (body : A -> S -> result S) (l : list A) (s : S)
  : result S :=
  match l with
  | [] => Ok s
  | x :: l' => s' <- body x s ;; foldM body l' s'
  end.

(** One store per lane of the subgroup: the contents of a tile of
    [WF_SIZE] slots at the barrier. *)
Fixpoint fill_tile {A : Type} (slot : Z -> result A) (lanes : list Z)
  : result (list A) :=
  match lanes with
  | [] => Ok []
  | l :: lanes' => v <- slot l ;; vs <- fill_tile slot lanes' ;; Ok (v :: vs)
  end.

(** ** Launch geometry *)

Record launch : Type := {
  hipGridDim_x : nat;
  hipGridDim_y : nat;
  hipBlockDim_x : nat;
  hipBlockDim_y : nat
}.

Record thread : Type := {
  hipBlockIdx_x : nat;
  hipBlockIdx_y : nat;
  hipThreadIdx_x : nat;
  hipThreadIdx_y : nat
}.

(** Every thread of a launch. *)
Definition grid_threads (L : launch) : list thread :=
  bx ← seq 0 (hipGridDim_x L);
  by_ ← seq 0 (hipGridDim_y L);
  tx ← seq 0 (hipBlockDim_x L);
  ty ← seq 0 (hipBlockDim_y L);
  [ {| hipBlockIdx_x := bx; hipBlockIdx_y := by_;
       hipThreadIdx_x := tx; hipThreadIdx_y := ty |} ].

(** ** The kernels *)

Section Kernels.
Context {T : Type} `{Scalar T}.

(** Template parameters. *)
Variables BLOCKSIZE WF_SIZE : Z.

(** Lines 103-127 and 211-235: the final store of the row-parallel
    kernels. *)
Definition store_result (alpha beta : T) (C : list T) (ldc : Z)
    (order : rocsparse_order) (row col : Z) (sum : T) : result (list T) :=
  if Teqb beta T0 then
    match order with
    | rocsparse_order_column =>
        store OOB_C C (row + col * ldc) (Tmul alpha sum)
    | rocsparse_order_row =>
        store OOB_C C (row * ldc + col) (Tmul alpha sum)
    end
  else
    match order with
    | rocsparse_order_column =>
        c <- load OOB_C C (row + col * ldc) ;;
        store OOB_C C (row + col * ldc) (rocsparse_fma beta c (Tmul alpha sum))
    | rocsparse_order_row =>
        c <- load OOB_C C (row * ldc + col) ;;
        store OOB_C C (row * ldc + col) (rocsparse_fma beta c (Tmul alpha sum))
    end.

(** Lines 77-85 and 182-190: what lane [lid] stores into [shared_val]. *)
Definition fill_val_slot (trans_A : rocsparse_operation) (csr_val : list T)
    (row_end j lid : Z) : result T :=
  let k := j + lid in
  match trans_A with
  | rocsparse_operation_conjugate_transpose =>
      if k <? row_end
      then v <- load OOB_val csr_val k ;; Ok (rocsparse_conj v)
      else Ok T0
  | _ =>
      if k <? row_end then load OOB_val csr_val k else Ok T0
  end.

(** Line 75: what lane [lid] stores into [shared_col] (kernel nn). *)
Definition nn_fill_col_slot (idx_base : rocsparse_index_base)
    (csr_col_ind : list Z) (row_end j lid : Z) : result Z :=
  let k := j + lid in
  if k <? row_end
  then c <- load OOB_col_ind csr_col_ind k ;; Ok (c - base_val idx_base)
  else Ok 0.

(** Line 180: what lane [lid] stores into [shared_col] (kernel nt). *)
Definition nt_fill_col_slot (idx_base : rocsparse_index_base)
    (csr_col_ind : list Z) (ldb row_end j lid : Z) : result Z :=
  let k := j + lid in
  if k <? row_end
  then c <- load OOB_col_ind csr_col_ind k ;; Ok (ldb * (c - base_val idx_base))
  else Ok 0.

(** Lines 69-101: the sum one lane of kernel nn accumulates for [row]. *)
Definition csrmmnn_row_sum (trans_A trans_B : rocsparse_operation) (N : Z)
    (csr_col_ind : list Z) (csr_val B : list T)
    (idx_base : rocsparse_index_base)
    (row_start row_end col colB : Z) : result T :=
  for_loop (Z.to_nat (row_end - row_start)) (fun j => j <? row_end) WF_SIZE
    (fun j sum =>
       shared_col <- fill_tile (nn_fill_col_slot idx_base csr_col_ind row_end j)
                               (seqZ 0 WF_SIZE) ;;
       shared_val <- fill_tile (fill_val_slot trans_A csr_val row_end j)
                               (seqZ 0 WF_SIZE) ;;
       for_loop (Z.to_nat WF_SIZE) (fun i => (i <? WF_SIZE) && (col <? N)) 1
         (fun i sum =>
            sv <- load OOB_shared shared_val i ;;
            sc <- load OOB_shared shared_col i ;;
            b <- load OOB_B B (sc + colB) ;;
            match trans_B with
            | rocsparse_operation_conjugate_transpose =>
                Ok (rocsparse_fma sv (rocsparse_conj b) sum)
            | _ => Ok (rocsparse_fma sv b sum)
            end)
         0 sum)
    row_start T0.

(** Lines 62-128: one iteration of the row loop of kernel nn. *)
Definition csrmmnn_row (trans_A trans_B : rocsparse_operation) (N : Z)
    (alpha : T) (csr_row_ptr csr_col_ind : list Z) (csr_val B : list T)
    (beta : T) (ldc : Z) (order : rocsparse_order)
    (idx_base : rocsparse_index_base)
    (col colB row : Z) (C : list T) : result (list T) :=
  rs <- load OOB_row_ptr csr_row_ptr row ;;
  re <- load OOB_row_ptr csr_row_ptr (row + 1) ;;
  let row_start := rs - base_val idx_base in
  let row_end := re - base_val idx_base in
  sum <- csrmmnn_row_sum trans_A trans_B N csr_col_ind csr_val B idx_base
           row_start row_end col colB ;;
  if col <? N
  then store_result alpha beta C ldc order row col sum
  else Ok C.

Definition csrmmnn_general_device (trans_A trans_B : rocsparse_operation)
    (M N K nnz : Z) (alpha : T)
    (csr_row_ptr csr_col_ind : list Z) (csr_val B : list T) (ldb : Z)
    (beta : T) (ldc : Z) (order : rocsparse_order)
    (idx_base : rocsparse_index_base)
    (L : launch) (t : thread) (C : list T) : result (list T) :=
  let tid := Z.of_nat (hipThreadIdx_x t) in
  let gid := Z.of_nat (hipBlockIdx_x t) * BLOCKSIZE + tid in
  let lid := Z.land gid (WF_SIZE - 1) in
  let nwf := (Z.of_nat (hipGridDim_x L) * BLOCKSIZE) ÷ WF_SIZE in
  let col := lid + Z.of_nat (hipBlockIdx_y t) * WF_SIZE in
  let colB := col * ldb in
  for_loop (Z.to_nat (M - gid ÷ WF_SIZE)) (fun row => row <? M) nwf
    (csrmmnn_row trans_A trans_B N alpha csr_row_ptr csr_col_ind csr_val B
                 beta ldc order idx_base col colB)
    (gid ÷ WF_SIZE) C.

(** Lines 172-209: the sum one lane of kernel nt accumulates for column
    [col]. *)
Definition csrmmnt_row_sum (trans_A trans_B : rocsparse_operation) (ncol : Z)
    (csr_col_ind : list Z) (csr_val B : list T) (ldb : Z)
    (idx_base : rocsparse_index_base)
    (row_start row_end col : Z) : result T :=
  for_loop (Z.to_nat (row_end - row_start)) (fun j => j <? row_end) WF_SIZE
    (fun j sum =>
       shared_col <- fill_tile (nt_fill_col_slot idx_base csr_col_ind ldb row_end j)
                               (seqZ 0 WF_SIZE) ;;
       shared_val <- fill_tile (fill_val_slot trans_A csr_val row_end j)
                               (seqZ 0 WF_SIZE) ;;
       for_loop (Z.to_nat WF_SIZE) (fun i => i <? WF_SIZE) 1
         (fun i sum =>
            sv <- load OOB_shared shared_val i ;;
            sc <- load OOB_shared shared_col i ;;
            val_B <- (if col <? ncol then load OOB_B B (col + sc) else Ok T0) ;;
            match trans_B with
            | rocsparse_operation_conjugate_transpose =>
                Ok (rocsparse_fma sv (rocsparse_conj val_B) sum)
            | _ => Ok (rocsparse_fma sv val_B sum)
            end)
         0 sum)
    row_start T0.

(** Lines 169-236: one iteration of the column loop of kernel nt. *)
Definition csrmmnt_col (trans_A trans_B : rocsparse_operation) (ncol : Z)
    (alpha : T) (csr_col_ind : list Z) (csr_val B : list T) (ldb : Z)
    (beta : T) (ldc : Z) (order : rocsparse_order)
    (idx_base : rocsparse_index_base)
    (row row_start row_end lid l : Z) (C : list T) : result (list T) :=
  let col := l + lid in
  sum <- csrmmnt_row_sum trans_A trans_B ncol csr_col_ind csr_val B ldb
           idx_base row_start row_end col ;;
  if col <? ncol
  then store_result alpha beta C ldc order row col sum
  else Ok C.

Definition csrmmnt_general_device (trans_A trans_B : rocsparse_operation)
    (offset ncol M N K nnz : Z) (alpha : T)
    (csr_row_ptr csr_col_ind : list Z) (csr_val B : list T) (ldb : Z)
    (beta : T) (ldc : Z) (order : rocsparse_order)
    (idx_base : rocsparse_index_base)
    (L : launch) (t : thread) (C : list T) : result (list T) :=
  let tid := Z.of_nat (hipThreadIdx_x t) in
  let gid := Z.of_nat (hipBlockIdx_x t) * BLOCKSIZE + tid in
  let row := gid ÷ WF_SIZE in
  let lid := Z.land tid (WF_SIZE - 1) in
  if M <=? row then Ok C
  else
    rs <- load OOB_row_ptr csr_row_ptr row ;;
    re <- load OOB_row_ptr csr_row_ptr (row + 1) ;;
    let row_start := rs - base_val idx_base in
    let row_end := re - base_val idx_base in
    for_loop (Z.to_nat (ncol - offset)) (fun l => l <? ncol) WF_SIZE
      (csrmmnt_col trans_A trans_B ncol alpha csr_col_ind csr_val B ldb
                   beta ldc order idx_base row row_start row_end lid)
      offset C.

(** Lines 240-260. *)
Definition csrmm_scale_device (m n : Z) (beta : T) (data : list T) (ld : Z)
    (order : rocsparse_order) (L : launch) (t : thread) : result (list T) :=
  let gidx := Z.of_nat (hipBlockIdx_x t) * Z.of_nat (hipBlockDim_x L)
              + Z.of_nat (hipThreadIdx_x t) in
  let gidy := Z.of_nat (hipBlockIdx_y t) * Z.of_nat (hipBlockDim_y L)
              + Z.of_nat (hipThreadIdx_y t) in
  if (m <=? gidx) || (n <=? gidy) then Ok data
  else
    match order with
    | rocsparse_order_column =>
        d <- load OOB_C data (gidx + ld * gidy) ;;
        store OOB_C data (gidx + ld * gidy) (Tmul d beta)
    | rocsparse_order_row =>
        d <- load OOB_C data (gidy + ld * gidx) ;;
        store OOB_C data (gidy + ld * gidx) (Tmul d beta)
    end.

(** Lines 301-308: what lane [lid] stores into [shared_B] (kernel tn). *)
Definition tn_fill_B_slot (trans_B : rocsparse_operation) (N : Z)
    (B : list T) (ldb : Z) (by_ row lid : Z) : result T :=
  let cid := lid + by_ * WF_SIZE in
  let colB := cid * ldb in
  match trans_B with
  | rocsparse_operation_conjugate_transpose =>
      if cid <? N
      then b <- load OOB_B B (row + colB) ;; Ok (rocsparse_conj b)
      else Ok T0
  | _ =>
      if cid <? N then load OOB_B B (row + colB) else Ok T0
  end.

(** Lines 383-390: what lane [lid] stores into [shared_B] (kernel tt). *)
Definition tt_fill_B_slot (trans_B : rocsparse_operation) (N : Z)
    (B : list T) (ldb : Z) (by_ row lid : Z) : result T :=
  let cid := lid + by_ * WF_SIZE in
  match trans_B with
  | rocsparse_operation_conjugate_transpose =>
      if cid <? N
      then b <- load OOB_B B (ldb * row + cid) ;; Ok (rocsparse_conj b)
      else Ok T0
  | _ =>
      if cid <? N then load OOB_B B (ldb * row + cid) else Ok T0
  end.

(** Lines 312-341 and 394-423: the scatter of one lane's share of a row.
    An [atomicAdd (&C[a], v)] is recorded as the pair [(a, v)], in program
    order. *)
Definition scatter_row (trans_A : rocsparse_operation) (N : Z) (alpha : T)
    (csr_col_ind : list Z) (csr_val : list T) (ldc : Z)
    (order : rocsparse_order) (idx_base : rocsparse_index_base)
    (by_ lid row_start row_end : Z) (shared_B : list T)
    (adds : list (Z * T)) : result (list (Z * T)) :=
  for_loop (Z.to_nat (row_end - (row_start + lid))) (fun j => j <? row_end)
    WF_SIZE
    (fun j adds =>
       c <- load OOB_col_ind csr_col_ind j ;;
       let col := c - base_val idx_base in
       v <- load OOB_val csr_val j ;;
       let val :=
         match trans_A with
         | rocsparse_operation_conjugate_transpose =>
             Tmul alpha (rocsparse_conj v)
         | _ => Tmul alpha v
         end in
       match order with
       | rocsparse_order_column =>
           for_loop (Z.to_nat WF_SIZE)
             (fun i => (i <? WF_SIZE) && (i + by_ * WF_SIZE <? N)) 1
             (fun i adds =>
                sb <- load OOB_shared shared_B i ;;
                Ok (adds ++ [(col + (i + by_ * WF_SIZE) * ldc, Tmul val sb)]))
             0 adds
       | rocsparse_order_row =>
           for_loop (Z.to_nat WF_SIZE)
             (fun i => (i <? WF_SIZE) && (i + by_ * WF_SIZE <? N)) 1
             (fun i adds =>
                sb <- load OOB_shared shared_B i ;;
                Ok (adds ++ [(col * ldc + (i + by_ * WF_SIZE), Tmul val sb)]))
             0 adds
       end)
    (row_start + lid) adds.

(** Lines 296-342 and 378-424: one iteration of the row loop of the
    kernels tn and tt; [fill_B] is the kernel's own load of B. *)
Definition atomic_row (fill_B : Z -> Z -> result T)
    (trans_A : rocsparse_operation) (N : Z) (alpha : T)
    (csr_row_ptr csr_col_ind : list Z) (csr_val : list T) (ldc : Z)
    (order : rocsparse_order) (idx_base : rocsparse_index_base)
    (by_ lid row : Z) (adds : list (Z * T)) : result (list (Z * T)) :=
  rs <- load OOB_row_ptr csr_row_ptr row ;;
  re <- load OOB_row_ptr csr_row_ptr (row + 1) ;;
  let row_start := rs - base_val idx_base in
  let row_end := re - base_val idx_base in
  shared_B <- fill_tile (fill_B row) (seqZ 0 WF_SIZE) ;;
  scatter_row trans_A N alpha csr_col_ind csr_val ldc order idx_base
              by_ lid row_start row_end shared_B adds.

Definition csrmmtn_general_device (trans_A trans_B : rocsparse_operation)
    (M N K nnz : Z) (alpha : T)
    (csr_row_ptr csr_col_ind : list Z) (csr_val B : list T) (ldb : Z)
    (beta : T) (ldc : Z) (order : rocsparse_order)
    (idx_base : rocsparse_index_base)
    (L : launch) (t : thread) : result (list (Z * T)) :=
  let tid := Z.of_nat (hipThreadIdx_x t) in
  let gid := Z.of_nat (hipBlockIdx_x t) * BLOCKSIZE + tid in
  let lid := Z.land gid (WF_SIZE - 1) in
  let nwf := (Z.of_nat (hipGridDim_x L) * BLOCKSIZE) ÷ WF_SIZE in
  let by_ := Z.of_nat (hipBlockIdx_y t) in
  for_loop (Z.to_nat (K - gid ÷ WF_SIZE)) (fun row => row <? K) nwf
    (atomic_row (tn_fill_B_slot trans_B N B ldb by_)
                trans_A N alpha csr_row_ptr csr_col_ind csr_val ldc order
                idx_base by_ lid)
    (gid ÷ WF_SIZE) [].

Definition csrmmtt_general_device (trans_A trans_B : rocsparse_operation)
    (M N K nnz : Z) (alpha : T)
    (csr_row_ptr csr_col_ind : list Z) (csr_val B : list T) (ldb : Z)
    (beta : T) (ldc : Z) (order : rocsparse_order)
    (idx_base : rocsparse_index_base)
    (L : launch) (t : thread) : result (list (Z * T)) :=
  let tid := Z.of_nat (hipThreadIdx_x t) in
  let gid := Z.of_nat (hipBlockIdx_x t) * BLOCKSIZE + tid in
  let lid := Z.land gid (WF_SIZE - 1) in
  let nwf := (Z.of_nat (hipGridDim_x L) * BLOCKSIZE) ÷ WF_SIZE in
  let by_ := Z.of_nat (hipBlockIdx_y t) in
  for_loop (Z.to_nat (K - gid ÷ WF_SIZE)) (fun row => row <? K) nwf
    (atomic_row (tt_fill_B_slot trans_B N B ldb by_)
                trans_A N alpha csr_row_ptr csr_col_ind csr_val ldc order
                idx_base by_ lid)
    (gid ÷ WF_SIZE) [].

(** ** Launches *)

(** A launch of a kernel that stores into C: the threads run in the order
    of the schedule [sched]. *)
Definition run_grid (kernel : thread -> list T -> result (list T))
    (sched : list thread) (C : list T) : result (list T) :=
  foldM kernel sched C.

(** The atomic additions a launch issues, thread after thread. *)
Definition grid_adds (kernel : thread -> result (list (Z * T)))
    (threads : list thread) : result (list (Z * T)) :=
  foldM (fun t acc => adds <- kernel t ;; Ok (acc ++ adds)) threads [].

(** [atomicAdd (&C[a], v)]. *)
Definition atomicAdd (av : Z * T) (C : list T) : result (list T) :=
  c <- load OOB_C C (fst av) ;;
  store OOB_C C (fst av) (Tadd c (snd av)).

(** The additions take effect one at a time, in the order [sched]. *)
Definition apply_adds (sched : list (Z * T)) (C : list T) : result (list T) :=
  foldM atomicAdd sched C.

End Kernels.

(** ** Specification-side definitions *)

(** [buf[i]] for an index known to be in range. *)
Definition zat {A : Type} `{Inhabited A} (buf : list A) (i : Z) : A :=
  buf !!! Z.to_nat i.

(** The global thread index [hipBlockIdx_x * BLOCKSIZE + hipThreadIdx_x]. *)
Definition gid_of (BLOCKSIZE : Z) (t : thread) : Z :=
  Z.of_nat (hipBlockIdx_x t) * BLOCKSIZE + Z.of_nat (hipThreadIdx_x t).

(** What the kernels nn, tn and tt derive from the coordinates of a thread:
    the index of its subgroup, its lane, and its block along y. *)
Definition thread_key (BLOCKSIZE WF_SIZE : Z) (t : thread) : Z * Z * Z :=
  (gid_of BLOCKSIZE t ÷ WF_SIZE,
   Z.land (gid_of BLOCKSIZE t) (WF_SIZE - 1),
   Z.of_nat (hipBlockIdx_y t)).

(** The values [a], [a + s], [a + 2s], ... a loop [for (x = a; x < b; x += s)]
    visits. *)
Fixpoint stride_n (n : nat) (a s : Z) : list Z :=
  match n with
  | O => []
  | Datatypes.S n' => a :: stride_n n' (a + s) s
  end.

Definition stride (a b s : Z) : list Z :=
  stride_n (Z.to_nat ((b - a + s - 1) `div` s)) a s.

(** The value of an element that does not exist is never used; it is zero
    for indices and for elements alike. *)
#[export] Instance Z_inhabited0 : Inhabited Z := populate 0.

#[export] Instance T_inhabited {T : Type} `{Scalar T} : Inhabited T | 100 :=
  populate T0.

Section Reference.
Context {T : Type} `{Scalar T}.

(** Finite sums in [T]. *)
Definition sumL {A : Type} (f : A -> T) (l : list A) : T :=
  foldr (fun x acc => Tadd (f x) acc) T0 l.

(** The sum of [f p] for [a <= p < b]. *)
Definition sumZ (f : Z -> T) (a b : Z) : T := sumL f (seqZ a (b - a)).

(** A value as a kernel uses it under a transpose mode: conjugated for
    conjugate-transpose, as stored otherwise. *)
Definition op_conj (trans : rocsparse_operation) (v : T) : T :=
  match trans with
  | rocsparse_operation_conjugate_transpose => rocsparse_conj v
  | _ => v
  end.

(** Entry [(r, c)] of the stored CSR matrix, every stored value passed
    through [f]; an entry stored more than once counts as the sum. *)
Definition csr_dense (f : T -> T) (csr_row_ptr csr_col_ind : list Z)
    (csr_val : list T) (idx_base : rocsparse_index_base) (r c : Z) : T :=
  sumZ (fun p => if zat csr_col_ind p - base_val idx_base =? c
                 then f (zat csr_val p) else T0)
       (zat csr_row_ptr r - base_val idx_base)
       (zat csr_row_ptr (r + 1) - base_val idx_base).

(** Entry [(i, k)] of op(A). *)
Definition op_A (trans_A : rocsparse_operation)
    (csr_row_ptr csr_col_ind : list Z) (csr_val : list T)
    (idx_base : rocsparse_index_base) (i k : Z) : T :=
  match trans_A with
  | rocsparse_operation_none =>
      csr_dense (fun v => v) csr_row_ptr csr_col_ind csr_val idx_base i k
  | rocsparse_operation_transpose =>
      csr_dense (fun v => v) csr_row_ptr csr_col_ind csr_val idx_base k i
  | rocsparse_operation_conjugate_transpose =>
      csr_dense rocsparse_conj csr_row_ptr csr_col_ind csr_val idx_base k i
  end.

(** The position of element [(r, c)] of a dense matrix with leading
    dimension [ld]. *)
Definition dense_index (order : rocsparse_order) (ld r c : Z) : Z :=
  match order with
  | rocsparse_order_column => r + c * ld
  | rocsparse_order_row => r * ld + c
  end.

(** Entry [(k, j)] of op(B): B is stored in the order [order]; it is K x N
    when it is not transposed and N x K when it is. *)
Definition op_B (trans_B : rocsparse_operation) (order : rocsparse_order)
    (B : list T) (ldb k j : Z) : T :=
  match trans_B with
  | rocsparse_operation_none => zat B (dense_index order ldb k j)
  | rocsparse_operation_transpose => zat B (dense_index order ldb j k)
  | rocsparse_operation_conjugate_transpose =>
      rocsparse_conj (zat B (dense_index order ldb j k))
  end.

(** Specification side, in the words of the specification: the reference
    computation the kernels are compared with.  Entry [(i, j)] of
    [alpha * op(A) * op(B) + beta * C], op(A) being M x K and op(B) K x N:
    the innermost of the three loops runs over the contraction index [k]. *)
Definition csrmm_reference (trans_A trans_B : rocsparse_operation)
    (K : Z) (alpha : T) (csr_row_ptr csr_col_ind : list Z)
    (csr_val B : list T) (ldb : Z) (beta : T) (C : list T) (ldc : Z)
    (order : rocsparse_order) (idx_base : rocsparse_index_base)
    (i j : Z) : T :=
  Tadd (Tmul alpha
          (sumZ (fun k =>
                   Tmul (op_A trans_A csr_row_ptr csr_col_ind csr_val idx_base i k)
                        (op_B trans_B order B ldb k j))
                0 K))
       (Tmul beta (zat C (dense_index order ldc i j))).

(** The transpose-mode and order combinations under which entry [(k, j)] of
    op(B) is at [B[k + j * ldb]] (the addressing of the kernels nn and tn);
    under the others it is at [B[k * ldb + j]] (kernels nt and tt). *)
Definition B_is_nn (trans_B : rocsparse_operation) (order : rocsparse_order)
  : bool :=
  match trans_B, order with
  | rocsparse_operation_none, rocsparse_order_column => true
  | rocsparse_operation_none, rocsparse_order_row => false
  | _, rocsparse_order_column => false
  | _, rocsparse_order_row => true
  end.

Definition A_is_transposed (trans_A : rocsparse_operation) : bool :=
  match trans_A with
  | rocsparse_operation_none => false
  | _ => true
  end.

(** A well-formed CSR matrix with [rows] rows and [cols] columns. *)
Definition csr_valid (rows cols : Z) (csr_row_ptr csr_col_ind : list Z)
    (csr_val : list T) (idx_base : rocsparse_index_base) : bool :=
  (0 <=? rows)
  && (Z.of_nat (length csr_row_ptr) =? rows + 1)
  && (0 <=? zat csr_row_ptr 0 - base_val idx_base)
  && forallb (fun r => zat csr_row_ptr r <=? zat csr_row_ptr (r + 1))
             (seqZ 0 rows)
  && (zat csr_row_ptr rows - base_val idx_base <=? Z.of_nat (length csr_col_ind))
  && (zat csr_row_ptr rows - base_val idx_base <=? Z.of_nat (length csr_val))
  && forallb (fun p => (0 <=? zat csr_col_ind p - base_val idx_base)
                       && (zat csr_col_ind p - base_val idx_base <? cols))
             (seqZ (zat csr_row_ptr 0 - base_val idx_base)
                   (zat csr_row_ptr rows - zat csr_row_ptr 0)).

(** A dense buffer holding every element of a [rows] x [cols] matrix whose
    element [(r, c)] is at [r + c * ld]. *)
Definition dense_valid (rows cols ld : Z) (buf : list T) : bool :=
  (0 <=? rows) && (0 <=? cols) && (rows <=? ld)
  && (ld * cols <=? Z.of_nat (length buf)).

(** The output buffer of an M x N product. *)
Definition C_valid (order : rocsparse_order) (M N ldc : Z) (C : list T) : bool :=
  match order with
  | rocsparse_order_column => dense_valid M N ldc C
  | rocsparse_order_row => dense_valid N M ldc C
  end.

(** The subgroup width is a power of two and a block is a whole number of
    subgroups. *)
Definition config_ok (BLOCKSIZE WF_SIZE : Z) (w nw : nat) : Prop :=
  WF_SIZE = 2 ^ Z.of_nat w /\ (0 < nw)%nat /\ BLOCKSIZE = Z.of_nat nw * WF_SIZE.

(** A launch of kernel nn, tn or tt: blocks of [BLOCKSIZE] threads, at least
    one block along x, and enough blocks along y to reach every one of the
    [N] columns. *)
Definition launch_xy_ok (BLOCKSIZE WF_SIZE N : Z) (L : launch) : Prop :=
  Z.of_nat (hipBlockDim_x L) = BLOCKSIZE /\ hipBlockDim_y L = 1%nat
  /\ (0 < hipGridDim_x L)%nat
  /\ N <= Z.of_nat (hipGridDim_y L) * WF_SIZE.

(** A launch of kernel nt: blocks of [BLOCKSIZE] threads, one subgroup per
    row, a single block along y. *)
Definition launch_x_ok (BLOCKSIZE WF_SIZE M : Z) (L : launch) : Prop :=
  Z.of_nat (hipBlockDim_x L) = BLOCKSIZE /\ hipBlockDim_y L = 1%nat
  /\ hipGridDim_y L = 1%nat
  /\ M * WF_SIZE <= Z.of_nat (hipGridDim_x L) * BLOCKSIZE.

(** A launch of the scale kernel that reaches every element. *)
Definition launch_scale_ok (m n : Z) (L : launch) : Prop :=
  m <= Z.of_nat (hipGridDim_x L) * Z.of_nat (hipBlockDim_x L)
  /\ n <= Z.of_nat (hipGridDim_y L) * Z.of_nat (hipBlockDim_y L).

(** The value the final store of the kernels nn and nt leaves in an element
    that held [c], for the accumulated [sum]. *)
Definition stored_value (alpha beta c sum : T) : T :=
  if Teqb beta T0 then Tmul alpha sum
  else rocsparse_fma beta c (Tmul alpha sum).

(** The accumulation of lines 69-101 and 174-209 as a function: [va p] is
    the value of A used for the nonzero [p], [bv p] the value of B it is
    multiplied with, [pad] the value of B a slot beyond the end of the row
    reads. *)
Definition tile_dot (WF_SIZE : Z) (va bv : Z -> T) (pad : T)
    (row_end j : Z) (sum : T) : T :=
  foldl (fun sum i =>
           if j + i <? row_end
           then rocsparse_fma (va (j + i)) (bv (j + i)) sum
           else rocsparse_fma T0 pad sum)
        sum (seqZ 0 WF_SIZE).

Definition dot_tiled (WF_SIZE : Z) (va bv : Z -> T) (pad : T)
    (row_start row_end : Z) : T :=
  foldl (fun sum j => tile_dot WF_SIZE va bv pad row_end j sum)
        T0 (stride row_start row_end WF_SIZE).

(** The sum kernel nn accumulates for the cell [c] of the output. *)
Definition nn_dot (WF_SIZE : Z) (trans_A trans_B : rocsparse_operation)
    (csr_row_ptr csr_col_ind : list Z) (csr_val B : list T) (ldb : Z)
    (idx_base : rocsparse_index_base) (c : Z * Z) : T :=
  dot_tiled WF_SIZE
    (fun p => op_conj trans_A (zat csr_val p))
    (fun p => op_conj trans_B
                (zat B (zat csr_col_ind p - base_val idx_base + snd c * ldb)))
    (op_conj trans_B (zat B (0 + snd c * ldb)))
    (zat csr_row_ptr (fst c) - base_val idx_base)
    (zat csr_row_ptr (fst c + 1) - base_val idx_base).

(** The sum kernel nt accumulates for the cell [c] of the output. *)
Definition nt_dot (WF_SIZE : Z) (trans_A trans_B : rocsparse_operation)
    (csr_row_ptr csr_col_ind : list Z) (csr_val B : list T) (ldb : Z)
    (idx_base : rocsparse_index_base) (c : Z * Z) : T :=
  dot_tiled WF_SIZE
    (fun p => op_conj trans_A (zat csr_val p))
    (fun p => op_conj trans_B
                (zat B (snd c + ldb * (zat csr_col_ind p - base_val idx_base))))
    (op_conj trans_B (zat B (snd c + 0)))
    (zat csr_row_ptr (fst c) - base_val idx_base)
    (zat csr_row_ptr (fst c + 1) - base_val idx_base).

(** The additions one lane of the kernels tn and tt issues for the stored
    row [row]: for each nonzero [p] of its share and each column [j] of the
    tile of its block, [alpha * op(value p) * bval row j] into the element
    [(column of p, j)] of the output. *)
Definition atomic_items (WF_SIZE : Z) (trans_A : rocsparse_operation) (N : Z)
    (alpha : T) (csr_col_ind : list Z) (csr_val : list T) (ldc : Z)
    (order : rocsparse_order) (idx_base : rocsparse_index_base)
    (bval : Z -> Z -> T) (by_ lid row_start row_end row : Z) : list (Z * T) :=
  p ← stride (row_start + lid) row_end WF_SIZE;
  i ← seqZ 0 (Z.min WF_SIZE (N - by_ * WF_SIZE));
  [(dense_index order ldc (zat csr_col_ind p - base_val idx_base)
                (i + by_ * WF_SIZE),
    Tmul (Tmul alpha (op_conj trans_A (zat csr_val p)))
         (bval row (i + by_ * WF_SIZE)))].

(** The additions of the subgroup [r0], lane [lid], in a block with
    [hipBlockIdx_y = by_], of a launch with [nwf] subgroups along x. *)
Definition lane_adds (WF_SIZE : Z) (trans_A : rocsparse_operation) (N K : Z)
    (alpha : T) (csr_row_ptr csr_col_ind : list Z) (csr_val : list T) (ldc : Z)
    (order : rocsparse_order) (idx_base : rocsparse_index_base)
    (bval : Z -> Z -> T) (nwf r0 lid by_ : Z) : list (Z * T) :=
  row ← stride r0 K nwf;
  atomic_items WF_SIZE trans_A N alpha csr_col_ind csr_val ldc order idx_base
    bval by_ lid
    (zat csr_row_ptr row - base_val idx_base)
    (zat csr_row_ptr (row + 1) - base_val idx_base) row.

(** The value of B kernel tn multiplies with in row [k], column [j]. *)
Definition tn_bval (trans_B : rocsparse_operation) (B : list T) (ldb : Z)
    (k j : Z) : T :=
  op_conj trans_B (zat B (k + j * ldb)).

(** The value of B kernel tt multiplies with in row [k], column [j]. *)
Definition tt_bval (trans_B : rocsparse_operation) (B : list T) (ldb : Z)
    (k j : Z) : T :=
  op_conj trans_B (zat B (ldb * k + j)).

(** What the additions of a schedule add up to at address [a]. *)
Definition contrib (a : Z) (adds : list (Z * T)) : T :=
  sumL (fun av : Z * T => if fst av =? a then snd av else T0) adds.

End Reference.

(** ** Footprints of the storing kernels *)

(** A step [f] on the output buffer that rewrites exactly the elements
    [addr c] for the cells [c] of [W], the element of cell [c] from its old
    value [v] to [g c v], and never faults. *)
Definition updates {T : Type} `{Inhabited T} (len : nat) (addr : Z * Z -> Z)
    (g : Z * Z -> T -> T) (W : list (Z * Z))
    (f : list T -> result (list T)) : Prop :=
  forall C : list T, length C = len ->
    exists C' : list T,
      f C = Ok C' /\ length C' = len
      /\ (forall c, c ∈ W -> zat C' (addr c) = g c (zat C (addr c)))
      /\ (forall a : nat, (forall c, c ∈ W -> Z.to_nat (addr c) <> a) ->
            C' !! a = C !! a).

(** The cells a thread of kernel nn stores: its column, in every row of its
    grid-stride loop. *)
Definition nn_cells (BLOCKSIZE WF_SIZE M N : Z) (L : launch) (t : thread)
  : list (Z * Z) :=
  let gid := gid_of BLOCKSIZE t in
  let col := Z.land gid (WF_SIZE - 1) + Z.of_nat (hipBlockIdx_y t) * WF_SIZE in
  row ← stride (gid ÷ WF_SIZE) M ((Z.of_nat (hipGridDim_x L) * BLOCKSIZE) ÷ WF_SIZE);
  if col <? N then [(row, col)] else [].

(** The cells a thread of kernel nt stores: its row, in every column of its
    column loop. *)
Definition nt_cells (BLOCKSIZE WF_SIZE offset ncol M : Z) (t : thread)
  : list (Z * Z) :=
  let row := gid_of BLOCKSIZE t ÷ WF_SIZE in
  let lid := Z.land (Z.of_nat (hipThreadIdx_x t)) (WF_SIZE - 1) in
  if M <=? row then []
  else l ← stride offset ncol WF_SIZE;
       if l + lid <? ncol then [(row, l + lid)] else [].

(** The cells of the rows [r0 <= r < r1] and columns [c0 <= c < c1]. *)
Definition block_cells (r0 r1 c0 c1 : Z) : list (Z * Z) :=
  r ← seqZ r0 (r1 - r0); c ← seqZ c0 (c1 - c0); [(r, c)].

(** Kernel nn with the body of its row loop as a parameter. *)
Definition nn_thread {T : Type} (BLOCKSIZE WF_SIZE M : Z) (L : launch)
    (row_body : Z -> Z -> list T -> result (list T))
    (t : thread) (C : list T) : result (list T) :=
  let gid := gid_of BLOCKSIZE t in
  let col := Z.land gid (WF_SIZE - 1) + Z.of_nat (hipBlockIdx_y t) * WF_SIZE in
  for_loop (Z.to_nat (M - gid ÷ WF_SIZE)) (fun row => row <? M)
    ((Z.of_nat (hipGridDim_x L) * BLOCKSIZE) ÷ WF_SIZE)
    (row_body col) (gid ÷ WF_SIZE) C.

(** Kernel nt with the body of its column loop as a parameter. *)
Definition nt_thread {T : Type} (BLOCKSIZE WF_SIZE offset ncol M : Z)
    (col_body : Z -> Z -> Z -> list T -> result (list T))
    (t : thread) (C : list T) : result (list T) :=
  let row := gid_of BLOCKSIZE t ÷ WF_SIZE in
  let lid := Z.land (Z.of_nat (hipThreadIdx_x t)) (WF_SIZE - 1) in
  if M <=? row then Ok C
  else for_loop (Z.to_nat (ncol - offset)) (fun l => l <? ncol) WF_SIZE
         (col_body row lid) offset C.

(** The cell a thread of the scale kernel rewrites, if any. *)
Definition scale_cells (m n : Z) (L : launch) (t : thread) : list (Z * Z) :=
  let gidx := Z.of_nat (hipBlockIdx_x t) * Z.of_nat (hipBlockDim_x L)
              + Z.of_nat (hipThreadIdx_x t) in
  let gidy := Z.of_nat (hipBlockIdx_y t) * Z.of_nat (hipBlockDim_y L)
              + Z.of_nat (hipThreadIdx_y t) in
  if (m <=? gidx) || (n <=? gidy) then [] else [(gidx, gidy)].

(** The position of a cell of the output. *)
Definition cell_index (order : rocsparse_order) (ldc : Z) (c : Z * Z) : Z :=
  dense_index order ldc (fst c) (snd c).

(** ** The integers as element type *)

#[export] Instance Z_Scalar : Scalar Z := {|
  T0 := 0;
  T1 := 1;
  Tadd := Z.add;
  Tmul := Z.mul;
  Teqb := Z.eqb;
  rocsparse_conj := fun x => x;
  rocsparse_fma := fun a b c => a * b + c
|}.

(** Two runs that both return, or fault at the same access, or both run out
    of fuel: the same outcome, whatever the values. *)
Definition same_outcome {A B : Type} (r1 : result A) (r2 : result B) : Prop :=
  match r1, r2 with
  | Ok _, Ok _ => True
  | Fault f1, Fault f2 => f1 = f2
  | OutOfFuel, OutOfFuel => True
  | _, _ => False
  end.

(** A run that did not load the row pointer outside its buffer. *)
Definition row_ptr_safe {A : Type} (r : result A) : Prop :=
  forall i : Z, r <> Fault (OOB_row_ptr i).

(** ** A small problem to run the kernels on *)

(** Subgroups of two lanes, two subgroups in a block. *)
Definition ex_WF : Z := 2.
Definition ex_BS : Z := 4.

(** One block of four threads; a two by two block for the scale kernel. *)
Definition ex_L : launch :=
  {| hipGridDim_x := 1; hipGridDim_y := 1; hipBlockDim_x := 4; hipBlockDim_y := 1 |}.
Definition ex_L_scale : launch :=
  {| hipGridDim_x := 2; hipGridDim_y := 1; hipBlockDim_x := 2; hipBlockDim_y := 2 |}.

(** The stored matrix [[1, 0, 2], [0, 3, 0]], one-based. *)
Definition ex_row_ptr : list Z := [1; 3; 4].
Definition ex_col_ind : list Z := [1; 3; 2].
Definition ex_val : list Z := [1; 2; 3].

(** A 3 x 2 matrix B, element (k, j) at [k + 3 j] and at [2 k + j]. *)
Definition ex_B_nn : list Z := [1; 2; 3; 4; 5; 6].
Definition ex_B_nt : list Z := [1; 4; 2; 5; 3; 6].

(** A 2 x 2 matrix B for the transposed product. *)
Definition ex_B_tn : list Z := [1; 2; 3; 4].
Definition ex_B_tt : list Z := [1; 3; 2; 4].

(** Output buffers: 2 x 2 and 3 x 2, column-major, one spare element. *)
Definition ex_C : list Z := [1; 1; 1; 1; 9].
Definition ex_C' : list Z := [5; 6; 7; 8; 9].
Definition ex_C_t : list Z := [1; 1; 1; 1; 1; 1; 9].

(** The stored matrix [[1, 2], [0, 3]], zero-based, and a 2 x 2 matrix B. *)
Definition sq_row_ptr : list Z := [0; 2; 3].
Definition sq_col_ind : list Z := [0; 1; 1].
Definition sq_val : list Z := [1; 2; 3].
Definition sq_B : list Z := [1; 2; 3; 4].
Definition sq_C : list Z := [0; 0; 0; 0].

(** ** The work of the atomic kernels *)

(** Every addition a launch of kernel tn or tt owes the output: one for each
    stored row [row], each nonzero [p] of that row and each column [j] of
    the output, of [alpha * op(value p) * bval row j] into the element
    [(column of p, j)]. *)
Definition atomic_work {T : Type} `{Scalar T} (trans_A : rocsparse_operation)
    (N K : Z) (alpha : T) (csr_row_ptr csr_col_ind : list Z) (csr_val : list T)
    (ldc : Z) (order : rocsparse_order) (idx_base : rocsparse_index_base)
    (bval : Z -> Z -> T) : list (Z * T) :=
  row ← seqZ 0 K;
  p ← seqZ (zat csr_row_ptr row - base_val idx_base)
           (zat csr_row_ptr (row + 1) - base_val idx_base
            - (zat csr_row_ptr row - base_val idx_base));
  j ← seqZ 0 N;
  [(dense_index order ldc (zat csr_col_ind p - base_val idx_base) j,
    Tmul (Tmul alpha (op_conj trans_A (zat csr_val p))) (bval row j))].


(** ** Definitions for the values the kernels use *)

(** The element type with its conjugation taken away: the same arithmetic,
    [rocsparse_conj] the identity.  A kernel run over it cannot conjugate
    anything. *)
Definition without_conj {T : Type} (H : Scalar T) : Scalar T := {|
  T0 := @T0 T H;
  T1 := @T1 T H;
  Tadd := @Tadd T H;
  Tmul := @Tmul T H;
  Teqb := @Teqb T H;
  rocsparse_conj := fun x => x;
  rocsparse_fma := @rocsparse_fma T H
|}.

(** The fused multiply-adds of a dot product over the nonzeros
    [a <= p < b] alone, in the order of the indices, starting from [s]. *)
Definition fma_chain {T : Type} `{Scalar T} (va bv : Z -> T) (a b : Z) (s : T)
  : T :=
  foldl (fun sum p => rocsparse_fma (va p) (bv p) sum) s (seqZ a (b - a)).

(** ** Double precision as element type *)

(** Modelled from the spec: [rocsparse_fma] is declared in [common.h], which
    is not part of the sources at hand; the spec names it a fused
    multiply-add, for [double] the function [fma] of the C library: the
    product is exact and the sum is rounded once, to nearest with ties to
    even. *)
Definition SFfma (x y z : spec_float) : spec_float :=
  match x, y with
  | S754_nan, _ | _, S754_nan => S754_nan
  | S754_infinity _, S754_zero _ | S754_zero _, S754_infinity _ => S754_nan
  | S754_infinity sx, S754_infinity sy
  | S754_infinity sx, S754_finite sy _ _
  | S754_finite sx _ _, S754_infinity sy =>
      SFadd prec emax (S754_infinity (xorb sx sy)) z
  | S754_zero sx, S754_zero sy
  | S754_zero sx, S754_finite sy _ _
  | S754_finite sx _ _, S754_zero sy =>
      SFadd prec emax (S754_zero (xorb sx sy)) z
  | S754_finite sx mx ex, S754_finite sy my ey =>
      match z with
      | S754_zero _ => SFmul prec emax x y
      | _ => SFadd prec emax (S754_finite (xorb sx sy) (mx * my) (ex + ey)) z
      end
  end.

Definition fma_double (a b c : float) : float :=
  SF2Prim (SFfma (Prim2SF a) (Prim2SF b) (Prim2SF c)).

(** The kernels instantiated at [T = double]: IEEE 754 binary64 with its
    rounded sum and product, [==] of the floating-point numbers (so that
    [-0 == 0]), and the conjugation of a real type, the identity. *)
#[export] Instance double_Scalar : Scalar float := {|
  T0 := 0%float;
  T1 := 1%float;
  Tadd := PrimFloat.add;
  Tmul := PrimFloat.mul;
  Teqb := PrimFloat.eqb;
  rocsparse_conj := fun x => x;
  rocsparse_fma := fma_double
|}.

(** A double that is neither an infinity nor a NaN. *)
Definition finite_double (x : float) : bool :=
  match Prim2SF x with
  | S754_nan | S754_infinity _ => false
  | _ => true
  end.

(** The small problem in double precision. *)
Definition ex_val_d : list float := [1; 2; 3]%float.
Definition ex_B_nn_d : list float := [1; 2; 3; 4; 5; 6]%float.
Definition ex_B_nt_d : list float := [1; 4; 2; 5; 3; 6]%float.

(** A stored 3 x 1 matrix of ones, zero-based, and a 3 x 1 matrix B whose
    entries cancel. *)
Definition cancel_row_ptr : list Z := [0; 1; 2; 3].
Definition cancel_col_ind : list Z := [0; 0; 0].
Definition cancel_val : list float := [1; 1; 1]%float.
Definition cancel_B : list float := [1; 1e16; -1e16]%float.

(** A stored 2 x 1 matrix whose first row is empty, zero-based, a 1 x 2
    matrix B of ones, and two 2 x 2 outputs, column-major, with one spare
    element. *)
Definition gap_row_ptr : list Z := [0; 0; 1].
Definition gap_col_ind : list Z := [0].
Definition gap_val : list float := [1]%float.
Definition gap_B : list float := [1; 1]%float.
Definition gap_C : list float := [5; 5; 5; 5; 9]%float.
Definition gap_C_inf : list float := [infinity; 5; infinity; 5; 9]%float.

(** * Proofs *)

(** ** The result monad, loads and stores *)

Lemma bind_Ok {A B : Type} (m : result A) (k : A -> result B) (a : A) :
  m = Ok a -> bind m k = k a.
Proof. intros ->. reflexivity. Qed.

Lemma bind_Ok_inv {A B : Type} (m : result A) (k : A -> result B) (b : B) :
  bind m k = Ok b -> exists a, m = Ok a /\ k a = Ok b.
Proof. destruct m; simpl; intros E; try discriminate. eauto. Qed.

Lemma load_Ok {A : Type} `{Inhabited A} (tag : Z -> fault) (buf : list A) (i : Z) :
  0 <= i < Z.of_nat (length buf) -> load tag buf i = Ok (zat buf i).
Proof.
  intros Hi. unfold load, zat.
  destruct (Z.ltb_spec i 0); [lia|].
  rewrite (list_lookup_lookup_total_lt buf (Z.to_nat i)) by lia.
  reflexivity.
Qed.

Lemma load_Ok_inv {A : Type} (tag : Z -> fault) (buf : list A) (i : Z) (v : A) :
  load tag buf i = Ok v -> 0 <= i < Z.of_nat (length buf) /\ buf !! Z.to_nat i = Some v.
Proof.
  unfold load. destruct (Z.ltb_spec i 0); [discriminate|].
  destruct (buf !! Z.to_nat i) eqn:E; [|discriminate].
  intros [= ->]. apply lookup_lt_Some in E as Hlt. split; [lia|reflexivity].
Qed.

Lemma load_fmap {A B : Type} (f : A -> B) (tag : Z -> fault) (buf : list A) (i : Z) :
  load tag (f <$> buf) i = (v <- load tag buf i ;; Ok (f v)).
Proof.
  unfold load. destruct (i <? 0); [reflexivity|].
  rewrite list_lookup_fmap. destruct (buf !! Z.to_nat i); reflexivity.
Qed.

Lemma store_Ok {A : Type} (tag : Z -> fault) (buf : list A) (i : Z) (v : A) :
  0 <= i < Z.of_nat (length buf) ->
  store tag buf i v = Ok (<[Z.to_nat i := v]> buf).
Proof.
  intros Hi. unfold store.
  destruct (Z.leb_spec 0 i); [|lia].
  destruct (Z.ltb_spec i (Z.of_nat (length buf))); [|lia].
  reflexivity.
Qed.

Lemma zat_seqZ_fmap {A : Type} `{Inhabited A} (f : Z -> A) (n i : Z) :
  0 <= i < n -> zat (f <$> seqZ 0 n) i = f i.
Proof.
  intros Hi. unfold zat.
  rewrite list_lookup_total_alt, list_lookup_fmap, lookup_seqZ_lt by lia.
  simpl. f_equal. lia.
Qed.

Lemma load_seqZ_fmap {A : Type} (tag : Z -> fault) (f : Z -> A) (n i : Z) :
  0 <= i < n -> load tag (f <$> seqZ 0 n) i = Ok (f i).
Proof.
  intros Hi. unfold load. destruct (Z.ltb_spec i 0); [lia|].
  rewrite list_lookup_fmap, lookup_seqZ_lt by lia. simpl.
  do 2 f_equal. lia.
Qed.

Lemma fill_tile_Ok {A : Type} (slot : Z -> result A) (f : Z -> A) (lanes : list Z) :
  (forall l, l ∈ lanes -> slot l = Ok (f l)) ->
  fill_tile slot lanes = Ok (f <$> lanes).
Proof.
  induction lanes as [|l lanes IH]; intros Hs; [reflexivity|].
  simpl. rewrite (Hs l) by left. simpl.
  rewrite IH by (intros; apply Hs; right; assumption). reflexivity.
Qed.

Lemma fill_tile_ext {A : Type} (s1 s2 : Z -> result A) (lanes : list Z) :
  (forall l, l ∈ lanes -> s1 l = s2 l) ->
  fill_tile s1 lanes = fill_tile s2 lanes.
Proof.
  induction lanes as [|l lanes IH]; intros Hs; [reflexivity|].
  simpl. rewrite (Hs l) by left.
  rewrite IH by (intros; apply Hs; right; assumption). reflexivity.
Qed.

(** ** Loops *)

Lemma foldM_app {A S : Type} (body : A -> S -> result S) (l1 l2 : list A) (s : S) :
  foldM body (l1 ++ l2) s = (s' <- foldM body l1 s ;; foldM body l2 s').
Proof.
  revert s. induction l1 as [|x l1 IH]; intros s; [reflexivity|].
  simpl. destruct (body x s); simpl; auto.
Qed.

Lemma foldM_ext {A S : Type} (b1 b2 : A -> S -> result S) (l : list A) (s : S) :
  (forall x s, x ∈ l -> b1 x s = b2 x s) -> foldM b1 l s = foldM b2 l s.
Proof.
  revert s. induction l as [|x l IH]; intros s Hb; [reflexivity|].
  simpl. rewrite (Hb x s) by left.
  destruct (b2 x s); simpl; auto.
  apply IH. intros; apply Hb; right; assumption.
Qed.

Lemma foldM_bind {A B S : Type} (body : B -> S -> result S) (g : A -> list B)
    (l : list A) (s : S) :
  foldM (fun x s => foldM body (g x) s) l s = foldM body (l ≫= g) s.
Proof.
  revert s. induction l as [|x l IH]; intros s; [reflexivity|].
  simpl. rewrite foldM_app.
  destruct (foldM body (g x) s); simpl; auto.
Qed.

Lemma for_loop_false {S : Type} (fuel : nat) (cond : Z -> bool) (step : Z)
    (body : Z -> S -> result S) (x : Z) (s : S) :
  cond x = false -> for_loop fuel cond step body x s = Ok s.
Proof. intros E. destruct fuel; simpl; rewrite E; reflexivity. Qed.

Lemma for_loop_cond_ext {S : Type} (fuel : nat) (c1 c2 : Z -> bool) (step : Z)
    (body : Z -> S -> result S) (x : Z) (s : S) :
  (forall y, c1 y = c2 y) ->
  for_loop fuel c1 step body x s = for_loop fuel c2 step body x s.
Proof.
  intros Hc. revert x s. induction fuel as [|fuel IH]; intros x s; simpl;
    rewrite Hc; [reflexivity|].
  destruct (c2 x); [|reflexivity].
  destruct (body x s); simpl; auto.
Qed.

Lemma stride_nil (a b s : Z) : 0 < s -> b <= a -> stride a b s = [].
Proof.
  intros Hs Hba. unfold stride.
  assert ((b - a + s - 1) `div` s <= 0) as Hq.
  { destruct (Z.le_gt_cases 0 (b - a + s - 1)) as [Hn|Hn].
    - rewrite Z.div_small by lia. lia.
    - pose proof (Z.div_lt_upper_bound (b - a + s - 1) s 0 Hs). lia. }
  replace (Z.to_nat _) with O by lia. reflexivity.
Qed.

Lemma stride_cons (a b s : Z) :
  0 < s -> a < b -> stride a b s = a :: stride (a + s) b s.
Proof.
  intros Hs Hab. unfold stride.
  replace (b - a + s - 1) with ((b - a - 1) + 1 * s) by lia.
  rewrite Z.div_add by lia.
  replace (b - (a + s) + s - 1) with (b - a - 1) by lia.
  pose proof (Z.div_pos (b - a - 1) s ltac:(lia) Hs).
  replace (Z.to_nat ((b - a - 1) `div` s + 1))
    with (Datatypes.S (Z.to_nat ((b - a - 1) `div` s))) by lia.
  reflexivity.
Qed.

Lemma stride_unit (a b : Z) : stride a b 1 = seqZ a (b - a).
Proof.
  destruct (Z.le_gt_cases b a) as [Hba|Hab].
  { rewrite stride_nil, seqZ_nil by lia. reflexivity. }
  remember (Z.to_nat (b - a)) as n eqn:En.
  revert a Hab En. induction n as [|n IH]; intros a Hab En; [lia|].
  rewrite stride_cons by lia. rewrite seqZ_cons by lia.
  f_equal. destruct (Z.le_gt_cases b (a + 1)) as [Hb|Hb].
  - rewrite stride_nil, seqZ_nil by lia. reflexivity.
  - rewrite IH by lia. f_equal; lia.
Qed.

Lemma for_loop_stride {S : Type} (fuel : nat) (b s : Z)
    (body : Z -> S -> result S) (a : Z) (st : S) :
  0 < s -> (Z.to_nat (b - a) <= fuel)%nat ->
  for_loop fuel (fun x => x <? b) s body a st = foldM body (stride a b s) st.
Proof.
  intros Hs. revert a st. induction fuel as [|fuel IH]; intros a st Hf.
  - simpl. destruct (Z.ltb_spec a b); [lia|].
    rewrite stride_nil by lia. reflexivity.
  - simpl. destruct (Z.ltb_spec a b).
    + rewrite stride_cons by lia. simpl.
      destruct (body a st); simpl; auto. apply IH. lia.
    + rewrite stride_nil by lia. reflexivity.
Qed.

Lemma elem_of_stride (a b s x : Z) :
  0 < s -> x ∈ stride a b s <-> exists n, 0 <= n /\ x = a + n * s /\ x < b.
Proof.
  intros Hs.
  destruct (Z.le_gt_cases b a) as [Hba|Hab].
  { rewrite stride_nil by lia. split.
    - intros Hx. inversion Hx.
    - intros (n & Hn & -> & Hlt). exfalso. nia. }
  remember (Z.to_nat (b - a)) as m eqn:Em.
  revert a Hab Em. induction (lt_wf m) as [m _ IH]. intros a Hab Em.
  rewrite stride_cons by lia. rewrite elem_of_cons.
  destruct (Z.le_gt_cases b (a + s)) as [Hb|Hb].
  - rewrite stride_nil by lia. split.
    + intros [->|Hx]; [exists 0; lia|inversion Hx].
    + intros (n & Hn & -> & Hlt). left.
      destruct (Z.eq_dec n 0) as [->|Hne]; [lia|].
      assert (s <= n * s) by nia. lia.
  - rewrite (IH (Z.to_nat (b - (a + s)))) by lia. split.
    + intros [->|(n & Hn & -> & Hlt)]; [exists 0; lia|exists (n + 1); lia].
    + intros (n & Hn & -> & Hlt).
      destruct (Z.eq_dec n 0) as [->|Hne]; [left; lia|].
      right. exists (n - 1). lia.
Qed.

Lemma NoDup_stride (a b s : Z) : 0 < s -> NoDup (stride a b s).
Proof.
  intros Hs.
  destruct (Z.le_gt_cases b a) as [Hba|Hab].
  { rewrite stride_nil by lia. constructor. }
  remember (Z.to_nat (b - a)) as m eqn:Em.
  revert a Hab Em. induction (lt_wf m) as [m _ IH]. intros a Hab Em.
  rewrite stride_cons by lia. constructor.
  - rewrite elem_of_stride by lia. intros (n & Hn & Hx & _). nia.
  - destruct (Z.le_gt_cases b (a + s)) as [Hb|Hb].
    + rewrite stride_nil by lia. constructor.
    + apply (IH (Z.to_nat (b - (a + s)))); lia.
Qed.

(** Two loops whose bodies agree wherever the loop variable can be. *)
Lemma for_loop_ext {S : Type} (I : Z -> Prop) (fuel : nat) (cond : Z -> bool)
    (step : Z) (b1 b2 : Z -> S -> result S) (x : Z) (s : S) :
  I x ->
  (forall y, I y -> cond y = true -> I (y + step)) ->
  (forall y s, I y -> cond y = true -> b1 y s = b2 y s) ->
  for_loop fuel cond step b1 x s = for_loop fuel cond step b2 x s.
Proof.
  intros Hx Hstep Hb. revert x s Hx.
  induction fuel as [|fuel IH]; intros x s Hx; simpl; [reflexivity|].
  destruct (cond x) eqn:Ec; [|reflexivity].
  rewrite (Hb x s Hx Ec). destruct (b2 x s); simpl; auto.
Qed.

Lemma for_loop_same_outcome {S1 S2 : Type} (fuel : nat) (cond : Z -> bool)
    (step : Z) (b1 : Z -> S1 -> result S1) (b2 : Z -> S2 -> result S2)
    (x : Z) (s1 : S1) (s2 : S2) :
  (forall y s1 s2, cond y = true -> same_outcome (b1 y s1) (b2 y s2)) ->
  same_outcome (for_loop fuel cond step b1 x s1) (for_loop fuel cond step b2 x s2).
Proof.
  intros Hb. revert x s1 s2.
  induction fuel as [|fuel IH]; intros x s1 s2; simpl.
  - destruct (cond x); exact I.
  - destruct (cond x) eqn:Ec; [|exact I].
    specialize (Hb x s1 s2 Ec).
    destruct (b1 x s1), (b2 x s2); simpl in *; auto; contradiction.
Qed.

(** A loop whose body appends work items. *)
Lemma foldM_items {A B : Type} (body : A -> list B -> result (list B))
    (F : A -> list B) (l : list A) (acc : list B) :
  (forall x acc, x ∈ l -> body x acc = Ok (acc ++ F x)) ->
  foldM body l acc = Ok (acc ++ (l ≫= F)).
Proof.
  revert acc. induction l as [|x l IH]; intros acc Hb.
  - simpl. rewrite app_nil_r. reflexivity.
  - simpl. rewrite (Hb x acc) by left. simpl.
    rewrite IH by (intros; apply Hb; right; assumption).
    rewrite <- app_assoc. reflexivity.
Qed.

(** ** Thread coordinates *)

Lemma land_pow2 (x : Z) (w : nat) :
  Z.land x (2 ^ Z.of_nat w - 1) = x `mod` 2 ^ Z.of_nat w.
Proof.
  rewrite <- Z.land_ones by lia. rewrite Z.ones_equiv. reflexivity.
Qed.

Lemma pow2_pos (w : nat) : 0 < 2 ^ Z.of_nat w.
Proof. apply Z.pow_pos_nonneg; lia. Qed.

Lemma quot_nonneg (a b : Z) : 0 <= a -> 0 < b -> a ÷ b = a `div` b.
Proof. intros. apply Z.quot_div_nonneg; lia. Qed.

Lemma div_mod_unique (d q1 r1 q2 r2 : Z) :
  0 <= r1 < d -> 0 <= r2 < d -> q1 * d + r1 = q2 * d + r2 -> q1 = q2 /\ r1 = r2.
Proof.
  intros H1 H2 E. apply (Z.div_mod_unique d q1 q2 r1 r2); [left; lia|left; lia|lia].
Qed.

Section Coordinates.
Variables (BLOCKSIZE WF_SIZE : Z) (w nw : nat).
Hypothesis Hcfg : config_ok BLOCKSIZE WF_SIZE w nw.

Lemma WF_pos : 0 < WF_SIZE.
Proof. pose proof Hcfg as (E & _ & _). rewrite E. apply pow2_pos. Qed.

Lemma BS_pos : 0 < BLOCKSIZE.
Proof. pose proof WF_pos. pose proof Hcfg as (_ & ? & E). rewrite E. nia. Qed.

Lemma gid_nonneg (t : thread) : 0 <= gid_of BLOCKSIZE t.
Proof. pose proof BS_pos. unfold gid_of. nia. Qed.

Lemma lid_eq (x : Z) : Z.land x (WF_SIZE - 1) = x `mod` WF_SIZE.
Proof. pose proof Hcfg as (E & _ & _). rewrite E. apply land_pow2. Qed.

Lemma lid_range (x : Z) : 0 <= Z.land x (WF_SIZE - 1) < WF_SIZE.
Proof. rewrite lid_eq. apply Z.mod_pos_bound, WF_pos. Qed.

Lemma nwf_eq (gx : nat) :
  (Z.of_nat gx * BLOCKSIZE) ÷ WF_SIZE = Z.of_nat gx * Z.of_nat nw.
Proof.
  pose proof WF_pos. pose proof Hcfg as (_ & ? & E). rewrite E.
  rewrite quot_nonneg by nia.
  rewrite Z.mul_assoc, Z.div_mul by lia. reflexivity.
Qed.

Lemma tid_lid (t : thread) :
  Z.land (Z.of_nat (hipThreadIdx_x t)) (WF_SIZE - 1)
  = Z.land (gid_of BLOCKSIZE t) (WF_SIZE - 1).
Proof.
  rewrite !lid_eq. unfold gid_of. pose proof Hcfg as (_ & _ & E). rewrite E.
  rewrite Z.mul_assoc, Z.add_comm, Z.mod_add by (pose proof WF_pos; lia).
  reflexivity.
Qed.

Lemma gid_split (t : thread) :
  gid_of BLOCKSIZE t = (gid_of BLOCKSIZE t ÷ WF_SIZE) * WF_SIZE + Z.land (gid_of BLOCKSIZE t) (WF_SIZE - 1).
Proof.
  pose proof WF_pos. pose proof (gid_nonneg t).
  rewrite quot_nonneg, lid_eq by lia.
  pose proof (Z.div_mod (gid_of BLOCKSIZE t) WF_SIZE ltac:(lia)). lia.
Qed.

Lemma row0_nonneg (t : thread) : 0 <= gid_of BLOCKSIZE t ÷ WF_SIZE.
Proof.
  pose proof WF_pos. pose proof (gid_nonneg t).
  rewrite quot_nonneg by lia. apply Z.div_pos; lia.
Qed.

(** A thread of the launch sits in one of the [gx * nw] subgroups. *)
Lemma row0_lt (gx : nat) (t : thread) :
  (hipBlockIdx_x t < gx)%nat -> Z.of_nat (hipThreadIdx_x t) < BLOCKSIZE ->
  gid_of BLOCKSIZE t ÷ WF_SIZE < Z.of_nat gx * Z.of_nat nw.
Proof.
  intros Hbx Htid. pose proof WF_pos. pose proof (gid_nonneg t).
  rewrite quot_nonneg by lia. apply Z.div_lt_upper_bound; [lia|].
  unfold gid_of in *. pose proof Hcfg as (_ & ? & E). rewrite E in *. nia.
Qed.

(** The global index determines the block and the thread in it. *)
Lemma gid_inj (t1 t2 : thread) :
  Z.of_nat (hipThreadIdx_x t1) < BLOCKSIZE ->
  Z.of_nat (hipThreadIdx_x t2) < BLOCKSIZE ->
  gid_of BLOCKSIZE t1 = gid_of BLOCKSIZE t2 ->
  hipBlockIdx_x t1 = hipBlockIdx_x t2 /\ hipThreadIdx_x t1 = hipThreadIdx_x t2.
Proof.
  intros H1 H2 E. unfold gid_of in E.
  apply div_mod_unique in E; lia.
Qed.

(** A subgroup index and a lane determine the global index. *)
Lemma gid_of_parts (t1 t2 : thread) :
  gid_of BLOCKSIZE t1 ÷ WF_SIZE = gid_of BLOCKSIZE t2 ÷ WF_SIZE ->
  Z.land (gid_of BLOCKSIZE t1) (WF_SIZE - 1) = Z.land (gid_of BLOCKSIZE t2) (WF_SIZE - 1) ->
  gid_of BLOCKSIZE t1 = gid_of BLOCKSIZE t2.
Proof.
  intros E1 E2. rewrite (gid_split t1), (gid_split t2), E1, E2. reflexivity.
Qed.

End Coordinates.

(** The threads of a launch. *)
Lemma elem_of_grid_threads (L : launch) (t : thread) :
  t ∈ grid_threads L <->
  (hipBlockIdx_x t < hipGridDim_x L)%nat /\ (hipBlockIdx_y t < hipGridDim_y L)%nat
  /\ (hipThreadIdx_x t < hipBlockDim_x L)%nat
  /\ (hipThreadIdx_y t < hipBlockDim_y L)%nat.
Proof.
  unfold grid_threads. split.
  - intros Ht.
    apply list_elem_of_bind in Ht as (bx & Ht & Hbx%elem_of_seq).
    apply list_elem_of_bind in Ht as (by_ & Ht & Hby%elem_of_seq).
    apply list_elem_of_bind in Ht as (tx & Ht & Htx%elem_of_seq).
    apply list_elem_of_bind in Ht as (ty & Ht & Hty%elem_of_seq).
    apply list_elem_of_singleton in Ht as ->. simpl. lia.
  - intros (Hbx & Hby & Htx & Hty). destruct t as [bx by_ tx ty]; simpl in *.
    apply list_elem_of_bind. exists bx. split; [|apply elem_of_seq; lia].
    apply list_elem_of_bind. exists by_. split; [|apply elem_of_seq; lia].
    apply list_elem_of_bind. exists tx. split; [|apply elem_of_seq; lia].
    apply list_elem_of_bind. exists ty. split; [|apply elem_of_seq; lia].
    apply list_elem_of_singleton. reflexivity.
Qed.

Lemma NoDup_grid_threads (L : launch) : NoDup (grid_threads L).
Proof.
  unfold grid_threads.
  apply NoDup_bind; [| |apply NoDup_seq].
  { intros bx1 bx2 t _ _ H1 H2.
    apply list_elem_of_bind in H1 as (? & H1 & _).
    apply list_elem_of_bind in H1 as (? & H1 & _).
    apply list_elem_of_bind in H1 as (? & H1 & _).
    apply list_elem_of_singleton in H1.
    apply list_elem_of_bind in H2 as (? & H2 & _).
    apply list_elem_of_bind in H2 as (? & H2 & _).
    apply list_elem_of_bind in H2 as (? & H2 & _).
    apply list_elem_of_singleton in H2. congruence. }
  intros bx _. apply NoDup_bind; [| |apply NoDup_seq].
  { intros y1 y2 t _ _ H1 H2.
    apply list_elem_of_bind in H1 as (? & H1 & _).
    apply list_elem_of_bind in H1 as (? & H1 & _).
    apply list_elem_of_singleton in H1.
    apply list_elem_of_bind in H2 as (? & H2 & _).
    apply list_elem_of_bind in H2 as (? & H2 & _).
    apply list_elem_of_singleton in H2. congruence. }
  intros by_ _. apply NoDup_bind; [| |apply NoDup_seq].
  { intros x1 x2 t _ _ H1 H2.
    apply list_elem_of_bind in H1 as (? & H1 & _).
    apply list_elem_of_singleton in H1.
    apply list_elem_of_bind in H2 as (? & H2 & _).
    apply list_elem_of_singleton in H2. congruence. }
  intros tx _. apply NoDup_bind; [| |apply NoDup_seq].
  { intros z1 z2 t _ _ H1 H2.
    apply list_elem_of_singleton in H1.
    apply list_elem_of_singleton in H2. congruence. }
  intros ty _. apply NoDup_singleton.
Qed.

(** ** Finite sums in a commutative semiring *)

Section Sums.
Context {T : Type} `{ScalarLaws T}.

Add Ring T_semiring_sums : scalar_sr.

Lemma fma_eq (a b c : T) : rocsparse_fma a b c = Tadd (Tmul a b) c.
Proof. apply fma_spec. Qed.

Lemma sumL_app {A : Type} (f : A -> T) (l1 l2 : list A) :
  sumL f (l1 ++ l2) = Tadd (sumL f l1) (sumL f l2).
Proof.
  unfold sumL. induction l1 as [|x l1 IH]; simpl; [ring|]. rewrite IH. ring.
Qed.

Lemma sumL_ext {A : Type} (f g : A -> T) (l : list A) :
  (forall x, x ∈ l -> f x = g x) -> sumL f l = sumL g l.
Proof.
  unfold sumL. induction l as [|x l IH]; intros E; simpl; [reflexivity|].
  rewrite (E x) by left. rewrite IH by (intros; apply E; right; assumption).
  reflexivity.
Qed.

Lemma sumL_perm {A : Type} (f : A -> T) (l1 l2 : list A) :
  l1 ≡ₚ l2 -> sumL f l1 = sumL f l2.
Proof.
  unfold sumL. induction 1 as [|x l1 l2 _ IH|x y l|l1 l2 l3 _ IH1 _ IH2]; simpl.
  - reflexivity.
  - rewrite IH. reflexivity.
  - ring.
  - congruence.
Qed.

Lemma sumL_bind {A B : Type} (f : B -> T) (g : A -> list B) (l : list A) :
  sumL f (l ≫= g) = sumL (fun x => sumL f (g x)) l.
Proof.
  induction l as [|x l IH]; [reflexivity|].
  change ((x :: l) ≫= g) with (g x ++ (l ≫= g)).
  rewrite sumL_app, IH. reflexivity.
Qed.

Lemma sumL_fmap {A B : Type} (f : B -> T) (g : A -> B) (l : list A) :
  sumL f (g <$> l) = sumL (fun x => f (g x)) l.
Proof.
  unfold sumL. induction l as [|x l IH]; simpl; [reflexivity|].
  f_equal. exact IH.
Qed.

Lemma sumL_zero {A : Type} (l : list A) : sumL (fun _ => T0) l = T0.
Proof. unfold sumL. induction l as [|x l IH]; simpl; [reflexivity|]. rewrite IH. ring. Qed.

Lemma sumL_mul_l {A : Type} (c : T) (f : A -> T) (l : list A) :
  Tmul c (sumL f l) = sumL (fun x => Tmul c (f x)) l.
Proof.
  unfold sumL. induction l as [|x l IH]; simpl; [ring|]. rewrite <- IH. ring.
Qed.

Lemma sumL_mul_r {A : Type} (c : T) (f : A -> T) (l : list A) :
  Tmul (sumL f l) c = sumL (fun x => Tmul (f x) c) l.
Proof.
  unfold sumL. induction l as [|x l IH]; simpl; [ring|]. rewrite <- IH. ring.
Qed.

Lemma sumL_add {A : Type} (f g : A -> T) (l : list A) :
  sumL (fun x => Tadd (f x) (g x)) l = Tadd (sumL f l) (sumL g l).
Proof.
  unfold sumL. induction l as [|x l IH]; simpl; [ring|]. rewrite IH. ring.
Qed.

Lemma sumL_swap {A B : Type} (f : A -> B -> T) (l1 : list A) (l2 : list B) :
  sumL (fun x => sumL (fun y => f x y) l2) l1
  = sumL (fun y => sumL (fun x => f x y) l1) l2.
Proof.
  induction l1 as [|x l1 IH].
  - symmetry. apply sumL_zero.
  - change (sumL (fun x0 => sumL (fun y => f x0 y) l2) (x :: l1))
      with (Tadd (sumL (fun y => f x y) l2)
                 (sumL (fun x0 => sumL (fun y => f x0 y) l2) l1)).
    rewrite IH, <- sumL_add. reflexivity.
Qed.

(** A sum with a single non-zero term. *)
Lemma sumL_delta_out (g : Z -> T) (c : Z) (l : list Z) :
  c ∉ l -> sumL (fun k => if c =? k then g k else T0) l = T0.
Proof.
  intros Hc. transitivity (sumL (fun _ : Z => T0) l); [|apply sumL_zero].
  apply sumL_ext.
  intros k Hk. destruct (Z.eqb_spec c k) as [->|]; [contradiction|reflexivity].
Qed.

Lemma sumL_delta_in (g : Z -> T) (c : Z) (l : list Z) :
  NoDup l -> c ∈ l -> sumL (fun k => if c =? k then g k else T0) l = g c.
Proof.
  induction 1 as [|x l Hx Hnd IH]; intros Hc; [inversion Hc|].
  change (Tadd (if c =? x then g x else T0)
               (sumL (fun k => if c =? k then g k else T0) l) = g c).
  apply elem_of_cons in Hc as [->|Hc].
  - rewrite Z.eqb_refl, sumL_delta_out by assumption. ring.
  - destruct (Z.eqb_spec c x) as [->|]; [contradiction|].
    rewrite IH by assumption. ring.
Qed.

Lemma sumZ_empty (f : Z -> T) (a b : Z) : b <= a -> sumZ f a b = T0.
Proof. intros. unfold sumZ. rewrite seqZ_nil by lia. reflexivity. Qed.

Lemma sumZ_split (f : Z -> T) (a m b : Z) :
  a <= m <= b -> sumZ f a b = Tadd (sumZ f a m) (sumZ f m b).
Proof.
  intros Hm. unfold sumZ.
  replace (b - a) with ((m - a) + (b - m)) by lia.
  rewrite seqZ_app, sumL_app by lia.
  replace (a + (m - a)) with m by lia. reflexivity.
Qed.

Lemma sumZ_first (f : Z -> T) (a b : Z) :
  a < b -> sumZ f a b = Tadd (f a) (sumZ f (a + 1) b).
Proof.
  intros Hab. unfold sumZ. rewrite seqZ_cons by lia.
  replace (Z.pred (b - a)) with (b - (a + 1)) by lia. reflexivity.
Qed.

Lemma sumZ_ext (f g : Z -> T) (a b : Z) :
  (forall p, a <= p < b -> f p = g p) -> sumZ f a b = sumZ g a b.
Proof.
  intros E. apply sumL_ext. intros p Hp%elem_of_seqZ. apply E. lia.
Qed.

(** A left fold of fused multiply-adds is a sum. *)
Lemma foldl_fma_sum {A : Type} (u v : A -> T) (l : list A) (s : T) :
  foldl (fun s x => rocsparse_fma (u x) (v x) s) s l
  = Tadd s (sumL (fun x => Tmul (u x) (v x)) l).
Proof.
  revert s. induction l as [|x l IH]; intros s; simpl.
  - unfold sumL. simpl. ring.
  - rewrite IH, fma_eq.
    change (sumL (fun x0 => Tmul (u x0) (v x0)) (x :: l))
      with (Tadd (Tmul (u x) (v x)) (sumL (fun x0 => Tmul (u x0) (v x0)) l)).
    ring.
Qed.

(** A slot beyond the end of the row adds nothing. *)
Lemma pad_adds_zero (pad s : T) : rocsparse_fma T0 pad s = s.
Proof. rewrite fma_eq. ring. Qed.

(** One tile adds the products of the nonzeros it holds. *)
Lemma tile_dot_sum (WF_SIZE : Z) (va bv : Z -> T) (pad : T) (row_end j : Z) (s : T) :
  0 <= WF_SIZE -> j <= row_end ->
  tile_dot WF_SIZE va bv pad row_end j s
  = Tadd s (sumZ (fun p => Tmul (va p) (bv p)) j (Z.min (j + WF_SIZE) row_end)).
Proof.
  intros Hw Hj. unfold tile_dot.
  rewrite <- (Z2Nat.id WF_SIZE) by lia.
  generalize (Z.to_nat WF_SIZE) as n. clear Hw. intros n.
  induction n as [|n IH].
  - simpl. rewrite sumZ_empty by lia. ring.
  - rewrite seqZ_S, foldl_app, IH. simpl. rewrite Z.add_0_l.
    destruct (Z.ltb_spec (j + Z.of_nat n) row_end) as [Hlt|Hge].
    + rewrite (sumZ_split _ j (j + Z.of_nat n) (Z.min (j + Z.of_nat (Datatypes.S n)) row_end)) by lia.
      replace (Z.min (j + Z.of_nat n) row_end) with (j + Z.of_nat n) by lia.
      replace (Z.min (j + Z.of_nat (Datatypes.S n)) row_end) with (j + Z.of_nat n + 1) by lia.
      rewrite (sumZ_first _ (j + Z.of_nat n)) by lia.
      rewrite (sumZ_empty _ (j + Z.of_nat n + 1)) by lia.
      rewrite fma_eq. ring.
    + replace (Z.min (j + Z.of_nat (Datatypes.S n)) row_end) with row_end by lia.
      replace (Z.min (j + Z.of_nat n) row_end) with row_end by lia.
      apply pad_adds_zero.
Qed.

(** The tiled accumulation is the dot product over the nonzeros of the row. *)
Lemma dot_tiled_sum (WF_SIZE : Z) (va bv : Z -> T) (pad : T) (row_start row_end : Z) :
  0 < WF_SIZE ->
  dot_tiled WF_SIZE va bv pad row_start row_end
  = sumZ (fun p => Tmul (va p) (bv p)) row_start row_end.
Proof.
  intros Hw. unfold dot_tiled.
  enough (forall s, foldl (fun sum j => tile_dot WF_SIZE va bv pad row_end j sum) s
                      (stride row_start row_end WF_SIZE)
                    = Tadd s (sumZ (fun p => Tmul (va p) (bv p)) row_start row_end)) as E.
  { rewrite E. ring. }
  destruct (Z.le_gt_cases row_end row_start) as [Hle|Hlt].
  { intros s. rewrite stride_nil, sumZ_empty by lia. simpl. ring. }
  remember (Z.to_nat (row_end - row_start)) as m eqn:Em.
  revert row_start Hlt Em. induction (lt_wf m) as [m _ IH]. intros j Hlt Em s.
  rewrite stride_cons by lia. simpl.
  rewrite tile_dot_sum by lia.
  destruct (Z.le_gt_cases row_end (j + WF_SIZE)) as [Hb|Hb].
  - rewrite stride_nil by lia. simpl.
    replace (Z.min (j + WF_SIZE) row_end) with row_end by lia. reflexivity.
  - rewrite (IH (Z.to_nat (row_end - (j + WF_SIZE)))) by lia.
    replace (Z.min (j + WF_SIZE) row_end) with (j + WF_SIZE) by lia.
    rewrite (sumZ_split _ j (j + WF_SIZE) row_end) by lia. ring.
Qed.

End Sums.

(** ** The accumulation of the row-parallel kernels *)

Lemma foldM_pure {A S : Type} (body : A -> S -> result S) (g : S -> A -> S)
    (l : list A) (s : S) :
  (forall x s, x ∈ l -> body x s = Ok (g s x)) ->
  foldM body l s = Ok (foldl g s l).
Proof.
  revert s. induction l as [|x l IH]; intros s Hb; [reflexivity|].
  simpl. rewrite (Hb x s) by left. simpl.
  apply IH. intros; apply Hb; right; assumption.
Qed.

Lemma foldl_ext_in {A S : Type} (g1 g2 : S -> A -> S) (l : list A) (s : S) :
  (forall x s, x ∈ l -> g1 s x = g2 s x) -> foldl g1 s l = foldl g2 s l.
Proof.
  revert s. induction l as [|x l IH]; intros s E; [reflexivity|].
  simpl. rewrite (E x s) by left. apply IH. intros; apply E; right; assumption.
Qed.

Lemma elem_of_stride_range (a b s x : Z) :
  0 < s -> x ∈ stride a b s -> a <= x < b.
Proof.
  intros Hs (n & Hn & -> & Hlt)%elem_of_stride; [|assumption]. nia.
Qed.

Section RowSums.
Context {T : Type} `{Scalar T}.
Variable WF_SIZE : Z.
Hypothesis HWF : 0 < WF_SIZE.

Variables (trans_A trans_B : rocsparse_operation).
Variables (csr_col_ind : list Z) (csr_val B : list T).
Variable idx_base : rocsparse_index_base.
Variables row_start row_end : Z.
Hypothesis Hrs : 0 <= row_start.
Hypothesis Hci : row_end <= Z.of_nat (length csr_col_ind).
Hypothesis Hval : row_end <= Z.of_nat (length csr_val).

Lemma fill_val_tile (j : Z) :
  row_start <= j ->
  fill_tile (fill_val_slot trans_A csr_val row_end j) (seqZ 0 WF_SIZE)
  = Ok ((fun l => if j + l <? row_end
                  then op_conj trans_A (zat csr_val (j + l)) else T0)
          <$> seqZ 0 WF_SIZE).
Proof.
  intros Hj. apply fill_tile_Ok. intros l Hl%elem_of_seqZ.
  unfold fill_val_slot.
  destruct (Z.ltb_spec (j + l) row_end).
  - destruct trans_A; simpl; rewrite load_Ok by lia; reflexivity.
  - destruct trans_A; reflexivity.
Qed.

Lemma nn_fill_col_tile (j : Z) :
  row_start <= j ->
  fill_tile (nn_fill_col_slot idx_base csr_col_ind row_end j) (seqZ 0 WF_SIZE)
  = Ok ((fun l => if j + l <? row_end
                  then zat csr_col_ind (j + l) - base_val idx_base else 0)
          <$> seqZ 0 WF_SIZE).
Proof.
  intros Hj. apply fill_tile_Ok. intros l Hl%elem_of_seqZ.
  unfold nn_fill_col_slot.
  destruct (Z.ltb_spec (j + l) row_end); [|reflexivity].
  rewrite load_Ok by lia. reflexivity.
Qed.

Lemma nt_fill_col_tile (ldb j : Z) :
  row_start <= j ->
  fill_tile (nt_fill_col_slot idx_base csr_col_ind ldb row_end j) (seqZ 0 WF_SIZE)
  = Ok ((fun l => if j + l <? row_end
                  then ldb * (zat csr_col_ind (j + l) - base_val idx_base) else 0)
          <$> seqZ 0 WF_SIZE).
Proof.
  intros Hj. apply fill_tile_Ok. intros l Hl%elem_of_seqZ.
  unfold nt_fill_col_slot.
  destruct (Z.ltb_spec (j + l) row_end); [|reflexivity].
  rewrite load_Ok by lia. reflexivity.
Qed.

(** Kernel nn, a lane that owns a column: every load of B is in range, also
    the loads of the slots beyond the end of the row. *)
Lemma csrmmnn_row_sum_Ok (N col colB : Z) :
  col < N ->
  (forall p, row_start <= p < row_end ->
     0 <= zat csr_col_ind p - base_val idx_base + colB < Z.of_nat (length B)) ->
  (row_start < row_end -> 0 <= 0 + colB < Z.of_nat (length B)) ->
  csrmmnn_row_sum WF_SIZE trans_A trans_B N csr_col_ind csr_val B idx_base
    row_start row_end col colB
  = Ok (dot_tiled WF_SIZE
          (fun p => op_conj trans_A (zat csr_val p))
          (fun p => op_conj trans_B
                      (zat B (zat csr_col_ind p - base_val idx_base + colB)))
          (op_conj trans_B (zat B (0 + colB)))
          row_start row_end).
Proof.
  intros Hcol HB Hpad. unfold csrmmnn_row_sum, dot_tiled.
  rewrite for_loop_stride by lia.
  apply foldM_pure. intros j sum Hj%elem_of_stride_range; [|assumption].
  rewrite nn_fill_col_tile, fill_val_tile by lia. simpl.
  rewrite (for_loop_cond_ext _ _ (fun i => i <? WF_SIZE))
    by (intros y; destruct (Z.ltb_spec col N); [apply andb_true_r|lia]).
  rewrite for_loop_stride, stride_unit, Z.sub_0_r by lia.
  unfold tile_dot. apply foldM_pure. intros i s Hi%elem_of_seqZ.
  rewrite !load_seqZ_fmap by lia. simpl.
  destruct (Z.ltb_spec (j + i) row_end).
  - rewrite load_Ok by (apply HB; lia). simpl.
    destruct trans_B; reflexivity.
  - rewrite load_Ok by (apply Hpad; lia). simpl.
    destruct trans_B; reflexivity.
Qed.

(** Kernel nn, a lane beyond the last column: it loads the tiles and reads
    nothing of B. *)
Lemma csrmmnn_row_sum_skip (N col colB : Z) :
  N <= col ->
  csrmmnn_row_sum WF_SIZE trans_A trans_B N csr_col_ind csr_val B idx_base
    row_start row_end col colB = Ok T0.
Proof.
  intros Hcol. unfold csrmmnn_row_sum.
  rewrite for_loop_stride by lia.
  rewrite (foldM_pure _ (fun s _ => s)).
  - f_equal. generalize (stride row_start row_end WF_SIZE).
    intros l. induction l; simpl; auto.
  - intros j sum Hj%elem_of_stride_range; [|assumption].
    rewrite nn_fill_col_tile, fill_val_tile by lia. simpl.
    apply for_loop_false. destruct (Z.ltb_spec col N); [lia|apply andb_false_r].
Qed.

(** Kernel nt, a lane that owns a column. *)
Lemma csrmmnt_row_sum_Ok (ncol ldb col : Z) :
  col < ncol ->
  (forall p, row_start <= p < row_end ->
     0 <= col + ldb * (zat csr_col_ind p - base_val idx_base)
       < Z.of_nat (length B)) ->
  (row_start < row_end -> 0 <= col + 0 < Z.of_nat (length B)) ->
  csrmmnt_row_sum WF_SIZE trans_A trans_B ncol csr_col_ind csr_val B ldb idx_base
    row_start row_end col
  = Ok (dot_tiled WF_SIZE
          (fun p => op_conj trans_A (zat csr_val p))
          (fun p => op_conj trans_B
                      (zat B (col + ldb * (zat csr_col_ind p - base_val idx_base))))
          (op_conj trans_B (zat B (col + 0)))
          row_start row_end).
Proof.
  intros Hcol HB Hpad. unfold csrmmnt_row_sum, dot_tiled.
  rewrite for_loop_stride by lia.
  apply foldM_pure. intros j sum Hj%elem_of_stride_range; [|assumption].
  rewrite nt_fill_col_tile, fill_val_tile by lia. simpl.
  rewrite for_loop_stride, stride_unit, Z.sub_0_r by lia.
  unfold tile_dot. apply foldM_pure. intros i s Hi%elem_of_seqZ.
  rewrite !load_seqZ_fmap by lia. simpl.
  destruct (Z.ltb_spec col ncol); [|lia].
  destruct (Z.ltb_spec (j + i) row_end).
  - rewrite load_Ok by (apply HB; lia). simpl.
    destruct trans_B; reflexivity.
  - rewrite load_Ok by (apply Hpad; lia). simpl.
    destruct trans_B; reflexivity.
Qed.

(** Kernel nt, a lane beyond the last column: it reads nothing of B. *)
Lemma csrmmnt_row_sum_skip (ncol ldb col : Z) :
  ncol <= col ->
  exists s,
    csrmmnt_row_sum WF_SIZE trans_A trans_B ncol csr_col_ind csr_val B ldb idx_base
      row_start row_end col = Ok s.
Proof.
  intros Hcol. unfold csrmmnt_row_sum.
  rewrite for_loop_stride by lia.
  eexists. apply foldM_pure.
  intros j sum Hj%elem_of_stride_range; [|assumption].
  rewrite nt_fill_col_tile, fill_val_tile by lia. simpl.
  rewrite for_loop_stride, stride_unit, Z.sub_0_r by lia.
  apply (foldM_pure _ (fun s i =>
           rocsparse_fma (if j + i <? row_end
                          then op_conj trans_A (zat csr_val (j + i)) else T0)
                         (op_conj trans_B T0) s)).
  intros i s Hi%elem_of_seqZ.
  rewrite !load_seqZ_fmap by lia. simpl.
  destruct (Z.ltb_spec col ncol); [lia|]. simpl.
  destruct trans_B; reflexivity.
Qed.

End RowSums.

(** ** Steps with disjoint footprints *)

Section Updates.
Context {T : Type} `{Inhabited T}.
Variables (len : nat) (addr : Z * Z -> Z) (g : Z * Z -> T -> T).

Lemma updates_nil : updates len addr g [] (fun C => Ok C).
Proof.
  intros C HC. exists C. repeat split; auto.
  intros c Hc. inversion Hc.
Qed.

Lemma updates_equiv (W1 W2 : list (Z * Z)) (f : list T -> result (list T)) :
  (forall c, c ∈ W1 <-> c ∈ W2) -> updates len addr g W1 f -> updates len addr g W2 f.
Proof.
  intros E U C HC. destruct (U C HC) as (C' & E1 & E2 & E3 & E4).
  exists C'. repeat split; auto.
  - intros c Hc. apply E3, E. assumption.
  - intros a Ha. apply E4. intros c Hc. apply Ha, E. assumption.
Qed.

Lemma updates_ext (W : list (Z * Z)) (f1 f2 : list T -> result (list T)) :
  (forall C, f1 C = f2 C) -> updates len addr g W f1 -> updates len addr g W f2.
Proof.
  intros E U C HC. destruct (U C HC) as (C' & E1 & E2).
  exists C'. rewrite <- E. split; assumption.
Qed.

(** Steps over cells at pairwise distinct, non-negative positions compose. *)
Lemma updates_foldM {A : Type} (body : A -> list T -> result (list T))
    (W : A -> list (Z * Z)) (l : list A) :
  (forall x, x ∈ l -> updates len addr g (W x) (body x)) ->
  (forall c, c ∈ l ≫= W -> 0 <= addr c) ->
  NoDup (addr <$> (l ≫= W)) ->
  updates len addr g (l ≫= W) (foldM body l).
Proof.
  induction l as [|x l IH]; intros Hb Hpos Hnd.
  - apply updates_nil.
  - change ((x :: l) ≫= W) with (W x ++ (l ≫= W)) in *.
    rewrite fmap_app in Hnd. apply NoDup_app in Hnd as (Hnd1 & Hdisj & Hnd2).
    assert (forall c1 c2, c1 ∈ W x -> c2 ∈ l ≫= W ->
                          Z.to_nat (addr c1) <> Z.to_nat (addr c2)) as Hsep.
    { intros c1 c2 H1 H2 E.
      apply (Hdisj (addr c1)); [apply list_elem_of_fmap_2; assumption|].
      assert (addr c1 = addr c2) as ->.
      { pose proof (Hpos c1 ltac:(apply elem_of_app; auto)).
        pose proof (Hpos c2 ltac:(apply elem_of_app; auto)). lia. }
      apply list_elem_of_fmap_2; assumption. }
    intros C HC.
    destruct (Hb x ltac:(left) C HC) as (C1 & E1 & L1 & V1 & F1).
    destruct (IH ltac:(intros; apply Hb; right; assumption)
                 ltac:(intros; apply Hpos, elem_of_app; auto) Hnd2 C1 L1)
      as (C2 & E2 & L2 & V2 & F2).
    exists C2. simpl. rewrite E1. simpl. repeat split; auto.
    + intros c [Hc|Hc]%elem_of_app.
      * rewrite <- (V1 c Hc). unfold zat. rewrite !list_lookup_total_alt.
        rewrite F2; [reflexivity|].
        intros c2 Hc2 E. apply (Hsep c c2 Hc Hc2). congruence.
      * rewrite (V2 c Hc). f_equal. unfold zat. rewrite !list_lookup_total_alt.
        rewrite F1; [reflexivity|].
        intros c1 Hc1 E. apply (Hsep c1 c Hc1 Hc). congruence.
    + intros a Ha. rewrite F2, F1; [reflexivity| |].
      * intros c Hc. apply Ha, elem_of_app; auto.
      * intros c Hc. apply Ha, elem_of_app; auto.
Qed.

End Updates.

Section StoreResult.
Context {T : Type} `{Scalar T}.

Lemma dense_index_cell (order : rocsparse_order) (ldc row col : Z) :
  cell_index order ldc (row, col)
  = match order with
    | rocsparse_order_column => row + col * ldc
    | rocsparse_order_row => row * ldc + col
    end.
Proof. destruct order; reflexivity. Qed.

(** The final store rewrites one element. *)
Lemma store_result_updates (alpha beta : T) (ldc : Z) (order : rocsparse_order)
    (len : nat) (S : Z * Z -> T) (row col : Z) (sum : T) :
  0 <= cell_index order ldc (row, col) < Z.of_nat len ->
  sum = S (row, col) ->
  updates len (cell_index order ldc)
    (fun c v => stored_value alpha beta v (S c)) [(row, col)]
    (fun C => store_result alpha beta C ldc order row col sum).
Proof.
  intros Ha -> C HC. unfold store_result, stored_value.
  rewrite dense_index_cell in Ha.
  exists (<[Z.to_nat (cell_index order ldc (row, col)) :=
            if Teqb beta T0 then Tmul alpha (S (row, col))
            else rocsparse_fma beta (zat C (cell_index order ldc (row, col)))
                               (Tmul alpha (S (row, col)))]> C).
  split; [|split; [|split]].
  - rewrite dense_index_cell.
    destruct (Teqb beta T0), order;
      rewrite ?load_Ok by lia; simpl; rewrite store_Ok by lia; reflexivity.
  - rewrite length_insert. assumption.
  - intros c ->%list_elem_of_singleton. unfold zat at 1.
    rewrite list_lookup_total_insert_eq; [reflexivity|].
    rewrite dense_index_cell. destruct order; lia.
  - intros a Ha'. apply list_lookup_insert_ne, Ha'. left.
Qed.

End StoreResult.

Lemma elem_of_block_cells (r0 r1 c0 c1 : Z) (c : Z * Z) :
  c ∈ block_cells r0 r1 c0 c1 <-> r0 <= fst c < r1 /\ c0 <= snd c < c1.
Proof.
  unfold block_cells. split.
  - intros (r & Hc & Hr%elem_of_seqZ)%list_elem_of_bind.
    apply list_elem_of_bind in Hc as (c' & Hc & Hc'%elem_of_seqZ).
    apply list_elem_of_singleton in Hc as ->. simpl. lia.
  - intros [Hr Hc]. destruct c as [r c']; simpl in *.
    apply list_elem_of_bind. exists r. split; [|apply elem_of_seqZ; lia].
    apply list_elem_of_bind. exists c'. split; [|apply elem_of_seqZ; lia].
    apply list_elem_of_singleton. reflexivity.
Qed.

(** ** A launch of kernel nn *)

Section NNGrid.
Context {T : Type} `{Scalar T}.
Variables (BLOCKSIZE WF_SIZE : Z) (w nw : nat).
Hypothesis Hcfg : config_ok BLOCKSIZE WF_SIZE w nw.
Variables (M N : Z) (L : launch).
Hypothesis HL : launch_xy_ok BLOCKSIZE WF_SIZE N L.

Lemma nn_thread_in_grid (t : thread) :
  t ∈ grid_threads L ->
  (hipBlockIdx_x t < hipGridDim_x L)%nat
  /\ Z.of_nat (hipBlockIdx_y t) < Z.of_nat (hipGridDim_y L)
  /\ Z.of_nat (hipThreadIdx_x t) < BLOCKSIZE
  /\ hipThreadIdx_y t = 0%nat.
Proof.
  intros Ht%elem_of_grid_threads. pose proof HL as (E1 & E2 & _ & _). lia.
Qed.

Lemma nwf_pos :
  0 < (Z.of_nat (hipGridDim_x L) * BLOCKSIZE) ÷ WF_SIZE.
Proof.
  rewrite (nwf_eq _ _ _ _ Hcfg).
  pose proof HL as (_ & _ & ? & _). pose proof Hcfg as (_ & ? & _). nia.
Qed.

Lemma elem_of_nn_cells (t : thread) (c : Z * Z) :
  c ∈ nn_cells BLOCKSIZE WF_SIZE M N L t <->
  fst c ∈ stride (gid_of BLOCKSIZE t ÷ WF_SIZE) M
                 ((Z.of_nat (hipGridDim_x L) * BLOCKSIZE) ÷ WF_SIZE)
  /\ snd c = Z.land (gid_of BLOCKSIZE t) (WF_SIZE - 1)
             + Z.of_nat (hipBlockIdx_y t) * WF_SIZE
  /\ snd c < N.
Proof.
  unfold nn_cells. cbv zeta. split.
  - intros (r & Hc & Hr)%list_elem_of_bind.
    destruct (Z.ltb_spec
      (Z.land (gid_of BLOCKSIZE t) (WF_SIZE - 1) + Z.of_nat (hipBlockIdx_y t) * WF_SIZE) N);
      [|inversion Hc].
    apply list_elem_of_singleton in Hc as ->. simpl. auto.
  - intros (Hr & Hc & Hlt). destruct c as [r c']; simpl in *. subst c'.
    apply list_elem_of_bind. exists r. split; [|assumption].
    destruct (Z.ltb_spec
      (Z.land (gid_of BLOCKSIZE t) (WF_SIZE - 1) + Z.of_nat (hipBlockIdx_y t) * WF_SIZE) N);
      [|lia].
    apply list_elem_of_singleton. reflexivity.
Qed.

Lemma nn_cells_range (t : thread) (c : Z * Z) :
  c ∈ nn_cells BLOCKSIZE WF_SIZE M N L t -> 0 <= fst c < M /\ 0 <= snd c < N.
Proof.
  intros (Hr & Hc & Hlt)%elem_of_nn_cells.
  apply elem_of_stride_range in Hr; [|apply nwf_pos].
  pose proof (row0_nonneg _ _ _ _ Hcfg t).
  pose proof (lid_range _ _ _ _ Hcfg (gid_of BLOCKSIZE t)).
  pose proof (WF_pos _ _ _ _ Hcfg). nia.
Qed.

Lemma NoDup_nn_cells (t : thread) : NoDup (nn_cells BLOCKSIZE WF_SIZE M N L t).
Proof.
  unfold nn_cells. cbv zeta. apply NoDup_bind.
  - intros r1 r2 c _ _ H1 H2.
    destruct (_ <? N); [|inversion H1].
    apply list_elem_of_singleton in H1. apply list_elem_of_singleton in H2.
    congruence.
  - intros r _. destruct (_ <? N); [apply NoDup_singleton|constructor].
  - apply NoDup_stride, nwf_pos.
Qed.

(** A cell is stored by one thread only. *)
Lemma nn_cells_owner (t1 t2 : thread) (c : Z * Z) :
  t1 ∈ grid_threads L -> t2 ∈ grid_threads L ->
  c ∈ nn_cells BLOCKSIZE WF_SIZE M N L t1 ->
  c ∈ nn_cells BLOCKSIZE WF_SIZE M N L t2 -> t1 = t2.
Proof.
  intros (Hx1 & Hy1 & Ht1 & Hz1)%nn_thread_in_grid
         (Hx2 & Hy2 & Ht2 & Hz2)%nn_thread_in_grid
         (Hr1 & Hc1 & _)%elem_of_nn_cells (Hr2 & Hc2 & _)%elem_of_nn_cells.
  pose proof nwf_pos as Hnwf.
  apply elem_of_stride in Hr1 as (n1 & Hn1 & Er1 & _); [|assumption].
  apply elem_of_stride in Hr2 as (n2 & Hn2 & Er2 & _); [|assumption].
  pose proof (lid_range _ _ _ _ Hcfg (gid_of BLOCKSIZE t1)) as Hl1.
  pose proof (lid_range _ _ _ _ Hcfg (gid_of BLOCKSIZE t2)) as Hl2.
  pose proof (row0_nonneg _ _ _ _ Hcfg t1) as Hp1.
  pose proof (row0_nonneg _ _ _ _ Hcfg t2) as Hp2.
  pose proof (row0_lt _ _ _ _ Hcfg _ t1 Hx1 Ht1) as Hq1.
  pose proof (row0_lt _ _ _ _ Hcfg _ t2 Hx2 Ht2) as Hq2.
  rewrite <- (nwf_eq _ _ _ _ Hcfg) in Hq1, Hq2.
  assert (Z.of_nat (hipBlockIdx_y t1) = Z.of_nat (hipBlockIdx_y t2)
          /\ Z.land (gid_of BLOCKSIZE t1) (WF_SIZE - 1)
             = Z.land (gid_of BLOCKSIZE t2) (WF_SIZE - 1)) as [Ey El].
  { apply (div_mod_unique WF_SIZE); [assumption|assumption|lia]. }
  assert (n1 = n2 /\ gid_of BLOCKSIZE t1 ÷ WF_SIZE = gid_of BLOCKSIZE t2 ÷ WF_SIZE)
    as [_ Er].
  { apply (div_mod_unique ((Z.of_nat (hipGridDim_x L) * BLOCKSIZE) ÷ WF_SIZE)); lia. }
  pose proof (gid_of_parts _ _ _ _ Hcfg t1 t2 Er El) as Eg.
  apply (gid_inj BLOCKSIZE) in Eg as [Ebx Etx]; [|assumption|assumption].
  destruct t1, t2; simpl in *. f_equal; lia.
Qed.

(** Every cell of the output is stored by some thread. *)
Lemma nn_cells_cover (c : Z * Z) :
  0 <= fst c < M -> 0 <= snd c < N ->
  exists t, t ∈ grid_threads L /\ c ∈ nn_cells BLOCKSIZE WF_SIZE M N L t.
Proof.
  intros Hi Hj. destruct c as [i j]; simpl in *.
  pose proof nwf_pos as Hnwf. pose proof (WF_pos _ _ _ _ Hcfg) as HWF.
  pose proof (BS_pos _ _ _ _ Hcfg) as HBS.
  set (nwf := (Z.of_nat (hipGridDim_x L) * BLOCKSIZE) ÷ WF_SIZE) in *.
  set (gid := (i `mod` nwf) * WF_SIZE + j `mod` WF_SIZE).
  pose proof (Z.mod_pos_bound i nwf Hnwf) as Hr0.
  pose proof (Z.mod_pos_bound j WF_SIZE HWF) as Hlid.
  assert (0 <= gid < Z.of_nat (hipGridDim_x L) * BLOCKSIZE) as Hgid.
  { assert (nwf * WF_SIZE = Z.of_nat (hipGridDim_x L) * BLOCKSIZE) as <-.
    { unfold nwf. rewrite (nwf_eq _ _ _ _ Hcfg).
      pose proof Hcfg as (_ & _ & E). rewrite E. ring. }
    unfold gid. nia. }
  pose proof (Z.div_mod gid BLOCKSIZE ltac:(lia)) as Egid.
  pose proof (Z.mod_pos_bound gid BLOCKSIZE HBS) as Htid.
  assert (0 <= gid `div` BLOCKSIZE < Z.of_nat (hipGridDim_x L)) as Hbx.
  { split; [apply Z.div_pos; lia|apply Z.div_lt_upper_bound; lia]. }
  assert (0 <= j `div` WF_SIZE < Z.of_nat (hipGridDim_y L)) as Hby.
  { pose proof HL as (_ & _ & _ & HN).
    split; [apply Z.div_pos; lia|apply Z.div_lt_upper_bound; nia]. }
  set (t := {| hipBlockIdx_x := Z.to_nat (gid `div` BLOCKSIZE);
               hipBlockIdx_y := Z.to_nat (j `div` WF_SIZE);
               hipThreadIdx_x := Z.to_nat (gid `mod` BLOCKSIZE);
               hipThreadIdx_y := 0 |}).
  assert (gid_of BLOCKSIZE t = gid) as Eg.
  { unfold gid_of, t. simpl. rewrite !Z2Nat.id by lia. lia. }
  assert (gid ÷ WF_SIZE = i `mod` nwf /\ gid `mod` WF_SIZE = j `mod` WF_SIZE)
    as [Erow Elid].
  { rewrite quot_nonneg by lia.
    pose proof (Z.div_mod gid WF_SIZE ltac:(lia)) as E.
    pose proof (Z.mod_pos_bound gid WF_SIZE HWF).
    apply (div_mod_unique WF_SIZE); [assumption|assumption|].
    transitivity gid; [lia|reflexivity]. }
  exists t. split.
  - apply elem_of_grid_threads. unfold t; simpl.
    pose proof HL as (E1 & E2 & _ & _). lia.
  - apply elem_of_nn_cells. simpl. rewrite Eg, (lid_eq _ _ _ _ Hcfg).
    fold nwf. rewrite Erow, Elid.
    split; [|split].
    + apply elem_of_stride; [assumption|].
      exists (i `div` nwf). pose proof (Z.div_mod i nwf ltac:(lia)).
      split; [apply Z.div_pos; lia|]. split; lia.
    + unfold t; simpl. rewrite Z2Nat.id by lia.
      pose proof (Z.div_mod j WF_SIZE ltac:(lia)). lia.
    + lia.
Qed.

Variables (len : nat) (order : rocsparse_order) (ldc : Z).
Variable g : Z * Z -> T -> T.
Variable row_body : Z -> Z -> list T -> result (list T).

Hypothesis Hrow : forall row col, 0 <= row < M -> 0 <= col ->
  updates len (cell_index order ldc) g
    (if col <? N then [(row, col)] else []) (row_body col row).
Hypothesis Hnonneg : forall c, 0 <= fst c < M -> 0 <= snd c < N ->
  0 <= cell_index order ldc c.
Hypothesis Hinj : forall c1 c2,
  0 <= fst c1 < M -> 0 <= snd c1 < N -> 0 <= fst c2 < M -> 0 <= snd c2 < N ->
  cell_index order ldc c1 = cell_index order ldc c2 -> c1 = c2.

Lemma nn_thread_updates (t : thread) :
  updates len (cell_index order ldc) g
    (nn_cells BLOCKSIZE WF_SIZE M N L t)
    (nn_thread BLOCKSIZE WF_SIZE M L row_body t).
Proof.
  pose proof nwf_pos as Hnwf.
  pose proof (row0_nonneg _ _ _ _ Hcfg t) as Hp.
  pose proof (lid_range _ _ _ _ Hcfg (gid_of BLOCKSIZE t)) as Hl.
  pose proof (WF_pos _ _ _ _ Hcfg) as HWF.
  refine (updates_ext _ _ _ _
            (foldM (row_body (Z.land (gid_of BLOCKSIZE t) (WF_SIZE - 1)
                              + Z.of_nat (hipBlockIdx_y t) * WF_SIZE))
                   (stride (gid_of BLOCKSIZE t ÷ WF_SIZE) M
                           ((Z.of_nat (hipGridDim_x L) * BLOCKSIZE) ÷ WF_SIZE)))
            _ _ _).
  { intros C. unfold nn_thread. cbv zeta.
    rewrite for_loop_stride by lia. reflexivity. }
  unfold nn_cells. cbv zeta. apply updates_foldM.
  - intros row Hr%elem_of_stride_range; [|assumption]. apply Hrow; nia.
  - intros c Hc. apply nn_cells_range in Hc as [? ?]. apply Hnonneg; assumption.
  - apply NoDup_fmap_2_strong; [|apply NoDup_nn_cells].
    intros c1 c2 [? ?]%nn_cells_range [? ?]%nn_cells_range. apply Hinj; assumption.
Qed.

(** What the launch does: every cell of the M x N output is rewritten,
    nothing else is, in whatever order the threads run. *)
Lemma nn_grid_updates (sched : list thread) :
  sched ≡ₚ grid_threads L ->
  updates len (cell_index order ldc) g (block_cells 0 M 0 N)
    (foldM (nn_thread BLOCKSIZE WF_SIZE M L row_body) sched).
Proof.
  intros Hperm.
  apply (updates_equiv _ _ _ (sched ≫= nn_cells BLOCKSIZE WF_SIZE M N L)).
  { intros c. rewrite elem_of_block_cells, list_elem_of_bind.
    split.
    - intros (t & Hc & _). apply nn_cells_range in Hc. lia.
    - intros [Hi Hj]. destruct (nn_cells_cover c) as (t & Ht & Hc); [lia|lia|].
      exists t. split; [assumption|]. rewrite Hperm. assumption. }
  apply updates_foldM.
  - intros t _. apply nn_thread_updates.
  - intros c (t & Hc & _)%list_elem_of_bind.
    apply nn_cells_range in Hc as [? ?]. apply Hnonneg; assumption.
  - apply NoDup_fmap_2_strong.
    + intros c1 c2 (t1 & Hc1 & _)%list_elem_of_bind (t2 & Hc2 & _)%list_elem_of_bind.
      apply nn_cells_range in Hc1 as [? ?]. apply nn_cells_range in Hc2 as [? ?].
      apply Hinj; assumption.
    + apply NoDup_bind.
      * intros t1 t2 c Ht1 Ht2. rewrite Hperm in Ht1, Ht2.
        apply nn_cells_owner; assumption.
      * intros t _. apply NoDup_nn_cells.
      * rewrite Hperm. apply NoDup_grid_threads.
Qed.

End NNGrid.

(** ** A launch of kernel nt *)

Section NTGrid.
Context {T : Type} `{Scalar T}.
Variables (BLOCKSIZE WF_SIZE : Z) (w nw : nat).
Hypothesis Hcfg : config_ok BLOCKSIZE WF_SIZE w nw.
Variables (offset ncol M : Z) (L : launch).
Hypothesis HL : launch_x_ok BLOCKSIZE WF_SIZE M L.
Hypothesis Hoff : 0 <= offset.

Lemma nt_thread_in_grid (t : thread) :
  t ∈ grid_threads L ->
  Z.of_nat (hipBlockIdx_x t) < Z.of_nat (hipGridDim_x L)
  /\ hipBlockIdx_y t = 0%nat
  /\ Z.of_nat (hipThreadIdx_x t) < BLOCKSIZE
  /\ hipThreadIdx_y t = 0%nat.
Proof.
  intros Ht%elem_of_grid_threads. pose proof HL as (E1 & E2 & E3 & _). lia.
Qed.

Lemma elem_of_nt_cells (t : thread) (c : Z * Z) :
  c ∈ nt_cells BLOCKSIZE WF_SIZE offset ncol M t <->
  fst c = gid_of BLOCKSIZE t ÷ WF_SIZE /\ fst c < M
  /\ snd c < ncol
  /\ snd c - Z.land (gid_of BLOCKSIZE t) (WF_SIZE - 1) ∈ stride offset ncol WF_SIZE.
Proof.
  unfold nt_cells. cbv zeta. rewrite (tid_lid _ _ _ _ Hcfg).
  destruct (Z.leb_spec M (gid_of BLOCKSIZE t ÷ WF_SIZE)) as [Hge|Hlt].
  { split; [intros Hc; inversion Hc|]. intros (-> & ? & _). lia. }
  split.
  - intros (l & Hc & Hl)%list_elem_of_bind.
    destruct (Z.ltb_spec (l + Z.land (gid_of BLOCKSIZE t) (WF_SIZE - 1)) ncol);
      [|inversion Hc].
    apply list_elem_of_singleton in Hc as ->. simpl.
    replace (l + Z.land (gid_of BLOCKSIZE t) (WF_SIZE - 1)
             - Z.land (gid_of BLOCKSIZE t) (WF_SIZE - 1)) with l by lia.
    auto.
  - intros (Hr & _ & Hc & Hl). destruct c as [r c']; simpl in *. subst r.
    apply list_elem_of_bind. eexists. split; [|exact Hl].
    destruct (Z.ltb_spec (c' - Z.land (gid_of BLOCKSIZE t) (WF_SIZE - 1)
                          + Z.land (gid_of BLOCKSIZE t) (WF_SIZE - 1)) ncol); [|lia].
    apply list_elem_of_singleton. f_equal. lia.
Qed.

Lemma nt_cells_range (t : thread) (c : Z * Z) :
  c ∈ nt_cells BLOCKSIZE WF_SIZE offset ncol M t ->
  0 <= fst c < M /\ offset <= snd c < ncol.
Proof.
  intros (Hr & Hlt & Hc & Hl)%elem_of_nt_cells.
  apply elem_of_stride_range in Hl; [|apply (WF_pos _ _ _ _ Hcfg)].
  pose proof (row0_nonneg _ _ _ _ Hcfg t).
  pose proof (lid_range _ _ _ _ Hcfg (gid_of BLOCKSIZE t)). lia.
Qed.

Lemma NoDup_nt_cells (t : thread) :
  NoDup (nt_cells BLOCKSIZE WF_SIZE offset ncol M t).
Proof.
  unfold nt_cells. cbv zeta. destruct (M <=? _); [constructor|].
  apply NoDup_bind.
  - intros l1 l2 c _ _ H1 H2.
    destruct (l1 + _ <? ncol); [|inversion H1].
    destruct (l2 + _ <? ncol); [|inversion H2].
    apply list_elem_of_singleton in H1. apply list_elem_of_singleton in H2.
    subst c. injection H2. lia.
  - intros l _. destruct (_ <? ncol); [apply NoDup_singleton|constructor].
  - apply NoDup_stride, (WF_pos _ _ _ _ Hcfg).
Qed.

Lemma nt_cells_owner (t1 t2 : thread) (c : Z * Z) :
  t1 ∈ grid_threads L -> t2 ∈ grid_threads L ->
  c ∈ nt_cells BLOCKSIZE WF_SIZE offset ncol M t1 ->
  c ∈ nt_cells BLOCKSIZE WF_SIZE offset ncol M t2 -> t1 = t2.
Proof.
  intros (Hx1 & Hy1 & Ht1 & Hz1)%nt_thread_in_grid
         (Hx2 & Hy2 & Ht2 & Hz2)%nt_thread_in_grid
         (Hr1 & _ & _ & Hl1)%elem_of_nt_cells (Hr2 & _ & _ & Hl2)%elem_of_nt_cells.
  pose proof (WF_pos _ _ _ _ Hcfg) as HWF.
  apply elem_of_stride in Hl1 as (n1 & Hn1 & El1 & _); [|assumption].
  apply elem_of_stride in Hl2 as (n2 & Hn2 & El2 & _); [|assumption].
  pose proof (lid_range _ _ _ _ Hcfg (gid_of BLOCKSIZE t1)).
  pose proof (lid_range _ _ _ _ Hcfg (gid_of BLOCKSIZE t2)).
  assert (n1 = n2 /\ Z.land (gid_of BLOCKSIZE t1) (WF_SIZE - 1)
                     = Z.land (gid_of BLOCKSIZE t2) (WF_SIZE - 1)) as [_ El].
  { apply (div_mod_unique WF_SIZE); [assumption|assumption|lia]. }
  assert (gid_of BLOCKSIZE t1 = gid_of BLOCKSIZE t2) as Eg.
  { apply (gid_of_parts _ _ _ _ Hcfg); [congruence|assumption]. }
  apply (gid_inj BLOCKSIZE) in Eg as [Ebx Etx]; [|assumption|assumption].
  destruct t1, t2; simpl in *. f_equal; lia.
Qed.

Lemma nt_cells_cover (c : Z * Z) :
  0 <= fst c < M -> offset <= snd c < ncol ->
  exists t, t ∈ grid_threads L /\ c ∈ nt_cells BLOCKSIZE WF_SIZE offset ncol M t.
Proof.
  intros Hi Hj. destruct c as [i j]; simpl in *.
  pose proof (WF_pos _ _ _ _ Hcfg) as HWF.
  pose proof (BS_pos _ _ _ _ Hcfg) as HBS.
  set (gid := i * WF_SIZE + (j - offset) `mod` WF_SIZE).
  pose proof (Z.mod_pos_bound (j - offset) WF_SIZE HWF) as Hlid.
  assert (0 <= gid < Z.of_nat (hipGridDim_x L) * BLOCKSIZE) as Hgid.
  { pose proof HL as (_ & _ & _ & HM). unfold gid. nia. }
  pose proof (Z.div_mod gid BLOCKSIZE ltac:(lia)) as Egid.
  pose proof (Z.mod_pos_bound gid BLOCKSIZE HBS) as Htid.
  assert (0 <= gid `div` BLOCKSIZE < Z.of_nat (hipGridDim_x L)) as Hbx.
  { split; [apply Z.div_pos; lia|apply Z.div_lt_upper_bound; lia]. }
  set (t := {| hipBlockIdx_x := Z.to_nat (gid `div` BLOCKSIZE);
               hipBlockIdx_y := 0;
               hipThreadIdx_x := Z.to_nat (gid `mod` BLOCKSIZE);
               hipThreadIdx_y := 0 |}).
  assert (gid_of BLOCKSIZE t = gid) as Eg.
  { unfold gid_of, t. simpl. rewrite !Z2Nat.id by lia. lia. }
  assert (gid ÷ WF_SIZE = i /\ gid `mod` WF_SIZE = (j - offset) `mod` WF_SIZE)
    as [Erow Elid].
  { rewrite quot_nonneg by lia.
    pose proof (Z.div_mod gid WF_SIZE ltac:(lia)) as E.
    pose proof (Z.mod_pos_bound gid WF_SIZE HWF).
    apply (div_mod_unique WF_SIZE); [assumption|assumption|].
    transitivity gid; [lia|reflexivity]. }
  exists t. split.
  - apply elem_of_grid_threads. unfold t; simpl.
    pose proof HL as (E1 & E2 & E3 & _). lia.
  - apply elem_of_nt_cells. simpl. rewrite Eg, (lid_eq _ _ _ _ Hcfg), Erow, Elid.
    split; [reflexivity|]. split; [lia|]. split; [lia|].
    apply elem_of_stride; [assumption|].
    exists ((j - offset) `div` WF_SIZE).
    pose proof (Z.div_mod (j - offset) WF_SIZE ltac:(lia)).
    split; [apply Z.div_pos; lia|]. split; lia.
Qed.

Variables (len : nat) (order : rocsparse_order) (ldc : Z).
Variable g : Z * Z -> T -> T.
Variable col_body : Z -> Z -> Z -> list T -> result (list T).

Hypothesis Hcol : forall row lid l, 0 <= row < M -> 0 <= lid -> offset <= l ->
  updates len (cell_index order ldc) g
    (if l + lid <? ncol then [(row, l + lid)] else []) (col_body row lid l).
Hypothesis Hnonneg : forall c, 0 <= fst c < M -> offset <= snd c < ncol ->
  0 <= cell_index order ldc c.
Hypothesis Hinj : forall c1 c2,
  0 <= fst c1 < M -> offset <= snd c1 < ncol ->
  0 <= fst c2 < M -> offset <= snd c2 < ncol ->
  cell_index order ldc c1 = cell_index order ldc c2 -> c1 = c2.

Lemma nt_thread_updates (t : thread) :
  updates len (cell_index order ldc) g
    (nt_cells BLOCKSIZE WF_SIZE offset ncol M t)
    (nt_thread BLOCKSIZE WF_SIZE offset ncol M col_body t).
Proof.
  pose proof (row0_nonneg _ _ _ _ Hcfg t) as Hp.
  pose proof (lid_range _ _ _ _ Hcfg (Z.of_nat (hipThreadIdx_x t))) as Hl.
  pose proof (WF_pos _ _ _ _ Hcfg) as HWF.
  pose proof (NoDup_nt_cells t) as Hnd.
  assert (forall c, c ∈ nt_cells BLOCKSIZE WF_SIZE offset ncol M t ->
                    0 <= fst c < M /\ offset <= snd c < ncol) as Hrange
    by (intros c; apply nt_cells_range).
  unfold nt_thread, nt_cells in *. cbv zeta in *.
  destruct (Z.leb_spec M (gid_of BLOCKSIZE t ÷ WF_SIZE)) as [Hge|Hlt].
  { apply updates_nil. }
  refine (updates_ext _ _ _ _
            (foldM (col_body (gid_of BLOCKSIZE t ÷ WF_SIZE)
                             (Z.land (Z.of_nat (hipThreadIdx_x t)) (WF_SIZE - 1)))
                   (stride offset ncol WF_SIZE)) _ _ _).
  { intros C. rewrite for_loop_stride by lia. reflexivity. }
  apply updates_foldM.
  - intros l Hr%elem_of_stride_range; [|assumption]. apply Hcol; lia.
  - intros c Hc. apply Hrange in Hc as [? ?]. apply Hnonneg; assumption.
  - apply NoDup_fmap_2_strong; [|assumption].
    intros c1 c2 [? ?]%Hrange [? ?]%Hrange. apply Hinj; assumption.
Qed.

Lemma nt_grid_updates (sched : list thread) :
  sched ≡ₚ grid_threads L ->
  updates len (cell_index order ldc) g (block_cells 0 M offset ncol)
    (foldM (nt_thread BLOCKSIZE WF_SIZE offset ncol M col_body) sched).
Proof.
  intros Hperm.
  apply (updates_equiv _ _ _ (sched ≫= nt_cells BLOCKSIZE WF_SIZE offset ncol M)).
  { intros c. rewrite elem_of_block_cells, list_elem_of_bind.
    split.
    - intros (t & Hc & _). apply nt_cells_range in Hc. lia.
    - intros [Hi Hj]. destruct (nt_cells_cover c) as (t & Ht & Hc); [lia|lia|].
      exists t. split; [assumption|]. rewrite Hperm. assumption. }
  apply updates_foldM.
  - intros t _. apply nt_thread_updates.
  - intros c (t & Hc & _)%list_elem_of_bind.
    apply nt_cells_range in Hc as [? ?]. apply Hnonneg; assumption.
  - apply NoDup_fmap_2_strong.
    + intros c1 c2 (t1 & Hc1 & _)%list_elem_of_bind (t2 & Hc2 & _)%list_elem_of_bind.
      apply nt_cells_range in Hc1 as [? ?]. apply nt_cells_range in Hc2 as [? ?].
      apply Hinj; assumption.
    + apply NoDup_bind.
      * intros t1 t2 c Ht1 Ht2. rewrite Hperm in Ht1, Ht2.
        apply nt_cells_owner; assumption.
      * intros t _. apply NoDup_nt_cells.
      * rewrite Hperm. apply NoDup_grid_threads.
Qed.

End NTGrid.

(** ** Well-formed inputs *)

Lemma forallb_seqZ (P : Z -> bool) (a n : Z) :
  forallb P (seqZ a n) = true -> forall x, a <= x < a + n -> P x = true.
Proof.
  intros Hf x Hx. rewrite forallb_forall in Hf. apply Hf.
  apply list_elem_of_In, elem_of_seqZ. assumption.
Qed.

Section Valid.
Context {T : Type} `{Scalar T}.

Variables (rows cols : Z) (csr_row_ptr csr_col_ind : list Z) (csr_val : list T).
Variable idx_base : rocsparse_index_base.
Hypothesis Hcsr :
  csr_valid rows cols csr_row_ptr csr_col_ind csr_val idx_base = true.

Lemma csr_valid_parts :
  0 <= rows /\ Z.of_nat (length csr_row_ptr) = rows + 1
  /\ 0 <= zat csr_row_ptr 0 - base_val idx_base
  /\ (forall r, 0 <= r < rows -> zat csr_row_ptr r <= zat csr_row_ptr (r + 1))
  /\ zat csr_row_ptr rows - base_val idx_base <= Z.of_nat (length csr_col_ind)
  /\ zat csr_row_ptr rows - base_val idx_base <= Z.of_nat (length csr_val)
  /\ (forall p, zat csr_row_ptr 0 - base_val idx_base <= p
                < zat csr_row_ptr rows - base_val idx_base ->
                0 <= zat csr_col_ind p - base_val idx_base < cols).
Proof.
  pose proof Hcsr as Hv. unfold csr_valid in Hv.
  repeat (apply andb_prop in Hv as [Hv ?]).
  repeat split; try lia.
  - intros r Hr. apply Z.leb_le.
    match goal with
    | Hf : forallb (fun r => _ <=? _) _ = true |- _ =>
        apply (forallb_seqZ _ _ _ Hf r)
    end. lia.
  - match goal with
    | Hf : forallb (fun p => _ && _) _ = true |- _ =>
        pose proof (forallb_seqZ _ _ _ Hf p ltac:(lia)) as Hp
    end. apply andb_prop in Hp as [? ?]. lia.
  - match goal with
    | Hf : forallb (fun p => _ && _) _ = true |- _ =>
        pose proof (forallb_seqZ _ _ _ Hf p ltac:(lia)) as Hp
    end. apply andb_prop in Hp as [? ?]. lia.
Qed.

Lemma row_ptr_mono (r1 r2 : Z) :
  0 <= r1 <= r2 -> r2 <= rows -> zat csr_row_ptr r1 <= zat csr_row_ptr r2.
Proof.
  intros H12 H2. pose proof csr_valid_parts as (_ & _ & _ & Hmono & _).
  replace r2 with (r1 + Z.of_nat (Z.to_nat (r2 - r1))) in * by lia.
  induction (Z.to_nat (r2 - r1)) as [|n IH].
  - rewrite Z.add_0_r. lia.
  - etransitivity; [apply IH; lia|].
    replace (r1 + Z.of_nat (Datatypes.S n)) with (r1 + Z.of_nat n + 1) by lia.
    apply Hmono. lia.
Qed.

(** What a kernel finds when it processes the stored row [r]. *)
Lemma csr_valid_row (r : Z) :
  0 <= r < rows ->
  load OOB_row_ptr csr_row_ptr r = Ok (zat csr_row_ptr r)
  /\ load OOB_row_ptr csr_row_ptr (r + 1) = Ok (zat csr_row_ptr (r + 1))
  /\ 0 <= zat csr_row_ptr r - base_val idx_base
       <= zat csr_row_ptr (r + 1) - base_val idx_base
  /\ zat csr_row_ptr (r + 1) - base_val idx_base <= Z.of_nat (length csr_col_ind)
  /\ zat csr_row_ptr (r + 1) - base_val idx_base <= Z.of_nat (length csr_val)
  /\ (forall p, zat csr_row_ptr r - base_val idx_base <= p
                < zat csr_row_ptr (r + 1) - base_val idx_base ->
                0 <= zat csr_col_ind p - base_val idx_base < cols).
Proof.
  intros Hr.
  pose proof csr_valid_parts as (H0 & Hlen & Hfirst & Hmono & Hci & Hval & Hcol).
  pose proof (row_ptr_mono 0 r ltac:(lia) ltac:(lia)).
  pose proof (row_ptr_mono r (r + 1) ltac:(lia) ltac:(lia)).
  pose proof (row_ptr_mono (r + 1) rows ltac:(lia) ltac:(lia)).
  split; [apply load_Ok; lia|]. split; [apply load_Ok; lia|].
  split; [lia|]. split; [lia|]. split; [lia|].
  intros p Hp. apply Hcol. lia.
Qed.

End Valid.

Section DenseValid.
Context {T : Type} `{Scalar T}.

Lemma dense_valid_index (rows cols ld : Z) (buf : list T) (r c : Z) :
  dense_valid rows cols ld buf = true ->
  0 <= r < rows -> 0 <= c < cols ->
  0 <= r + c * ld < Z.of_nat (length buf).
Proof.
  unfold dense_valid. intros Hv Hr Hc.
  repeat (apply andb_prop in Hv as [Hv ?]). nia.
Qed.

Lemma dense_valid_inj (rows cols ld : Z) (buf : list T) (r1 c1 r2 c2 : Z) :
  dense_valid rows cols ld buf = true ->
  0 <= r1 < rows -> 0 <= r2 < rows ->
  r1 + c1 * ld = r2 + c2 * ld -> r1 = r2 /\ c1 = c2.
Proof.
  unfold dense_valid. intros Hv Hr1 Hr2 E.
  repeat (apply andb_prop in Hv as [Hv ?]).
  assert (c1 = c2 /\ r1 = r2) as [? ?]; [|auto].
  apply (div_mod_unique ld); lia.
Qed.

Lemma C_valid_index (order : rocsparse_order) (M N ldc : Z) (C : list T) (c : Z * Z) :
  C_valid order M N ldc C = true ->
  0 <= fst c < M -> 0 <= snd c < N ->
  0 <= cell_index order ldc c < Z.of_nat (length C).
Proof.
  unfold C_valid, cell_index, dense_index. intros Hv Hr Hc.
  destruct order.
  - pose proof (dense_valid_index _ _ _ _ (snd c) (fst c) Hv Hc Hr). lia.
  - apply (dense_valid_index _ _ _ _ _ _ Hv Hr Hc).
Qed.

Lemma C_valid_inj (order : rocsparse_order) (M N ldc : Z) (C : list T) (c1 c2 : Z * Z) :
  C_valid order M N ldc C = true ->
  0 <= fst c1 < M -> 0 <= snd c1 < N -> 0 <= fst c2 < M -> 0 <= snd c2 < N ->
  cell_index order ldc c1 = cell_index order ldc c2 -> c1 = c2.
Proof.
  unfold C_valid, cell_index, dense_index. intros Hv Hr1 Hc1 Hr2 Hc2 E.
  destruct c1 as [r1 c1], c2 as [r2 c2]; simpl in *.
  destruct order.
  - destruct (dense_valid_inj _ _ _ _ c1 r1 c2 r2 Hv Hc1 Hc2 ltac:(lia)).
    congruence.
  - destruct (dense_valid_inj _ _ _ _ r1 c1 r2 c2 Hv Hr1 Hr2 E). congruence.
Qed.

End DenseValid.

(** ** The row-parallel kernels on well-formed inputs *)

Section RowParallel.
Context {T : Type} `{Scalar T}.
Variables (BLOCKSIZE WF_SIZE : Z) (w nw : nat).
Hypothesis Hcfg : config_ok BLOCKSIZE WF_SIZE w nw.

Variables (trans_A trans_B : rocsparse_operation) (M N K nnz : Z) (alpha : T).
Variables (csr_row_ptr csr_col_ind : list Z) (csr_val B : list T) (ldb : Z).
Variables (beta : T) (C0 : list T) (ldc : Z) (order : rocsparse_order).
Variable idx_base : rocsparse_index_base.
Variable L : launch.

Hypothesis Hcsr : csr_valid M K csr_row_ptr csr_col_ind csr_val idx_base = true.

(** One iteration of the row loop of kernel nn. *)
Lemma csrmmnn_row_updates (row col : Z) :
  dense_valid K N ldb B = true ->
  C_valid order M N ldc C0 = true ->
  0 <= row < M -> 0 <= col ->
  updates (length C0) (cell_index order ldc)
    (fun c v => stored_value alpha beta v
                  (nn_dot WF_SIZE trans_A trans_B csr_row_ptr csr_col_ind
                          csr_val B ldb idx_base c))
    (if col <? N then [(row, col)] else [])
    (csrmmnn_row WF_SIZE trans_A trans_B N alpha csr_row_ptr csr_col_ind
                 csr_val B beta ldc order idx_base col (col * ldb) row).
Proof.
  intros HB HC Hrow Hcol.
  pose proof (WF_pos _ _ _ _ Hcfg) as HWF.
  destruct (csr_valid_row _ _ _ _ _ _ Hcsr row Hrow)
    as (Eld1 & Eld2 & Hrs & Hci & Hval & Hcols).
  destruct (Z.ltb_spec col N) as [Hlt|Hge].
  - eapply updates_ext; [|apply store_result_updates with (S :=
        nn_dot WF_SIZE trans_A trans_B csr_row_ptr csr_col_ind csr_val B ldb idx_base);
        [apply (C_valid_index _ _ _ _ _ _ HC); simpl; lia|reflexivity]].
    intros C. unfold csrmmnn_row. rewrite Eld1, Eld2. cbn [bind].
    rewrite csrmmnn_row_sum_Ok; try lia.
    + cbn [bind]. destruct (Z.ltb_spec col N); [reflexivity|lia].
    + intros p Hp. apply (dense_valid_index _ _ _ _ _ _ HB); [apply Hcols|]; lia.
    + intros Hne.
      assert (0 < K) by (specialize (Hcols _ (conj (Z.le_refl _) Hne)); lia).
      apply (dense_valid_index _ _ _ _ _ _ HB); lia.
  - eapply updates_ext; [|apply updates_nil].
    intros C. unfold csrmmnn_row. rewrite Eld1, Eld2. cbn [bind].
    rewrite csrmmnn_row_sum_skip by lia. cbn [bind].
    destruct (Z.ltb_spec col N); [lia|reflexivity].
Qed.

(** A launch of kernel nn rewrites every element of the M x N output, and
    nothing else, whatever the order of its threads. *)
Lemma csrmmnn_launch_updates (sched : list thread) :
  launch_xy_ok BLOCKSIZE WF_SIZE N L ->
  dense_valid K N ldb B = true ->
  C_valid order M N ldc C0 = true ->
  sched ≡ₚ grid_threads L ->
  updates (length C0) (cell_index order ldc)
    (fun c v => stored_value alpha beta v
                  (nn_dot WF_SIZE trans_A trans_B csr_row_ptr csr_col_ind
                          csr_val B ldb idx_base c))
    (block_cells 0 M 0 N)
    (run_grid (csrmmnn_general_device BLOCKSIZE WF_SIZE trans_A trans_B M N K nnz
                 alpha csr_row_ptr csr_col_ind csr_val B ldb beta ldc order
                 idx_base L) sched).
Proof.
  intros HL HB HC Hperm.
  apply (nn_grid_updates BLOCKSIZE WF_SIZE w nw Hcfg M N L HL (length C0) order ldc
           _ (fun col row =>
                csrmmnn_row WF_SIZE trans_A trans_B N alpha csr_row_ptr
                  csr_col_ind csr_val B beta ldc order idx_base col (col * ldb) row)).
  - intros row col Hrow Hcol. apply csrmmnn_row_updates; assumption.
  - intros c Hr Hc. apply (C_valid_index _ _ _ _ _ _ HC); assumption.
  - intros c1 c2. apply (C_valid_inj _ _ _ _ _ _ _ HC).
  - assumption.
Qed.

(** One iteration of the column loop of kernel nt. *)
Lemma csrmmnt_col_updates (offset ncol row lid l : Z) :
  dense_valid ncol K ldb B = true ->
  C_valid order M ncol ldc C0 = true ->
  0 <= row < M -> 0 <= lid -> 0 <= offset <= l ->
  updates (length C0) (cell_index order ldc)
    (fun c v => stored_value alpha beta v
                  (nt_dot WF_SIZE trans_A trans_B csr_row_ptr csr_col_ind
                          csr_val B ldb idx_base c))
    (if l + lid <? ncol then [(row, l + lid)] else [])
    (csrmmnt_col WF_SIZE trans_A trans_B ncol alpha csr_col_ind csr_val B ldb
                 beta ldc order idx_base row
                 (zat csr_row_ptr row - base_val idx_base)
                 (zat csr_row_ptr (row + 1) - base_val idx_base) lid l).
Proof.
  intros HB HC Hrow Hlid Hl.
  pose proof (WF_pos _ _ _ _ Hcfg) as HWF.
  destruct (csr_valid_row _ _ _ _ _ _ Hcsr row Hrow)
    as (Eld1 & Eld2 & Hrs & Hci & Hval & Hcols).
  destruct (Z.ltb_spec (l + lid) ncol) as [Hlt|Hge].
  - eapply updates_ext; [|apply store_result_updates with (S :=
        nt_dot WF_SIZE trans_A trans_B csr_row_ptr csr_col_ind csr_val B ldb idx_base);
        [apply (C_valid_index _ _ _ _ _ _ HC); simpl; lia|reflexivity]].
    intros C. unfold csrmmnt_col. cbv zeta.
    rewrite csrmmnt_row_sum_Ok; try lia.
    + cbn [bind]. destruct (Z.ltb_spec (l + lid) ncol); [reflexivity|lia].
    + intros p Hp. rewrite Z.mul_comm.
      apply (dense_valid_index _ _ _ _ _ _ HB); [|apply Hcols]; lia.
    + intros Hne.
      assert (0 < K) by (specialize (Hcols _ (conj (Z.le_refl _) Hne)); lia).
      assert (0 <= l + lid < ncol) as Hc by lia.
      assert (0 <= 0 < K) as Hz by lia.
      pose proof (dense_valid_index _ _ _ _ (l + lid) 0 HB Hc Hz).
      lia.
  - eapply updates_ext; [|apply updates_nil].
    intros C. unfold csrmmnt_col. cbv zeta.
    destruct (csrmmnt_row_sum_skip WF_SIZE HWF trans_A trans_B csr_col_ind csr_val B
                idx_base _ _ (proj1 Hrs) Hci Hval ncol ldb (l + lid) Hge) as [s ->].
    cbn [bind]. destruct (Z.ltb_spec (l + lid) ncol); [lia|reflexivity].
Qed.

(** Kernel nt is [nt_thread] once the two loads of the row pointer are known
    to be in range. *)
Lemma csrmmnt_as_thread (offset ncol : Z) (t : thread) (C : list T) :
  csrmmnt_general_device BLOCKSIZE WF_SIZE trans_A trans_B offset ncol M N K nnz
    alpha csr_row_ptr csr_col_ind csr_val B ldb beta ldc order idx_base L t C
  = nt_thread BLOCKSIZE WF_SIZE offset ncol M
      (fun row lid l =>
         csrmmnt_col WF_SIZE trans_A trans_B ncol alpha csr_col_ind csr_val B ldb
           beta ldc order idx_base row
           (zat csr_row_ptr row - base_val idx_base)
           (zat csr_row_ptr (row + 1) - base_val idx_base) lid l) t C.
Proof.
  unfold csrmmnt_general_device, nt_thread. cbv zeta.
  change (Z.of_nat (hipBlockIdx_x t) * BLOCKSIZE + Z.of_nat (hipThreadIdx_x t))
    with (gid_of BLOCKSIZE t).
  destruct (Z.leb_spec M (gid_of BLOCKSIZE t ÷ WF_SIZE)) as [Hge|Hlt];
    [reflexivity|].
  pose proof (row0_nonneg _ _ _ _ Hcfg t) as Hp.
  destruct (csr_valid_row _ _ _ _ _ _ Hcsr (gid_of BLOCKSIZE t ÷ WF_SIZE)
              ltac:(lia)) as (-> & -> & _).
  reflexivity.
Qed.

(** A launch of kernel nt rewrites every element of the rows [0 <= r < M]
    and columns [offset <= c < ncol] of the output, and nothing else. *)
Lemma csrmmnt_launch_updates (offset ncol : Z) (sched : list thread) :
  launch_x_ok BLOCKSIZE WF_SIZE M L ->
  0 <= offset ->
  dense_valid ncol K ldb B = true ->
  C_valid order M ncol ldc C0 = true ->
  sched ≡ₚ grid_threads L ->
  updates (length C0) (cell_index order ldc)
    (fun c v => stored_value alpha beta v
                  (nt_dot WF_SIZE trans_A trans_B csr_row_ptr csr_col_ind
                          csr_val B ldb idx_base c))
    (block_cells 0 M offset ncol)
    (run_grid (csrmmnt_general_device BLOCKSIZE WF_SIZE trans_A trans_B offset ncol
                 M N K nnz alpha csr_row_ptr csr_col_ind csr_val B ldb beta ldc
                 order idx_base L) sched).
Proof.
  intros HL Hoff HB HC Hperm.
  eapply updates_ext.
  { intros C. unfold run_grid. apply foldM_ext. intros t C' _.
    symmetry. apply csrmmnt_as_thread. }
  apply (nt_grid_updates BLOCKSIZE WF_SIZE w nw Hcfg offset ncol M L HL).
  - intros row lid l Hrow Hlid Hl.
    apply (csrmmnt_col_updates offset); (assumption || lia).
  - intros c Hr Hc. apply (C_valid_index _ _ _ _ _ _ HC); [assumption|lia].
  - intros c1 c2 ? ? ? ?. apply (C_valid_inj _ _ _ _ _ _ _ HC); lia.
  - assumption.
Qed.

End RowParallel.

(** ** The additions of the atomic kernels *)

Lemma list_bind_ext_in {A B : Type} (f g : A -> list B) (l : list A) :
  (forall x, x ∈ l -> f x = g x) -> l ≫= f = l ≫= g.
Proof.
  induction l as [|x l IH]; intros E; [reflexivity|].
  change ((x :: l) ≫= f) with (f x ++ (l ≫= f)).
  change ((x :: l) ≫= g) with (g x ++ (l ≫= g)).
  rewrite (E x) by left. rewrite IH by (intros; apply E; right; assumption).
  reflexivity.
Qed.

Section Atomic.
Context {T : Type} `{Scalar T}.
Variables (BLOCKSIZE WF_SIZE : Z) (w nw : nat).
Hypothesis Hcfg : config_ok BLOCKSIZE WF_SIZE w nw.

Variables (trans_A trans_B : rocsparse_operation) (M N K nnz : Z) (alpha : T).
Variables (csr_row_ptr csr_col_ind : list Z) (csr_val B : list T) (ldb : Z).
Variables (beta : T) (ldc : Z) (order : rocsparse_order).
Variable idx_base : rocsparse_index_base.
Variable L : launch.

(** The stored matrix has K rows and M columns: op(A) is its transpose. *)
Hypothesis Hcsr : csr_valid K M csr_row_ptr csr_col_ind csr_val idx_base = true.

(** The scatter of one lane's share of a row, given the tile. *)
Lemma scatter_row_items (slot : Z -> T) (bval : Z -> Z -> T)
    (by_ lid row : Z) (adds : list (Z * T)) :
  0 <= row < K -> 0 <= lid ->
  (forall i, 0 <= i < WF_SIZE -> i + by_ * WF_SIZE < N ->
             slot i = bval row (i + by_ * WF_SIZE)) ->
  scatter_row WF_SIZE trans_A N alpha csr_col_ind csr_val ldc order idx_base
    by_ lid
    (zat csr_row_ptr row - base_val idx_base)
    (zat csr_row_ptr (row + 1) - base_val idx_base)
    (slot <$> seqZ 0 WF_SIZE) adds
  = Ok (adds ++ atomic_items WF_SIZE trans_A N alpha csr_col_ind csr_val ldc
                  order idx_base bval by_ lid
                  (zat csr_row_ptr row - base_val idx_base)
                  (zat csr_row_ptr (row + 1) - base_val idx_base) row).
Proof.
  intros Hrow Hlid Hslot.
  pose proof (WF_pos _ _ _ _ Hcfg) as HWF.
  destruct (csr_valid_row _ _ _ _ _ _ Hcsr row Hrow)
    as (_ & _ & Hrs & Hci & Hval & _).
  unfold scatter_row, atomic_items.
  rewrite for_loop_stride by lia.
  apply foldM_items. intros p acc Hp%elem_of_stride_range; [|assumption].
  rewrite !load_Ok by lia. cbn [bind].
  assert (forall i : Z,
            (i <? WF_SIZE) && (i + by_ * WF_SIZE <? N)
            = (i <? Z.min WF_SIZE (N - by_ * WF_SIZE))) as Econd.
  { intros i. destruct (Z.ltb_spec i WF_SIZE), (Z.ltb_spec (i + by_ * WF_SIZE) N),
      (Z.ltb_spec i (Z.min WF_SIZE (N - by_ * WF_SIZE))); simpl; lia. }
  assert (forall (f : Z -> Z * T) (acc : list (Z * T)),
    for_loop (Z.to_nat WF_SIZE)
      (fun i => (i <? WF_SIZE) && (i + by_ * WF_SIZE <? N)) 1
      (fun i adds => sb <- load OOB_shared (slot <$> seqZ 0 WF_SIZE) i ;;
                     Ok (adds ++ [f i])) 0 acc
    = Ok (acc ++ (seqZ 0 (Z.min WF_SIZE (N - by_ * WF_SIZE)) ≫= fun i => [f i])))
    as Einner.
  { intros f acc'.
    rewrite (for_loop_cond_ext _ _ _ _ _ _ _ Econd).
    rewrite for_loop_stride, stride_unit, Z.sub_0_r by lia.
    apply foldM_items. intros i acc'' Hi%elem_of_seqZ.
    rewrite load_seqZ_fmap by lia. reflexivity. }
  assert (forall v : T,
            match trans_A with
            | rocsparse_operation_conjugate_transpose =>
                Tmul alpha (rocsparse_conj v)
            | _ => Tmul alpha v
            end = Tmul alpha (op_conj trans_A v)) as Eval
    by (intros v; destruct trans_A; reflexivity).
  rewrite Eval.
  transitivity (Ok (acc ++ (seqZ 0 (Z.min WF_SIZE (N - by_ * WF_SIZE)) ≫= fun i =>
      [(dense_index order ldc (zat csr_col_ind p - base_val idx_base)
                    (i + by_ * WF_SIZE),
        Tmul (Tmul alpha (op_conj trans_A (zat csr_val p))) (zat (slot <$> seqZ 0 WF_SIZE) i))]))).
  - destruct order; simpl.
    + rewrite <- Einner. apply for_loop_ext with (I := fun _ => True); auto.
      intros i s _ Hc. rewrite Econd in Hc. apply Z.ltb_lt in Hc.
      destruct (Z.le_gt_cases 0 i).
      * rewrite load_seqZ_fmap, zat_seqZ_fmap by lia. reflexivity.
      * unfold load. destruct (Z.ltb_spec i 0); [reflexivity|lia].
    + rewrite <- Einner. apply for_loop_ext with (I := fun _ => True); auto.
      intros i s _ Hc. rewrite Econd in Hc. apply Z.ltb_lt in Hc.
      destruct (Z.le_gt_cases 0 i).
      * rewrite load_seqZ_fmap, zat_seqZ_fmap by lia. reflexivity.
      * unfold load. destruct (Z.ltb_spec i 0); [reflexivity|lia].
  - do 2 f_equal. apply list_bind_ext_in. intros i Hi%elem_of_seqZ.
    rewrite zat_seqZ_fmap, Hslot by lia. reflexivity.
Qed.

(** The tile of kernel tn. *)
Lemma tn_fill_tile (by_ row : Z) :
  dense_valid K N ldb B = true ->
  0 <= row < K -> 0 <= by_ ->
  fill_tile (tn_fill_B_slot WF_SIZE trans_B N B ldb by_ row) (seqZ 0 WF_SIZE)
  = Ok ((fun l => if l + by_ * WF_SIZE <? N
                  then tn_bval trans_B B ldb row (l + by_ * WF_SIZE) else T0)
          <$> seqZ 0 WF_SIZE).
Proof.
  intros HB Hrow Hby. pose proof (WF_pos _ _ _ _ Hcfg) as HWF.
  apply fill_tile_Ok. intros l Hl%elem_of_seqZ.
  unfold tn_fill_B_slot, tn_bval. cbv zeta.
  destruct (Z.ltb_spec (l + by_ * WF_SIZE) N).
  - assert (0 <= l + by_ * WF_SIZE < N) as Hc by nia.
    pose proof (dense_valid_index _ _ _ _ _ _ HB Hrow Hc).
    destruct trans_B; cbn [op_conj]; rewrite load_Ok by lia; reflexivity.
  - destruct trans_B; reflexivity.
Qed.

(** The tile of kernel tt. *)
Lemma tt_fill_tile (by_ row : Z) :
  dense_valid N K ldb B = true ->
  0 <= row < K -> 0 <= by_ ->
  fill_tile (tt_fill_B_slot WF_SIZE trans_B N B ldb by_ row) (seqZ 0 WF_SIZE)
  = Ok ((fun l => if l + by_ * WF_SIZE <? N
                  then tt_bval trans_B B ldb row (l + by_ * WF_SIZE) else T0)
          <$> seqZ 0 WF_SIZE).
Proof.
  intros HB Hrow Hby. pose proof (WF_pos _ _ _ _ Hcfg) as HWF.
  apply fill_tile_Ok. intros l Hl%elem_of_seqZ.
  unfold tt_fill_B_slot, tt_bval. cbv zeta.
  destruct (Z.ltb_spec (l + by_ * WF_SIZE) N).
  - assert (0 <= l + by_ * WF_SIZE < N) as Hc by nia.
    pose proof (dense_valid_index _ _ _ _ _ _ HB Hc Hrow).
    destruct trans_B; cbn [op_conj]; rewrite load_Ok by lia; reflexivity.
  - destruct trans_B; reflexivity.
Qed.

(** One iteration of the row loop, for a kernel whose tile holds [bval]. *)
Lemma atomic_row_items (fill_B : Z -> Z -> result T) (bval : Z -> Z -> T)
    (by_ lid row : Z) (adds : list (Z * T)) :
  0 <= row < K -> 0 <= lid ->
  fill_tile (fill_B row) (seqZ 0 WF_SIZE)
  = Ok ((fun l => if l + by_ * WF_SIZE <? N
                  then bval row (l + by_ * WF_SIZE) else T0) <$> seqZ 0 WF_SIZE) ->
  atomic_row WF_SIZE fill_B trans_A N alpha csr_row_ptr csr_col_ind csr_val ldc
    order idx_base by_ lid row adds
  = Ok (adds ++ atomic_items WF_SIZE trans_A N alpha csr_col_ind csr_val ldc
                  order idx_base bval by_ lid
                  (zat csr_row_ptr row - base_val idx_base)
                  (zat csr_row_ptr (row + 1) - base_val idx_base) row).
Proof.
  intros Hrow Hlid Hfill.
  destruct (csr_valid_row _ _ _ _ _ _ Hcsr row Hrow) as (Eld1 & Eld2 & _).
  unfold atomic_row. rewrite Eld1, Eld2, Hfill. cbn [bind].
  apply scatter_row_items; [assumption|assumption|].
  intros i Hi Hlt. destruct (Z.ltb_spec (i + by_ * WF_SIZE) N); [reflexivity|lia].
Qed.

(** All the additions of one thread. *)
Lemma atomic_thread_items (fill_B : Z -> Z -> Z -> result T) (bval : Z -> Z -> T)
    (t : thread) :
  (0 < hipGridDim_x L)%nat ->
  (forall row, 0 <= row < K ->
     fill_tile (fill_B (Z.of_nat (hipBlockIdx_y t)) row) (seqZ 0 WF_SIZE)
     = Ok ((fun l => if l + Z.of_nat (hipBlockIdx_y t) * WF_SIZE <? N
                     then bval row (l + Z.of_nat (hipBlockIdx_y t) * WF_SIZE)
                     else T0) <$> seqZ 0 WF_SIZE)) ->
  for_loop (Z.to_nat (K - gid_of BLOCKSIZE t ÷ WF_SIZE)) (fun row => row <? K)
    ((Z.of_nat (hipGridDim_x L) * BLOCKSIZE) ÷ WF_SIZE)
    (atomic_row WF_SIZE (fill_B (Z.of_nat (hipBlockIdx_y t)))
       trans_A N alpha csr_row_ptr csr_col_ind csr_val ldc order idx_base
       (Z.of_nat (hipBlockIdx_y t)) (Z.land (gid_of BLOCKSIZE t) (WF_SIZE - 1)))
    (gid_of BLOCKSIZE t ÷ WF_SIZE) []
  = Ok (lane_adds WF_SIZE trans_A N K alpha csr_row_ptr csr_col_ind csr_val ldc
          order idx_base bval
          ((Z.of_nat (hipGridDim_x L) * BLOCKSIZE) ÷ WF_SIZE)
          (gid_of BLOCKSIZE t ÷ WF_SIZE)
          (Z.land (gid_of BLOCKSIZE t) (WF_SIZE - 1))
          (Z.of_nat (hipBlockIdx_y t))).
Proof.
  intros Hgx Hfill.
  pose proof (row0_nonneg _ _ _ _ Hcfg t) as Hp.
  pose proof (lid_range _ _ _ _ Hcfg (gid_of BLOCKSIZE t)) as Hl.
  assert (0 < (Z.of_nat (hipGridDim_x L) * BLOCKSIZE) ÷ WF_SIZE) as Hnwf.
  { rewrite (nwf_eq _ _ _ _ Hcfg). pose proof Hcfg as (_ & ? & _). nia. }
  rewrite for_loop_stride by lia.
  unfold lane_adds. rewrite <- (app_nil_l (_ ≫= _)).
  apply foldM_items. intros row acc Hr%elem_of_stride_range; [|assumption].
  apply atomic_row_items; [lia|lia|]. apply Hfill. lia.
Qed.

Lemma csrmmtn_thread_adds (t : thread) :
  (0 < hipGridDim_x L)%nat ->
  dense_valid K N ldb B = true ->
  csrmmtn_general_device BLOCKSIZE WF_SIZE trans_A trans_B M N K nnz alpha
    csr_row_ptr csr_col_ind csr_val B ldb beta ldc order idx_base L t
  = Ok (lane_adds WF_SIZE trans_A N K alpha csr_row_ptr csr_col_ind csr_val ldc
          order idx_base (tn_bval trans_B B ldb)
          ((Z.of_nat (hipGridDim_x L) * BLOCKSIZE) ÷ WF_SIZE)
          (gid_of BLOCKSIZE t ÷ WF_SIZE)
          (Z.land (gid_of BLOCKSIZE t) (WF_SIZE - 1))
          (Z.of_nat (hipBlockIdx_y t))).
Proof.
  intros Hgx HB.
  apply (atomic_thread_items (tn_fill_B_slot WF_SIZE trans_B N B ldb)); [assumption|].
  intros row Hrow. apply tn_fill_tile; [assumption|assumption|lia].
Qed.

Lemma csrmmtt_thread_adds (t : thread) :
  (0 < hipGridDim_x L)%nat ->
  dense_valid N K ldb B = true ->
  csrmmtt_general_device BLOCKSIZE WF_SIZE trans_A trans_B M N K nnz alpha
    csr_row_ptr csr_col_ind csr_val B ldb beta ldc order idx_base L t
  = Ok (lane_adds WF_SIZE trans_A N K alpha csr_row_ptr csr_col_ind csr_val ldc
          order idx_base (tt_bval trans_B B ldb)
          ((Z.of_nat (hipGridDim_x L) * BLOCKSIZE) ÷ WF_SIZE)
          (gid_of BLOCKSIZE t ÷ WF_SIZE)
          (Z.land (gid_of BLOCKSIZE t) (WF_SIZE - 1))
          (Z.of_nat (hipBlockIdx_y t))).
Proof.
  intros Hgx HB.
  apply (atomic_thread_items (tt_fill_B_slot WF_SIZE trans_B N B ldb)); [assumption|].
  intros row Hrow. apply tt_fill_tile; [assumption|assumption|lia].
Qed.

End Atomic.

(** The additions of a launch, thread after thread. *)
Lemma grid_adds_items {T : Type} `{Scalar T}
    (kernel : thread -> result (list (Z * T))) (F : thread -> list (Z * T))
    (threads : list thread) :
  (forall t, t ∈ threads -> kernel t = Ok (F t)) ->
  grid_adds kernel threads = Ok (threads ≫= F).
Proof.
  intros Hk. unfold grid_adds. rewrite <- (app_nil_l (_ ≫= _)).
  apply foldM_items. intros t acc Ht. rewrite (Hk t Ht). reflexivity.
Qed.

(** ** How a launch divides the work *)

(** The lanes of a subgroup share the range [a <= p < b] among them. *)
Lemma lanes_partition (a b s : Z) :
  0 < s -> (lid ← seqZ 0 s; stride (a + lid) b s) ≡ₚ seqZ a (b - a).
Proof.
  intros Hs. apply NoDup_Permutation.
  - apply NoDup_bind; [| |apply NoDup_seqZ].
    + intros l1 l2 x Hl1%elem_of_seqZ Hl2%elem_of_seqZ
        (n1 & Hn1 & E1 & _)%elem_of_stride (n2 & Hn2 & E2 & _)%elem_of_stride;
        try assumption.
      assert (n1 = n2 /\ l1 = l2) as [_ ?]; [|assumption].
      apply (div_mod_unique s); lia.
    + intros l _. apply NoDup_stride. assumption.
  - apply NoDup_seqZ.
  - intros x. rewrite list_elem_of_bind, elem_of_seqZ. split.
    + intros (l & Hx & Hl%elem_of_seqZ).
      apply elem_of_stride_range in Hx; [|assumption]. lia.
    + intros Hx. exists ((x - a) `mod` s).
      pose proof (Z.mod_pos_bound (x - a) s Hs).
      pose proof (Z.div_mod (x - a) s ltac:(lia)).
      split; [|apply elem_of_seqZ; lia].
      apply elem_of_stride; [assumption|].
      exists ((x - a) `div` s). split; [apply Z.div_pos; lia|]. split; lia.
Qed.

(** The subgroups of a launch share the rows among them. *)
Lemma rows_partition (n s : Z) :
  0 < s -> (r0 ← seqZ 0 s; stride r0 n s) ≡ₚ seqZ 0 n.
Proof.
  intros Hs. pose proof (lanes_partition 0 n s Hs) as P.
  rewrite Z.sub_0_r in P. exact P.
Qed.

(** The blocks along y share the columns among them. *)
Lemma col_tiles_partition (WF_SIZE N gy : Z) :
  0 < WF_SIZE -> N <= gy * WF_SIZE ->
  (by_ ← seqZ 0 gy; i ← seqZ 0 (Z.min WF_SIZE (N - by_ * WF_SIZE));
   [i + by_ * WF_SIZE]) ≡ₚ seqZ 0 N.
Proof.
  intros HWF HN. apply NoDup_Permutation.
  - apply NoDup_bind; [| |apply NoDup_seqZ].
    + intros b1 b2 x _ _
        (i1 & ->%list_elem_of_singleton & Hi1%elem_of_seqZ)%list_elem_of_bind
        (i2 & E%list_elem_of_singleton & Hi2%elem_of_seqZ)%list_elem_of_bind.
      assert (b1 = b2 /\ i1 = i2) as [? _]; [|assumption].
      apply (div_mod_unique WF_SIZE); lia.
    + intros b _. apply NoDup_bind; [| |apply NoDup_seqZ].
      * intros i1 i2 x _ _ ->%list_elem_of_singleton E%list_elem_of_singleton. lia.
      * intros i _. apply NoDup_singleton.
  - apply NoDup_seqZ.
  - intros x. rewrite list_elem_of_bind, elem_of_seqZ. split.
    + intros (b & (i & ->%list_elem_of_singleton & Hi%elem_of_seqZ)%list_elem_of_bind
                & Hb%elem_of_seqZ). nia.
    + intros Hx. exists (x `div` WF_SIZE).
      pose proof (Z.mod_pos_bound x WF_SIZE HWF).
      pose proof (Z.div_mod x WF_SIZE ltac:(lia)).
      assert (0 <= x `div` WF_SIZE < gy).
      { split; [apply Z.div_pos; lia|apply Z.div_lt_upper_bound; nia]. }
      split; [|apply elem_of_seqZ; lia].
      apply list_elem_of_bind. exists (x `mod` WF_SIZE).
      split; [apply list_elem_of_singleton; lia|apply elem_of_seqZ; lia].
Qed.

Section ThreadKeys.
Variables (BLOCKSIZE WF_SIZE : Z) (w nw : nat).
Hypothesis Hcfg : config_ok BLOCKSIZE WF_SIZE w nw.
Variables (N : Z) (L : launch).
Hypothesis HL : launch_xy_ok BLOCKSIZE WF_SIZE N L.

(** The threads of a launch are its subgroups times its lanes times its
    blocks along y. *)
Lemma thread_keys_partition :
  thread_key BLOCKSIZE WF_SIZE <$> grid_threads L
  ≡ₚ (r0 ← seqZ 0 ((Z.of_nat (hipGridDim_x L) * BLOCKSIZE) ÷ WF_SIZE);
      lid ← seqZ 0 WF_SIZE;
      by_ ← seqZ 0 (Z.of_nat (hipGridDim_y L));
      [(r0, lid, by_)]).
Proof.
  pose proof (WF_pos _ _ _ _ Hcfg) as HWF.
  pose proof (BS_pos _ _ _ _ Hcfg) as HBS.
  apply NoDup_Permutation.
  - apply NoDup_fmap_2_strong; [|apply NoDup_grid_threads].
    intros t1 t2 (Hx1 & Hy1 & Ht1 & Hz1)%(nn_thread_in_grid _ _ _ _ HL)
                 (Hx2 & Hy2 & Ht2 & Hz2)%(nn_thread_in_grid _ _ _ _ HL) E.
    unfold thread_key in E. injection E as Er El Ey.
    pose proof (gid_of_parts _ _ _ _ Hcfg t1 t2 Er El) as Eg.
    apply (gid_inj BLOCKSIZE) in Eg as [Ebx Etx]; [|assumption|assumption].
    destruct t1, t2; simpl in *. f_equal; lia.
  - apply NoDup_bind; [| |apply NoDup_seqZ].
    { intros r1 r2 k _ _
        (? & (? & ->%list_elem_of_singleton & _)%list_elem_of_bind & _)%list_elem_of_bind
        (? & (? & E%list_elem_of_singleton & _)%list_elem_of_bind & _)%list_elem_of_bind.
      congruence. }
    intros r _. apply NoDup_bind; [| |apply NoDup_seqZ].
    { intros l1 l2 k _ _
        (? & ->%list_elem_of_singleton & _)%list_elem_of_bind
        (? & E%list_elem_of_singleton & _)%list_elem_of_bind.
      congruence. }
    intros l _. apply NoDup_bind; [| |apply NoDup_seqZ].
    { intros b1 b2 k _ _ ->%list_elem_of_singleton E%list_elem_of_singleton.
      congruence. }
    intros b _. apply NoDup_singleton.
  - intros [[r0 lid] by_]. rewrite list_elem_of_fmap. split.
    + intros (t & E & (Hx & Hy & Ht & Hz)%(nn_thread_in_grid _ _ _ _ HL)).
      unfold thread_key in E. injection E as -> -> ->.
      pose proof (row0_nonneg _ _ _ _ Hcfg t).
      pose proof (row0_lt _ _ _ _ Hcfg _ t Hx Ht) as Hlt.
      rewrite <- (nwf_eq _ _ _ _ Hcfg) in Hlt.
      pose proof (lid_range _ _ _ _ Hcfg (gid_of BLOCKSIZE t)).
      apply list_elem_of_bind. exists (gid_of BLOCKSIZE t ÷ WF_SIZE).
      split; [|apply elem_of_seqZ; lia].
      apply list_elem_of_bind. exists (Z.land (gid_of BLOCKSIZE t) (WF_SIZE - 1)).
      split; [|apply elem_of_seqZ; lia].
      apply list_elem_of_bind. exists (Z.of_nat (hipBlockIdx_y t)).
      split; [|apply elem_of_seqZ; lia].
      apply list_elem_of_singleton. reflexivity.
    + intros (? & (? & (? & [= <- <- <-]%list_elem_of_singleton & Hb%elem_of_seqZ)%list_elem_of_bind
                     & Hl%elem_of_seqZ)%list_elem_of_bind & Hr%elem_of_seqZ)%list_elem_of_bind.
      rewrite (nwf_eq _ _ _ _ Hcfg) in Hr.
      set (gid := r0 * WF_SIZE + lid).
      assert (0 <= gid < Z.of_nat (hipGridDim_x L) * BLOCKSIZE) as Hgid.
      { pose proof Hcfg as (_ & _ & E). rewrite E. unfold gid. nia. }
      pose proof (Z.div_mod gid BLOCKSIZE ltac:(lia)) as Egid.
      pose proof (Z.mod_pos_bound gid BLOCKSIZE HBS) as Htid.
      assert (0 <= gid `div` BLOCKSIZE < Z.of_nat (hipGridDim_x L)) as Hbx.
      { split; [apply Z.div_pos; lia|apply Z.div_lt_upper_bound; lia]. }
      set (t := {| hipBlockIdx_x := Z.to_nat (gid `div` BLOCKSIZE);
                   hipBlockIdx_y := Z.to_nat by_;
                   hipThreadIdx_x := Z.to_nat (gid `mod` BLOCKSIZE);
                   hipThreadIdx_y := 0 |}).
      assert (gid_of BLOCKSIZE t = gid) as Eg.
      { unfold gid_of, t. simpl. rewrite !Z2Nat.id by lia. lia. }
      assert (gid ÷ WF_SIZE = r0 /\ gid `mod` WF_SIZE = lid) as [Erow Elid].
      { rewrite quot_nonneg by lia.
        pose proof (Z.div_mod gid WF_SIZE ltac:(lia)) as E.
        pose proof (Z.mod_pos_bound gid WF_SIZE HWF).
        apply (div_mod_unique WF_SIZE); [assumption|lia|].
        transitivity gid; [lia|reflexivity]. }
      exists t. split.
      * unfold thread_key. rewrite Eg, (lid_eq _ _ _ _ Hcfg), Erow, Elid.
        unfold t; simpl. rewrite Z2Nat.id by lia. reflexivity.
      * apply elem_of_grid_threads. unfold t; simpl.
        pose proof HL as (E1 & E2 & _ & _). lia.
Qed.

End ThreadKeys.

(** ** Sums over the work of a launch *)

Section WorkSums.
Context {T : Type} `{ScalarLaws T}.

Add Ring T_semiring_work : scalar_sr.

Lemma sumL_singleton {A : Type} (f : A -> T) (x : A) : sumL f [x] = f x.
Proof. unfold sumL. simpl. ring. Qed.

Lemma sumL_if_mul_r (c : bool) (x y : T) :
  Tmul (if c then x else T0) y = if c then Tmul x y else T0.
Proof. destruct c; ring. Qed.

(** A dot product over the nonzeros of a row is a dot product over the
    columns of the dense row. *)
Lemma sparse_dot_dense (va : Z -> T) (col : Z -> Z) (bfun : Z -> T) (rs re K : Z) :
  (forall p, rs <= p < re -> 0 <= col p < K) ->
  sumZ (fun p => Tmul (va p) (bfun (col p))) rs re
  = sumZ (fun k => Tmul (sumZ (fun p => if col p =? k then va p else T0) rs re)
                        (bfun k)) 0 K.
Proof.
  intros Hcol. unfold sumZ.
  transitivity (sumL (fun p => sumL (fun k => if col p =? k
                                             then Tmul (va p) (bfun k) else T0)
                                    (seqZ 0 (K - 0)))
                     (seqZ rs (re - rs))).
  - apply sumL_ext. intros p Hp%elem_of_seqZ.
    rewrite (sumL_delta_in (fun k => Tmul (va p) (bfun k)));
      [reflexivity|apply NoDup_seqZ|].
    apply elem_of_seqZ. specialize (Hcol p ltac:(lia)). lia.
  - rewrite sumL_swap. apply sumL_ext. intros k _.
    rewrite sumL_mul_r. apply sumL_ext. intros p _.
    rewrite sumL_if_mul_r. reflexivity.
Qed.

(** The six nested loops of a launch of an atomic kernel visit every
    (row, nonzero, column) once. *)
Lemma launch_sum_partition (h : Z -> Z -> Z -> T) (rs re : Z -> Z)
    (nwf WF_SIZE gy N K : Z) :
  0 < nwf -> 0 < WF_SIZE -> N <= gy * WF_SIZE ->
  sumL (fun r0 =>
    sumL (fun lid =>
      sumL (fun by_ =>
        sumL (fun row =>
          sumL (fun p =>
            sumL (fun i => h row p (i + by_ * WF_SIZE))
                 (seqZ 0 (Z.min WF_SIZE (N - by_ * WF_SIZE))))
            (stride (rs row + lid) (re row) WF_SIZE))
          (stride r0 K nwf))
        (seqZ 0 gy))
      (seqZ 0 WF_SIZE))
    (seqZ 0 nwf)
  = sumL (fun row =>
      sumL (fun p => sumL (fun j => h row p j) (seqZ 0 N))
           (seqZ (rs row) (re row - rs row)))
      (seqZ 0 K).
Proof.
  intros Hnwf HWF HN.
  assert (forall row p,
            sumL (fun by_ => sumL (fun i => h row p (i + by_ * WF_SIZE))
                               (seqZ 0 (Z.min WF_SIZE (N - by_ * WF_SIZE))))
                 (seqZ 0 gy)
            = sumL (fun j => h row p j) (seqZ 0 N)) as Ecols.
  { intros row p.
    rewrite <- (sumL_perm _ _ _ (col_tiles_partition WF_SIZE N gy HWF HN)).
    rewrite sumL_bind. apply sumL_ext. intros b _.
    rewrite sumL_bind. apply sumL_ext. intros i _.
    rewrite sumL_singleton. reflexivity. }
  assert (forall row (Y : Z -> T),
            sumL (fun lid => sumL Y (stride (rs row + lid) (re row) WF_SIZE))
                 (seqZ 0 WF_SIZE)
            = sumL Y (seqZ (rs row) (re row - rs row))) as Elanes.
  { intros row Y.
    rewrite <- (sumL_perm _ _ _ (lanes_partition (rs row) (re row) WF_SIZE HWF)).
    rewrite sumL_bind. reflexivity. }
  rewrite <- (sumL_perm _ _ _ (rows_partition K nwf Hnwf)).
  rewrite sumL_bind. apply sumL_ext. intros r0 _.
  transitivity (sumL (fun lid =>
                  sumL (fun row =>
                    sumL (fun p => sumL (fun j => h row p j) (seqZ 0 N))
                         (stride (rs row + lid) (re row) WF_SIZE))
                    (stride r0 K nwf))
                  (seqZ 0 WF_SIZE)).
  - apply sumL_ext. intros lid _.
    rewrite sumL_swap. apply sumL_ext. intros row _.
    rewrite sumL_swap. apply sumL_ext. intros p _.
    apply Ecols.
  - rewrite sumL_swap. apply sumL_ext. intros row _.
    apply (Elanes row (fun p => sumL (fun j => h row p j) (seqZ 0 N))).
Qed.

(** ** Applying atomic additions *)

Lemma contrib_cons (a : Z) (av : Z * T) (adds : list (Z * T)) :
  contrib a (av :: adds)
  = Tadd (if fst av =? a then snd av else T0) (contrib a adds).
Proof. reflexivity. Qed.

Lemma contrib_perm (a : Z) (l1 l2 : list (Z * T)) :
  l1 ≡ₚ l2 -> contrib a l1 = contrib a l2.
Proof. apply sumL_perm. Qed.

(** Additions inside the buffer never fault; they leave in every element its
    old value plus everything added to it, in whatever order. *)
Lemma apply_adds_contrib (sched : list (Z * T)) (C : list T) :
  Forall (fun av => 0 <= fst av < Z.of_nat (length C)) sched ->
  exists C', apply_adds sched C = Ok C' /\ length C' = length C
             /\ forall a, 0 <= a < Z.of_nat (length C) ->
                  zat C' a = Tadd (zat C a) (contrib a sched).
Proof.
  revert C. induction sched as [|[a0 v] sched IH]; intros C Hall.
  - exists C. repeat split; auto. intros a _. unfold contrib, sumL. simpl. ring.
  - apply Forall_cons in Hall as [Ha0 Hall]. simpl in Ha0.
    unfold apply_adds. cbn [foldM]. unfold atomicAdd at 1. cbn [fst snd].
    rewrite load_Ok by lia. cbn [bind]. rewrite store_Ok by lia. cbn [bind].
    set (C1 := <[Z.to_nat a0 := Tadd (zat C a0) v]> C).
    assert (length C1 = length C) as HL1 by apply length_insert.
    destruct (IH C1) as (C' & E & HL & Hval).
    { rewrite HL1. assumption. }
    exists C'. split; [exact E|]. split; [congruence|].
    intros a Ha. rewrite Hval by (rewrite HL1; assumption).
    rewrite contrib_cons. cbn [fst snd].
    destruct (Z.eqb_spec a0 a) as [->|Hne].
    + unfold zat at 1, C1. rewrite list_lookup_total_insert_eq by lia.
      fold (zat C a). ring.
    + unfold zat at 1, C1. rewrite list_lookup_total_insert_ne by lia.
      fold (zat C a). ring.
Qed.

End WorkSums.

(** ** A launch of an atomic kernel on well-formed inputs *)

Section AtomicLaunch.
Context {T : Type} `{ScalarLaws T}.

Add Ring T_semiring_atomic : scalar_sr.

Variables (BLOCKSIZE WF_SIZE : Z) (w nw : nat).
Hypothesis Hcfg : config_ok BLOCKSIZE WF_SIZE w nw.
Variables (trans_A : rocsparse_operation) (M N K : Z) (alpha : T).
Variables (csr_row_ptr csr_col_ind : list Z) (csr_val : list T).
Variables (C : list T) (ldc : Z) (order : rocsparse_order).
Variable idx_base : rocsparse_index_base.
Variable L : launch.
Variable bval : Z -> Z -> T.

Hypothesis Hcsr : csr_valid K M csr_row_ptr csr_col_ind csr_val idx_base = true.
Hypothesis HL : launch_xy_ok BLOCKSIZE WF_SIZE N L.
Hypothesis HC : C_valid order M N ldc C = true.

(** Every addition of a lane falls on an element of the M x N output. *)
Lemma lane_adds_cells (nwf r0 lid by_ : Z) (av : Z * T) :
  0 < nwf -> 0 <= r0 -> 0 <= lid -> 0 <= by_ ->
  av ∈ lane_adds WF_SIZE trans_A N K alpha csr_row_ptr csr_col_ind csr_val ldc
         order idx_base bval nwf r0 lid by_ ->
  exists c, 0 <= fst c < M /\ 0 <= snd c < N /\ fst av = cell_index order ldc c.
Proof.
  intros Hnwf Hr0 Hlid Hby. pose proof (WF_pos _ _ _ _ Hcfg) as HWF.
  unfold lane_adds, atomic_items.
  intros (row & Hav & Hrow%elem_of_stride_range)%list_elem_of_bind; [|assumption].
  apply list_elem_of_bind in Hav as (p & Hav & Hp%elem_of_stride_range); [|assumption].
  apply list_elem_of_bind in Hav as (i & ->%list_elem_of_singleton & Hi%elem_of_seqZ).
  destruct (csr_valid_row _ _ _ _ _ _ Hcsr row ltac:(lia))
    as (_ & _ & Hrs & _ & _ & Hcols).
  exists (zat csr_col_ind p - base_val idx_base, i + by_ * WF_SIZE).
  cbn [fst snd]. split; [apply Hcols; lia|]. split; [nia|reflexivity].
Qed.

(** What a launch adds to the element [(i0, j0)] of the output. *)
Lemma launch_contrib (i0 j0 : Z) :
  0 <= i0 < M -> 0 <= j0 < N ->
  contrib (cell_index order ldc (i0, j0))
    (grid_threads L ≫= fun t =>
       lane_adds WF_SIZE trans_A N K alpha csr_row_ptr csr_col_ind csr_val ldc
         order idx_base bval
         ((Z.of_nat (hipGridDim_x L) * BLOCKSIZE) ÷ WF_SIZE)
         (gid_of BLOCKSIZE t ÷ WF_SIZE)
         (Z.land (gid_of BLOCKSIZE t) (WF_SIZE - 1))
         (Z.of_nat (hipBlockIdx_y t)))
  = Tmul alpha
      (sumZ (fun k =>
               Tmul (csr_dense (op_conj trans_A) csr_row_ptr csr_col_ind csr_val
                               idx_base k i0)
                    (bval k j0)) 0 K).
Proof.
  intros Hi0 Hj0.
  pose proof (WF_pos _ _ _ _ Hcfg) as HWF.
  pose proof (nwf_pos _ _ _ _ Hcfg _ _ HL) as Hnwf.
  set (nwf := (Z.of_nat (hipGridDim_x L) * BLOCKSIZE) ÷ WF_SIZE) in *.
  set (a := cell_index order ldc (i0, j0)).
  set (c := fun av : Z * T => if fst av =? a then snd av else T0).
  set (h := fun row p j : Z =>
              c (dense_index order ldc (zat csr_col_ind p - base_val idx_base) j,
                 Tmul (Tmul alpha (op_conj trans_A (zat csr_val p))) (bval row j))).
  set (G := fun key : Z * Z * Z =>
              lane_adds WF_SIZE trans_A N K alpha csr_row_ptr csr_col_ind csr_val
                ldc order idx_base bval nwf (fst (fst key)) (snd (fst key)) (snd key)).
  unfold contrib. fold c.
  rewrite sumL_bind.
  change (sumL (fun t => sumL c (G (thread_key BLOCKSIZE WF_SIZE t))) (grid_threads L)
          = Tmul alpha
              (sumZ (fun k =>
                 Tmul (csr_dense (op_conj trans_A) csr_row_ptr csr_col_ind csr_val
                                 idx_base k i0) (bval k j0)) 0 K)).
  rewrite <- (sumL_fmap (fun key => sumL c (G key)) (thread_key BLOCKSIZE WF_SIZE)).
  rewrite (sumL_perm _ _ _ (thread_keys_partition _ _ _ _ Hcfg _ _ HL)).
  fold nwf.
  transitivity
    (sumL (fun r0 =>
       sumL (fun lid =>
         sumL (fun by_ =>
           sumL (fun row =>
             sumL (fun p =>
               sumL (fun i => h row p (i + by_ * WF_SIZE))
                    (seqZ 0 (Z.min WF_SIZE (N - by_ * WF_SIZE))))
               (stride (zat csr_row_ptr row - base_val idx_base + lid)
                       (zat csr_row_ptr (row + 1) - base_val idx_base) WF_SIZE))
             (stride r0 K nwf))
           (seqZ 0 (Z.of_nat (hipGridDim_y L))))
         (seqZ 0 WF_SIZE))
       (seqZ 0 nwf)).
  { rewrite sumL_bind. apply sumL_ext. intros r0 _.
    rewrite sumL_bind. apply sumL_ext. intros lid _.
    rewrite sumL_bind. apply sumL_ext. intros by_ _.
    rewrite sumL_singleton. unfold G, lane_adds, atomic_items. cbn [fst snd].
    rewrite sumL_bind. apply sumL_ext. intros row _.
    rewrite sumL_bind. apply sumL_ext. intros p _.
    rewrite sumL_bind. apply sumL_ext. intros i _.
    rewrite sumL_singleton. reflexivity. }
  rewrite (launch_sum_partition h
             (fun row => zat csr_row_ptr row - base_val idx_base)
             (fun row => zat csr_row_ptr (row + 1) - base_val idx_base)
             nwf WF_SIZE (Z.of_nat (hipGridDim_y L)) N K Hnwf HWF
             ltac:(pose proof HL as (_ & _ & _ & ?); assumption)).
  unfold sumZ. rewrite Z.sub_0_r, sumL_mul_l.
  apply sumL_ext. intros row Hrow%elem_of_seqZ.
  destruct (csr_valid_row _ _ _ _ _ _ Hcsr row ltac:(lia))
    as (_ & _ & Hrs & _ & _ & Hcols).
  unfold csr_dense, sumZ. rewrite sumL_mul_r, sumL_mul_l.
  apply sumL_ext. intros p Hp%elem_of_seqZ.
  specialize (Hcols p ltac:(lia)).
  transitivity (sumL (fun j => if j0 =? j
                               then (if zat csr_col_ind p - base_val idx_base =? i0
                                     then Tmul (Tmul alpha (op_conj trans_A (zat csr_val p)))
                                               (bval row j)
                                     else T0)
                               else T0) (seqZ 0 N)).
  - apply sumL_ext. intros j Hj%elem_of_seqZ. unfold h, c, a. cbn [fst snd].
    change (dense_index order ldc (zat csr_col_ind p - base_val idx_base) j)
      with (cell_index order ldc (zat csr_col_ind p - base_val idx_base, j)).
    destruct (Z.eqb_spec (cell_index order ldc (zat csr_col_ind p - base_val idx_base, j))
                         (cell_index order ldc (i0, j0))) as [E|Hne].
    + apply (C_valid_inj _ _ _ _ _ _ _ HC) in E; cbn [fst snd]; try lia.
      injection E as E1 E2. rewrite E1, E2, !Z.eqb_refl. reflexivity.
    + destruct (Z.eqb_spec j0 j) as [<-|]; [|reflexivity].
      destruct (Z.eqb_spec (zat csr_col_ind p - base_val idx_base) i0) as [E|];
        [|reflexivity].
      rewrite E in Hne. contradiction.
  - rewrite (sumL_delta_in (fun j =>
               if zat csr_col_ind p - base_val idx_base =? i0
               then Tmul (Tmul alpha (op_conj trans_A (zat csr_val p))) (bval row j)
               else T0)); [|apply NoDup_seqZ|apply elem_of_seqZ; lia].
    destruct (zat csr_col_ind p - base_val idx_base =? i0); ring.
Qed.

(** The additions of a launch, applied in any order, never fault and leave
    [C + alpha * op(A) * B] in the M x N output and everything else as it
    was. *)
Lemma atomic_launch_result (sched : list (Z * T)) :
  sched ≡ₚ (grid_threads L ≫= fun t =>
       lane_adds WF_SIZE trans_A N K alpha csr_row_ptr csr_col_ind csr_val ldc
         order idx_base bval
         ((Z.of_nat (hipGridDim_x L) * BLOCKSIZE) ÷ WF_SIZE)
         (gid_of BLOCKSIZE t ÷ WF_SIZE)
         (Z.land (gid_of BLOCKSIZE t) (WF_SIZE - 1))
         (Z.of_nat (hipBlockIdx_y t))) ->
  exists C', apply_adds sched C = Ok C' /\ length C' = length C
    /\ (forall i j, 0 <= i < M -> 0 <= j < N ->
          zat C' (cell_index order ldc (i, j))
          = Tadd (zat C (cell_index order ldc (i, j)))
              (Tmul alpha
                 (sumZ (fun k =>
                    Tmul (csr_dense (op_conj trans_A) csr_row_ptr csr_col_ind
                                    csr_val idx_base k i)
                         (bval k j)) 0 K)))
    /\ (forall a, 0 <= a < Z.of_nat (length C) ->
          (forall c, 0 <= fst c < M -> 0 <= snd c < N -> cell_index order ldc c <> a) ->
          zat C' a = zat C a).
Proof.
  intros Hperm.
  pose proof (nwf_pos _ _ _ _ Hcfg _ _ HL) as Hnwf.
  assert (forall av, av ∈ sched ->
            exists c, 0 <= fst c < M /\ 0 <= snd c < N
                      /\ fst av = cell_index order ldc c) as Hcells.
  { intros av Hav. rewrite Hperm in Hav.
    apply list_elem_of_bind in Hav as (t & Hav & _).
    apply lane_adds_cells in Hav; [assumption|assumption| | |lia].
    - apply (row0_nonneg _ _ _ _ Hcfg).
    - apply (lid_range _ _ _ _ Hcfg). }
  destruct (apply_adds_contrib sched C) as (C' & E & Hlen & Hval).
  { apply Forall_forall. intros av Hav.
    destruct (Hcells av Hav) as (c & Hr & Hc & ->).
    apply (C_valid_index _ _ _ _ _ _ HC); assumption. }
  exists C'. split; [exact E|]. split; [exact Hlen|]. split.
  - intros i j Hi Hj.
    rewrite Hval by (apply (C_valid_index _ _ _ _ _ _ HC); assumption).
    rewrite (contrib_perm _ _ _ Hperm), launch_contrib by assumption.
    reflexivity.
  - intros a Ha Hout. rewrite Hval by assumption.
    assert (contrib a sched = T0) as ->; [|ring].
    unfold contrib.
    transitivity (sumL (fun _ : Z * T => T0) sched); [|apply sumL_zero].
    apply sumL_ext. intros av Hav.
    destruct (Hcells av Hav) as (c & Hr & Hc & ->).
    destruct (Z.eqb_spec (cell_index order ldc c) a) as [Ea|]; [|reflexivity].
    exfalso. exact (Hout c Hr Hc Ea).
Qed.

End AtomicLaunch.

(** ** The scale kernel *)

Section Scale.
Context {T : Type} `{Scalar T}.
Variables (m n : Z) (beta : T) (ld : Z) (order : rocsparse_order) (L : launch).

Lemma scale_index (gidx gidy : Z) :
  match order with
  | rocsparse_order_column => gidx + ld * gidy
  | rocsparse_order_row => gidy + ld * gidx
  end = cell_index order ld (gidx, gidy).
Proof. unfold cell_index, dense_index. destruct order; simpl; lia. Qed.

Lemma elem_of_scale_cells (t : thread) (c : Z * Z) :
  c ∈ scale_cells m n L t <->
  c = (Z.of_nat (hipBlockIdx_x t) * Z.of_nat (hipBlockDim_x L)
       + Z.of_nat (hipThreadIdx_x t),
       Z.of_nat (hipBlockIdx_y t) * Z.of_nat (hipBlockDim_y L)
       + Z.of_nat (hipThreadIdx_y t))
  /\ 0 <= fst c < m /\ 0 <= snd c < n.
Proof.
  unfold scale_cells. cbv zeta.
  destruct (Z.leb_spec m (Z.of_nat (hipBlockIdx_x t) * Z.of_nat (hipBlockDim_x L)
                          + Z.of_nat (hipThreadIdx_x t)));
  destruct (Z.leb_spec n (Z.of_nat (hipBlockIdx_y t) * Z.of_nat (hipBlockDim_y L)
                          + Z.of_nat (hipThreadIdx_y t))); cbn [orb];
    rewrite ?list_elem_of_singleton;
    try (split; [intros Hc; inversion Hc|intros (-> & ? & ?); simpl in *; lia]).
  split; [intros ->; simpl; split; [reflexivity|nia]|intros (-> & _); reflexivity].
Qed.

(** One thread rewrites at most its own element, whatever the buffer. *)
Lemma csrmm_scale_device_frame (t : thread) (data data' : list T) (a : nat) :
  csrmm_scale_device m n beta data ld order L t = Ok data' ->
  (forall c, c ∈ scale_cells m n L t -> cell_index order ld c <> Z.of_nat a) ->
  data' !! a = data !! a.
Proof.
  unfold csrmm_scale_device, scale_cells. cbv zeta.
  set (gidx := Z.of_nat (hipBlockIdx_x t) * Z.of_nat (hipBlockDim_x L)
               + Z.of_nat (hipThreadIdx_x t)).
  set (gidy := Z.of_nat (hipBlockIdx_y t) * Z.of_nat (hipBlockDim_y L)
               + Z.of_nat (hipThreadIdx_y t)).
  destruct ((m <=? gidx) || (n <=? gidy)).
  { intros [= <-] _. reflexivity. }
  intros E Hout. specialize (Hout (gidx, gidy) ltac:(left)).
  rewrite <- scale_index in Hout.
  destruct order.
  - apply bind_Ok_inv in E as (d & _ & E). unfold store in E.
    destruct ((0 <=? gidy + ld * gidx) && _) eqn:Eb; [|discriminate].
    injection E as <-. apply andb_prop in Eb as [?%Z.leb_le _].
    apply list_lookup_insert_ne. lia.
  - apply bind_Ok_inv in E as (d & _ & E). unfold store in E.
    destruct ((0 <=? gidx + ld * gidy) && _) eqn:Eb; [|discriminate].
    injection E as <-. apply andb_prop in Eb as [?%Z.leb_le _].
    apply list_lookup_insert_ne. lia.
Qed.

(** So does a launch, whatever its geometry and the order of its threads. *)
Lemma scale_grid_frame (sched : list thread) (data data' : list T) (a : nat) :
  run_grid (fun t data => csrmm_scale_device m n beta data ld order L t) sched data
  = Ok data' ->
  (forall i j, 0 <= i < m -> 0 <= j < n ->
               dense_index order ld i j <> Z.of_nat a) ->
  data' !! a = data !! a.
Proof.
  intros E Hout. revert data E.
  induction sched as [|t sched IH]; intros data E.
  - injection E as <-. reflexivity.
  - unfold run_grid in E. cbn [foldM] in E.
    apply bind_Ok_inv in E as (d1 & E1 & E2).
    rewrite (IH d1 E2).
    apply (csrmm_scale_device_frame t data d1 a E1).
    intros c (_ & Hr & Hc)%elem_of_scale_cells.
    apply (Hout (fst c) (snd c) Hr Hc).
Qed.

Variable data0 : list T.
Hypothesis Hdata : C_valid order m n ld data0 = true.

Lemma csrmm_scale_device_updates (t : thread) :
  updates (length data0) (cell_index order ld) (fun _ v => Tmul v beta)
    (scale_cells m n L t)
    (fun data => csrmm_scale_device m n beta data ld order L t).
Proof.
  intros data Hlen.
  pose proof (elem_of_scale_cells t) as Hcells.
  unfold csrmm_scale_device, scale_cells in *. cbv zeta in *.
  set (gidx := Z.of_nat (hipBlockIdx_x t) * Z.of_nat (hipBlockDim_x L)
               + Z.of_nat (hipThreadIdx_x t)) in *.
  set (gidy := Z.of_nat (hipBlockIdx_y t) * Z.of_nat (hipBlockDim_y L)
               + Z.of_nat (hipThreadIdx_y t)) in *.
  destruct ((m <=? gidx) || (n <=? gidy)).
  { exists data. repeat split; auto. intros c Hc. inversion Hc. }
  destruct (Hcells (gidx, gidy)) as [(_ & Hr & Hc) _]; [left|].
  pose proof (C_valid_index _ _ _ _ _ (gidx, gidy) Hdata Hr Hc) as Hidx.
  exists (<[Z.to_nat (cell_index order ld (gidx, gidy)) :=
            Tmul (zat data (cell_index order ld (gidx, gidy))) beta]> data).
  split; [|split; [|split]].
  - rewrite <- scale_index in *.
    destruct order; rewrite load_Ok by lia; cbn [bind];
      rewrite store_Ok by lia; reflexivity.
  - rewrite length_insert. assumption.
  - intros c ->%list_elem_of_singleton. unfold zat at 1.
    rewrite list_lookup_total_insert_eq by lia. reflexivity.
  - intros a Ha. apply list_lookup_insert_ne, Ha. left.
Qed.

Hypothesis HL : launch_scale_ok m n L.

(** A launch that reaches every element multiplies each element of the
    m x n matrix by beta, once. *)
Lemma scale_launch_updates (sched : list thread) :
  sched ≡ₚ grid_threads L ->
  updates (length data0) (cell_index order ld) (fun _ v => Tmul v beta)
    (block_cells 0 m 0 n)
    (run_grid (fun t data => csrmm_scale_device m n beta data ld order L t) sched).
Proof.
  intros Hperm.
  apply (updates_equiv _ _ _ (sched ≫= scale_cells m n L)).
  { intros c. rewrite elem_of_block_cells, list_elem_of_bind. split.
    - intros (t & (_ & Hr & Hc)%elem_of_scale_cells & _). lia.
    - intros [Hr Hc]. destruct c as [i j]; simpl in *.
      pose proof HL as [Hx Hy].
      assert (0 < Z.of_nat (hipBlockDim_x L)) as Hbx by nia.
      assert (0 < Z.of_nat (hipBlockDim_y L)) as Hby by nia.
      assert (Z.of_nat (hipBlockDim_x L) <> 0) as Hbx0 by lia.
      assert (Z.of_nat (hipBlockDim_y L) <> 0) as Hby0 by lia.
      pose proof (Z.div_mod i _ Hbx0) as Ei.
      pose proof (Z.mod_pos_bound i _ Hbx) as Hi.
      pose proof (Z.div_mod j _ Hby0) as Ej.
      pose proof (Z.mod_pos_bound j _ Hby) as Hj.
      assert (0 <= i `div` Z.of_nat (hipBlockDim_x L) < Z.of_nat (hipGridDim_x L)).
      { split; [apply Z.div_pos; lia|apply Z.div_lt_upper_bound; nia]. }
      assert (0 <= j `div` Z.of_nat (hipBlockDim_y L) < Z.of_nat (hipGridDim_y L)).
      { split; [apply Z.div_pos; lia|apply Z.div_lt_upper_bound; nia]. }
      exists {| hipBlockIdx_x := Z.to_nat (i `div` Z.of_nat (hipBlockDim_x L));
                hipBlockIdx_y := Z.to_nat (j `div` Z.of_nat (hipBlockDim_y L));
                hipThreadIdx_x := Z.to_nat (i `mod` Z.of_nat (hipBlockDim_x L));
                hipThreadIdx_y := Z.to_nat (j `mod` Z.of_nat (hipBlockDim_y L)) |}.
      split.
      + apply elem_of_scale_cells. cbn [hipBlockIdx_x hipBlockIdx_y hipThreadIdx_x
                                         hipThreadIdx_y fst snd].
        rewrite !Z2Nat.id by lia. split; [f_equal; lia|lia].
      + rewrite Hperm. apply elem_of_grid_threads.
        cbn [hipBlockIdx_x hipBlockIdx_y hipThreadIdx_x hipThreadIdx_y]. lia. }
  apply updates_foldM.
  - intros t _. apply csrmm_scale_device_updates.
  - intros c (t & (_ & Hr & Hc)%elem_of_scale_cells & _)%list_elem_of_bind.
    apply (C_valid_index _ _ _ _ _ c Hdata Hr Hc).
  - apply NoDup_fmap_2_strong.
    + intros c1 c2 (t1 & (_ & Hr1 & Hc1)%elem_of_scale_cells & _)%list_elem_of_bind
                   (t2 & (_ & Hr2 & Hc2)%elem_of_scale_cells & _)%list_elem_of_bind.
      apply (C_valid_inj _ _ _ _ _ _ _ Hdata); assumption.
    + apply NoDup_bind.
      * intros t1 t2 c Ht1 Ht2 (E1 & _)%elem_of_scale_cells (E2 & _)%elem_of_scale_cells.
        rewrite Hperm in Ht1, Ht2.
        apply elem_of_grid_threads in Ht1 as (? & ? & ? & ?).
        apply elem_of_grid_threads in Ht2 as (? & ? & ? & ?).
        rewrite E1 in E2. injection E2 as Ex Ey.
        apply div_mod_unique in Ex as [? ?]; [|lia|lia].
        apply div_mod_unique in Ey as [? ?]; [|lia|lia].
        destruct t1, t2; simpl in *. f_equal; lia.
      * intros t _. unfold scale_cells. cbv zeta.
        destruct (_ || _); [constructor|apply NoDup_singleton].
      * rewrite Hperm. apply NoDup_grid_threads.
Qed.

End Scale.

(** ** The kernels against the reference *)

Section AgainstReference.
Context {T : Type} `{ScalarLaws T}.

Add Ring T_semiring_exact : scalar_sr.

Lemma stored_value_exact (alpha beta c sum : T) :
  stored_value alpha beta c sum = Tadd (Tmul alpha sum) (Tmul beta c).
Proof.
  unfold stored_value. destruct (Teqb beta T0) eqn:E.
  - apply Teqb_spec in E. rewrite E. ring.
  - rewrite fma_eq. ring.
Qed.

Lemma op_B_nn (trans_B : rocsparse_operation) (order : rocsparse_order)
    (B : list T) (ldb k j : Z) :
  B_is_nn trans_B order = true ->
  op_B trans_B order B ldb k j = tn_bval trans_B B ldb k j.
Proof.
  unfold op_B, tn_bval, dense_index.
  destruct trans_B, order; simpl; intros E; try discriminate;
    try reflexivity; rewrite (Z.add_comm (j * ldb) k); reflexivity.
Qed.

Lemma op_B_nt (trans_B : rocsparse_operation) (order : rocsparse_order)
    (B : list T) (ldb k j : Z) :
  B_is_nn trans_B order = false ->
  op_B trans_B order B ldb k j = tt_bval trans_B B ldb k j.
Proof.
  unfold op_B, tt_bval, dense_index.
  destruct trans_B, order; simpl; intros E; try discriminate;
    rewrite (Z.mul_comm ldb k); try reflexivity;
    rewrite (Z.add_comm j (k * ldb)); reflexivity.
Qed.

Lemma op_A_plain (trans_A : rocsparse_operation)
    (csr_row_ptr csr_col_ind : list Z) (csr_val : list T)
    (idx_base : rocsparse_index_base) (i k : Z) :
  A_is_transposed trans_A = false ->
  op_A trans_A csr_row_ptr csr_col_ind csr_val idx_base i k
  = csr_dense (op_conj trans_A) csr_row_ptr csr_col_ind csr_val idx_base i k.
Proof. destruct trans_A; simpl; intros E; try discriminate. reflexivity. Qed.

Lemma op_A_transposed (trans_A : rocsparse_operation)
    (csr_row_ptr csr_col_ind : list Z) (csr_val : list T)
    (idx_base : rocsparse_index_base) (i k : Z) :
  A_is_transposed trans_A = true ->
  op_A trans_A csr_row_ptr csr_col_ind csr_val idx_base i k
  = csr_dense (op_conj trans_A) csr_row_ptr csr_col_ind csr_val idx_base k i.
Proof. destruct trans_A; simpl; intros E; try discriminate; reflexivity. Qed.

Variable WF_SIZE : Z.
Hypothesis HWF : 0 < WF_SIZE.
Variables (trans_A trans_B : rocsparse_operation) (M K : Z).
Variables (csr_row_ptr csr_col_ind : list Z) (csr_val B : list T) (ldb : Z).
Variable idx_base : rocsparse_index_base.
Hypothesis Hcsr : csr_valid M K csr_row_ptr csr_col_ind csr_val idx_base = true.

(** The sum of kernel nn is row [i] of the stored matrix times column [j]
    of B. *)
Lemma nn_dot_exact (i j : Z) :
  0 <= i < M ->
  nn_dot WF_SIZE trans_A trans_B csr_row_ptr csr_col_ind csr_val B ldb idx_base (i, j)
  = sumZ (fun k =>
            Tmul (csr_dense (op_conj trans_A) csr_row_ptr csr_col_ind csr_val
                            idx_base i k)
                 (tn_bval trans_B B ldb k j)) 0 K.
Proof.
  intros Hi.
  destruct (csr_valid_row _ _ _ _ _ _ Hcsr i Hi) as (_ & _ & _ & _ & _ & Hcols).
  unfold nn_dot. cbn [fst snd]. rewrite dot_tiled_sum by assumption.
  exact (sparse_dot_dense (fun p => op_conj trans_A (zat csr_val p))
           (fun p => zat csr_col_ind p - base_val idx_base)
           (fun k => tn_bval trans_B B ldb k j) _ _ K Hcols).
Qed.

(** The sum of kernel nt is the same product, B being read transposed. *)
Lemma nt_dot_exact (i j : Z) :
  0 <= i < M ->
  nt_dot WF_SIZE trans_A trans_B csr_row_ptr csr_col_ind csr_val B ldb idx_base (i, j)
  = sumZ (fun k =>
            Tmul (csr_dense (op_conj trans_A) csr_row_ptr csr_col_ind csr_val
                            idx_base i k)
                 (tt_bval trans_B B ldb k j)) 0 K.
Proof.
  intros Hi.
  destruct (csr_valid_row _ _ _ _ _ _ Hcsr i Hi) as (_ & _ & _ & _ & _ & Hcols).
  unfold nt_dot. cbn [fst snd]. rewrite dot_tiled_sum by assumption.
  etransitivity;
    [|exact (sparse_dot_dense (fun p => op_conj trans_A (zat csr_val p))
               (fun p => zat csr_col_ind p - base_val idx_base)
               (fun k => tt_bval trans_B B ldb k j) _ _ K Hcols)].
  apply sumZ_ext. intros p _. unfold tt_bval.
  rewrite (Z.add_comm j). reflexivity.
Qed.

End AgainstReference.

(** * The claims *)

#[export] Instance Z_ScalarLaws : ScalarLaws Z.
Proof.
  split.
  - constructor; intros; cbn; ring.
  - intros; cbn; reflexivity.
  - intros a b. cbn. apply Z.eqb_eq.
Qed.

Lemma ex_config : config_ok ex_BS ex_WF 1 2.
Proof. unfold config_ok, ex_BS, ex_WF. repeat split; lia. Qed.

Lemma ex_launch_xy : launch_xy_ok ex_BS ex_WF 2 ex_L.
Proof. unfold launch_xy_ok, ex_BS, ex_WF, ex_L. simpl. repeat split; lia. Qed.

Lemma ex_launch_x : launch_x_ok ex_BS ex_WF 2 ex_L.
Proof. unfold launch_x_ok, ex_BS, ex_WF, ex_L. simpl. repeat split; lia. Qed.

(** C10.  The scale kernel changes no element of the buffer outside the
    logical m x n matrix: whatever the launch geometry, the order of the
    threads and the leading dimension, an element whose position is not
    that of a logical element [(i, j)], [i < m], [j < n], holds after the
    launch what it held before. *)
Theorem csrmm_scale_frame {T : Type} `{Scalar T}
    (m n : Z) (beta : T) (ld : Z) (order : rocsparse_order) (L : launch)
    (sched : list thread) (data data' : list T) (a : nat) :
  run_grid (fun t data => csrmm_scale_device m n beta data ld order L t) sched data
  = Ok data' ->
  (forall i j, 0 <= i < m -> 0 <= j < n ->
               dense_index order ld i j <> Z.of_nat a) ->
  data' !! a = data !! a.
Proof. apply scale_grid_frame. Qed.

Lemma csrmm_scale_frame_witness :
  run_grid (fun t data =>
              csrmm_scale_device 2 2 5 data 3 rocsparse_order_column ex_L_scale t)
           (grid_threads ex_L_scale) [1; 2; 3; 4; 5; 6; 7]
  = Ok [5; 10; 3; 20; 25; 6; 7]
  /\ [5; 10; 3; 20; 25; 6; 7] !! 2%nat = [1; 2; 3; 4; 5; 6; 7] !! 2%nat.
Proof.
  split; [reflexivity|].
  apply (csrmm_scale_frame 2 2 5 3 rocsparse_order_column ex_L_scale
           (grid_threads ex_L_scale)).
  - reflexivity.
  - intros i j Hi Hj. unfold dense_index. lia.
Defined.

Section RowParallelClaims.
Context {T : Type} `{Scalar T}.
Variables (BLOCKSIZE WF_SIZE : Z) (w nw : nat).
Variables (trans_A trans_B : rocsparse_operation) (M N K nnz : Z) (alpha : T).
Variables (csr_row_ptr csr_col_ind : list Z) (csr_val : list T).
Variables (beta : T) (ldc : Z) (order : rocsparse_order).
Variable idx_base : rocsparse_index_base.

(** C3.  With beta equal to zero the kernels nn and nt never use what the
    output buffer held: started on two buffers [C1] and [C2] of the same
    size, a launch of nn leaves [alpha * sum] in every element of the
    M x N output, the same value in both runs, and so does a launch of nt
    in every element it stores (columns [offset <= j < ncol]). *)
Theorem beta_zero_ignores_C
    (B_nn : list T) (ldb_nn : Z) (L_nn : launch) (s1 s2 : list thread)
    (B_nt : list T) (ldb_nt offset ncol : Z) (L_nt : launch) (s3 s4 : list thread)
    (C1 C2 : list T) :
  config_ok BLOCKSIZE WF_SIZE w nw ->
  csr_valid M K csr_row_ptr csr_col_ind csr_val idx_base = true ->
  Teqb beta T0 = true ->
  length C1 = length C2 ->
  launch_xy_ok BLOCKSIZE WF_SIZE N L_nn ->
  dense_valid K N ldb_nn B_nn = true ->
  C_valid order M N ldc C1 = true ->
  s1 ≡ₚ grid_threads L_nn -> s2 ≡ₚ grid_threads L_nn ->
  launch_x_ok BLOCKSIZE WF_SIZE M L_nt ->
  0 <= offset ->
  dense_valid ncol K ldb_nt B_nt = true ->
  C_valid order M ncol ldc C1 = true ->
  s3 ≡ₚ grid_threads L_nt -> s4 ≡ₚ grid_threads L_nt ->
  (exists C1' C2',
      run_grid (csrmmnn_general_device BLOCKSIZE WF_SIZE trans_A trans_B M N K nnz
                  alpha csr_row_ptr csr_col_ind csr_val B_nn ldb_nn beta ldc order
                  idx_base L_nn) s1 C1 = Ok C1'
      /\ run_grid (csrmmnn_general_device BLOCKSIZE WF_SIZE trans_A trans_B M N K nnz
                     alpha csr_row_ptr csr_col_ind csr_val B_nn ldb_nn beta ldc order
                     idx_base L_nn) s2 C2 = Ok C2'
      /\ forall i j, 0 <= i < M -> 0 <= j < N ->
           zat C1' (dense_index order ldc i j)
           = Tmul alpha (nn_dot WF_SIZE trans_A trans_B csr_row_ptr csr_col_ind
                           csr_val B_nn ldb_nn idx_base (i, j))
           /\ zat C2' (dense_index order ldc i j)
              = zat C1' (dense_index order ldc i j))
  /\ (exists C1' C2',
      run_grid (csrmmnt_general_device BLOCKSIZE WF_SIZE trans_A trans_B offset ncol
                  M N K nnz alpha csr_row_ptr csr_col_ind csr_val B_nt ldb_nt beta
                  ldc order idx_base L_nt) s3 C1 = Ok C1'
      /\ run_grid (csrmmnt_general_device BLOCKSIZE WF_SIZE trans_A trans_B offset ncol
                     M N K nnz alpha csr_row_ptr csr_col_ind csr_val B_nt ldb_nt beta
                     ldc order idx_base L_nt) s4 C2 = Ok C2'
      /\ forall i j, 0 <= i < M -> offset <= j < ncol ->
           zat C1' (dense_index order ldc i j)
           = Tmul alpha (nt_dot WF_SIZE trans_A trans_B csr_row_ptr csr_col_ind
                           csr_val B_nt ldb_nt idx_base (i, j))
           /\ zat C2' (dense_index order ldc i j)
              = zat C1' (dense_index order ldc i j)).
Proof.
  intros Hcfg Hcsr Hbeta Hlen HLnn HBnn HCnn Hs1 Hs2 HLnt Hoff HBnt HCnt Hs3 Hs4.
  split.
  - pose proof (csrmmnn_launch_updates BLOCKSIZE WF_SIZE w nw Hcfg trans_A trans_B
                  M N K nnz alpha csr_row_ptr csr_col_ind csr_val B_nn ldb_nn beta
                  C1 ldc order idx_base L_nn Hcsr) as U.
    destruct (U s1 HLnn HBnn HCnn Hs1 C1 eq_refl) as (C1' & E1 & _ & V1 & _).
    destruct (U s2 HLnn HBnn HCnn Hs2 C2 (eq_sym Hlen)) as (C2' & E2 & _ & V2 & _).
    exists C1', C2'. split; [exact E1|]. split; [exact E2|].
    intros i j Hi Hj.
    specialize (V1 (i, j) ltac:(apply elem_of_block_cells; simpl; lia)).
    specialize (V2 (i, j) ltac:(apply elem_of_block_cells; simpl; lia)).
    unfold cell_index, stored_value in V1, V2. cbn [fst snd] in V1, V2.
    rewrite Hbeta in V1, V2. split; congruence.
  - pose proof (csrmmnt_launch_updates BLOCKSIZE WF_SIZE w nw Hcfg trans_A trans_B
                  M N K nnz alpha csr_row_ptr csr_col_ind csr_val B_nt ldb_nt beta
                  C1 ldc order idx_base L_nt Hcsr offset ncol) as U.
    destruct (U s3 HLnt Hoff HBnt HCnt Hs3 C1 eq_refl) as (C1' & E1 & _ & V1 & _).
    destruct (U s4 HLnt Hoff HBnt HCnt Hs4 C2 (eq_sym Hlen)) as (C2' & E2 & _ & V2 & _).
    exists C1', C2'. split; [exact E1|]. split; [exact E2|].
    intros i j Hi Hj.
    specialize (V1 (i, j) ltac:(apply elem_of_block_cells; simpl; lia)).
    specialize (V2 (i, j) ltac:(apply elem_of_block_cells; simpl; lia)).
    unfold cell_index, stored_value in V1, V2. cbn [fst snd] in V1, V2.
    rewrite Hbeta in V1, V2. split; congruence.
Qed.

End RowParallelClaims.

Lemma beta_zero_ignores_C_witness :
  (exists C1' C2',
      run_grid (csrmmnn_general_device ex_BS ex_WF rocsparse_operation_none
                  rocsparse_operation_none 2 2 3 3 2 ex_row_ptr ex_col_ind ex_val
                  ex_B_nn 3 0 2 rocsparse_order_column rocsparse_index_base_one ex_L)
               (grid_threads ex_L) ex_C = Ok C1'
      /\ run_grid (csrmmnn_general_device ex_BS ex_WF rocsparse_operation_none
                  rocsparse_operation_none 2 2 3 3 2 ex_row_ptr ex_col_ind ex_val
                  ex_B_nn 3 0 2 rocsparse_order_column rocsparse_index_base_one ex_L)
               (grid_threads ex_L) ex_C' = Ok C2'
      /\ forall i j, 0 <= i < 2 -> 0 <= j < 2 ->
           zat C1' (dense_index rocsparse_order_column 2 i j)
           = Tmul 2 (nn_dot ex_WF rocsparse_operation_none rocsparse_operation_none
                       ex_row_ptr ex_col_ind ex_val ex_B_nn 3
                       rocsparse_index_base_one (i, j))
           /\ zat C2' (dense_index rocsparse_order_column 2 i j)
              = zat C1' (dense_index rocsparse_order_column 2 i j))
  /\ (exists C1' C2',
      run_grid (csrmmnt_general_device ex_BS ex_WF rocsparse_operation_none
                  rocsparse_operation_none 0 2 2 2 3 3 2 ex_row_ptr ex_col_ind ex_val
                  ex_B_nt 2 0 2 rocsparse_order_column rocsparse_index_base_one ex_L)
               (grid_threads ex_L) ex_C = Ok C1'
      /\ run_grid (csrmmnt_general_device ex_BS ex_WF rocsparse_operation_none
                  rocsparse_operation_none 0 2 2 2 3 3 2 ex_row_ptr ex_col_ind ex_val
                  ex_B_nt 2 0 2 rocsparse_order_column rocsparse_index_base_one ex_L)
               (grid_threads ex_L) ex_C' = Ok C2'
      /\ forall i j, 0 <= i < 2 -> 0 <= j < 2 ->
           zat C1' (dense_index rocsparse_order_column 2 i j)
           = Tmul 2 (nt_dot ex_WF rocsparse_operation_none rocsparse_operation_none
                       ex_row_ptr ex_col_ind ex_val ex_B_nt 2
                       rocsparse_index_base_one (i, j))
           /\ zat C2' (dense_index rocsparse_order_column 2 i j)
              = zat C1' (dense_index rocsparse_order_column 2 i j)).
Proof.
  apply (beta_zero_ignores_C (H := Z_Scalar) ex_BS ex_WF 1 2 rocsparse_operation_none
           rocsparse_operation_none 2 2 3 3 2 ex_row_ptr ex_col_ind ex_val 0 2
           rocsparse_order_column rocsparse_index_base_one
           ex_B_nn 3 ex_L (grid_threads ex_L) (grid_threads ex_L)
           ex_B_nt 2 0 2 ex_L (grid_threads ex_L) (grid_threads ex_L)
           ex_C ex_C').
  - exact ex_config.
  - reflexivity.
  - reflexivity.
  - reflexivity.
  - exact ex_launch_xy.
  - reflexivity.
  - reflexivity.
  - reflexivity.
  - reflexivity.
  - exact ex_launch_x.
  - lia.
  - reflexivity.
  - reflexivity.
  - reflexivity.
  - reflexivity.
Defined.

Section ExactEmptyRows.
Context {T : Type} `{ScalarLaws T}.

Add Ring T_semiring_claims : scalar_sr.

Lemma stored_value_empty (alpha beta c : T) :
  stored_value alpha beta c T0 = Tmul beta c.
Proof. rewrite stored_value_exact. ring. Qed.

Lemma stored_value_empty_unit (alpha c : T) :
  stored_value alpha T1 c T0 = c.
Proof. rewrite stored_value_exact. ring. Qed.

(** In exact arithmetic the chain of fused multiply-adds is the dot
    product. *)
Lemma fma_chain_sum (va bv : Z -> T) (a b : Z) :
  fma_chain va bv a b T0 = sumZ (fun p => Tmul (va p) (bv p)) a b.
Proof. unfold fma_chain, sumZ. rewrite foldl_fma_sum. ring. Qed.

End ExactEmptyRows.

(** ** Padded tiles against the chain of the nonzeros *)

Section Chain.
Context {T : Type} `{Scalar T}.
Variables (WF_SIZE : Z) (va bv : Z -> T) (pad : T) (row_end : Z).
Hypothesis HWF : 0 < WF_SIZE.

Lemma dot_tiled_empty (rs : Z) :
  row_end <= rs -> dot_tiled WF_SIZE va bv pad rs row_end = T0.
Proof. intros Hle. unfold dot_tiled. rewrite stride_nil by lia. reflexivity. Qed.

Lemma fma_chain_split (a m b : Z) (s : T) :
  a <= m <= b ->
  fma_chain va bv a b s = fma_chain va bv m b (fma_chain va bv a m s).
Proof.
  intros Hm. unfold fma_chain.
  replace (b - a) with ((m - a) + (b - m)) by lia.
  rewrite seqZ_app by lia. rewrite foldl_app.
  replace (a + (m - a)) with m by lia. reflexivity.
Qed.

(** The slots of a tile that hold nonzeros of the row: the first [n]. *)
Lemma tile_dot_real (j n : Z) (s : T) :
  0 <= n -> j + n <= row_end ->
  foldl (fun sum i =>
           if j + i <? row_end
           then rocsparse_fma (va (j + i)) (bv (j + i)) sum
           else rocsparse_fma T0 pad sum)
        s (seqZ 0 n)
  = fma_chain va bv j (j + n) s.
Proof.
  intros Hn Hle. unfold fma_chain.
  replace (j + n - j) with n by lia.
  replace (seqZ j n) with (Z.add j <$> seqZ 0 n)
    by (rewrite fmap_add_seqZ; f_equal; lia).
  rewrite foldl_fmap.
  apply foldl_ext_in. intros i sum Hi%elem_of_seqZ.
  destruct (Z.ltb_spec (j + i) row_end); [reflexivity|lia].
Qed.

(** Padded slots leave alone a sum they leave alone once. *)
Lemma tile_dot_padded (j : Z) (l : list Z) (s : T) :
  (forall i, i ∈ l -> row_end <= j + i) ->
  rocsparse_fma T0 pad s = s ->
  foldl (fun sum i =>
           if j + i <? row_end
           then rocsparse_fma (va (j + i)) (bv (j + i)) sum
           else rocsparse_fma T0 pad sum)
        s l
  = s.
Proof.
  intros Hl Hs. induction l as [|i l IH]; [reflexivity|].
  simpl. destruct (Z.ltb_spec (j + i) row_end) as [Hlt|_].
  - specialize (Hl i ltac:(left)). lia.
  - rewrite Hs. apply IH. intros; apply Hl; right; assumption.
Qed.

Lemma tile_dot_full (j : Z) (s : T) :
  j + WF_SIZE <= row_end ->
  tile_dot WF_SIZE va bv pad row_end j s = fma_chain va bv j (j + WF_SIZE) s.
Proof. intros Hle. unfold tile_dot. apply tile_dot_real; lia. Qed.

Lemma tile_dot_last (j : Z) (s : T) :
  j <= row_end < j + WF_SIZE ->
  rocsparse_fma T0 pad (fma_chain va bv j row_end s) = fma_chain va bv j row_end s ->
  tile_dot WF_SIZE va bv pad row_end j s = fma_chain va bv j row_end s.
Proof.
  intros Hj Hpad. unfold tile_dot.
  replace WF_SIZE with ((row_end - j) + (j + WF_SIZE - row_end)) at 1 by lia.
  rewrite seqZ_app by lia. rewrite foldl_app.
  rewrite tile_dot_real by lia.
  replace (j + (row_end - j)) with row_end by lia.
  apply tile_dot_padded; [|exact Hpad].
  intros i Hi%elem_of_seqZ. lia.
Qed.

(** Only the last tile of a row has padded slots, and they come after the
    nonzeros. *)
Lemma tiles_chain (row_start : Z) (s : T) :
  rocsparse_fma T0 pad (fma_chain va bv row_start row_end s)
  = fma_chain va bv row_start row_end s ->
  foldl (fun sum j => tile_dot WF_SIZE va bv pad row_end j sum) s
        (stride row_start row_end WF_SIZE)
  = fma_chain va bv row_start row_end s.
Proof.
  remember (Z.to_nat (row_end - row_start)) as n eqn:En.
  revert row_start s En.
  induction (lt_wf n) as [n _ IH]. intros rs s En Hpad.
  destruct (Z.le_gt_cases row_end rs) as [Hle|Hlt].
  - rewrite stride_nil by lia. unfold fma_chain.
    destruct (Z.eq_dec row_end rs) as [->|Hne].
    + rewrite Z.sub_diag. reflexivity.
    + rewrite seqZ_nil by lia. reflexivity.
  - rewrite stride_cons by lia. cbn [foldl].
    destruct (Z.le_gt_cases (rs + WF_SIZE) row_end) as [Hfull|Hlast].
    + rewrite tile_dot_full by assumption.
      rewrite (fma_chain_split rs (rs + WF_SIZE) row_end s) in * by lia.
      apply (IH (Z.to_nat (row_end - (rs + WF_SIZE)))); [lia|reflexivity|exact Hpad].
    + rewrite tile_dot_last by (lia || exact Hpad).
      rewrite stride_nil by lia. reflexivity.
Qed.

(** The tiled accumulation of the kernels is the chain of fused
    multiply-adds over the nonzeros of the row, as soon as one padded slot
    leaves the final sum alone. *)
Lemma dot_tiled_chain (row_start : Z) :
  rocsparse_fma T0 pad (fma_chain va bv row_start row_end T0)
  = fma_chain va bv row_start row_end T0 ->
  dot_tiled WF_SIZE va bv pad row_start row_end
  = fma_chain va bv row_start row_end T0.
Proof. apply tiles_chain. Qed.

End Chain.

Section RowParallelValues.
Context {T : Type} `{Scalar T}.
Variables (BLOCKSIZE WF_SIZE : Z) (w nw : nat).
Variables (trans_A trans_B : rocsparse_operation) (M N K nnz : Z) (alpha : T).
Variables (csr_row_ptr csr_col_ind : list Z) (csr_val : list T).
Variables (beta : T) (ldc : Z) (order : rocsparse_order).
Variable idx_base : rocsparse_index_base.

(** C7, as amended.  A row of A without nonzeros
    ([row_ptr[i] = row_ptr[i + 1]]): in whatever arithmetic, a launch of nn,
    and a launch of nt, stores in every element of row [i] of the output it
    covers [alpha * 0] when beta compares equal to zero and
    [fma (beta, C_old, alpha * 0)] otherwise; in exact arithmetic that is
    [beta * C_old] whatever alpha is, and the old value when beta is one. *)
Theorem empty_row_scales_C
    (B_nn : list T) (ldb_nn : Z) (L_nn : launch) (s_nn : list thread)
    (B_nt : list T) (ldb_nt offset ncol : Z) (L_nt : launch) (s_nt : list thread)
    (C : list T) (i : Z) :
  config_ok BLOCKSIZE WF_SIZE w nw ->
  csr_valid M K csr_row_ptr csr_col_ind csr_val idx_base = true ->
  0 <= i < M ->
  zat csr_row_ptr i = zat csr_row_ptr (i + 1) ->
  launch_xy_ok BLOCKSIZE WF_SIZE N L_nn ->
  dense_valid K N ldb_nn B_nn = true ->
  C_valid order M N ldc C = true ->
  s_nn ≡ₚ grid_threads L_nn ->
  launch_x_ok BLOCKSIZE WF_SIZE M L_nt ->
  0 <= offset ->
  dense_valid ncol K ldb_nt B_nt = true ->
  C_valid order M ncol ldc C = true ->
  s_nt ≡ₚ grid_threads L_nt ->
  (exists C',
      run_grid (csrmmnn_general_device BLOCKSIZE WF_SIZE trans_A trans_B M N K nnz
                  alpha csr_row_ptr csr_col_ind csr_val B_nn ldb_nn beta ldc order
                  idx_base L_nn) s_nn C = Ok C'
      /\ forall j, 0 <= j < N ->
           zat C' (dense_index order ldc i j)
           = (if Teqb beta T0 then Tmul alpha T0
              else rocsparse_fma beta (zat C (dense_index order ldc i j))
                                 (Tmul alpha T0))
           /\ (ScalarLaws T ->
               zat C' (dense_index order ldc i j)
               = Tmul beta (zat C (dense_index order ldc i j))
               /\ (beta = T1 ->
                   zat C' (dense_index order ldc i j)
                   = zat C (dense_index order ldc i j))))
  /\ (exists C',
      run_grid (csrmmnt_general_device BLOCKSIZE WF_SIZE trans_A trans_B offset ncol
                  M N K nnz alpha csr_row_ptr csr_col_ind csr_val B_nt ldb_nt beta
                  ldc order idx_base L_nt) s_nt C = Ok C'
      /\ forall j, offset <= j < ncol ->
           zat C' (dense_index order ldc i j)
           = (if Teqb beta T0 then Tmul alpha T0
              else rocsparse_fma beta (zat C (dense_index order ldc i j))
                                 (Tmul alpha T0))
           /\ (ScalarLaws T ->
               zat C' (dense_index order ldc i j)
               = Tmul beta (zat C (dense_index order ldc i j))
               /\ (beta = T1 ->
                   zat C' (dense_index order ldc i j)
                   = zat C (dense_index order ldc i j)))).
Proof.
  intros Hcfg Hcsr Hi Hempty HLnn HBnn HCnn Hsnn HLnt Hoff HBnt HCnt Hsnt.
  pose proof (WF_pos _ _ _ _ Hcfg) as HWF.
  split.
  - destruct (csrmmnn_launch_updates BLOCKSIZE WF_SIZE w nw Hcfg trans_A trans_B
                M N K nnz alpha csr_row_ptr csr_col_ind csr_val B_nn ldb_nn beta
                C ldc order idx_base L_nn Hcsr s_nn HLnn HBnn HCnn Hsnn C eq_refl)
      as (C' & E & _ & V & _).
    exists C'. split; [exact E|]. intros j Hj.
    specialize (V (i, j) ltac:(apply elem_of_block_cells; simpl; lia)).
    unfold cell_index, nn_dot in V. cbn [fst snd] in V.
    rewrite dot_tiled_empty in V by lia.
    split; [exact V|]. intros Hlaws. rewrite V.
    split; [apply stored_value_empty|].
    intros ->. apply stored_value_empty_unit.
  - destruct (csrmmnt_launch_updates BLOCKSIZE WF_SIZE w nw Hcfg trans_A trans_B
                M N K nnz alpha csr_row_ptr csr_col_ind csr_val B_nt ldb_nt beta
                C ldc order idx_base L_nt Hcsr offset ncol s_nt HLnt Hoff HBnt HCnt
                Hsnt C eq_refl)
      as (C' & E & _ & V & _).
    exists C'. split; [exact E|]. intros j Hj.
    specialize (V (i, j) ltac:(apply elem_of_block_cells; simpl; lia)).
    unfold cell_index, nt_dot in V. cbn [fst snd] in V.
    rewrite dot_tiled_empty in V by lia.
    split; [exact V|]. intros Hlaws. rewrite V.
    split; [apply stored_value_empty|].
    intros ->. apply stored_value_empty_unit.
Qed.


End RowParallelValues.


Lemma empty_row_scales_C_witness :
  (exists C',
      run_grid (csrmmnn_general_device ex_BS ex_WF rocsparse_operation_none
                  rocsparse_operation_none 2 2 3 3 2 [1; 1; 3] [1; 3] [1; 2]
                  ex_B_nn 3 3 2 rocsparse_order_column rocsparse_index_base_one ex_L)
               (grid_threads ex_L) ex_C = Ok C'
      /\ forall j, 0 <= j < 2 ->
           zat C' (dense_index rocsparse_order_column 2 0 j)
           = (if Teqb 3 T0 then Tmul 2 T0
              else rocsparse_fma 3
                     (zat ex_C (dense_index rocsparse_order_column 2 0 j))
                     (Tmul 2 T0))
           /\ (ScalarLaws Z ->
               zat C' (dense_index rocsparse_order_column 2 0 j)
               = 3 * zat ex_C (dense_index rocsparse_order_column 2 0 j)
               /\ (3 = 1 ->
                   zat C' (dense_index rocsparse_order_column 2 0 j)
                   = zat ex_C (dense_index rocsparse_order_column 2 0 j))))
  /\ (exists C',
      run_grid (csrmmnt_general_device ex_BS ex_WF rocsparse_operation_none
                  rocsparse_operation_none 0 2 2 2 3 3 2 [1; 1; 3] [1; 3] [1; 2]
                  ex_B_nt 2 3 2 rocsparse_order_column rocsparse_index_base_one ex_L)
               (grid_threads ex_L) ex_C = Ok C'
      /\ forall j, 0 <= j < 2 ->
           zat C' (dense_index rocsparse_order_column 2 0 j)
           = (if Teqb 3 T0 then Tmul 2 T0
              else rocsparse_fma 3
                     (zat ex_C (dense_index rocsparse_order_column 2 0 j))
                     (Tmul 2 T0))
           /\ (ScalarLaws Z ->
               zat C' (dense_index rocsparse_order_column 2 0 j)
               = 3 * zat ex_C (dense_index rocsparse_order_column 2 0 j)
               /\ (3 = 1 ->
                   zat C' (dense_index rocsparse_order_column 2 0 j)
                   = zat ex_C (dense_index rocsparse_order_column 2 0 j)))).
Proof.
  apply (empty_row_scales_C (H := Z_Scalar) ex_BS ex_WF 1 2 rocsparse_operation_none
           rocsparse_operation_none 2 2 3 3 2 [1; 1; 3] [1; 3] [1; 2] 3 2
           rocsparse_order_column rocsparse_index_base_one
           ex_B_nn 3 ex_L (grid_threads ex_L)
           ex_B_nt 2 0 2 ex_L (grid_threads ex_L) ex_C 0).
  - exact ex_config.
  - reflexivity.
  - lia.
  - reflexivity.
  - exact ex_launch_xy.
  - reflexivity.
  - reflexivity.
  - reflexivity.
  - exact ex_launch_x.
  - lia.
  - reflexivity.
  - reflexivity.
  - reflexivity.
Defined.

Lemma double_neq (a b : float) : Prim2SF a <> Prim2SF b -> a <> b.
Proof. intros Hne ->. apply Hne. reflexivity. Qed.

(** C7, as stated, fails in double precision.  The stored matrix has an
    empty first row.  With beta equal to one and alpha infinite, nn and nt
    store [fma (1, 5, inf * 0)], not a number, where the row held 5; with
    beta equal to zero and alpha equal to two, nn stores [2 * 0 = 0] where
    [beta * C_old] is [0 * inf], not a number. *)
Lemma empty_row_is_not_scaled_in_double :
  (csr_valid 2 1 gap_row_ptr gap_col_ind gap_val rocsparse_index_base_zero = true
   /\ zat gap_row_ptr 0 = zat gap_row_ptr (0 + 1)
   /\ dense_valid 1 2 1 gap_B = true
   /\ dense_valid 2 1 2 gap_B = true
   /\ C_valid rocsparse_order_column 2 2 2 gap_C = true)
  /\ run_grid (csrmmnn_general_device ex_BS ex_WF rocsparse_operation_none
                 rocsparse_operation_none 2 2 1 1 infinity gap_row_ptr gap_col_ind
                 gap_val gap_B 1 1%float 2 rocsparse_order_column
                 rocsparse_index_base_zero ex_L)
              (grid_threads ex_L) gap_C
     = Ok [nan; infinity; nan; infinity; 9%float]
  /\ run_grid (csrmmnt_general_device ex_BS ex_WF rocsparse_operation_none
                 rocsparse_operation_none 0 2 2 2 1 1 infinity gap_row_ptr
                 gap_col_ind gap_val gap_B 2 1%float 2 rocsparse_order_column
                 rocsparse_index_base_zero ex_L)
              (grid_threads ex_L) gap_C
     = Ok [nan; infinity; nan; infinity; 9%float]
  /\ zat [nan; infinity; nan; infinity; 9%float]
         (dense_index rocsparse_order_column 2 0 0)
     <> zat gap_C (dense_index rocsparse_order_column 2 0 0)
  /\ run_grid (csrmmnn_general_device ex_BS ex_WF rocsparse_operation_none
                 rocsparse_operation_none 2 2 1 1 2%float gap_row_ptr gap_col_ind
                 gap_val gap_B 1 0%float 2 rocsparse_order_column
                 rocsparse_index_base_zero ex_L)
              (grid_threads ex_L) gap_C_inf
     = Ok [0; 2; 0; 2; 9]%float
  /\ zat [0; 2; 0; 2; 9]%float (dense_index rocsparse_order_column 2 0 0)
     <> Tmul 0%float (zat gap_C_inf (dense_index rocsparse_order_column 2 0 0)).
Proof.
  split; [repeat split; reflexivity|].
  split; [vm_compute; reflexivity|].
  split; [vm_compute; reflexivity|].
  split; [apply double_neq; vm_compute; discriminate|].
  split; [vm_compute; reflexivity|].
  apply double_neq; vm_compute; discriminate.
Qed.

(** In double precision a padded slot gives back the sum whenever the
    element of B it reads is finite, unless the sum is the negative zero,
    which a padded slot may turn into the positive zero. *)
Lemma pad_law_double (b s : float) :
  finite_double b = true ->
  Prim2SF s <> S754_zero true ->
  rocsparse_fma T0 b s = s.
Proof.
  unfold finite_double. intros Hb Hs.
  change (SF2Prim (SFfma (S754_zero false) (Prim2SF b) (Prim2SF s)) = s).
  rewrite <- (SF2Prim_Prim2SF s) at 2. f_equal.
  destruct (Prim2SF b) as [sb| | |sb mb eb]; try discriminate;
    destruct (Prim2SF s) as [[|]| | |]; try reflexivity; try congruence;
    destruct sb; reflexivity.
Qed.


(** ** Conjugation and the addressing of B *)

Lemma bind_ext {A B : Type} (m : result A) (k1 k2 : A -> result B) :
  (forall a, k1 a = k2 a) -> bind m k1 = bind m k2.
Proof. intros E. destruct m; simpl; auto. Qed.

Lemma bind_same_outcome {A1 A2 B1 B2 : Type} (m1 : result A1) (m2 : result A2)
    (k1 : A1 -> result B1) (k2 : A2 -> result B2) :
  same_outcome m1 m2 -> (forall a1 a2, same_outcome (k1 a1) (k2 a2)) ->
  same_outcome (bind m1 k1) (bind m2 k2).
Proof. destruct m1, m2; simpl; auto; contradiction. Qed.

Lemma same_outcome_refl {A : Type} (m : result A) : same_outcome m m.
Proof. destruct m; simpl; auto. Qed.

Lemma bind_same_outcome_eq {A B1 B2 : Type} (m : result A)
    (k1 : A -> result B1) (k2 : A -> result B2) :
  (forall a, same_outcome (k1 a) (k2 a)) -> same_outcome (bind m k1) (bind m k2).
Proof. intros E. destruct m; simpl; auto. Qed.

Section Conjugation.
Context {T : Type} `{Scalar T}.
Variable WF_SIZE : Z.
Variables (trans_A trans_B : rocsparse_operation).
Variables (csr_val B : list T).

Lemma load_op_conj (tag : Z -> fault) (trans : rocsparse_operation)
    (buf : list T) (i : Z) :
  load tag (op_conj trans <$> buf) i = (v <- load tag buf i ;; Ok (op_conj trans v)).
Proof. apply load_fmap. Qed.

Lemma fill_val_slot_conj (row_end j lid : Z) :
  fill_val_slot trans_A csr_val row_end j lid
  = fill_val_slot rocsparse_operation_none (op_conj trans_A <$> csr_val)
      row_end j lid.
Proof.
  unfold fill_val_slot. cbv zeta.
  destruct (j + lid <? row_end); [|destruct trans_A; reflexivity].
  rewrite load_op_conj.
  destruct trans_A; simpl; destruct (load OOB_val csr_val (j + lid)); reflexivity.
Qed.

Lemma tn_fill_B_slot_conj (N ldb by_ row lid : Z) :
  tn_fill_B_slot WF_SIZE trans_B N B ldb by_ row lid
  = tn_fill_B_slot WF_SIZE rocsparse_operation_none N (op_conj trans_B <$> B)
      ldb by_ row lid.
Proof.
  unfold tn_fill_B_slot. cbv zeta.
  destruct (lid + by_ * WF_SIZE <? N); [|destruct trans_B; reflexivity].
  rewrite load_op_conj.
  destruct trans_B; simpl; destruct (load OOB_B B _); reflexivity.
Qed.

Lemma tt_fill_B_slot_conj (N ldb by_ row lid : Z) :
  tt_fill_B_slot WF_SIZE trans_B N B ldb by_ row lid
  = tt_fill_B_slot WF_SIZE rocsparse_operation_none N (op_conj trans_B <$> B)
      ldb by_ row lid.
Proof.
  unfold tt_fill_B_slot. cbv zeta.
  destruct (lid + by_ * WF_SIZE <? N); [|destruct trans_B; reflexivity].
  rewrite load_op_conj.
  destruct trans_B; simpl; destruct (load OOB_B B _); reflexivity.
Qed.

Lemma csrmmnn_row_sum_conj (N : Z) (csr_col_ind : list Z)
    (idx_base : rocsparse_index_base) (row_start row_end col colB : Z) :
  csrmmnn_row_sum WF_SIZE trans_A trans_B N csr_col_ind csr_val B idx_base
    row_start row_end col colB
  = csrmmnn_row_sum WF_SIZE rocsparse_operation_none rocsparse_operation_none N
      csr_col_ind (op_conj trans_A <$> csr_val) (op_conj trans_B <$> B) idx_base
      row_start row_end col colB.
Proof.
  unfold csrmmnn_row_sum.
  apply for_loop_ext with (I := fun _ => True); auto.
  intros j sum _ _. apply bind_ext. intros shared_col.
  rewrite (fill_tile_ext _ _ _ (fun l _ => fill_val_slot_conj row_end j l)).
  apply bind_ext. intros shared_val.
  apply for_loop_ext with (I := fun _ => True); auto.
  intros i s _ _. apply bind_ext. intros sv. apply bind_ext. intros sc.
  rewrite load_op_conj.
  destruct (load OOB_B B (sc + colB)); simpl; auto.
  destruct trans_B; reflexivity.
Qed.

Lemma csrmmnt_row_sum_conj (ncol : Z) (csr_col_ind : list Z) (ldb : Z)
    (idx_base : rocsparse_index_base) (row_start row_end col : Z) :
  col < ncol ->
  csrmmnt_row_sum WF_SIZE trans_A trans_B ncol csr_col_ind csr_val B ldb idx_base
    row_start row_end col
  = csrmmnt_row_sum WF_SIZE rocsparse_operation_none rocsparse_operation_none ncol
      csr_col_ind (op_conj trans_A <$> csr_val) (op_conj trans_B <$> B) ldb idx_base
      row_start row_end col.
Proof.
  intros Hcol. unfold csrmmnt_row_sum.
  apply for_loop_ext with (I := fun _ => True); auto.
  intros j sum _ _. apply bind_ext. intros shared_col.
  rewrite (fill_tile_ext _ _ _ (fun l _ => fill_val_slot_conj row_end j l)).
  apply bind_ext. intros shared_val.
  apply for_loop_ext with (I := fun _ => True); auto.
  intros i s _ _. apply bind_ext. intros sv. apply bind_ext. intros sc.
  destruct (Z.ltb_spec col ncol); [|lia].
  rewrite load_op_conj.
  destruct (load OOB_B B (col + sc)); simpl; auto.
  destruct trans_B; reflexivity.
Qed.

(** A lane of kernel nt beyond the last column loads nothing of B; its sum
    is discarded, and whether it returns does not depend on the modes. *)
Lemma csrmmnt_row_sum_outcome (ncol : Z) (csr_col_ind : list Z) (ldb : Z)
    (idx_base : rocsparse_index_base) (row_start row_end col : Z) :
  ncol <= col ->
  same_outcome
    (csrmmnt_row_sum WF_SIZE trans_A trans_B ncol csr_col_ind csr_val B ldb idx_base
       row_start row_end col)
    (csrmmnt_row_sum WF_SIZE rocsparse_operation_none rocsparse_operation_none ncol
       csr_col_ind (op_conj trans_A <$> csr_val) (op_conj trans_B <$> B) ldb idx_base
       row_start row_end col).
Proof.
  intros Hcol. unfold csrmmnt_row_sum.
  apply for_loop_same_outcome. intros j s1 s2 _.
  apply bind_same_outcome_eq. intros shared_col.
  rewrite (fill_tile_ext _ _ _ (fun l _ => fill_val_slot_conj row_end j l)).
  apply bind_same_outcome_eq. intros shared_val.
  apply for_loop_same_outcome. intros i s1' s2' _.
  apply bind_same_outcome_eq. intros sv.
  apply bind_same_outcome_eq. intros sc.
  destruct (Z.ltb_spec col ncol); [lia|]. simpl.
  destruct trans_B; exact I.
Qed.

Variables (N : Z) (alpha : T) (csr_row_ptr csr_col_ind : list Z).
Variables (ldb : Z) (beta : T) (ldc : Z) (order : rocsparse_order).
Variable idx_base : rocsparse_index_base.

Lemma csrmmnn_row_conj (col colB row : Z) (C : list T) :
  csrmmnn_row WF_SIZE trans_A trans_B N alpha csr_row_ptr csr_col_ind csr_val B
    beta ldc order idx_base col colB row C
  = csrmmnn_row WF_SIZE rocsparse_operation_none rocsparse_operation_none N alpha
      csr_row_ptr csr_col_ind (op_conj trans_A <$> csr_val) (op_conj trans_B <$> B)
      beta ldc order idx_base col colB row C.
Proof.
  unfold csrmmnn_row. apply bind_ext. intros rs. apply bind_ext. intros re.
  cbv zeta. rewrite csrmmnn_row_sum_conj. reflexivity.
Qed.

Lemma csrmmnt_col_conj (ncol row row_start row_end lid l : Z) (C : list T) :
  csrmmnt_col WF_SIZE trans_A trans_B ncol alpha csr_col_ind csr_val B ldb beta ldc
    order idx_base row row_start row_end lid l C
  = csrmmnt_col WF_SIZE rocsparse_operation_none rocsparse_operation_none ncol alpha
      csr_col_ind (op_conj trans_A <$> csr_val) (op_conj trans_B <$> B) ldb beta ldc
      order idx_base row row_start row_end lid l C.
Proof.
  unfold csrmmnt_col. cbv zeta.
  destruct (Z.ltb_spec (l + lid) ncol) as [Hlt|Hge].
  - rewrite csrmmnt_row_sum_conj by assumption. reflexivity.
  - pose proof (csrmmnt_row_sum_outcome ncol csr_col_ind ldb idx_base
                  row_start row_end (l + lid) Hge) as Ho.
    destruct (csrmmnt_row_sum WF_SIZE trans_A trans_B _ _ _ _ _ _ _ _ _),
      (csrmmnt_row_sum WF_SIZE rocsparse_operation_none _ _ _ _ _ _ _ _ _ _);
      simpl in *; congruence || contradiction || reflexivity.
Qed.

Lemma scatter_row_conj (by_ lid row_start row_end : Z) (shared_B : list T)
    (adds : list (Z * T)) :
  scatter_row WF_SIZE trans_A N alpha csr_col_ind csr_val ldc order idx_base
    by_ lid row_start row_end shared_B adds
  = scatter_row WF_SIZE rocsparse_operation_none N alpha csr_col_ind
      (op_conj trans_A <$> csr_val) ldc order idx_base
      by_ lid row_start row_end shared_B adds.
Proof.
  unfold scatter_row.
  apply for_loop_ext with (I := fun _ => True); auto.
  intros j acc _ _. apply bind_ext. intros c.
  rewrite load_op_conj.
  destruct (load OOB_val csr_val j); simpl; auto.
  destruct trans_A; reflexivity.
Qed.

End Conjugation.

Section ConjugationClaim.
Context {T : Type} `{Scalar T}.
Variables (BLOCKSIZE WF_SIZE : Z).
Variables (trans_A trans_B : rocsparse_operation) (M N K nnz : Z) (alpha : T).
Variables (csr_row_ptr csr_col_ind : list Z) (csr_val B : list T) (ldb : Z).
Variables (beta : T) (ldc : Z) (order : rocsparse_order).
Variable idx_base : rocsparse_index_base.
Variables (L : launch) (t : thread).

(** The modes as data: run under the modes [trans_A] and [trans_B], a
    thread of nn, nt, tn or tt does what it does under the mode none on the
    values of A and of B passed through [op_conj]. *)
Lemma modes_as_mapped_data (offset ncol : Z) (C : list T) :
  csrmmnn_general_device BLOCKSIZE WF_SIZE trans_A trans_B M N K nnz alpha
    csr_row_ptr csr_col_ind csr_val B ldb beta ldc order idx_base L t C
  = csrmmnn_general_device BLOCKSIZE WF_SIZE rocsparse_operation_none
      rocsparse_operation_none M N K nnz alpha csr_row_ptr csr_col_ind
      (op_conj trans_A <$> csr_val) (op_conj trans_B <$> B) ldb beta ldc order
      idx_base L t C
  /\ csrmmnt_general_device BLOCKSIZE WF_SIZE trans_A trans_B offset ncol M N K nnz
       alpha csr_row_ptr csr_col_ind csr_val B ldb beta ldc order idx_base L t C
     = csrmmnt_general_device BLOCKSIZE WF_SIZE rocsparse_operation_none
         rocsparse_operation_none offset ncol M N K nnz alpha csr_row_ptr
         csr_col_ind (op_conj trans_A <$> csr_val) (op_conj trans_B <$> B) ldb beta
         ldc order idx_base L t C
  /\ csrmmtn_general_device BLOCKSIZE WF_SIZE trans_A trans_B M N K nnz alpha
       csr_row_ptr csr_col_ind csr_val B ldb beta ldc order idx_base L t
     = csrmmtn_general_device BLOCKSIZE WF_SIZE rocsparse_operation_none
         rocsparse_operation_none M N K nnz alpha csr_row_ptr csr_col_ind
         (op_conj trans_A <$> csr_val) (op_conj trans_B <$> B) ldb beta ldc order
         idx_base L t
  /\ csrmmtt_general_device BLOCKSIZE WF_SIZE trans_A trans_B M N K nnz alpha
       csr_row_ptr csr_col_ind csr_val B ldb beta ldc order idx_base L t
     = csrmmtt_general_device BLOCKSIZE WF_SIZE rocsparse_operation_none
         rocsparse_operation_none M N K nnz alpha csr_row_ptr csr_col_ind
         (op_conj trans_A <$> csr_val) (op_conj trans_B <$> B) ldb beta ldc order
         idx_base L t.
Proof.
  split; [|split; [|split]].
  - unfold csrmmnn_general_device. cbv zeta.
    apply for_loop_ext with (I := fun _ => True); auto.
    intros row C' _ _. apply csrmmnn_row_conj.
  - unfold csrmmnt_general_device. cbv zeta.
    destruct (M <=? _); [reflexivity|].
    apply bind_ext. intros rs. apply bind_ext. intros re.
    apply for_loop_ext with (I := fun _ => True); auto.
    intros l C' _ _. apply csrmmnt_col_conj.
  - unfold csrmmtn_general_device. cbv zeta.
    apply for_loop_ext with (I := fun _ => True); auto.
    intros row adds _ _. unfold atomic_row.
    apply bind_ext. intros rs. apply bind_ext. intros re.
    rewrite (fill_tile_ext _ _ _
               (fun l _ => tn_fill_B_slot_conj WF_SIZE trans_B B N ldb _ row l)).
    apply bind_ext. intros shared_B. apply scatter_row_conj.
  - unfold csrmmtt_general_device. cbv zeta.
    apply for_loop_ext with (I := fun _ => True); auto.
    intros row adds _ _. unfold atomic_row.
    apply bind_ext. intros rs. apply bind_ext. intros re.
    rewrite (fill_tile_ext _ _ _
               (fun l _ => tt_fill_B_slot_conj WF_SIZE trans_B B N ldb _ row l)).
    apply bind_ext. intros shared_B. apply scatter_row_conj.
Qed.

End ConjugationClaim.

Section TransposedAddressing.
Context {T : Type} `{Scalar T}.
Variables (BLOCKSIZE WF_SIZE : Z).
Variables (trans_A trans_B : rocsparse_operation) (M N K nnz : Z) (alpha : T).
Variables (csr_row_ptr csr_col_ind : list Z) (csr_val : list T).
Variables (beta : T) (ldc : Z) (order : rocsparse_order).
Variable idx_base : rocsparse_index_base.
Variables (L : launch) (t : thread).

(** C6.  Kernel tt is kernel tn but for the addressing of B: when element
    [(row, cid)] of one K x N matrix [b] is at [B_tt[ldb_tt * row + cid]] and
    at [B_tn[row + cid * ldb_tn]], a thread of tt on [B_tt] issues the
    additions a thread of tn issues on [B_tn], the same values into the same
    elements in the same order, and faults where it faults. *)
Theorem tt_is_tn_on_transposed_B (b : Z -> Z -> T)
    (B_tn : list T) (ldb_tn : Z) (B_tt : list T) (ldb_tt : Z) :
  0 <= BLOCKSIZE -> 0 < WF_SIZE ->
  (forall row cid, 0 <= row < K -> 0 <= cid < N ->
     load OOB_B B_tt (ldb_tt * row + cid) = Ok (b row cid)
     /\ load OOB_B B_tn (row + cid * ldb_tn) = Ok (b row cid)) ->
  csrmmtt_general_device BLOCKSIZE WF_SIZE trans_A trans_B M N K nnz alpha
    csr_row_ptr csr_col_ind csr_val B_tt ldb_tt beta ldc order idx_base L t
  = csrmmtn_general_device BLOCKSIZE WF_SIZE trans_A trans_B M N K nnz alpha
      csr_row_ptr csr_col_ind csr_val B_tn ldb_tn beta ldc order idx_base L t.
Proof.
  intros HBS HWF Hb.
  unfold csrmmtt_general_device, csrmmtn_general_device. cbv zeta.
  apply for_loop_ext with (I := fun row => 0 <= row).
  - apply Z.quot_pos; lia.
  - intros row Hrow _.
    assert (0 <= (Z.of_nat (hipGridDim_x L) * BLOCKSIZE) ÷ WF_SIZE)
      by (apply Z.quot_pos; lia).
    lia.
  - intros row adds Hrow Hlt%Z.ltb_lt. unfold atomic_row.
    apply bind_ext. intros rs. apply bind_ext. intros re.
    rewrite (fill_tile_ext
               (tt_fill_B_slot WF_SIZE trans_B N B_tt ldb_tt
                  (Z.of_nat (hipBlockIdx_y t)) row)
               (tn_fill_B_slot WF_SIZE trans_B N B_tn ldb_tn
                  (Z.of_nat (hipBlockIdx_y t)) row)); [reflexivity|].
    intros l Hl%elem_of_seqZ. unfold tt_fill_B_slot, tn_fill_B_slot. cbv zeta.
    destruct (Z.ltb_spec (l + Z.of_nat (hipBlockIdx_y t) * WF_SIZE) N);
      [|reflexivity].
    destruct (Hb row (l + Z.of_nat (hipBlockIdx_y t) * WF_SIZE)) as [-> ->];
      [lia|nia|reflexivity].
Qed.

End TransposedAddressing.

Lemma tt_is_tn_on_transposed_B_witness :
  csrmmtt_general_device ex_BS ex_WF rocsparse_operation_transpose
    rocsparse_operation_none 3 2 2 3 2 ex_row_ptr ex_col_ind ex_val ex_B_tt 2 3 3
    rocsparse_order_column rocsparse_index_base_one ex_L
    {| hipBlockIdx_x := 0; hipBlockIdx_y := 0; hipThreadIdx_x := 0; hipThreadIdx_y := 0 |}
  = csrmmtn_general_device ex_BS ex_WF rocsparse_operation_transpose
      rocsparse_operation_none 3 2 2 3 2 ex_row_ptr ex_col_ind ex_val ex_B_tn 2 3 3
      rocsparse_order_column rocsparse_index_base_one ex_L
      {| hipBlockIdx_x := 0; hipBlockIdx_y := 0; hipThreadIdx_x := 0; hipThreadIdx_y := 0 |}.
Proof.
  apply (tt_is_tn_on_transposed_B (H := Z_Scalar) ex_BS ex_WF
           rocsparse_operation_transpose rocsparse_operation_none 3 2 2 3 2
           ex_row_ptr ex_col_ind ex_val 3 3 rocsparse_order_column
           rocsparse_index_base_one ex_L _
           (fun row cid => zat ex_B_tn (row + cid * 2)) ex_B_tn 2 ex_B_tt 2).
  - unfold ex_BS. lia.
  - unfold ex_WF. lia.
  - intros row cid Hrow Hcid.
    assert (row = 0 \/ row = 1) as [-> | ->] by lia;
      assert (cid = 0 \/ cid = 1) as [-> | ->] by lia;
      split; reflexivity.
Defined.

(** ** The two row-parallel kernels against each other *)

Section DotExt.
Context {T : Type} `{Scalar T}.

Lemma dot_tiled_ext (WF_SIZE : Z) (va bv bv' : Z -> T) (pad pad' : T) (rs re : Z) :
  0 < WF_SIZE ->
  (forall p, rs <= p < re -> bv p = bv' p) ->
  (rs < re -> pad = pad') ->
  dot_tiled WF_SIZE va bv pad rs re = dot_tiled WF_SIZE va bv' pad' rs re.
Proof.
  intros HWF Hbv Hpad. unfold dot_tiled.
  apply foldl_ext_in. intros j s Hj%elem_of_stride_range; [|assumption].
  unfold tile_dot. apply foldl_ext_in. intros i s' Hi%elem_of_seqZ.
  destruct (Z.ltb_spec (j + i) re).
  - rewrite Hbv by lia. reflexivity.
  - rewrite Hpad by lia. reflexivity.
Qed.

End DotExt.

Section NNvsNT.
Context {T : Type} `{Scalar T}.
Variables (BLOCKSIZE WF_SIZE : Z) (w nw : nat).
Variables (trans_A trans_B : rocsparse_operation) (M N K nnz : Z) (alpha : T).
Variables (csr_row_ptr csr_col_ind : list Z) (csr_val : list T).
Variables (beta : T) (ldc : Z) (order : rocsparse_order).
Variable idx_base : rocsparse_index_base.

(** C2, as amended.  Kernel nt over the full range of columns computes what
    kernel nn computes when each is given B in the layout it addresses:
    element [(k, j)] at [B_nn[k + j * ldb_nn]] for nn and at
    [B_nt[j + k * ldb_nt]] for nt.  The two launches then return the same
    output buffer, element for element. *)
Theorem nt_is_nn_on_transposed_B
    (B_nn : list T) (ldb_nn : Z) (L_nn : launch) (s_nn : list thread)
    (B_nt : list T) (ldb_nt : Z) (L_nt : launch) (s_nt : list thread)
    (C : list T) :
  config_ok BLOCKSIZE WF_SIZE w nw ->
  csr_valid M K csr_row_ptr csr_col_ind csr_val idx_base = true ->
  C_valid order M N ldc C = true ->
  launch_xy_ok BLOCKSIZE WF_SIZE N L_nn ->
  dense_valid K N ldb_nn B_nn = true ->
  s_nn ≡ₚ grid_threads L_nn ->
  launch_x_ok BLOCKSIZE WF_SIZE M L_nt ->
  dense_valid N K ldb_nt B_nt = true ->
  s_nt ≡ₚ grid_threads L_nt ->
  (forall k j, 0 <= k < K -> 0 <= j < N ->
     zat B_nt (j + k * ldb_nt) = zat B_nn (k + j * ldb_nn)) ->
  exists C',
    run_grid (csrmmnn_general_device BLOCKSIZE WF_SIZE trans_A trans_B M N K nnz
                alpha csr_row_ptr csr_col_ind csr_val B_nn ldb_nn beta ldc order
                idx_base L_nn) s_nn C = Ok C'
    /\ run_grid (csrmmnt_general_device BLOCKSIZE WF_SIZE trans_A trans_B 0 N
                   M N K nnz alpha csr_row_ptr csr_col_ind csr_val B_nt ldb_nt beta
                   ldc order idx_base L_nt) s_nt C = Ok C'.
Proof.
  intros Hcfg Hcsr HC HLnn HBnn Hsnn HLnt HBnt Hsnt Hsame.
  pose proof (WF_pos _ _ _ _ Hcfg) as HWF.
  destruct (csrmmnn_launch_updates BLOCKSIZE WF_SIZE w nw Hcfg trans_A trans_B
              M N K nnz alpha csr_row_ptr csr_col_ind csr_val B_nn ldb_nn beta
              C ldc order idx_base L_nn Hcsr s_nn HLnn HBnn HC Hsnn C eq_refl)
    as (C1 & E1 & L1 & V1 & F1).
  destruct (csrmmnt_launch_updates BLOCKSIZE WF_SIZE w nw Hcfg trans_A trans_B
              M N K nnz alpha csr_row_ptr csr_col_ind csr_val B_nt ldb_nt beta
              C ldc order idx_base L_nt Hcsr 0 N s_nt HLnt ltac:(lia) HBnt HC
              Hsnt C eq_refl)
    as (C2 & E2 & L2 & V2 & F2).
  exists C1. split; [exact E1|]. rewrite E2. f_equal.
  apply list_eq. intros a.
  destruct (decide (a ∈ (fun c => Z.to_nat (cell_index order ldc c))
                         <$> block_cells 0 M 0 N)) as [Hin|Hout].
  - apply list_elem_of_fmap in Hin as (c & -> & Hc).
    pose proof Hc as Hc'. apply elem_of_block_cells in Hc' as [Hr Hj].
    pose proof (C_valid_index _ _ _ _ _ c HC ltac:(lia) ltac:(lia)) as Hidx.
    rewrite (list_lookup_lookup_total_lt C2), (list_lookup_lookup_total_lt C1) by lia.
    f_equal. fold (zat C2 (cell_index order ldc c)) (zat C1 (cell_index order ldc c)).
    rewrite (V1 c Hc), (V2 c Hc). f_equal.
    destruct (csr_valid_row _ _ _ _ _ _ Hcsr (fst c) ltac:(lia))
      as (_ & _ & Hrs & _ & _ & Hcols).
    unfold nt_dot, nn_dot. apply dot_tiled_ext; [assumption| |].
    + intros p Hp. rewrite Z.mul_comm, Hsame; [reflexivity|apply Hcols; lia|lia].
    + intros Hne. specialize (Hcols _ (conj (Z.le_refl _) Hne)).
      replace (snd c + 0) with (snd c + 0 * ldb_nt) by lia.
      rewrite Hsame by lia. reflexivity.
  - rewrite F1, F2; [reflexivity| |].
    + intros c Hc E. apply Hout. apply list_elem_of_fmap. exists c. auto.
    + intros c Hc E. apply Hout. apply list_elem_of_fmap. exists c. auto.
Qed.

End NNvsNT.

(** C2, as stated, fails: on the same buffer B the two kernels read
    different elements of it. *)
Lemma nt_differs_from_nn_on_same_B :
  run_grid (csrmmnn_general_device ex_BS ex_WF rocsparse_operation_none
              rocsparse_operation_none 2 2 2 3 1 sq_row_ptr sq_col_ind sq_val
              sq_B 2 0 2 rocsparse_order_column rocsparse_index_base_zero ex_L)
           (grid_threads ex_L) sq_C = Ok [5; 6; 11; 12]
  /\ run_grid (csrmmnt_general_device ex_BS ex_WF rocsparse_operation_none
                 rocsparse_operation_none 0 2 2 2 2 3 1 sq_row_ptr sq_col_ind sq_val
                 sq_B 2 0 2 rocsparse_order_column rocsparse_index_base_zero ex_L)
              (grid_threads ex_L) sq_C = Ok [7; 9; 10; 12]
  /\ run_grid (csrmmnn_general_device ex_BS ex_WF rocsparse_operation_none
                 rocsparse_operation_none 2 2 2 3 1 sq_row_ptr sq_col_ind sq_val
                 sq_B 2 0 2 rocsparse_order_column rocsparse_index_base_zero ex_L)
              (grid_threads ex_L) sq_C
     <> run_grid (csrmmnt_general_device ex_BS ex_WF rocsparse_operation_none
                    rocsparse_operation_none 0 2 2 2 2 3 1 sq_row_ptr sq_col_ind
                    sq_val sq_B 2 0 2 rocsparse_order_column
                    rocsparse_index_base_zero ex_L)
                 (grid_threads ex_L) sq_C.
Proof.
  split; [reflexivity|]. split; [reflexivity|].
  intros E. vm_compute in E. discriminate E.
Qed.

Lemma nt_is_nn_on_transposed_B_witness :
  exists C',
    run_grid (csrmmnn_general_device ex_BS ex_WF rocsparse_operation_none
                rocsparse_operation_none 2 2 3 3 2 ex_row_ptr ex_col_ind ex_val
                ex_B_nn 3 3 2 rocsparse_order_column rocsparse_index_base_one ex_L)
             (grid_threads ex_L) ex_C = Ok C'
    /\ run_grid (csrmmnt_general_device ex_BS ex_WF rocsparse_operation_none
                   rocsparse_operation_none 0 2 2 2 3 3 2 ex_row_ptr ex_col_ind ex_val
                   ex_B_nt 2 3 2 rocsparse_order_column rocsparse_index_base_one ex_L)
                (grid_threads ex_L) ex_C = Ok C'.
Proof.
  apply (nt_is_nn_on_transposed_B (H := Z_Scalar) ex_BS ex_WF 1 2
           rocsparse_operation_none rocsparse_operation_none 2 2 3 3 2
           ex_row_ptr ex_col_ind ex_val 3 2 rocsparse_order_column
           rocsparse_index_base_one
           ex_B_nn 3 ex_L (grid_threads ex_L) ex_B_nt 2 ex_L (grid_threads ex_L) ex_C).
  - exact ex_config.
  - reflexivity.
  - reflexivity.
  - exact ex_launch_xy.
  - reflexivity.
  - reflexivity.
  - exact ex_launch_x.
  - reflexivity.
  - reflexivity.
  - intros k j Hk Hj.
    assert (k = 0 \/ k = 1 \/ k = 2) as [-> | [-> | ->]] by lia;
      assert (j = 0 \/ j = 1) as [-> | ->] by lia; reflexivity.
Defined.

(** ** Launches against the reference *)

Lemma C_valid_length {T : Type} `{Scalar T} (order : rocsparse_order)
    (M N ldc : Z) (C1 C2 : list T) :
  length C1 = length C2 ->
  C_valid order M N ldc C1 = C_valid order M N ldc C2.
Proof. intros E. unfold C_valid, dense_valid. rewrite E. reflexivity. Qed.

Section LaunchesAgainstReference.
Context {T : Type} `{ScalarLaws T}.

Add Ring T_semiring_launch : scalar_sr.

Variables (BLOCKSIZE WF_SIZE : Z) (w nw : nat).
Hypothesis Hcfg : config_ok BLOCKSIZE WF_SIZE w nw.
Variables (trans_A trans_B : rocsparse_operation) (M N K nnz : Z) (alpha : T).
Variables (csr_row_ptr csr_col_ind : list Z) (csr_val B : list T) (ldb : Z).
Variables (beta : T) (C : list T) (ldc : Z) (order : rocsparse_order).
Variable idx_base : rocsparse_index_base.
Variable L : launch.
Hypothesis HC : C_valid order M N ldc C = true.

(** Kernel nn: A as stored, B addressed at [k + j * ldb]. *)
Lemma csrmmnn_matches_reference (sched : list thread) :
  csr_valid M K csr_row_ptr csr_col_ind csr_val idx_base = true ->
  dense_valid K N ldb B = true ->
  launch_xy_ok BLOCKSIZE WF_SIZE N L ->
  sched ≡ₚ grid_threads L ->
  A_is_transposed trans_A = false ->
  B_is_nn trans_B order = true ->
  exists C',
    run_grid (csrmmnn_general_device BLOCKSIZE WF_SIZE trans_A trans_B M N K nnz
                alpha csr_row_ptr csr_col_ind csr_val B ldb beta ldc order
                idx_base L) sched C = Ok C'
    /\ forall i j, 0 <= i < M -> 0 <= j < N ->
         zat C' (dense_index order ldc i j)
         = csrmm_reference trans_A trans_B K alpha csr_row_ptr csr_col_ind csr_val
             B ldb beta C ldc order idx_base i j.
Proof.
  intros Hcsr HB HL Hs HA HBn.
  pose proof (WF_pos _ _ _ _ Hcfg) as HWF.
  destruct (csrmmnn_launch_updates BLOCKSIZE WF_SIZE w nw Hcfg trans_A trans_B
              M N K nnz alpha csr_row_ptr csr_col_ind csr_val B ldb beta
              C ldc order idx_base L Hcsr sched HL HB HC Hs C eq_refl)
    as (C' & E & _ & V & _).
  exists C'. split; [exact E|]. intros i j Hi Hj.
  specialize (V (i, j) ltac:(apply elem_of_block_cells; simpl; lia)).
  unfold cell_index in V. cbn [fst snd] in V.
  rewrite V, stored_value_exact, (nn_dot_exact WF_SIZE HWF _ _ M K) by assumption.
  unfold csrmm_reference. do 2 f_equal.
  apply sumZ_ext. intros k _. rewrite op_A_plain, op_B_nn by assumption.
  reflexivity.
Qed.

(** Kernel nt over all the columns: A as stored, B addressed at
    [k * ldb + j]. *)
Lemma csrmmnt_matches_reference (sched : list thread) :
  csr_valid M K csr_row_ptr csr_col_ind csr_val idx_base = true ->
  dense_valid N K ldb B = true ->
  launch_x_ok BLOCKSIZE WF_SIZE M L ->
  sched ≡ₚ grid_threads L ->
  A_is_transposed trans_A = false ->
  B_is_nn trans_B order = false ->
  exists C',
    run_grid (csrmmnt_general_device BLOCKSIZE WF_SIZE trans_A trans_B 0 N M N K nnz
                alpha csr_row_ptr csr_col_ind csr_val B ldb beta ldc order
                idx_base L) sched C = Ok C'
    /\ forall i j, 0 <= i < M -> 0 <= j < N ->
         zat C' (dense_index order ldc i j)
         = csrmm_reference trans_A trans_B K alpha csr_row_ptr csr_col_ind csr_val
             B ldb beta C ldc order idx_base i j.
Proof.
  intros Hcsr HB HL Hs HA HBn.
  pose proof (WF_pos _ _ _ _ Hcfg) as HWF.
  destruct (csrmmnt_launch_updates BLOCKSIZE WF_SIZE w nw Hcfg trans_A trans_B
              M N K nnz alpha csr_row_ptr csr_col_ind csr_val B ldb beta
              C ldc order idx_base L Hcsr 0 N sched HL ltac:(lia) HB HC Hs C eq_refl)
    as (C' & E & _ & V & _).
  exists C'. split; [exact E|]. intros i j Hi Hj.
  specialize (V (i, j) ltac:(apply elem_of_block_cells; simpl; lia)).
  unfold cell_index in V. cbn [fst snd] in V.
  rewrite V, stored_value_exact, (nt_dot_exact WF_SIZE HWF _ _ M K) by assumption.
  unfold csrmm_reference. do 2 f_equal.
  apply sumZ_ext. intros k _. rewrite op_A_plain, op_B_nt by assumption.
  reflexivity.
Qed.

(** The scale kernel and then an atomic kernel whose tile holds [bval]. *)
Lemma scale_then_atomic (kernel : thread -> result (list (Z * T)))
    (bval : Z -> Z -> T) (L_scale : launch) (s_scale : list thread) :
  csr_valid K M csr_row_ptr csr_col_ind csr_val idx_base = true ->
  launch_xy_ok BLOCKSIZE WF_SIZE N L ->
  launch_scale_ok M N L_scale ->
  s_scale ≡ₚ grid_threads L_scale ->
  (forall t, kernel t
     = Ok (lane_adds WF_SIZE trans_A N K alpha csr_row_ptr csr_col_ind csr_val ldc
             order idx_base bval
             ((Z.of_nat (hipGridDim_x L) * BLOCKSIZE) ÷ WF_SIZE)
             (gid_of BLOCKSIZE t ÷ WF_SIZE)
             (Z.land (gid_of BLOCKSIZE t) (WF_SIZE - 1))
             (Z.of_nat (hipBlockIdx_y t)))) ->
  exists C1 adds,
    run_grid (fun t data => csrmm_scale_device M N beta data ldc order L_scale t)
             s_scale C = Ok C1
    /\ grid_adds kernel (grid_threads L) = Ok adds
    /\ forall sched, sched ≡ₚ adds ->
         exists C2, apply_adds sched C1 = Ok C2
           /\ forall i j, 0 <= i < M -> 0 <= j < N ->
                zat C2 (dense_index order ldc i j)
                = Tadd (Tmul beta (zat C (dense_index order ldc i j)))
                    (Tmul alpha
                       (sumZ (fun k =>
                          Tmul (csr_dense (op_conj trans_A) csr_row_ptr csr_col_ind
                                          csr_val idx_base k i)
                               (bval k j)) 0 K)).
Proof.
  intros Hcsr HL HLs Hss Hk.
  destruct (scale_launch_updates M N beta ldc order L_scale C HC HLs s_scale Hss
              C eq_refl) as (C1 & E1 & L1 & V1 & _).
  exists C1. eexists. split; [exact E1|].
  split; [apply grid_adds_items; intros t _; apply Hk|].
  intros sched Hperm.
  assert (C_valid order M N ldc C1 = true) as HC1
    by (rewrite (C_valid_length _ _ _ _ C1 C L1); exact HC).
  destruct (atomic_launch_result BLOCKSIZE WF_SIZE w nw Hcfg trans_A M N K alpha
              csr_row_ptr csr_col_ind csr_val C1 ldc order idx_base L bval
              Hcsr HL HC1 sched Hperm) as (C2 & E2 & _ & V2 & _).
  exists C2. split; [exact E2|]. intros i j Hi Hj.
  specialize (V2 i j Hi Hj).
  specialize (V1 (i, j) ltac:(apply elem_of_block_cells; simpl; lia)).
  unfold cell_index in V1, V2. cbn [fst snd] in V1, V2.
  rewrite V2, V1. ring.
Qed.

End LaunchesAgainstReference.

Section ReferenceClaims.
Context {T : Type} `{ScalarLaws T}.

Add Ring T_semiring_reference : scalar_sr.

Variables (BLOCKSIZE WF_SIZE : Z) (w nw : nat).
Variables (trans_A trans_B : rocsparse_operation) (M N K nnz : Z) (alpha : T).
Variables (csr_row_ptr csr_col_ind : list Z) (csr_val B : list T) (ldb : Z).
Variables (beta : T) (C : list T) (ldc : Z) (order : rocsparse_order).
Variable idx_base : rocsparse_index_base.
Variables (L L_scale : launch) (s_scale : list thread).

(** The scale kernel and then kernel tn, on the modes tn is written for. *)
Lemma csrmmtn_scaled_exact :
  config_ok BLOCKSIZE WF_SIZE w nw ->
  C_valid order M N ldc C = true ->
  csr_valid K M csr_row_ptr csr_col_ind csr_val idx_base = true ->
  dense_valid K N ldb B = true ->
  launch_xy_ok BLOCKSIZE WF_SIZE N L ->
  launch_scale_ok M N L_scale ->
  s_scale ≡ₚ grid_threads L_scale ->
  A_is_transposed trans_A = true ->
  B_is_nn trans_B order = true ->
  exists C1 adds,
    run_grid (fun t data => csrmm_scale_device M N beta data ldc order L_scale t)
             s_scale C = Ok C1
    /\ grid_adds (csrmmtn_general_device BLOCKSIZE WF_SIZE trans_A trans_B M N K nnz
                    alpha csr_row_ptr csr_col_ind csr_val B ldb beta ldc order
                    idx_base L) (grid_threads L) = Ok adds
    /\ forall sched, sched ≡ₚ adds ->
         exists C2, apply_adds sched C1 = Ok C2
           /\ forall i j, 0 <= i < M -> 0 <= j < N ->
                zat C2 (dense_index order ldc i j)
                = Tadd (Tmul beta (zat C (dense_index order ldc i j)))
                    (Tmul alpha
                       (sumZ (fun k =>
                          Tmul (op_A trans_A csr_row_ptr csr_col_ind csr_val
                                     idx_base i k)
                               (op_B trans_B order B ldb k j)) 0 K)).
Proof.
  intros Hcfg HC Hcsr HB HL HLs Hss HA HBn.
  destruct (scale_then_atomic BLOCKSIZE WF_SIZE w nw Hcfg trans_A M N K alpha
              csr_row_ptr csr_col_ind csr_val beta C ldc order idx_base L HC
              (csrmmtn_general_device BLOCKSIZE WF_SIZE trans_A trans_B M N K nnz
                 alpha csr_row_ptr csr_col_ind csr_val B ldb beta ldc order idx_base L)
              (tn_bval trans_B B ldb) L_scale s_scale Hcsr HL HLs Hss)
    as (C1 & adds & E1 & Ea & Hfin).
  { intros t. apply (csrmmtn_thread_adds _ _ _ _ Hcfg); [assumption| |assumption].
    pose proof HL as (_ & _ & ? & _). assumption. }
  exists C1, adds. split; [exact E1|]. split; [exact Ea|].
  intros sched Hperm. destruct (Hfin sched Hperm) as (C2 & E2 & V).
  exists C2. split; [exact E2|]. intros i j Hi Hj. rewrite (V i j Hi Hj).
  do 2 f_equal. apply sumZ_ext. intros k _.
  rewrite op_A_transposed, op_B_nn by assumption. reflexivity.
Qed.

(** The scale kernel and then kernel tt, on the modes tt is written for. *)
Lemma csrmmtt_scaled_exact :
  config_ok BLOCKSIZE WF_SIZE w nw ->
  C_valid order M N ldc C = true ->
  csr_valid K M csr_row_ptr csr_col_ind csr_val idx_base = true ->
  dense_valid N K ldb B = true ->
  launch_xy_ok BLOCKSIZE WF_SIZE N L ->
  launch_scale_ok M N L_scale ->
  s_scale ≡ₚ grid_threads L_scale ->
  A_is_transposed trans_A = true ->
  B_is_nn trans_B order = false ->
  exists C1 adds,
    run_grid (fun t data => csrmm_scale_device M N beta data ldc order L_scale t)
             s_scale C = Ok C1
    /\ grid_adds (csrmmtt_general_device BLOCKSIZE WF_SIZE trans_A trans_B M N K nnz
                    alpha csr_row_ptr csr_col_ind csr_val B ldb beta ldc order
                    idx_base L) (grid_threads L) = Ok adds
    /\ forall sched, sched ≡ₚ adds ->
         exists C2, apply_adds sched C1 = Ok C2
           /\ forall i j, 0 <= i < M -> 0 <= j < N ->
                zat C2 (dense_index order ldc i j)
                = Tadd (Tmul beta (zat C (dense_index order ldc i j)))
                    (Tmul alpha
                       (sumZ (fun k =>
                          Tmul (op_A trans_A csr_row_ptr csr_col_ind csr_val
                                     idx_base i k)
                               (op_B trans_B order B ldb k j)) 0 K)).
Proof.
  intros Hcfg HC Hcsr HB HL HLs Hss HA HBn.
  destruct (scale_then_atomic BLOCKSIZE WF_SIZE w nw Hcfg trans_A M N K alpha
              csr_row_ptr csr_col_ind csr_val beta C ldc order idx_base L HC
              (csrmmtt_general_device BLOCKSIZE WF_SIZE trans_A trans_B M N K nnz
                 alpha csr_row_ptr csr_col_ind csr_val B ldb beta ldc order idx_base L)
              (tt_bval trans_B B ldb) L_scale s_scale Hcsr HL HLs Hss)
    as (C1 & adds & E1 & Ea & Hfin).
  { intros t. apply (csrmmtt_thread_adds _ _ _ _ Hcfg); [assumption| |assumption].
    pose proof HL as (_ & _ & ? & _). assumption. }
  exists C1, adds. split; [exact E1|]. split; [exact Ea|].
  intros sched Hperm. destruct (Hfin sched Hperm) as (C2 & E2 & V).
  exists C2. split; [exact E2|]. intros i j Hi Hj. rewrite (V i j Hi Hj).
  do 2 f_equal. apply sumZ_ext. intros k _.
  rewrite op_A_transposed, op_B_nt by assumption. reflexivity.
Qed.

Lemma reference_sum_form (i j : Z) :
  csrmm_reference trans_A trans_B K alpha csr_row_ptr csr_col_ind csr_val B ldb
    beta C ldc order idx_base i j
  = Tadd (Tmul beta (zat C (dense_index order ldc i j)))
      (Tmul alpha
         (sumZ (fun k =>
            Tmul (op_A trans_A csr_row_ptr csr_col_ind csr_val idx_base i k)
                 (op_B trans_B order B ldb k j)) 0 K)).
Proof. unfold csrmm_reference. ring. Qed.

(** C1, as amended.  On a well-formed CSR matrix, in exact arithmetic and
    under a launch that covers the output, each kernel variant leaves in
    every element of the M x N output the entry of the reference
    [alpha * op(A) * op(B) + beta * C] for the transpose modes and order
    that variant implements, with either index base: nn and nt when A is
    not transposed, tn and tt (run after the scale kernel, their additions
    applied in any order) when A is transposed or conjugate-transposed; nn
    and tn when entry [(k, j)] of op(B) is at [B[k + j * ldb]], nt and tt
    when it is at [B[k * ldb + j]]. *)
Theorem kernels_match_reference (sched : list thread) :
  config_ok BLOCKSIZE WF_SIZE w nw ->
  C_valid order M N ldc C = true ->
  sched ≡ₚ grid_threads L ->
  (csr_valid M K csr_row_ptr csr_col_ind csr_val idx_base = true ->
   dense_valid K N ldb B = true ->
   launch_xy_ok BLOCKSIZE WF_SIZE N L ->
   A_is_transposed trans_A = false -> B_is_nn trans_B order = true ->
   exists C',
     run_grid (csrmmnn_general_device BLOCKSIZE WF_SIZE trans_A trans_B M N K nnz
                 alpha csr_row_ptr csr_col_ind csr_val B ldb beta ldc order
                 idx_base L) sched C = Ok C'
     /\ forall i j, 0 <= i < M -> 0 <= j < N ->
          zat C' (dense_index order ldc i j)
          = csrmm_reference trans_A trans_B K alpha csr_row_ptr csr_col_ind csr_val
              B ldb beta C ldc order idx_base i j)
  /\ (csr_valid M K csr_row_ptr csr_col_ind csr_val idx_base = true ->
      dense_valid N K ldb B = true ->
      launch_x_ok BLOCKSIZE WF_SIZE M L ->
      A_is_transposed trans_A = false -> B_is_nn trans_B order = false ->
      exists C',
        run_grid (csrmmnt_general_device BLOCKSIZE WF_SIZE trans_A trans_B 0 N
                    M N K nnz alpha csr_row_ptr csr_col_ind csr_val B ldb beta ldc
                    order idx_base L) sched C = Ok C'
        /\ forall i j, 0 <= i < M -> 0 <= j < N ->
             zat C' (dense_index order ldc i j)
             = csrmm_reference trans_A trans_B K alpha csr_row_ptr csr_col_ind
                 csr_val B ldb beta C ldc order idx_base i j)
  /\ (csr_valid K M csr_row_ptr csr_col_ind csr_val idx_base = true ->
      dense_valid K N ldb B = true ->
      launch_xy_ok BLOCKSIZE WF_SIZE N L ->
      launch_scale_ok M N L_scale -> s_scale ≡ₚ grid_threads L_scale ->
      A_is_transposed trans_A = true -> B_is_nn trans_B order = true ->
      exists C1 adds,
        run_grid (fun t data => csrmm_scale_device M N beta data ldc order L_scale t)
                 s_scale C = Ok C1
        /\ grid_adds (csrmmtn_general_device BLOCKSIZE WF_SIZE trans_A trans_B
                        M N K nnz alpha csr_row_ptr csr_col_ind csr_val B ldb beta
                        ldc order idx_base L) (grid_threads L) = Ok adds
        /\ forall order_of_adds, order_of_adds ≡ₚ adds ->
             exists C2, apply_adds order_of_adds C1 = Ok C2
               /\ forall i j, 0 <= i < M -> 0 <= j < N ->
                    zat C2 (dense_index order ldc i j)
                    = csrmm_reference trans_A trans_B K alpha csr_row_ptr
                        csr_col_ind csr_val B ldb beta C ldc order idx_base i j)
  /\ (csr_valid K M csr_row_ptr csr_col_ind csr_val idx_base = true ->
      dense_valid N K ldb B = true ->
      launch_xy_ok BLOCKSIZE WF_SIZE N L ->
      launch_scale_ok M N L_scale -> s_scale ≡ₚ grid_threads L_scale ->
      A_is_transposed trans_A = true -> B_is_nn trans_B order = false ->
      exists C1 adds,
        run_grid (fun t data => csrmm_scale_device M N beta data ldc order L_scale t)
                 s_scale C = Ok C1
        /\ grid_adds (csrmmtt_general_device BLOCKSIZE WF_SIZE trans_A trans_B
                        M N K nnz alpha csr_row_ptr csr_col_ind csr_val B ldb beta
                        ldc order idx_base L) (grid_threads L) = Ok adds
        /\ forall order_of_adds, order_of_adds ≡ₚ adds ->
             exists C2, apply_adds order_of_adds C1 = Ok C2
               /\ forall i j, 0 <= i < M -> 0 <= j < N ->
                    zat C2 (dense_index order ldc i j)
                    = csrmm_reference trans_A trans_B K alpha csr_row_ptr
                        csr_col_ind csr_val B ldb beta C ldc order idx_base i j).
Proof.
  intros Hcfg HC Hs. split; [|split; [|split]].
  - intros Hcsr HB HL HA HBn.
    apply (csrmmnn_matches_reference _ _ _ _ Hcfg); assumption.
  - intros Hcsr HB HL HA HBn.
    apply (csrmmnt_matches_reference _ _ _ _ Hcfg); assumption.
  - intros Hcsr HB HL HLs Hss HA HBn.
    destruct (csrmmtn_scaled_exact Hcfg HC Hcsr HB HL HLs Hss HA HBn)
      as (C1 & adds & E1 & Ea & Hfin).
    exists C1, adds. split; [exact E1|]. split; [exact Ea|].
    intros sch Hp. destruct (Hfin sch Hp) as (C2 & E2 & V).
    exists C2. split; [exact E2|]. intros i j Hi Hj.
    rewrite (V i j Hi Hj), reference_sum_form. reflexivity.
  - intros Hcsr HB HL HLs Hss HA HBn.
    destruct (csrmmtt_scaled_exact Hcfg HC Hcsr HB HL HLs Hss HA HBn)
      as (C1 & adds & E1 & Ea & Hfin).
    exists C1, adds. split; [exact E1|]. split; [exact Ea|].
    intros sch Hp. destruct (Hfin sch Hp) as (C2 & E2 & V).
    exists C2. split; [exact E2|]. intros i j Hi Hj.
    rewrite (V i j Hi Hj), reference_sum_form. reflexivity.
Qed.

End ReferenceClaims.

(** C5, as amended.  The composition law, in exact arithmetic: on a
    well-formed input (the stored matrix has K rows, A is transposed, B is in
    the layout the kernel addresses), the scale kernel on C with beta
    followed by kernel tn, or by kernel tt, leaves
    [beta * C_old + alpha * op(A) * op(B)] in every element of the M x N
    output, [C_old] being what C held before the scale kernel ran and the
    additions being applied in any order. *)
Theorem scale_then_accumulate {T : Type} `{ScalarLaws T}
    (BLOCKSIZE WF_SIZE : Z) (w nw : nat)
    (trans_A trans_B : rocsparse_operation) (M N K nnz : Z) (alpha : T)
    (csr_row_ptr csr_col_ind : list Z) (csr_val B : list T) (ldb : Z)
    (beta : T) (C : list T) (ldc : Z) (order : rocsparse_order)
    (idx_base : rocsparse_index_base) (L L_scale : launch) (s_scale : list thread)
    (B_tt : list T) (ldb_tt : Z) (trans_B_tt : rocsparse_operation) :
  config_ok BLOCKSIZE WF_SIZE w nw ->
  C_valid order M N ldc C = true ->
  csr_valid K M csr_row_ptr csr_col_ind csr_val idx_base = true ->
  launch_xy_ok BLOCKSIZE WF_SIZE N L ->
  launch_scale_ok M N L_scale ->
  s_scale ≡ₚ grid_threads L_scale ->
  A_is_transposed trans_A = true ->
  dense_valid K N ldb B = true -> B_is_nn trans_B order = true ->
  dense_valid N K ldb_tt B_tt = true -> B_is_nn trans_B_tt order = false ->
  (exists C1 adds,
     run_grid (fun t data => csrmm_scale_device M N beta data ldc order L_scale t)
              s_scale C = Ok C1
     /\ grid_adds (csrmmtn_general_device BLOCKSIZE WF_SIZE trans_A trans_B
                     M N K nnz alpha csr_row_ptr csr_col_ind csr_val B ldb beta
                     ldc order idx_base L) (grid_threads L) = Ok adds
     /\ forall order_of_adds, order_of_adds ≡ₚ adds ->
          exists C2, apply_adds order_of_adds C1 = Ok C2
            /\ forall i j, 0 <= i < M -> 0 <= j < N ->
                 zat C2 (dense_index order ldc i j)
                 = Tadd (Tmul beta (zat C (dense_index order ldc i j)))
                     (Tmul alpha
                        (sumZ (fun k =>
                           Tmul (op_A trans_A csr_row_ptr csr_col_ind csr_val
                                      idx_base i k)
                                (op_B trans_B order B ldb k j)) 0 K)))
  /\ (exists C1 adds,
     run_grid (fun t data => csrmm_scale_device M N beta data ldc order L_scale t)
              s_scale C = Ok C1
     /\ grid_adds (csrmmtt_general_device BLOCKSIZE WF_SIZE trans_A trans_B_tt
                     M N K nnz alpha csr_row_ptr csr_col_ind csr_val B_tt ldb_tt beta
                     ldc order idx_base L) (grid_threads L) = Ok adds
     /\ forall order_of_adds, order_of_adds ≡ₚ adds ->
          exists C2, apply_adds order_of_adds C1 = Ok C2
            /\ forall i j, 0 <= i < M -> 0 <= j < N ->
                 zat C2 (dense_index order ldc i j)
                 = Tadd (Tmul beta (zat C (dense_index order ldc i j)))
                     (Tmul alpha
                        (sumZ (fun k =>
                           Tmul (op_A trans_A csr_row_ptr csr_col_ind csr_val
                                      idx_base i k)
                                (op_B trans_B_tt order B_tt ldb_tt k j)) 0 K))).
Proof.
  intros Hcfg HC Hcsr HL HLs Hss HA HB HBn HBt HBtn. split.
  - apply (csrmmtn_scaled_exact BLOCKSIZE WF_SIZE w nw); assumption.
  - apply (csrmmtt_scaled_exact BLOCKSIZE WF_SIZE w nw); assumption.
Qed.

(** C1, as stated, fails: kernel nn under the mode transpose multiplies by
    the stored matrix, not by its transpose. *)
Lemma nn_ignores_transposition :
  run_grid (csrmmnn_general_device ex_BS ex_WF rocsparse_operation_transpose
              rocsparse_operation_none 2 2 2 3 1 sq_row_ptr sq_col_ind sq_val
              sq_B 2 0 2 rocsparse_order_column rocsparse_index_base_zero ex_L)
           (grid_threads ex_L) sq_C = Ok [5; 6; 11; 12]
  /\ csrmm_reference rocsparse_operation_transpose rocsparse_operation_none 2 1
       sq_row_ptr sq_col_ind sq_val sq_B 2 0 sq_C 2 rocsparse_order_column
       rocsparse_index_base_zero 0 0 = 1
  /\ zat [5; 6; 11; 12] (dense_index rocsparse_order_column 2 0 0)
     <> csrmm_reference rocsparse_operation_transpose rocsparse_operation_none 2 1
          sq_row_ptr sq_col_ind sq_val sq_B 2 0 sq_C 2 rocsparse_order_column
          rocsparse_index_base_zero 0 0.
Proof.
  split; [reflexivity|]. split; [reflexivity|].
  intros E. vm_compute in E. discriminate E.
Qed.

Lemma ex_launch_scale : launch_scale_ok 3 2 ex_L_scale.
Proof. unfold launch_scale_ok, ex_L_scale. simpl. lia. Qed.

Lemma kernels_match_reference_witness :
  (exists C',
     run_grid (csrmmnn_general_device ex_BS ex_WF rocsparse_operation_none
                 rocsparse_operation_none 2 2 3 3 2 ex_row_ptr ex_col_ind ex_val
                 ex_B_nn 3 3 2 rocsparse_order_column rocsparse_index_base_one ex_L)
              (grid_threads ex_L) ex_C = Ok C'
     /\ forall i j, 0 <= i < 2 -> 0 <= j < 2 ->
          zat C' (dense_index rocsparse_order_column 2 i j)
          = csrmm_reference rocsparse_operation_none rocsparse_operation_none 3 2
              ex_row_ptr ex_col_ind ex_val ex_B_nn 3 3 ex_C 2 rocsparse_order_column
              rocsparse_index_base_one i j)
  /\ (exists C',
     run_grid (csrmmnt_general_device ex_BS ex_WF rocsparse_operation_none
                 rocsparse_operation_none 0 2 2 2 3 3 2 ex_row_ptr ex_col_ind ex_val
                 ex_B_nt 2 3 2 rocsparse_order_row rocsparse_index_base_one ex_L)
              (grid_threads ex_L) ex_C = Ok C'
     /\ forall i j, 0 <= i < 2 -> 0 <= j < 2 ->
          zat C' (dense_index rocsparse_order_row 2 i j)
          = csrmm_reference rocsparse_operation_none rocsparse_operation_none 3 2
              ex_row_ptr ex_col_ind ex_val ex_B_nt 2 3 ex_C 2 rocsparse_order_row
              rocsparse_index_base_one i j)
  /\ (exists C1 adds,
     run_grid (fun t data => csrmm_scale_device 3 2 3 data 3 rocsparse_order_column
                               ex_L_scale t)
              (grid_threads ex_L_scale) ex_C_t = Ok C1
     /\ grid_adds (csrmmtn_general_device ex_BS ex_WF rocsparse_operation_transpose
                     rocsparse_operation_none 3 2 2 3 2 ex_row_ptr ex_col_ind ex_val
                     ex_B_tn 2 3 3 rocsparse_order_column rocsparse_index_base_one
                     ex_L) (grid_threads ex_L) = Ok adds
     /\ forall order_of_adds, order_of_adds ≡ₚ adds ->
          exists C2, apply_adds order_of_adds C1 = Ok C2
            /\ forall i j, 0 <= i < 3 -> 0 <= j < 2 ->
                 zat C2 (dense_index rocsparse_order_column 3 i j)
                 = csrmm_reference rocsparse_operation_transpose
                     rocsparse_operation_none 2 2 ex_row_ptr ex_col_ind ex_val
                     ex_B_tn 2 3 ex_C_t 3 rocsparse_order_column
                     rocsparse_index_base_one i j)
  /\ (exists C1 adds,
     run_grid (fun t data => csrmm_scale_device 3 2 3 data 2 rocsparse_order_row
                               ex_L_scale t)
              (grid_threads ex_L_scale) ex_C_t = Ok C1
     /\ grid_adds (csrmmtt_general_device ex_BS ex_WF rocsparse_operation_transpose
                     rocsparse_operation_none 3 2 2 3 2 ex_row_ptr ex_col_ind ex_val
                     ex_B_tt 2 3 2 rocsparse_order_row rocsparse_index_base_one
                     ex_L) (grid_threads ex_L) = Ok adds
     /\ forall order_of_adds, order_of_adds ≡ₚ adds ->
          exists C2, apply_adds order_of_adds C1 = Ok C2
            /\ forall i j, 0 <= i < 3 -> 0 <= j < 2 ->
                 zat C2 (dense_index rocsparse_order_row 2 i j)
                 = csrmm_reference rocsparse_operation_transpose
                     rocsparse_operation_none 2 2 ex_row_ptr ex_col_ind ex_val
                     ex_B_tt 2 3 ex_C_t 2 rocsparse_order_row
                     rocsparse_index_base_one i j).
Proof.
  split; [|split; [|split]].
  - apply (proj1 (kernels_match_reference (H := Z_Scalar) ex_BS ex_WF 1 2
             rocsparse_operation_none rocsparse_operation_none 2 2 3 3 2
             ex_row_ptr ex_col_ind ex_val ex_B_nn 3 3 ex_C 2 rocsparse_order_column
             rocsparse_index_base_one ex_L ex_L_scale (grid_threads ex_L_scale)
             (grid_threads ex_L) ex_config eq_refl (Permutation_refl _)));
      [reflexivity|reflexivity|exact ex_launch_xy|reflexivity|reflexivity].
  - apply (proj1 (proj2 (kernels_match_reference (H := Z_Scalar) ex_BS ex_WF 1 2
             rocsparse_operation_none rocsparse_operation_none 2 2 3 3 2
             ex_row_ptr ex_col_ind ex_val ex_B_nt 2 3 ex_C 2 rocsparse_order_row
             rocsparse_index_base_one ex_L ex_L_scale (grid_threads ex_L_scale)
             (grid_threads ex_L) ex_config eq_refl (Permutation_refl _))));
      [reflexivity|reflexivity|exact ex_launch_x|reflexivity|reflexivity].
  - apply (proj1 (proj2 (proj2 (kernels_match_reference (H := Z_Scalar) ex_BS ex_WF
             1 2 rocsparse_operation_transpose rocsparse_operation_none 3 2 2 3 2
             ex_row_ptr ex_col_ind ex_val ex_B_tn 2 3 ex_C_t 3 rocsparse_order_column
             rocsparse_index_base_one ex_L ex_L_scale (grid_threads ex_L_scale)
             (grid_threads ex_L) ex_config eq_refl (Permutation_refl _)))));
      [reflexivity|reflexivity|exact ex_launch_xy|exact ex_launch_scale
      |reflexivity|reflexivity|reflexivity].
  - apply (proj2 (proj2 (proj2 (kernels_match_reference (H := Z_Scalar) ex_BS ex_WF
             1 2 rocsparse_operation_transpose rocsparse_operation_none 3 2 2 3 2
             ex_row_ptr ex_col_ind ex_val ex_B_tt 2 3 ex_C_t 2 rocsparse_order_row
             rocsparse_index_base_one ex_L ex_L_scale (grid_threads ex_L_scale)
             (grid_threads ex_L) ex_config eq_refl (Permutation_refl _)))));
      [reflexivity|reflexivity|exact ex_launch_xy|exact ex_launch_scale
      |reflexivity|reflexivity|reflexivity].
Defined.

Lemma scale_then_accumulate_witness :
  (exists C1 adds,
     run_grid (fun t data => csrmm_scale_device 3 2 3 data 3 rocsparse_order_column
                               ex_L_scale t)
              (grid_threads ex_L_scale) ex_C_t = Ok C1
     /\ grid_adds (csrmmtn_general_device ex_BS ex_WF rocsparse_operation_transpose
                     rocsparse_operation_none 3 2 2 3 2 ex_row_ptr ex_col_ind ex_val
                     ex_B_tn 2 3 3 rocsparse_order_column rocsparse_index_base_one
                     ex_L) (grid_threads ex_L) = Ok adds
     /\ forall order_of_adds, order_of_adds ≡ₚ adds ->
          exists C2, apply_adds order_of_adds C1 = Ok C2
            /\ forall i j, 0 <= i < 3 -> 0 <= j < 2 ->
                 zat C2 (dense_index rocsparse_order_column 3 i j)
                 = 3 * zat ex_C_t (dense_index rocsparse_order_column 3 i j)
                   + 2 * sumZ (fun k =>
                       op_A rocsparse_operation_transpose ex_row_ptr ex_col_ind
                            ex_val rocsparse_index_base_one i k
                       * op_B rocsparse_operation_none rocsparse_order_column
                              ex_B_tn 2 k j) 0 2)
  /\ (exists C1 adds,
     run_grid (fun t data => csrmm_scale_device 3 2 3 data 3 rocsparse_order_column
                               ex_L_scale t)
              (grid_threads ex_L_scale) ex_C_t = Ok C1
     /\ grid_adds (csrmmtt_general_device ex_BS ex_WF rocsparse_operation_transpose
                     rocsparse_operation_transpose 3 2 2 3 2 ex_row_ptr ex_col_ind
                     ex_val ex_B_tt 2 3 3 rocsparse_order_column
                     rocsparse_index_base_one ex_L) (grid_threads ex_L) = Ok adds
     /\ forall order_of_adds, order_of_adds ≡ₚ adds ->
          exists C2, apply_adds order_of_adds C1 = Ok C2
            /\ forall i j, 0 <= i < 3 -> 0 <= j < 2 ->
                 zat C2 (dense_index rocsparse_order_column 3 i j)
                 = 3 * zat ex_C_t (dense_index rocsparse_order_column 3 i j)
                   + 2 * sumZ (fun k =>
                       op_A rocsparse_operation_transpose ex_row_ptr ex_col_ind
                            ex_val rocsparse_index_base_one i k
                       * op_B rocsparse_operation_transpose rocsparse_order_column
                              ex_B_tt 2 k j) 0 2).
Proof.
  apply (scale_then_accumulate (H := Z_Scalar) ex_BS ex_WF 1 2
           rocsparse_operation_transpose rocsparse_operation_none 3 2 2 3 2
           ex_row_ptr ex_col_ind ex_val ex_B_tn 2 3 ex_C_t 3 rocsparse_order_column
           rocsparse_index_base_one ex_L ex_L_scale (grid_threads ex_L_scale)
           ex_B_tt 2 rocsparse_operation_transpose).
  - exact ex_config.
  - reflexivity.
  - reflexivity.
  - exact ex_launch_xy.
  - exact ex_launch_scale.
  - reflexivity.
  - reflexivity.
  - reflexivity.
  - reflexivity.
  - reflexivity.
  - reflexivity.
Defined.

(** C5, as stated, fails in double precision.  On a well-formed input the
    three additions of kernel tn into the one element of the output are 1,
    -1e16 and 1e16; after the scale kernel, in the order the threads issue
    them they leave 0, in another order 1, and the reference is 1. *)
Lemma atomic_sum_depends_on_order :
  (config_ok ex_BS ex_WF 1 2
   /\ csr_valid 3 1 cancel_row_ptr cancel_col_ind cancel_val
        rocsparse_index_base_zero = true
   /\ dense_valid 3 1 3 cancel_B = true
   /\ C_valid rocsparse_order_column 1 1 1 [0%float] = true
   /\ launch_xy_ok ex_BS ex_WF 1 ex_L
   /\ launch_scale_ok 1 1 ex_L_scale
   /\ A_is_transposed rocsparse_operation_transpose = true
   /\ B_is_nn rocsparse_operation_none rocsparse_order_column = true)
  /\ run_grid (fun t data => csrmm_scale_device 1 1 1%float data 1
                               rocsparse_order_column ex_L_scale t)
              (grid_threads ex_L_scale) [0%float] = Ok [0%float]
  /\ grid_adds (csrmmtn_general_device ex_BS ex_WF rocsparse_operation_transpose
                  rocsparse_operation_none 1 1 3 3 1%float cancel_row_ptr
                  cancel_col_ind cancel_val cancel_B 3 1%float 1
                  rocsparse_order_column rocsparse_index_base_zero ex_L)
               (grid_threads ex_L)
     = Ok [(0, 1%float); (0, (-1e16)%float); (0, 1e16%float)]
  /\ apply_adds [(0, 1%float); (0, (-1e16)%float); (0, 1e16%float)] [0%float]
     = Ok [0%float]
  /\ [(0, 1e16%float); (0, (-1e16)%float); (0, 1%float)]
     ≡ₚ [(0, 1%float); (0, (-1e16)%float); (0, 1e16%float)]
  /\ apply_adds [(0, 1e16%float); (0, (-1e16)%float); (0, 1%float)] [0%float]
     = Ok [1%float]
  /\ csrmm_reference rocsparse_operation_transpose rocsparse_operation_none 3
       1%float cancel_row_ptr cancel_col_ind cancel_val cancel_B 3 1%float
       [0%float] 1 rocsparse_order_column rocsparse_index_base_zero 0 0
     = 1%float
  /\ zat [0%float] (dense_index rocsparse_order_column 1 0 0)
     <> csrmm_reference rocsparse_operation_transpose rocsparse_operation_none 3
          1%float cancel_row_ptr cancel_col_ind cancel_val cancel_B 3 1%float
          [0%float] 1 rocsparse_order_column rocsparse_index_base_zero 0 0.
Proof.
  split.
  { split; [exact ex_config|]. split; [reflexivity|]. split; [reflexivity|].
    split; [reflexivity|]. split; [|split; [|split; reflexivity]].
    - unfold launch_xy_ok, ex_L, ex_BS, ex_WF. simpl. lia.
    - unfold launch_scale_ok, ex_L_scale. simpl. lia. }
  split; [vm_compute; reflexivity|].
  split; [vm_compute; reflexivity|].
  split; [vm_compute; reflexivity|].
  split.
  { change ([(0, 1e16%float); (0, (-1e16)%float); (0, 1%float)]
            ≡ₚ reverse [(0, 1e16%float); (0, (-1e16)%float); (0, 1%float)]).
    symmetry. apply reverse_Permutation. }
  split; [vm_compute; reflexivity|].
  split; [vm_compute; reflexivity|].
  apply double_neq; vm_compute; discriminate.
Qed.


(** ** Loads of the row pointer *)

Lemma row_ptr_safe_Ok {A : Type} (a : A) : row_ptr_safe (Ok a).
Proof. intros i. discriminate. Qed.

Lemma row_ptr_safe_bind {A B : Type} (m : result A) (k : A -> result B) :
  row_ptr_safe m -> (forall a, row_ptr_safe (k a)) -> row_ptr_safe (bind m k).
Proof.
  intros Hm Hk. destruct m as [a|f|]; simpl.
  - apply Hk.
  - intros i [= E]. apply (Hm i). rewrite E. reflexivity.
  - intros i. discriminate.
Qed.

Lemma row_ptr_safe_load_other {A : Type} (tag : Z -> fault) (buf : list A) (i : Z) :
  (forall j k, tag j <> OOB_row_ptr k) -> row_ptr_safe (load tag buf i).
Proof.
  intros Htag k. unfold load. destruct (i <? 0).
  - intros [= E]. exact (Htag _ _ E).
  - destruct (buf !! Z.to_nat i); [discriminate|].
    intros [= E]. exact (Htag _ _ E).
Qed.

Lemma row_ptr_safe_store {A : Type} (buf : list A) (i : Z) (v : A) :
  row_ptr_safe (store OOB_C buf i v).
Proof. intros k. unfold store. destruct (_ && _); discriminate. Qed.

Lemma row_ptr_safe_load_in {A : Type} (buf : list Z) (i : Z)
    (k : Z -> result A) :
  0 <= i < Z.of_nat (length buf) ->
  (forall v, row_ptr_safe (k v)) ->
  row_ptr_safe (bind (load OOB_row_ptr buf i) k).
Proof. intros Hi Hk. rewrite load_Ok by assumption. apply Hk. Qed.

Lemma row_ptr_safe_for_loop {S : Type} (I : Z -> Prop) (fuel : nat)
    (cond : Z -> bool) (step : Z) (body : Z -> S -> result S) (x : Z) (s : S) :
  I x ->
  (forall y, I y -> cond y = true -> I (y + step)) ->
  (forall y s, I y -> cond y = true -> row_ptr_safe (body y s)) ->
  row_ptr_safe (for_loop fuel cond step body x s).
Proof.
  intros Hx Hstep Hb. revert x s Hx.
  induction fuel as [|fuel IH]; intros x s Hx; simpl.
  - destruct (cond x); intros i; discriminate.
  - destruct (cond x) eqn:Ec; [|apply row_ptr_safe_Ok].
    apply row_ptr_safe_bind; [apply Hb; assumption|].
    intros s'. apply IH, Hstep; assumption.
Qed.

Lemma row_ptr_safe_fill_tile {A : Type} (slot : Z -> result A) (lanes : list Z) :
  (forall l, row_ptr_safe (slot l)) -> row_ptr_safe (fill_tile slot lanes).
Proof.
  intros Hs. induction lanes as [|l lanes IH]; simpl; [apply row_ptr_safe_Ok|].
  apply row_ptr_safe_bind; [apply Hs|]. intros v.
  apply row_ptr_safe_bind; [apply IH|]. intros vs. apply row_ptr_safe_Ok.
Qed.

Ltac row_ptr_safe_step :=
  match goal with
  | |- row_ptr_safe (Ok _) => apply row_ptr_safe_Ok
  | |- row_ptr_safe (store OOB_C _ _ _) => apply row_ptr_safe_store
  | |- row_ptr_safe (load _ _ _) =>
      apply row_ptr_safe_load_other; intros ? ?; discriminate
  | |- row_ptr_safe (fill_tile _ _) => apply row_ptr_safe_fill_tile; intros ?
  | |- row_ptr_safe (bind _ _) => apply row_ptr_safe_bind; [|intros ?]
  | |- row_ptr_safe (for_loop _ _ _ _ _ _) =>
      apply row_ptr_safe_for_loop with (I := fun _ => True);
      [exact I|intros; exact I|intros ? ? _ _]
  | |- row_ptr_safe (if ?c then _ else _) => destruct c
  | |- row_ptr_safe (match ?t with
                     | rocsparse_operation_none => _
                     | rocsparse_operation_transpose => _
                     | rocsparse_operation_conjugate_transpose => _
                     end) => destruct t
  | |- row_ptr_safe (match ?o with
                     | rocsparse_order_row => _
                     | rocsparse_order_column => _
                     end) => destruct o
  end.

Section RowPtr.
Context {T : Type} `{Scalar T}.
Variables (BLOCKSIZE WF_SIZE : Z).
Hypothesis HBS : 0 <= BLOCKSIZE.
Hypothesis HWF : 0 < WF_SIZE.
Variables (trans_A trans_B : rocsparse_operation) (M N K nnz : Z) (alpha : T).
Variables (csr_row_ptr csr_col_ind : list Z) (csr_val B : list T) (ldb : Z).
Variables (beta : T) (ldc : Z) (order : rocsparse_order).
Variable idx_base : rocsparse_index_base.
Variables (L : launch) (t : thread).

Lemma first_row_nonneg :
  0 <= (Z.of_nat (hipBlockIdx_x t) * BLOCKSIZE + Z.of_nat (hipThreadIdx_x t)) ÷ WF_SIZE.
Proof. apply Z.quot_pos; nia. Qed.

Lemma row_stride_nonneg :
  0 <= (Z.of_nat (hipGridDim_x L) * BLOCKSIZE) ÷ WF_SIZE.
Proof. apply Z.quot_pos; nia. Qed.

Lemma store_result_row_ptr_safe (C : list T) (row col : Z) (sum : T) :
  row_ptr_safe (store_result alpha beta C ldc order row col sum).
Proof. unfold store_result. repeat row_ptr_safe_step. Qed.

Lemma csrmmnn_row_ptr_safe (C : list T) :
  Z.of_nat (length csr_row_ptr) = M + 1 ->
  row_ptr_safe
    (csrmmnn_general_device BLOCKSIZE WF_SIZE trans_A trans_B M N K nnz alpha
       csr_row_ptr csr_col_ind csr_val B ldb beta ldc order idx_base L t C).
Proof.
  intros Hlen. unfold csrmmnn_general_device. cbv zeta.
  apply row_ptr_safe_for_loop with (I := fun row => 0 <= row).
  - apply first_row_nonneg.
  - intros row Hrow _. pose proof row_stride_nonneg. lia.
  - intros row C' Hrow Hlt%Z.ltb_lt. unfold csrmmnn_row.
    apply row_ptr_safe_load_in; [lia|]. intros rs.
    apply row_ptr_safe_load_in; [lia|]. intros re. cbv zeta.
    apply row_ptr_safe_bind.
    + unfold csrmmnn_row_sum, nn_fill_col_slot, fill_val_slot.
      repeat row_ptr_safe_step.
    + intros sum.
      destruct (_ <? N); [apply store_result_row_ptr_safe|apply row_ptr_safe_Ok].
Qed.

Lemma csrmmnt_row_ptr_safe (offset ncol : Z) (C : list T) :
  Z.of_nat (length csr_row_ptr) = M + 1 ->
  row_ptr_safe
    (csrmmnt_general_device BLOCKSIZE WF_SIZE trans_A trans_B offset ncol M N K nnz
       alpha csr_row_ptr csr_col_ind csr_val B ldb beta ldc order idx_base L t C).
Proof.
  intros Hlen. unfold csrmmnt_general_device. cbv zeta.
  pose proof first_row_nonneg as Hrow.
  destruct (Z.leb_spec M
              ((Z.of_nat (hipBlockIdx_x t) * BLOCKSIZE + Z.of_nat (hipThreadIdx_x t))
               ÷ WF_SIZE)); [apply row_ptr_safe_Ok|].
  apply row_ptr_safe_load_in; [lia|]. intros rs.
  apply row_ptr_safe_load_in; [lia|]. intros re. cbv zeta.
  apply row_ptr_safe_for_loop with (I := fun _ => True); [exact I|intros; exact I|].
  intros l C' _ _. unfold csrmmnt_col. cbv zeta.
  apply row_ptr_safe_bind.
  - unfold csrmmnt_row_sum, nt_fill_col_slot, fill_val_slot.
    repeat row_ptr_safe_step.
  - intros sum.
    destruct (_ <? ncol); [apply store_result_row_ptr_safe|apply row_ptr_safe_Ok].
Qed.

Lemma atomic_row_ptr_safe (fill_B : Z -> Z -> Z -> result T) :
  (forall by_ row lid, row_ptr_safe (fill_B by_ row lid)) ->
  Z.of_nat (length csr_row_ptr) = K + 1 ->
  row_ptr_safe
    (for_loop
       (Z.to_nat (K - (Z.of_nat (hipBlockIdx_x t) * BLOCKSIZE
                       + Z.of_nat (hipThreadIdx_x t)) ÷ WF_SIZE))
       (fun row => row <? K)
       ((Z.of_nat (hipGridDim_x L) * BLOCKSIZE) ÷ WF_SIZE)
       (atomic_row WF_SIZE (fill_B (Z.of_nat (hipBlockIdx_y t))) trans_A N alpha
          csr_row_ptr csr_col_ind csr_val ldc order idx_base
          (Z.of_nat (hipBlockIdx_y t))
          (Z.land (Z.of_nat (hipBlockIdx_x t) * BLOCKSIZE
                   + Z.of_nat (hipThreadIdx_x t)) (WF_SIZE - 1)))
       ((Z.of_nat (hipBlockIdx_x t) * BLOCKSIZE + Z.of_nat (hipThreadIdx_x t))
        ÷ WF_SIZE) []).
Proof.
  intros Hfill Hlen.
  apply row_ptr_safe_for_loop with (I := fun row => 0 <= row).
  - apply first_row_nonneg.
  - intros row Hrow _. pose proof row_stride_nonneg. lia.
  - intros row adds Hrow Hlt%Z.ltb_lt. unfold atomic_row.
    apply row_ptr_safe_load_in; [lia|]. intros rs.
    apply row_ptr_safe_load_in; [lia|]. intros re. cbv zeta.
    apply row_ptr_safe_bind; [apply row_ptr_safe_fill_tile, Hfill|].
    intros shared_B. unfold scatter_row. repeat row_ptr_safe_step.
Qed.

(** C8, as amended.  No kernel loads the row pointer outside the buffer it
    is given when that buffer has one entry more than the stored matrix has
    rows: M + 1 entries for nn and nt, which read it at indices 0..M, and
    K + 1 entries for tn and tt, whose row loop runs over the K rows of the
    stored matrix and reads it at indices 0..K.  This holds for every
    input, well-formed or not. *)
Theorem row_ptr_reads_in_range (offset ncol : Z) (C : list T) :
  (Z.of_nat (length csr_row_ptr) = M + 1 ->
   row_ptr_safe
     (csrmmnn_general_device BLOCKSIZE WF_SIZE trans_A trans_B M N K nnz alpha
        csr_row_ptr csr_col_ind csr_val B ldb beta ldc order idx_base L t C)
   /\ row_ptr_safe
        (csrmmnt_general_device BLOCKSIZE WF_SIZE trans_A trans_B offset ncol
           M N K nnz alpha csr_row_ptr csr_col_ind csr_val B ldb beta ldc order
           idx_base L t C))
  /\ (Z.of_nat (length csr_row_ptr) = K + 1 ->
      row_ptr_safe
        (csrmmtn_general_device BLOCKSIZE WF_SIZE trans_A trans_B M N K nnz alpha
           csr_row_ptr csr_col_ind csr_val B ldb beta ldc order idx_base L t)
      /\ row_ptr_safe
           (csrmmtt_general_device BLOCKSIZE WF_SIZE trans_A trans_B M N K nnz
              alpha csr_row_ptr csr_col_ind csr_val B ldb beta ldc order idx_base
              L t)).
Proof.
  split.
  - intros Hlen. split;
      [apply csrmmnn_row_ptr_safe|apply csrmmnt_row_ptr_safe]; assumption.
  - intros Hlen. split.
    + apply (atomic_row_ptr_safe (tn_fill_B_slot WF_SIZE trans_B N B ldb));
        [|assumption].
      intros by_ row lid. unfold tn_fill_B_slot. repeat row_ptr_safe_step.
    + apply (atomic_row_ptr_safe (tt_fill_B_slot WF_SIZE trans_B N B ldb));
        [|assumption].
      intros by_ row lid. unfold tt_fill_B_slot. repeat row_ptr_safe_step.
Qed.

End RowPtr.

(** C8, as stated, fails: with a stored matrix of K = 2 rows and M = 1
    column, on a row pointer of M + 1 entries, a thread of kernel tn loads
    [csr_row_ptr[2]]. *)
Lemma csrmmtn_reads_row_ptr_beyond_M :
  Z.of_nat (length [0; 0]) = 1 + 1
  /\ csrmmtn_general_device ex_BS ex_WF rocsparse_operation_transpose
       rocsparse_operation_none 1 1 2 0 1 [0; 0] [] [] [5; 6] 2 0 1
       rocsparse_order_column rocsparse_index_base_zero ex_L
       {| hipBlockIdx_x := 0; hipBlockIdx_y := 0;
          hipThreadIdx_x := 2; hipThreadIdx_y := 0 |}
     = Fault (OOB_row_ptr 2)
  /\ 1 < 2.
Proof. split; [reflexivity|]. split; [reflexivity|lia]. Qed.

Lemma row_ptr_reads_in_range_witness :
  (row_ptr_safe
     (csrmmnn_general_device ex_BS ex_WF rocsparse_operation_none
        rocsparse_operation_none 2 2 3 3 2 ex_row_ptr ex_col_ind ex_val ex_B_nn 3
        3 2 rocsparse_order_column rocsparse_index_base_one ex_L
        {| hipBlockIdx_x := 0; hipBlockIdx_y := 0;
           hipThreadIdx_x := 2; hipThreadIdx_y := 0 |} ex_C)
   /\ row_ptr_safe
        (csrmmnt_general_device ex_BS ex_WF rocsparse_operation_none
           rocsparse_operation_none 0 2 2 2 3 3 2 ex_row_ptr ex_col_ind ex_val
           ex_B_nn 3 3 2 rocsparse_order_column rocsparse_index_base_one ex_L
           {| hipBlockIdx_x := 0; hipBlockIdx_y := 0;
              hipThreadIdx_x := 2; hipThreadIdx_y := 0 |} ex_C))
  /\ (row_ptr_safe
        (csrmmtn_general_device ex_BS ex_WF rocsparse_operation_transpose
           rocsparse_operation_none 3 2 2 3 2 ex_row_ptr ex_col_ind ex_val ex_B_tn 2
           3 3 rocsparse_order_column rocsparse_index_base_one ex_L
           {| hipBlockIdx_x := 0; hipBlockIdx_y := 0;
              hipThreadIdx_x := 2; hipThreadIdx_y := 0 |})
      /\ row_ptr_safe
           (csrmmtt_general_device ex_BS ex_WF rocsparse_operation_transpose
              rocsparse_operation_none 3 2 2 3 2 ex_row_ptr ex_col_ind ex_val
              ex_B_tn 2 3 3 rocsparse_order_column rocsparse_index_base_one ex_L
              {| hipBlockIdx_x := 0; hipBlockIdx_y := 0;
                 hipThreadIdx_x := 2; hipThreadIdx_y := 0 |})).
Proof.
  split.
  - apply (proj1 (row_ptr_reads_in_range (H := Z_Scalar) ex_BS ex_WF
             ltac:(unfold ex_BS; lia) ltac:(unfold ex_WF; lia)
             rocsparse_operation_none rocsparse_operation_none 2 2 3 3 2
             ex_row_ptr ex_col_ind ex_val ex_B_nn 3 3 2 rocsparse_order_column
             rocsparse_index_base_one ex_L _ 0 2 ex_C)).
    reflexivity.
  - apply (proj2 (row_ptr_reads_in_range (H := Z_Scalar) ex_BS ex_WF
             ltac:(unfold ex_BS; lia) ltac:(unfold ex_WF; lia)
             rocsparse_operation_transpose rocsparse_operation_none 3 2 2 3 2
             ex_row_ptr ex_col_ind ex_val ex_B_tn 2 3 3 rocsparse_order_column
             rocsparse_index_base_one ex_L _ 0 2 ex_C_t)).
    reflexivity.
Defined.

(** * Further properties of the kernels *)

(** ** What a launch of a storing kernel leaves in the buffer *)

Section BuffersAgree.
Context {T : Type} `{Inhabited T}.

(** Two buffers of the same size that agree on the cells of [W] and on
    every element that is not a cell of [W] are the same buffer. *)
Lemma buffers_agree (addr : Z * Z -> Z) (W : list (Z * Z)) (C1 C2 : list T) :
  length C1 = length C2 ->
  (forall c, c ∈ W -> zat C1 (addr c) = zat C2 (addr c)) ->
  (forall a : nat, (forall c, c ∈ W -> Z.to_nat (addr c) <> a) ->
                   C1 !! a = C2 !! a) ->
  C1 = C2.
Proof.
  intros Hlen Hval Hframe. apply list_eq. intros a.
  destruct (decide (Exists (fun c => Z.to_nat (addr c) = a) W)) as [Hex|Hnex].
  - apply Exists_exists in Hex as (c & Hc & <-).
    specialize (Hval c Hc). unfold zat in Hval.
    destruct (decide (Z.to_nat (addr c) < length C1)%nat).
    + rewrite (list_lookup_lookup_total_lt C1), (list_lookup_lookup_total_lt C2)
        by lia.
      congruence.
    + rewrite !lookup_ge_None_2 by lia. reflexivity.
  - apply Hframe. intros c Hc E. apply Hnex. apply Exists_exists. eauto.
Qed.

Lemma zat_frame (C1 C2 : list T) (i : Z) :
  C1 !! Z.to_nat i = C2 !! Z.to_nat i -> zat C1 i = zat C2 i.
Proof. intros E. unfold zat. rewrite !list_lookup_total_alt, E. reflexivity. Qed.

End BuffersAgree.

Lemma dense_valid_fewer_rows {T : Type} `{Scalar T} (rows rows' cols ld : Z)
    (buf : list T) :
  0 <= rows' <= rows ->
  dense_valid rows cols ld buf = true -> dense_valid rows' cols ld buf = true.
Proof.
  unfold dense_valid. intros Hr.
  rewrite !andb_true_iff, !Z.leb_le. intros (((? & ?) & ?) & ?).
  repeat split; lia.
Qed.

Lemma dense_valid_fewer_cols {T : Type} `{Scalar T} (rows cols cols' ld : Z)
    (buf : list T) :
  0 <= cols' <= cols ->
  dense_valid rows cols ld buf = true -> dense_valid rows cols' ld buf = true.
Proof.
  unfold dense_valid. intros Hr.
  rewrite !andb_true_iff, !Z.leb_le. intros (((? & ?) & ?) & ?).
  repeat split; try lia. nia.
Qed.

Lemma C_valid_fewer_cols {T : Type} `{Scalar T} (order : rocsparse_order)
    (M N N' ldc : Z) (C : list T) :
  0 <= N' <= N ->
  C_valid order M N ldc C = true -> C_valid order M N' ldc C = true.
Proof.
  intros HN. destruct order; simpl.
  - apply dense_valid_fewer_rows. assumption.
  - apply dense_valid_fewer_cols. assumption.
Qed.

Lemma C_valid_same_length {T : Type} `{Scalar T} (order : rocsparse_order)
    (M N ldc : Z) (C C' : list T) :
  length C' = length C ->
  C_valid order M N ldc C = true -> C_valid order M N ldc C' = true.
Proof.
  intros E. unfold C_valid, dense_valid. rewrite E. auto.
Qed.

Section RowParallelLaunches.
Context {T : Type} `{Scalar T}.
Variables (BLOCKSIZE WF_SIZE : Z) (w nw : nat).
Variables (trans_A trans_B : rocsparse_operation) (M N K nnz : Z) (alpha : T).
Variables (csr_row_ptr csr_col_ind : list Z) (csr_val B : list T) (ldb : Z).
Variables (beta : T) (C : list T) (ldc : Z) (order : rocsparse_order).
Variable idx_base : rocsparse_index_base.

(** X1. On well-formed inputs a launch of kernel nn returns for every
    schedule of its threads, whatever the arithmetic of [T]: it leaves in
    element [(i, j)] of the M x N output the value of the final store for
    the sum accumulated in the order of the source, keeps the size of the
    buffer and changes no other element. *)
Theorem csrmmnn_launch_postcondition (L : launch) (sched : list thread) :
  config_ok BLOCKSIZE WF_SIZE w nw ->
  csr_valid M K csr_row_ptr csr_col_ind csr_val idx_base = true ->
  dense_valid K N ldb B = true ->
  C_valid order M N ldc C = true ->
  launch_xy_ok BLOCKSIZE WF_SIZE N L ->
  sched ≡ₚ grid_threads L ->
  exists C',
    run_grid (csrmmnn_general_device BLOCKSIZE WF_SIZE trans_A trans_B M N K nnz
                alpha csr_row_ptr csr_col_ind csr_val B ldb beta ldc order
                idx_base L) sched C = Ok C'
    /\ length C' = length C
    /\ (forall i j, 0 <= i < M -> 0 <= j < N ->
          zat C' (dense_index order ldc i j)
          = stored_value alpha beta (zat C (dense_index order ldc i j))
              (nn_dot WF_SIZE trans_A trans_B csr_row_ptr csr_col_ind csr_val
                      B ldb idx_base (i, j)))
    /\ (forall a : nat,
          (forall i j, 0 <= i < M -> 0 <= j < N ->
                       dense_index order ldc i j <> Z.of_nat a) ->
          C' !! a = C !! a).
Proof.
  intros Hcfg Hcsr HB HC HL Hs.
  destruct (csrmmnn_launch_updates BLOCKSIZE WF_SIZE w nw Hcfg trans_A trans_B
              M N K nnz alpha csr_row_ptr csr_col_ind csr_val B ldb beta
              C ldc order idx_base L Hcsr sched HL HB HC Hs C eq_refl)
    as (C' & E & Hlen & V & F).
  exists C'. split; [exact E|]. split; [exact Hlen|]. split.
  - intros i j Hi Hj.
    apply (V (i, j)). apply elem_of_block_cells. simpl. lia.
  - intros a Ha. apply F. intros c (Hr & Hc)%elem_of_block_cells E'.
    pose proof (C_valid_index _ _ _ _ _ c HC ltac:(lia) ltac:(lia)) as Hin.
    apply (Ha (fst c) (snd c)); [lia|lia|].
    unfold cell_index in *. lia.
Qed.

(** X2. On well-formed inputs a launch of kernel nt returns for every
    schedule of its threads, whatever the arithmetic of [T]: in the columns
    [offset <= j < ncol] it is launched for it leaves in element [(i, j)]
    the value of the final store for the sum accumulated in the order of the
    source, keeps the size of the buffer and changes no other element. *)
Theorem csrmmnt_launch_postcondition (offset ncol : Z) (L : launch)
    (sched : list thread) :
  config_ok BLOCKSIZE WF_SIZE w nw ->
  csr_valid M K csr_row_ptr csr_col_ind csr_val idx_base = true ->
  0 <= offset ->
  dense_valid ncol K ldb B = true ->
  C_valid order M ncol ldc C = true ->
  launch_x_ok BLOCKSIZE WF_SIZE M L ->
  sched ≡ₚ grid_threads L ->
  exists C',
    run_grid (csrmmnt_general_device BLOCKSIZE WF_SIZE trans_A trans_B offset ncol
                M N K nnz alpha csr_row_ptr csr_col_ind csr_val B ldb beta ldc
                order idx_base L) sched C = Ok C'
    /\ length C' = length C
    /\ (forall i j, 0 <= i < M -> offset <= j < ncol ->
          zat C' (dense_index order ldc i j)
          = stored_value alpha beta (zat C (dense_index order ldc i j))
              (nt_dot WF_SIZE trans_A trans_B csr_row_ptr csr_col_ind csr_val
                      B ldb idx_base (i, j)))
    /\ (forall a : nat,
          (forall i j, 0 <= i < M -> offset <= j < ncol ->
                       dense_index order ldc i j <> Z.of_nat a) ->
          C' !! a = C !! a).
Proof.
  intros Hcfg Hcsr Hoff HB HC HL Hs.
  destruct (csrmmnt_launch_updates BLOCKSIZE WF_SIZE w nw Hcfg trans_A trans_B
              M N K nnz alpha csr_row_ptr csr_col_ind csr_val B ldb beta
              C ldc order idx_base L Hcsr offset ncol sched HL Hoff HB HC Hs
              C eq_refl)
    as (C' & E & Hlen & V & F).
  exists C'. split; [exact E|]. split; [exact Hlen|]. split.
  - intros i j Hi Hj.
    apply (V (i, j)). apply elem_of_block_cells. simpl. lia.
  - intros a Ha. apply F. intros c (Hr & Hc)%elem_of_block_cells E'.
    pose proof (C_valid_index _ _ _ _ _ c HC ltac:(lia) ltac:(lia)) as Hin.
    apply (Ha (fst c) (snd c)); [lia|lia|].
    unfold cell_index in *. lia.
Qed.

End RowParallelLaunches.

Section RowParallelComposition.
Context {T : Type} `{Scalar T}.
Variables (BLOCKSIZE WF_SIZE : Z) (w nw : nat).
Variables (trans_A trans_B : rocsparse_operation) (M N K nnz : Z) (alpha : T).
Variables (csr_row_ptr csr_col_ind : list Z) (csr_val B : list T) (ldb : Z).
Variables (beta : T) (C : list T) (ldc : Z) (order : rocsparse_order).
Variable idx_base : rocsparse_index_base.

(** X5. The parameters [offset] and [ncol] of kernel nt cut the columns of
    the output into ranges that can be launched one after the other: the
    columns [offset <= j < mid] and then the columns [mid <= j < ncol] give
    the buffer one launch for [offset <= j < ncol] gives. *)
Theorem csrmmnt_column_ranges_compose (offset mid ncol : Z) (L : launch)
    (s1 s2 s3 : list thread) :
  config_ok BLOCKSIZE WF_SIZE w nw ->
  csr_valid M K csr_row_ptr csr_col_ind csr_val idx_base = true ->
  0 <= offset <= mid -> mid <= ncol ->
  dense_valid ncol K ldb B = true ->
  C_valid order M ncol ldc C = true ->
  launch_x_ok BLOCKSIZE WF_SIZE M L ->
  s1 ≡ₚ grid_threads L -> s2 ≡ₚ grid_threads L -> s3 ≡ₚ grid_threads L ->
  exists C1 C2,
    run_grid (csrmmnt_general_device BLOCKSIZE WF_SIZE trans_A trans_B offset mid
                M N K nnz alpha csr_row_ptr csr_col_ind csr_val B ldb beta ldc
                order idx_base L) s1 C = Ok C1
    /\ run_grid (csrmmnt_general_device BLOCKSIZE WF_SIZE trans_A trans_B mid ncol
                   M N K nnz alpha csr_row_ptr csr_col_ind csr_val B ldb beta ldc
                   order idx_base L) s2 C1 = Ok C2
    /\ run_grid (csrmmnt_general_device BLOCKSIZE WF_SIZE trans_A trans_B offset
                   ncol M N K nnz alpha csr_row_ptr csr_col_ind csr_val B ldb beta
                   ldc order idx_base L) s3 C = Ok C2.
Proof.
  intros Hcfg Hcsr Hoff Hmid HB HC HL Hs1 Hs2 Hs3.
  assert (dense_valid mid K ldb B = true) as HB1.
  { apply (dense_valid_fewer_rows ncol); [lia|assumption]. }
  assert (C_valid order M mid ldc C = true) as HC1.
  { apply (C_valid_fewer_cols _ _ ncol); [lia|assumption]. }
  destruct (csrmmnt_launch_updates BLOCKSIZE WF_SIZE w nw Hcfg trans_A trans_B
              M N K nnz alpha csr_row_ptr csr_col_ind csr_val B ldb beta
              C ldc order idx_base L Hcsr offset mid s1 HL ltac:(lia) HB1 HC1 Hs1
              C eq_refl)
    as (C1 & E1 & Hlen1 & V1 & F1).
  destruct (csrmmnt_launch_updates BLOCKSIZE WF_SIZE w nw Hcfg trans_A trans_B
              M N K nnz alpha csr_row_ptr csr_col_ind csr_val B ldb beta
              C ldc order idx_base L Hcsr mid ncol s2 HL ltac:(lia) HB HC Hs2
              C1 Hlen1)
    as (C2 & E2 & Hlen2 & V2 & F2).
  destruct (csrmmnt_launch_updates BLOCKSIZE WF_SIZE w nw Hcfg trans_A trans_B
              M N K nnz alpha csr_row_ptr csr_col_ind csr_val B ldb beta
              C ldc order idx_base L Hcsr offset ncol s3 HL ltac:(lia) HB HC Hs3
              C eq_refl)
    as (C3 & E3 & Hlen3 & V3 & F3).
  exists C1, C2. split; [exact E1|]. split; [exact E2|]. rewrite E3. f_equal.
  assert (forall c1 c2 : Z * Z,
            0 <= fst c1 < M -> 0 <= snd c1 < ncol ->
            0 <= fst c2 < M -> 0 <= snd c2 < ncol ->
            Z.to_nat (cell_index order ldc c1) = Z.to_nat (cell_index order ldc c2) ->
            c1 = c2) as Hinj.
  { intros c1 c2 Hr1 Hc1 Hr2 Hc2 E.
    pose proof (C_valid_index _ _ _ _ _ c1 HC Hr1 Hc1).
    pose proof (C_valid_index _ _ _ _ _ c2 HC Hr2 Hc2).
    apply (C_valid_inj _ _ _ _ _ _ _ HC); try assumption. lia. }
  apply (buffers_agree (cell_index order ldc) (block_cells 0 M offset ncol));
    [congruence| |].
  - intros c (Hr & Hc)%elem_of_block_cells.
    rewrite (V3 c) by (apply elem_of_block_cells; lia).
    destruct (Z.lt_ge_cases (snd c) mid) as [Hlo|Hhi].
    + rewrite <- (V1 c) by (apply elem_of_block_cells; lia).
      symmetry. apply zat_frame, F2.
      intros c' (Hr' & Hc')%elem_of_block_cells E.
      apply Hinj in E; [|lia..]. subst c'. lia.
    + rewrite (V2 c) by (apply elem_of_block_cells; lia). f_equal.
      symmetry. apply zat_frame, F1.
      intros c' (Hr' & Hc')%elem_of_block_cells E.
      apply Hinj in E; [|lia..]. subst c'. lia.
  - intros a Ha. rewrite F3, F2, F1; [reflexivity| | |].
    + intros c (Hr & Hc)%elem_of_block_cells. apply Ha, elem_of_block_cells. lia.
    + intros c (Hr & Hc)%elem_of_block_cells. apply Ha, elem_of_block_cells. lia.
    + exact Ha.
Qed.

(** X6. With beta equal to zero a launch of kernel nn, or of kernel nt, can
    be repeated on its own output: the second launch returns the buffer it
    was given. *)
Theorem beta_zero_relaunch_is_identity (B_nt : list T) (ldb_nt offset ncol : Z)
    (L_nn L_nt : launch) (s1 s2 s3 s4 : list thread) :
  config_ok BLOCKSIZE WF_SIZE w nw ->
  csr_valid M K csr_row_ptr csr_col_ind csr_val idx_base = true ->
  Teqb beta T0 = true ->
  dense_valid K N ldb B = true ->
  C_valid order M N ldc C = true ->
  launch_xy_ok BLOCKSIZE WF_SIZE N L_nn ->
  s1 ≡ₚ grid_threads L_nn -> s2 ≡ₚ grid_threads L_nn ->
  0 <= offset ->
  dense_valid ncol K ldb_nt B_nt = true ->
  C_valid order M ncol ldc C = true ->
  launch_x_ok BLOCKSIZE WF_SIZE M L_nt ->
  s3 ≡ₚ grid_threads L_nt -> s4 ≡ₚ grid_threads L_nt ->
  (exists C',
     run_grid (csrmmnn_general_device BLOCKSIZE WF_SIZE trans_A trans_B M N K nnz
                 alpha csr_row_ptr csr_col_ind csr_val B ldb beta ldc order
                 idx_base L_nn) s1 C = Ok C'
     /\ run_grid (csrmmnn_general_device BLOCKSIZE WF_SIZE trans_A trans_B M N K nnz
                    alpha csr_row_ptr csr_col_ind csr_val B ldb beta ldc order
                    idx_base L_nn) s2 C' = Ok C')
  /\ (exists C',
     run_grid (csrmmnt_general_device BLOCKSIZE WF_SIZE trans_A trans_B offset ncol
                 M N K nnz alpha csr_row_ptr csr_col_ind csr_val B_nt ldb_nt beta
                 ldc order idx_base L_nt) s3 C = Ok C'
     /\ run_grid (csrmmnt_general_device BLOCKSIZE WF_SIZE trans_A trans_B offset
                    ncol M N K nnz alpha csr_row_ptr csr_col_ind csr_val B_nt ldb_nt
                    beta ldc order idx_base L_nt) s4 C' = Ok C').
Proof.
  intros Hcfg Hcsr Hbeta HB HC HL Hs1 Hs2 Hoff HBt HCt HLt Hs3 Hs4.
  split.
  - pose proof (csrmmnn_launch_updates BLOCKSIZE WF_SIZE w nw Hcfg trans_A trans_B
                  M N K nnz alpha csr_row_ptr csr_col_ind csr_val B ldb beta
                  C ldc order idx_base L_nn Hcsr) as U.
    destruct (U s1 HL HB HC Hs1 C eq_refl) as (C1 & E1 & Hlen1 & V1 & F1).
    destruct (U s2 HL HB HC Hs2 C1 Hlen1) as (C2 & E2 & Hlen2 & V2 & F2).
    exists C1. split; [exact E1|]. rewrite E2. f_equal.
    apply (buffers_agree (cell_index order ldc) (block_cells 0 M 0 N));
      [congruence| |].
    + intros c Hc. rewrite (V2 c Hc), (V1 c Hc). unfold stored_value.
      rewrite Hbeta. reflexivity.
    + intros a Ha. apply F2. exact Ha.
  - pose proof (csrmmnt_launch_updates BLOCKSIZE WF_SIZE w nw Hcfg trans_A trans_B
                  M N K nnz alpha csr_row_ptr csr_col_ind csr_val B_nt ldb_nt beta
                  C ldc order idx_base L_nt Hcsr offset ncol) as U.
    destruct (U s3 HLt Hoff HBt HCt Hs3 C eq_refl) as (C1 & E1 & Hlen1 & V1 & F1).
    destruct (U s4 HLt Hoff HBt HCt Hs4 C1 Hlen1) as (C2 & E2 & Hlen2 & V2 & F2).
    exists C1. split; [exact E1|]. rewrite E2. f_equal.
    apply (buffers_agree (cell_index order ldc) (block_cells 0 M offset ncol));
      [congruence| |].
    + intros c Hc. rewrite (V2 c Hc), (V1 c Hc). unfold stored_value.
      rewrite Hbeta. reflexivity.
    + intros a Ha. apply F2. exact Ha.
Qed.

End RowParallelComposition.

(** ** The scale kernel on a whole buffer *)

(** X7. A launch of the scale kernel that reaches every element returns, in
    whatever order its threads run, and has multiplied each element of the m
    x n matrix by beta, once, with beta as the right factor. *)
Theorem csrmm_scale_launch_postcondition {T : Type} `{Scalar T}
    (m n : Z) (beta : T) (data : list T) (ld : Z) (order : rocsparse_order)
    (L : launch) (sched : list thread) :
  C_valid order m n ld data = true ->
  launch_scale_ok m n L ->
  sched ≡ₚ grid_threads L ->
  exists data',
    run_grid (fun t data => csrmm_scale_device m n beta data ld order L t)
             sched data = Ok data'
    /\ length data' = length data
    /\ forall i j, 0 <= i < m -> 0 <= j < n ->
         zat data' (dense_index order ld i j)
         = Tmul (zat data (dense_index order ld i j)) beta.
Proof.
  intros HC HL Hs.
  destruct (scale_launch_updates m n beta ld order L data HC HL sched Hs data
              eq_refl) as (data' & E & Hlen & V & _).
  exists data'. split; [exact E|]. split; [exact Hlen|].
  intros i j Hi Hj. apply (V (i, j)). apply elem_of_block_cells. simpl. lia.
Qed.

Section ScaleTwice.
Context {T : Type} `{ScalarLaws T}.

Add Ring T_semiring_scale : scalar_sr.

(** X8. In exact arithmetic, scaling by [b1] and then by [b2] is scaling by
    [b1 * b2]: the three launches, of whatever geometry, end in the same
    buffer. *)
Theorem csrmm_scale_twice (m n : Z) (b1 b2 : T) (data : list T) (ld : Z)
    (order : rocsparse_order) (L1 L2 L3 : launch) (s1 s2 s3 : list thread) :
  C_valid order m n ld data = true ->
  launch_scale_ok m n L1 -> s1 ≡ₚ grid_threads L1 ->
  launch_scale_ok m n L2 -> s2 ≡ₚ grid_threads L2 ->
  launch_scale_ok m n L3 -> s3 ≡ₚ grid_threads L3 ->
  exists d1 d2,
    run_grid (fun t data => csrmm_scale_device m n b1 data ld order L1 t)
             s1 data = Ok d1
    /\ run_grid (fun t data => csrmm_scale_device m n b2 data ld order L2 t)
                s2 d1 = Ok d2
    /\ run_grid (fun t data => csrmm_scale_device m n (Tmul b1 b2) data ld order
                                 L3 t)
                s3 data = Ok d2.
Proof.
  intros HC HL1 Hs1 HL2 Hs2 HL3 Hs3.
  destruct (scale_launch_updates m n b1 ld order L1 data HC HL1 s1 Hs1 data
              eq_refl) as (d1 & E1 & Hlen1 & V1 & F1).
  destruct (scale_launch_updates m n b2 ld order L2 data HC HL2 s2 Hs2 d1
              Hlen1) as (d2 & E2 & Hlen2 & V2 & F2).
  destruct (scale_launch_updates m n (Tmul b1 b2) ld order L3 data HC HL3 s3 Hs3
              data eq_refl) as (d3 & E3 & Hlen3 & V3 & F3).
  exists d1, d2. split; [exact E1|]. split; [exact E2|]. rewrite E3. f_equal.
  apply (buffers_agree (cell_index order ld) (block_cells 0 m 0 n));
    [congruence| |].
  - intros c Hc. rewrite (V3 c Hc), (V2 c Hc), (V1 c Hc). ring.
  - intros a Ha. rewrite F3, F2, F1 by assumption. reflexivity.
Qed.

End ScaleTwice.

(** ** The additions of a launch of an atomic kernel *)

Lemma list_bind_bind {A B C : Type} (f : A -> list B) (g : B -> list C)
    (l : list A) :
  (l ≫= f) ≫= g = l ≫= (fun x => f x ≫= g).
Proof.
  induction l as [|x l IH]; [reflexivity|].
  rewrite !bind_cons, bind_app, IH. reflexivity.
Qed.

Lemma bind_perm_ext {A B : Type} (f g : A -> list B) (l : list A) :
  (forall x, x ∈ l -> f x ≡ₚ g x) -> l ≫= f ≡ₚ l ≫= g.
Proof.
  induction l as [|x l IH]; intros Hfg; [reflexivity|].
  rewrite !bind_cons. rewrite (Hfg x) by left.
  rewrite IH by (intros; apply Hfg; right; assumption). reflexivity.
Qed.

Lemma bind_perm_app {A B : Type} (f g : A -> list B) (l : list A) :
  l ≫= (fun x => f x ++ g x) ≡ₚ (l ≫= f) ++ (l ≫= g).
Proof.
  induction l as [|x l IH]; [reflexivity|].
  rewrite !bind_cons, IH.
  rewrite <- !app_assoc. apply Permutation_app_head.
  rewrite !app_assoc. apply Permutation_app_tail. apply Permutation_app_comm.
Qed.

Lemma bind_nil_r {A B : Type} (l : list A) :
  l ≫= (fun _ => @nil B) = [].
Proof. induction l as [|x l IH]; [reflexivity|]. rewrite bind_cons, IH. reflexivity. Qed.

(** Two nested loops whose ranges do not depend on each other visit the
    same iterations in either nesting. *)
Lemma bind_perm_swap {A B C : Type} (f : A -> B -> list C) (l1 : list A)
    (l2 : list B) :
  (x ← l1; y ← l2; f x y) ≡ₚ (y ← l2; x ← l1; f x y).
Proof.
  induction l1 as [|x l1 IH].
  - change (@nil C ≡ₚ l2 ≫= (fun _ => @nil C)). rewrite bind_nil_r. reflexivity.
  - rewrite bind_cons, IH, <- bind_perm_app.
    apply bind_perm_ext. intros y _. rewrite bind_cons. reflexivity.
Qed.

(** The six nested loops of a launch of an atomic kernel visit every
    (row, nonzero, column) once: as lists of work items. *)
Lemma launch_work_partition {B : Type} (h : Z -> Z -> Z -> list B)
    (rs re : Z -> Z) (nwf WF_SIZE gy N K : Z) :
  0 < nwf -> 0 < WF_SIZE -> N <= gy * WF_SIZE ->
  (r0 ← seqZ 0 nwf; lid ← seqZ 0 WF_SIZE; by_ ← seqZ 0 gy;
   row ← stride r0 K nwf; p ← stride (rs row + lid) (re row) WF_SIZE;
   i ← seqZ 0 (Z.min WF_SIZE (N - by_ * WF_SIZE)); h row p (i + by_ * WF_SIZE))
  ≡ₚ (row ← seqZ 0 K; p ← seqZ (rs row) (re row - rs row); j ← seqZ 0 N;
      h row p j).
Proof.
  intros Hnwf HWF HN.
  assert (forall row p,
            (by_ ← seqZ 0 gy; i ← seqZ 0 (Z.min WF_SIZE (N - by_ * WF_SIZE));
             h row p (i + by_ * WF_SIZE))
            ≡ₚ (j ← seqZ 0 N; h row p j)) as Ecols.
  { intros row p.
    rewrite <- (col_tiles_partition WF_SIZE N gy HWF HN).
    rewrite list_bind_bind. apply bind_perm_ext. intros b _.
    rewrite list_bind_bind. apply bind_perm_ext. intros i _.
    rewrite bind_singleton. reflexivity. }
  assert (forall row (Y : Z -> list B),
            (lid ← seqZ 0 WF_SIZE; stride (rs row + lid) (re row) WF_SIZE ≫= Y)
            ≡ₚ seqZ (rs row) (re row - rs row) ≫= Y) as Elanes.
  { intros row Y.
    rewrite <- (lanes_partition (rs row) (re row) WF_SIZE HWF).
    rewrite list_bind_bind. reflexivity. }
  rewrite <- (rows_partition K nwf Hnwf).
  rewrite list_bind_bind. apply bind_perm_ext. intros r0 _.
  transitivity (lid ← seqZ 0 WF_SIZE; row ← stride r0 K nwf;
                p ← stride (rs row + lid) (re row) WF_SIZE;
                j ← seqZ 0 N; h row p j).
  - apply bind_perm_ext. intros lid _.
    rewrite (bind_perm_swap _ (seqZ 0 gy)). apply bind_perm_ext. intros row _.
    rewrite (bind_perm_swap _ (seqZ 0 gy)). apply bind_perm_ext. intros p _.
    apply Ecols.
  - rewrite (bind_perm_swap _ (seqZ 0 WF_SIZE)). apply bind_perm_ext. intros row _.
    apply (Elanes row (fun p => j ← seqZ 0 N; h row p j)).
Qed.

Section AtomicWork.
Context {T : Type} `{Scalar T}.
Variables (BLOCKSIZE WF_SIZE : Z) (w nw : nat).
Hypothesis Hcfg : config_ok BLOCKSIZE WF_SIZE w nw.
Variables (trans_A : rocsparse_operation) (N K : Z) (alpha : T).
Variables (csr_row_ptr csr_col_ind : list Z) (csr_val : list T).
Variables (ldc : Z) (order : rocsparse_order).
Variable idx_base : rocsparse_index_base.
Variable L : launch.
Variable bval : Z -> Z -> T.
Hypothesis HL : launch_xy_ok BLOCKSIZE WF_SIZE N L.

(** The lanes of a launch share the work among them. *)
Lemma lane_adds_partition :
  (grid_threads L ≫= fun t =>
     lane_adds WF_SIZE trans_A N K alpha csr_row_ptr csr_col_ind csr_val ldc
       order idx_base bval
       ((Z.of_nat (hipGridDim_x L) * BLOCKSIZE) ÷ WF_SIZE)
       (gid_of BLOCKSIZE t ÷ WF_SIZE)
       (Z.land (gid_of BLOCKSIZE t) (WF_SIZE - 1))
       (Z.of_nat (hipBlockIdx_y t)))
  ≡ₚ atomic_work trans_A N K alpha csr_row_ptr csr_col_ind csr_val ldc order
       idx_base bval.
Proof.
  pose proof (WF_pos _ _ _ _ Hcfg) as HWF.
  pose proof (nwf_pos _ _ _ _ Hcfg _ _ HL) as Hnwf.
  set (nwf := (Z.of_nat (hipGridDim_x L) * BLOCKSIZE) ÷ WF_SIZE) in *.
  set (G := fun key : Z * Z * Z =>
              lane_adds WF_SIZE trans_A N K alpha csr_row_ptr csr_col_ind csr_val
                ldc order idx_base bval nwf (fst (fst key)) (snd (fst key)) (snd key)).
  change (grid_threads L ≫= G ∘ thread_key BLOCKSIZE WF_SIZE
          ≡ₚ atomic_work trans_A N K alpha csr_row_ptr csr_col_ind csr_val ldc
               order idx_base bval).
  rewrite <- list_fmap_bind.
  rewrite (thread_keys_partition _ _ _ _ Hcfg _ _ HL). fold nwf.
  unfold atomic_work.
  rewrite <- (launch_work_partition
                (fun row p j =>
                   [(dense_index order ldc (zat csr_col_ind p - base_val idx_base) j,
                     Tmul (Tmul alpha (op_conj trans_A (zat csr_val p)))
                          (bval row j))])
                (fun row => zat csr_row_ptr row - base_val idx_base)
                (fun row => zat csr_row_ptr (row + 1) - base_val idx_base)
                nwf WF_SIZE (Z.of_nat (hipGridDim_y L)) N K Hnwf HWF
                ltac:(pose proof HL as (_ & _ & _ & ?); assumption)).
  rewrite list_bind_bind. apply bind_perm_ext. intros r0 _.
  rewrite list_bind_bind. apply bind_perm_ext. intros lid _.
  rewrite list_bind_bind. apply bind_perm_ext. intros by_ _.
  rewrite bind_singleton. reflexivity.
Qed.

End AtomicWork.

(** Additions inside the buffer never fault, in whatever arithmetic; they
    keep the size of the buffer and every element none of them names. *)
Lemma apply_adds_in_range {T : Type} `{Scalar T} (sched : list (Z * T))
    (C : list T) :
  Forall (fun av => 0 <= fst av < Z.of_nat (length C)) sched ->
  exists C', apply_adds sched C = Ok C' /\ length C' = length C
    /\ forall a : nat, (forall av, av ∈ sched -> Z.to_nat (fst av) <> a) ->
                       C' !! a = C !! a.
Proof.
  revert C. induction sched as [|[a0 v] sched IH]; intros C Hall.
  - exists C. repeat split; auto.
  - apply Forall_cons in Hall as [Ha0 Hall]. simpl in Ha0.
    unfold apply_adds. cbn [foldM]. unfold atomicAdd at 1. cbn [fst snd].
    rewrite load_Ok by lia. cbn [bind]. rewrite store_Ok by lia. cbn [bind].
    set (C1 := <[Z.to_nat a0 := Tadd (zat C a0) v]> C).
    assert (length C1 = length C) as HL1 by apply length_insert.
    destruct (IH C1) as (C' & E & HL & Hframe).
    { rewrite HL1. assumption. }
    exists C'. split; [exact E|]. split; [congruence|].
    intros a Ha. rewrite Hframe by (intros; apply Ha; right; assumption).
    apply list_lookup_insert_ne. apply (Ha (a0, v)). left.
Qed.

Section AtomicLaunches.
Context {T : Type} `{Scalar T}.
Variables (BLOCKSIZE WF_SIZE : Z) (w nw : nat).
Variables (trans_A trans_B : rocsparse_operation) (M N K nnz : Z) (alpha : T).
Variables (csr_row_ptr csr_col_ind : list Z) (csr_val : list T).
Variables (beta : T) (ldc : Z) (order : rocsparse_order).
Variable idx_base : rocsparse_index_base.
Variable L : launch.

(** X10. No work is lost and none is done twice: on well-formed inputs the
    additions a launch of kernel tn issues are, up to their order, one
    addition for each stored row, each nonzero of the row and each column of
    the output; so are those of kernel tt. No law of arithmetic is involved. *)
Theorem atomic_adds_exactly_once (B_tn : list T) (ldb_tn : Z) (B_tt : list T)
    (ldb_tt : Z) :
  config_ok BLOCKSIZE WF_SIZE w nw ->
  csr_valid K M csr_row_ptr csr_col_ind csr_val idx_base = true ->
  launch_xy_ok BLOCKSIZE WF_SIZE N L ->
  dense_valid K N ldb_tn B_tn = true ->
  dense_valid N K ldb_tt B_tt = true ->
  (exists adds,
     grid_adds (csrmmtn_general_device BLOCKSIZE WF_SIZE trans_A trans_B M N K nnz
                  alpha csr_row_ptr csr_col_ind csr_val B_tn ldb_tn beta ldc order
                  idx_base L) (grid_threads L) = Ok adds
     /\ adds ≡ₚ atomic_work trans_A N K alpha csr_row_ptr csr_col_ind csr_val ldc
                  order idx_base (tn_bval trans_B B_tn ldb_tn))
  /\ (exists adds,
     grid_adds (csrmmtt_general_device BLOCKSIZE WF_SIZE trans_A trans_B M N K nnz
                  alpha csr_row_ptr csr_col_ind csr_val B_tt ldb_tt beta ldc order
                  idx_base L) (grid_threads L) = Ok adds
     /\ adds ≡ₚ atomic_work trans_A N K alpha csr_row_ptr csr_col_ind csr_val ldc
                  order idx_base (tt_bval trans_B B_tt ldb_tt)).
Proof.
  intros Hcfg Hcsr HL HBn HBt.
  pose proof HL as (_ & _ & Hgx & _).
  split; eexists; (split; [apply grid_adds_items|]).
  - intros t _.
    apply (csrmmtn_thread_adds BLOCKSIZE WF_SIZE w nw Hcfg); assumption.
  - apply (lane_adds_partition BLOCKSIZE WF_SIZE w nw Hcfg). assumption.
  - intros t _.
    apply (csrmmtt_thread_adds BLOCKSIZE WF_SIZE w nw Hcfg); assumption.
  - apply (lane_adds_partition BLOCKSIZE WF_SIZE w nw Hcfg). assumption.
Qed.

Lemma atomic_work_cells (bval : Z -> Z -> T) (C : list T) (av : Z * T) :
  csr_valid K M csr_row_ptr csr_col_ind csr_val idx_base = true ->
  av ∈ atomic_work trans_A N K alpha csr_row_ptr csr_col_ind csr_val ldc order
         idx_base bval ->
  exists i j, 0 <= i < M /\ 0 <= j < N /\ fst av = dense_index order ldc i j.
Proof.
  intros Hcsr. unfold atomic_work.
  intros (row & Hav & Hrow%elem_of_seqZ)%list_elem_of_bind.
  apply list_elem_of_bind in Hav as (p & Hav & Hp%elem_of_seqZ).
  apply list_elem_of_bind in Hav as (j & ->%list_elem_of_singleton & Hj%elem_of_seqZ).
  destruct (csr_valid_row _ _ _ _ _ _ Hcsr row ltac:(lia))
    as (_ & _ & Hrs & _ & _ & Hcols).
  exists (zat csr_col_ind p - base_val idx_base), j.
  cbn [fst snd]. split; [apply Hcols; lia|]. split; [lia|reflexivity].
Qed.

(** X11. The additions of a launch of kernel tn or tt, taking effect in
    whatever order, never fault on a well-formed output buffer, keep its
    size and change no element outside the M x N output; this holds in any
    arithmetic. *)
Theorem atomic_adds_stay_in_output (B_tn : list T) (ldb_tn : Z) (B_tt : list T)
    (ldb_tt : Z) (C : list T) :
  config_ok BLOCKSIZE WF_SIZE w nw ->
  csr_valid K M csr_row_ptr csr_col_ind csr_val idx_base = true ->
  launch_xy_ok BLOCKSIZE WF_SIZE N L ->
  C_valid order M N ldc C = true ->
  dense_valid K N ldb_tn B_tn = true ->
  dense_valid N K ldb_tt B_tt = true ->
  (exists adds,
     grid_adds (csrmmtn_general_device BLOCKSIZE WF_SIZE trans_A trans_B M N K nnz
                  alpha csr_row_ptr csr_col_ind csr_val B_tn ldb_tn beta ldc order
                  idx_base L) (grid_threads L) = Ok adds
     /\ forall order_of_adds, order_of_adds ≡ₚ adds ->
          exists C', apply_adds order_of_adds C = Ok C'
            /\ length C' = length C
            /\ forall a : nat,
                 (forall i j, 0 <= i < M -> 0 <= j < N ->
                              dense_index order ldc i j <> Z.of_nat a) ->
                 C' !! a = C !! a)
  /\ (exists adds,
     grid_adds (csrmmtt_general_device BLOCKSIZE WF_SIZE trans_A trans_B M N K nnz
                  alpha csr_row_ptr csr_col_ind csr_val B_tt ldb_tt beta ldc order
                  idx_base L) (grid_threads L) = Ok adds
     /\ forall order_of_adds, order_of_adds ≡ₚ adds ->
          exists C', apply_adds order_of_adds C = Ok C'
            /\ length C' = length C
            /\ forall a : nat,
                 (forall i j, 0 <= i < M -> 0 <= j < N ->
                              dense_index order ldc i j <> Z.of_nat a) ->
                 C' !! a = C !! a).
Proof.
  intros Hcfg Hcsr HL HC HBn HBt.
  pose proof HL as (_ & _ & Hgx & _).
  assert (forall (bval : Z -> Z -> T) (adds sched : list (Z * T)),
            adds ≡ₚ atomic_work trans_A N K alpha csr_row_ptr csr_col_ind csr_val
                      ldc order idx_base bval ->
            sched ≡ₚ adds ->
            exists C', apply_adds sched C = Ok C'
              /\ length C' = length C
              /\ forall a : nat,
                   (forall i j, 0 <= i < M -> 0 <= j < N ->
                                dense_index order ldc i j <> Z.of_nat a) ->
                   C' !! a = C !! a) as Hany.
  { intros bval adds sched Hadds Hsched.
    assert (forall av, av ∈ sched ->
              exists i j, 0 <= i < M /\ 0 <= j < N
                          /\ fst av = dense_index order ldc i j) as Hcells.
    { intros av Hav. rewrite Hsched, Hadds in Hav.
      apply (atomic_work_cells bval C av Hcsr Hav). }
    destruct (apply_adds_in_range sched C) as (C' & E & Hlen & F).
    { apply Forall_forall. intros av Hav.
      destruct (Hcells av Hav) as (i & j & Hi & Hj & ->).
      apply (C_valid_index _ _ _ _ _ (i, j) HC); assumption. }
    exists C'. split; [exact E|]. split; [exact Hlen|].
    intros a Ha. apply F. intros av Hav Ea.
    destruct (Hcells av Hav) as (i & j & Hi & Hj & Eav).
    pose proof (C_valid_index _ _ _ _ _ (i, j) HC Hi Hj) as Hin.
    unfold cell_index in Hin. cbn [fst snd] in Hin.
    apply (Ha i j Hi Hj). lia. }
  split; eexists; (split; [apply grid_adds_items|]).
  - intros t _.
    apply (csrmmtn_thread_adds BLOCKSIZE WF_SIZE w nw Hcfg); assumption.
  - intros sched Hsched.
    eapply (Hany (tn_bval trans_B B_tn ldb_tn)); [|exact Hsched].
    apply (lane_adds_partition BLOCKSIZE WF_SIZE w nw Hcfg). assumption.
  - intros t _.
    apply (csrmmtt_thread_adds BLOCKSIZE WF_SIZE w nw Hcfg); assumption.
  - intros sched Hsched.
    eapply (Hany (tt_bval trans_B B_tt ldb_tt)); [|exact Hsched].
    apply (lane_adds_partition BLOCKSIZE WF_SIZE w nw Hcfg). assumption.
Qed.

End AtomicLaunches.

(** ** The index base *)

Section IndexBase.
Context {T : Type} `{Scalar T}.
Variables (BLOCKSIZE WF_SIZE : Z).
Variables (trans_A trans_B : rocsparse_operation) (M N K nnz : Z) (alpha : T).
Variables (csr_row_ptr csr_col_ind : list Z) (csr_val B : list T) (ldb : Z).
Variables (beta : T) (ldc : Z) (order : rocsparse_order).

Lemma load_succ (tag : Z -> fault) (buf : list Z) (i : Z) :
  load tag (Z.succ <$> buf) i = (v <- load tag buf i ;; Ok (Z.succ v)).
Proof. apply load_fmap. Qed.

Lemma nn_fill_col_slot_shift (row_end j lid : Z) :
  nn_fill_col_slot rocsparse_index_base_one (Z.succ <$> csr_col_ind)
    (row_end - 0) j lid
  = nn_fill_col_slot rocsparse_index_base_zero csr_col_ind (row_end - 0) j lid.
Proof.
  unfold nn_fill_col_slot. cbv zeta. destruct (j + lid <? row_end - 0); [|reflexivity].
  rewrite load_succ. destruct (load OOB_col_ind csr_col_ind (j + lid)); try reflexivity.
  simpl. f_equal. lia.
Qed.

Lemma nt_fill_col_slot_shift (row_end j lid : Z) :
  nt_fill_col_slot rocsparse_index_base_one (Z.succ <$> csr_col_ind) ldb
    (row_end - 0) j lid
  = nt_fill_col_slot rocsparse_index_base_zero csr_col_ind ldb (row_end - 0) j lid.
Proof.
  unfold nt_fill_col_slot. cbv zeta. destruct (j + lid <? row_end - 0); [|reflexivity].
  rewrite load_succ. destruct (load OOB_col_ind csr_col_ind (j + lid)); try reflexivity.
  simpl. do 2 f_equal. lia.
Qed.

Lemma csrmmnn_row_shift (col colB row : Z) (C : list T) :
  csrmmnn_row WF_SIZE trans_A trans_B N alpha (Z.succ <$> csr_row_ptr)
    (Z.succ <$> csr_col_ind) csr_val B beta ldc order rocsparse_index_base_one
    col colB row C
  = csrmmnn_row WF_SIZE trans_A trans_B N alpha csr_row_ptr csr_col_ind csr_val B
      beta ldc order rocsparse_index_base_zero col colB row C.
Proof.
  unfold csrmmnn_row. rewrite !load_succ.
  destruct (load OOB_row_ptr csr_row_ptr row) as [rs| |]; try reflexivity.
  destruct (load OOB_row_ptr csr_row_ptr (row + 1)) as [re| |]; try reflexivity.
  cbn [bind base_val].
  replace (Z.succ rs - 1) with (rs - 0) by lia.
  replace (Z.succ re - 1) with (re - 0) by lia.
  f_equal. unfold csrmmnn_row_sum.
  apply (for_loop_ext (fun _ => True)); [exact I|auto|].
  intros j sum _ _. f_equal.
  apply fill_tile_ext. intros l _. apply nn_fill_col_slot_shift.
Qed.

Lemma csrmmnt_col_shift (ncol row rs re lid l : Z) (C : list T) :
  csrmmnt_col WF_SIZE trans_A trans_B ncol alpha (Z.succ <$> csr_col_ind) csr_val B
    ldb beta ldc order rocsparse_index_base_one row (rs - 0) (re - 0) lid l C
  = csrmmnt_col WF_SIZE trans_A trans_B ncol alpha csr_col_ind csr_val B ldb beta
      ldc order rocsparse_index_base_zero row (rs - 0) (re - 0) lid l C.
Proof.
  unfold csrmmnt_col. cbv zeta. f_equal. unfold csrmmnt_row_sum.
  apply (for_loop_ext (fun _ => True)); [exact I|auto|].
  intros j sum _ _. f_equal.
  apply fill_tile_ext. intros l' _. apply nt_fill_col_slot_shift.
Qed.

Lemma atomic_row_shift (fill_B : Z -> Z -> result T) (by_ lid row : Z)
    (adds : list (Z * T)) :
  atomic_row WF_SIZE fill_B trans_A N alpha (Z.succ <$> csr_row_ptr)
    (Z.succ <$> csr_col_ind) csr_val ldc order rocsparse_index_base_one
    by_ lid row adds
  = atomic_row WF_SIZE fill_B trans_A N alpha csr_row_ptr csr_col_ind csr_val ldc
      order rocsparse_index_base_zero by_ lid row adds.
Proof.
  unfold atomic_row. rewrite !load_succ.
  destruct (load OOB_row_ptr csr_row_ptr row) as [rs| |]; try reflexivity.
  destruct (load OOB_row_ptr csr_row_ptr (row + 1)) as [re| |]; try reflexivity.
  cbn [bind base_val].
  replace (Z.succ rs - 1) with (rs - 0) by lia.
  replace (Z.succ re - 1) with (re - 0) by lia.
  destruct (fill_tile (fill_B row) (seqZ 0 WF_SIZE)) as [shared_B| |];
    try reflexivity.
  cbn [bind]. unfold scatter_row.
  apply (for_loop_ext (fun _ => True)); [exact I|auto|].
  intros j acc _ _. rewrite load_succ.
  destruct (load OOB_col_ind csr_col_ind j) as [c| |]; try reflexivity.
  cbn [bind base_val].
  replace (Z.succ c - 1) with (c - 0) by lia. reflexivity.
Qed.

(** X13. The index base is one uniform shift: a thread run on one-based
    indices does what it does on the same indices zero-based, element for
    element and fault for fault, in each of the four compute kernels. *)
Theorem index_base_is_a_uniform_shift (offset ncol : Z) (L : launch) (t : thread)
    (C : list T) :
  csrmmnn_general_device BLOCKSIZE WF_SIZE trans_A trans_B M N K nnz alpha
    (Z.succ <$> csr_row_ptr) (Z.succ <$> csr_col_ind) csr_val B ldb beta ldc
    order rocsparse_index_base_one L t C
  = csrmmnn_general_device BLOCKSIZE WF_SIZE trans_A trans_B M N K nnz alpha
      csr_row_ptr csr_col_ind csr_val B ldb beta ldc order
      rocsparse_index_base_zero L t C
  /\ csrmmnt_general_device BLOCKSIZE WF_SIZE trans_A trans_B offset ncol M N K
       nnz alpha (Z.succ <$> csr_row_ptr) (Z.succ <$> csr_col_ind) csr_val B ldb
       beta ldc order rocsparse_index_base_one L t C
     = csrmmnt_general_device BLOCKSIZE WF_SIZE trans_A trans_B offset ncol M N K
         nnz alpha csr_row_ptr csr_col_ind csr_val B ldb beta ldc order
         rocsparse_index_base_zero L t C
  /\ csrmmtn_general_device BLOCKSIZE WF_SIZE trans_A trans_B M N K nnz alpha
       (Z.succ <$> csr_row_ptr) (Z.succ <$> csr_col_ind) csr_val B ldb beta ldc
       order rocsparse_index_base_one L t
     = csrmmtn_general_device BLOCKSIZE WF_SIZE trans_A trans_B M N K nnz alpha
         csr_row_ptr csr_col_ind csr_val B ldb beta ldc order
         rocsparse_index_base_zero L t
  /\ csrmmtt_general_device BLOCKSIZE WF_SIZE trans_A trans_B M N K nnz alpha
       (Z.succ <$> csr_row_ptr) (Z.succ <$> csr_col_ind) csr_val B ldb beta ldc
       order rocsparse_index_base_one L t
     = csrmmtt_general_device BLOCKSIZE WF_SIZE trans_A trans_B M N K nnz alpha
         csr_row_ptr csr_col_ind csr_val B ldb beta ldc order
         rocsparse_index_base_zero L t.
Proof.
  split; [|split; [|split]].
  - unfold csrmmnn_general_device. cbv zeta.
    apply (for_loop_ext (fun _ => True)); [exact I|auto|].
    intros row C' _ _. apply csrmmnn_row_shift.
  - unfold csrmmnt_general_device. cbv zeta.
    destruct (M <=? _); [reflexivity|].
    rewrite !load_succ.
    destruct (load OOB_row_ptr csr_row_ptr _) as [rs| |]; try reflexivity.
    destruct (load OOB_row_ptr csr_row_ptr _) as [re| |]; try reflexivity.
    cbn [bind base_val].
    replace (Z.succ rs - 1) with (rs - 0) by lia.
    replace (Z.succ re - 1) with (re - 0) by lia.
    apply (for_loop_ext (fun _ => True)); [exact I|auto|].
    intros l C' _ _. apply csrmmnt_col_shift.
  - unfold csrmmtn_general_device. cbv zeta.
    apply (for_loop_ext (fun _ => True)); [exact I|auto|].
    intros row acc _ _. apply atomic_row_shift.
  - unfold csrmmtt_general_device. cbv zeta.
    apply (for_loop_ext (fun _ => True)); [exact I|auto|].
    intros row acc _ _. apply atomic_row_shift.
Qed.

End IndexBase.

(** ** An empty problem *)

Lemma foldM_unchanged {A S : Type} (body : A -> S -> result S) (l : list A)
    (s : S) :
  (forall x, x ∈ l -> body x s = Ok s) -> foldM body l s = Ok s.
Proof.
  induction l as [|x l IH]; intros Hb; [reflexivity|].
  simpl. rewrite (Hb x) by left. simpl.
  apply IH. intros; apply Hb; right; assumption.
Qed.

Lemma grid_adds_none {T : Type} `{Scalar T}
    (kernel : thread -> result (list (Z * T))) (threads : list thread) :
  (forall t, t ∈ threads -> kernel t = Ok []) ->
  grid_adds kernel threads = Ok [].
Proof.
  intros Hk. unfold grid_adds. apply foldM_unchanged.
  intros t Ht. rewrite (Hk t Ht). reflexivity.
Qed.

(** X14. With no row to work on the compute kernels touch no buffer at all:
    a launch of nn or nt with [M <= 0] returns the output it was given and a
    launch of tn or tt with [K <= 0] issues no addition, whatever the
    buffers are, empty ones included; so does the scale kernel when [m] or
    [n] is not positive. *)
Theorem empty_problem_touches_nothing {T : Type} `{Scalar T}
    (BLOCKSIZE WF_SIZE : Z) (trans_A trans_B : rocsparse_operation)
    (M N K nnz : Z) (alpha : T) (csr_row_ptr csr_col_ind : list Z)
    (csr_val B : list T) (ldb : Z) (beta : T) (ldc : Z) (order : rocsparse_order)
    (idx_base : rocsparse_index_base) (offset ncol : Z) (L : launch)
    (sched : list thread) (C : list T) :
  0 <= BLOCKSIZE -> 0 < WF_SIZE ->
  (M <= 0 ->
     run_grid (csrmmnn_general_device BLOCKSIZE WF_SIZE trans_A trans_B M N K nnz
                 alpha csr_row_ptr csr_col_ind csr_val B ldb beta ldc order
                 idx_base L) sched C = Ok C)
  /\ (M <= 0 ->
     run_grid (csrmmnt_general_device BLOCKSIZE WF_SIZE trans_A trans_B offset ncol
                 M N K nnz alpha csr_row_ptr csr_col_ind csr_val B ldb beta ldc
                 order idx_base L) sched C = Ok C)
  /\ (K <= 0 ->
     grid_adds (csrmmtn_general_device BLOCKSIZE WF_SIZE trans_A trans_B M N K nnz
                  alpha csr_row_ptr csr_col_ind csr_val B ldb beta ldc order
                  idx_base L) sched = Ok [])
  /\ (K <= 0 ->
     grid_adds (csrmmtt_general_device BLOCKSIZE WF_SIZE trans_A trans_B M N K nnz
                  alpha csr_row_ptr csr_col_ind csr_val B ldb beta ldc order
                  idx_base L) sched = Ok [])
  /\ (M <= 0 \/ N <= 0 ->
     run_grid (fun t data => csrmm_scale_device M N beta data ldc order L t)
              sched C = Ok C).
Proof.
  intros HBS HWF.
  assert (forall t : thread,
            0 <= (Z.of_nat (hipBlockIdx_x t) * BLOCKSIZE
                  + Z.of_nat (hipThreadIdx_x t)) ÷ WF_SIZE) as Hrow.
  { intros t. apply Z.quot_pos; nia. }
  split; [|split; [|split; [|split]]].
  - intros HM. apply foldM_unchanged. intros t _.
    unfold csrmmnn_general_device. cbv zeta.
    apply for_loop_false. apply Z.ltb_ge. specialize (Hrow t). lia.
  - intros HM. apply foldM_unchanged. intros t _.
    unfold csrmmnt_general_device. cbv zeta.
    destruct (Z.leb_spec M ((Z.of_nat (hipBlockIdx_x t) * BLOCKSIZE
                             + Z.of_nat (hipThreadIdx_x t)) ÷ WF_SIZE));
      [reflexivity|]. specialize (Hrow t). lia.
  - intros HK. apply grid_adds_none. intros t _.
    unfold csrmmtn_general_device. cbv zeta.
    apply for_loop_false. apply Z.ltb_ge. specialize (Hrow t). lia.
  - intros HK. apply grid_adds_none. intros t _.
    unfold csrmmtt_general_device. cbv zeta.
    apply for_loop_false. apply Z.ltb_ge. specialize (Hrow t). lia.
  - intros Hmn. apply foldM_unchanged. intros t _.
    unfold csrmm_scale_device. cbv zeta.
    destruct (Z.leb_spec M (Z.of_nat (hipBlockIdx_x t) * Z.of_nat (hipBlockDim_x L)
                            + Z.of_nat (hipThreadIdx_x t)));
      [reflexivity|].
    destruct (Z.leb_spec N (Z.of_nat (hipBlockIdx_y t) * Z.of_nat (hipBlockDim_y L)
                            + Z.of_nat (hipThreadIdx_y t)));
      [reflexivity|]. nia.
Qed.

(** ** Beta inline and beta by the scale kernel *)

Section InlineBeta.
Context {T : Type} `{ScalarLaws T}.

Add Ring T_semiring_inline : scalar_sr.

Variables (BLOCKSIZE WF_SIZE : Z) (w nw : nat).
Variables (trans_A trans_B : rocsparse_operation) (M N K nnz : Z) (alpha : T).
Variables (csr_row_ptr csr_col_ind : list Z) (csr_val : list T).
Variables (beta : T) (C : list T) (ldc : Z) (order : rocsparse_order).
Variable idx_base : rocsparse_index_base.

(** X15. In exact arithmetic the beta the row-parallel kernels apply in
    their final store is the beta of the scale kernel: scaling C by beta and
    then launching nn (or nt over all columns) with beta equal to one ends
    in the buffer a launch of the kernel with beta itself ends in. *)
Theorem inline_beta_is_prescaling (B_nn : list T) (ldb_nn : Z) (B_nt : list T)
    (ldb_nt : Z) (L_scale L_nn L_nt : launch) (s0 s1 s2 s3 s4 : list thread) :
  config_ok BLOCKSIZE WF_SIZE w nw ->
  csr_valid M K csr_row_ptr csr_col_ind csr_val idx_base = true ->
  C_valid order M N ldc C = true ->
  launch_scale_ok M N L_scale -> s0 ≡ₚ grid_threads L_scale ->
  dense_valid K N ldb_nn B_nn = true ->
  launch_xy_ok BLOCKSIZE WF_SIZE N L_nn ->
  s1 ≡ₚ grid_threads L_nn -> s2 ≡ₚ grid_threads L_nn ->
  dense_valid N K ldb_nt B_nt = true ->
  launch_x_ok BLOCKSIZE WF_SIZE M L_nt ->
  s3 ≡ₚ grid_threads L_nt -> s4 ≡ₚ grid_threads L_nt ->
  exists C_scaled,
    run_grid (fun t data => csrmm_scale_device M N beta data ldc order L_scale t)
             s0 C = Ok C_scaled
    /\ (exists C',
          run_grid (csrmmnn_general_device BLOCKSIZE WF_SIZE trans_A trans_B M N K
                      nnz alpha csr_row_ptr csr_col_ind csr_val B_nn ldb_nn T1 ldc
                      order idx_base L_nn) s1 C_scaled = Ok C'
          /\ run_grid (csrmmnn_general_device BLOCKSIZE WF_SIZE trans_A trans_B M N K
                         nnz alpha csr_row_ptr csr_col_ind csr_val B_nn ldb_nn beta
                         ldc order idx_base L_nn) s2 C = Ok C')
    /\ (exists C',
          run_grid (csrmmnt_general_device BLOCKSIZE WF_SIZE trans_A trans_B 0 N
                      M N K nnz alpha csr_row_ptr csr_col_ind csr_val B_nt ldb_nt T1
                      ldc order idx_base L_nt) s3 C_scaled = Ok C'
          /\ run_grid (csrmmnt_general_device BLOCKSIZE WF_SIZE trans_A trans_B 0 N
                         M N K nnz alpha csr_row_ptr csr_col_ind csr_val B_nt ldb_nt
                         beta ldc order idx_base L_nt) s4 C = Ok C').
Proof.
  intros Hcfg Hcsr HC HLs Hs0 HBn HLn Hs1 Hs2 HBt HLt Hs3 Hs4.
  destruct (scale_launch_updates M N beta ldc order L_scale C HC HLs s0 Hs0 C
              eq_refl) as (Cs & Es & Hlens & Vs & Fs).
  exists Cs. split; [exact Es|]. split.
  - destruct (csrmmnn_launch_updates BLOCKSIZE WF_SIZE w nw Hcfg trans_A trans_B
                M N K nnz alpha csr_row_ptr csr_col_ind csr_val B_nn ldb_nn T1
                C ldc order idx_base L_nn Hcsr s1 HLn HBn HC Hs1 Cs Hlens)
      as (C1 & E1 & Hlen1 & V1 & F1).
    destruct (csrmmnn_launch_updates BLOCKSIZE WF_SIZE w nw Hcfg trans_A trans_B
                M N K nnz alpha csr_row_ptr csr_col_ind csr_val B_nn ldb_nn beta
                C ldc order idx_base L_nn Hcsr s2 HLn HBn HC Hs2 C eq_refl)
      as (C2 & E2 & Hlen2 & V2 & F2).
    exists C1. split; [exact E1|]. rewrite E2. f_equal.
    apply (buffers_agree (cell_index order ldc) (block_cells 0 M 0 N));
      [congruence| |].
    + intros c Hc. rewrite (V2 c Hc), (V1 c Hc), (Vs c Hc).
      rewrite !stored_value_exact. ring.
    + intros a Ha. rewrite F2, F1, Fs by assumption. reflexivity.
  - destruct (csrmmnt_launch_updates BLOCKSIZE WF_SIZE w nw Hcfg trans_A trans_B
                M N K nnz alpha csr_row_ptr csr_col_ind csr_val B_nt ldb_nt T1
                C ldc order idx_base L_nt Hcsr 0 N s3 HLt (Z.le_refl 0) HBt HC Hs3
                Cs Hlens)
      as (C1 & E1 & Hlen1 & V1 & F1).
    destruct (csrmmnt_launch_updates BLOCKSIZE WF_SIZE w nw Hcfg trans_A trans_B
                M N K nnz alpha csr_row_ptr csr_col_ind csr_val B_nt ldb_nt beta
                C ldc order idx_base L_nt Hcsr 0 N s4 HLt (Z.le_refl 0) HBt HC Hs4
                C eq_refl)
      as (C2 & E2 & Hlen2 & V2 & F2).
    exists C1. split; [exact E1|]. rewrite E2. f_equal.
    apply (buffers_agree (cell_index order ldc) (block_cells 0 M 0 N));
      [congruence| |].
    + intros c Hc. rewrite (V2 c Hc), (V1 c Hc), (Vs c Hc).
      rewrite !stored_value_exact. ring.
    + intros a Ha. rewrite F2, F1, Fs by assumption. reflexivity.
Qed.

End InlineBeta.

(** ** The scale kernel checks no bound *)

Section ScaleBounds.
Context {T : Type} `{Scalar T}.
Variables (m n : Z) (beta : T) (ld : Z) (order : rocsparse_order) (L : launch).

Lemma csrmm_scale_device_length (t : thread) (data data' : list T) :
  csrmm_scale_device m n beta data ld order L t = Ok data' ->
  length data' = length data.
Proof.
  unfold csrmm_scale_device. cbv zeta.
  destruct (_ || _); [intros [= <-]; reflexivity|].
  destruct order; intros (d & _ & E)%bind_Ok_inv; unfold store in E;
    destruct (_ && _); try discriminate; injection E as <-;
    apply length_insert.
Qed.

(** Every thread of a launch that returned ran, and returned, on a buffer
    of the size of the one the launch was given. *)
Lemma scale_grid_threads_ran (sched : list thread) (data data' : list T)
    (t : thread) :
  run_grid (fun t data => csrmm_scale_device m n beta data ld order L t) sched data
  = Ok data' ->
  t ∈ sched ->
  exists d d', length d = length data
               /\ csrmm_scale_device m n beta d ld order L t = Ok d'.
Proof.
  revert data. induction sched as [|t0 sched IH]; intros data E Ht.
  - inversion Ht.
  - unfold run_grid in E. cbn [foldM] in E.
    apply bind_Ok_inv in E as (d1 & E1 & E2).
    apply elem_of_cons in Ht as [->|Ht].
    + exists data, d1. split; [reflexivity|exact E1].
    + destruct (IH d1 E2 Ht) as (d & d' & Hlen & Ed).
      exists d, d'. split; [|exact Ed].
      rewrite Hlen. apply (csrmm_scale_device_length t0 data d1 E1).
Qed.

(** X9. The scale kernel tests [gidx < m] and [gidy < n] and nothing else: a
    launch that reaches every element returns only if every element of the m
    x n matrix lies inside the buffer. *)
Theorem csrmm_scale_returns_only_in_bounds (sched : list thread)
    (data data' : list T) :
  launch_scale_ok m n L ->
  sched ≡ₚ grid_threads L ->
  run_grid (fun t data => csrmm_scale_device m n beta data ld order L t) sched data
  = Ok data' ->
  forall i j, 0 <= i < m -> 0 <= j < n ->
    0 <= dense_index order ld i j < Z.of_nat (length data).
Proof.
  intros [Hx Hy] Hperm E i j Hi Hj.
  assert (0 < Z.of_nat (hipBlockDim_x L)) as Hbx by nia.
  assert (0 < Z.of_nat (hipBlockDim_y L)) as Hby by nia.
  pose proof (Z.div_mod i (Z.of_nat (hipBlockDim_x L)) ltac:(lia)) as Ei.
  pose proof (Z.mod_pos_bound i _ Hbx) as Hir.
  pose proof (Z.div_mod j (Z.of_nat (hipBlockDim_y L)) ltac:(lia)) as Ej.
  pose proof (Z.mod_pos_bound j _ Hby) as Hjr.
  assert (0 <= i `div` Z.of_nat (hipBlockDim_x L) < Z.of_nat (hipGridDim_x L)).
  { split; [apply Z.div_pos; lia|apply Z.div_lt_upper_bound; nia]. }
  assert (0 <= j `div` Z.of_nat (hipBlockDim_y L) < Z.of_nat (hipGridDim_y L)).
  { split; [apply Z.div_pos; lia|apply Z.div_lt_upper_bound; nia]. }
  set (t := {| hipBlockIdx_x := Z.to_nat (i `div` Z.of_nat (hipBlockDim_x L));
               hipBlockIdx_y := Z.to_nat (j `div` Z.of_nat (hipBlockDim_y L));
               hipThreadIdx_x := Z.to_nat (i `mod` Z.of_nat (hipBlockDim_x L));
               hipThreadIdx_y := Z.to_nat (j `mod` Z.of_nat (hipBlockDim_y L)) |}).
  assert (t ∈ sched) as Ht.
  { rewrite Hperm. apply elem_of_grid_threads. unfold t.
    cbn [hipBlockIdx_x hipBlockIdx_y hipThreadIdx_x hipThreadIdx_y]. lia. }
  destruct (scale_grid_threads_ran sched data data' t E Ht) as (d & d' & Hlen & Ed).
  rewrite <- Hlen.
  unfold csrmm_scale_device in Ed. cbv zeta in Ed. unfold t in Ed.
  cbn [hipBlockIdx_x hipBlockIdx_y hipThreadIdx_x hipThreadIdx_y] in Ed.
  rewrite !Z2Nat.id in Ed by lia.
  replace (i `div` Z.of_nat (hipBlockDim_x L) * Z.of_nat (hipBlockDim_x L)
           + i `mod` Z.of_nat (hipBlockDim_x L)) with i in Ed by lia.
  replace (j `div` Z.of_nat (hipBlockDim_y L) * Z.of_nat (hipBlockDim_y L)
           + j `mod` Z.of_nat (hipBlockDim_y L)) with j in Ed by lia.
  destruct (Z.leb_spec m i); [lia|]. destruct (Z.leb_spec n j); [lia|].
  cbn [orb] in Ed.
  destruct order; apply bind_Ok_inv in Ed as (v & [Hin _]%load_Ok_inv & _);
    unfold dense_index; lia.
Qed.

End ScaleBounds.

(** ** An atomic kernel without the scale kernel *)

Section AtomicAlone.
Context {T : Type} `{ScalarLaws T}.
Variables (BLOCKSIZE WF_SIZE : Z) (w nw : nat).
Variables (trans_A trans_B : rocsparse_operation) (M N K nnz : Z) (alpha : T).
Variables (csr_row_ptr csr_col_ind : list Z) (csr_val : list T).
Variables (beta : T) (C : list T) (ldc : Z) (order : rocsparse_order).
Variable idx_base : rocsparse_index_base.
Variable L : launch.

(** X12. Kernels tn and tt take beta and never use it: in exact arithmetic a
    launch adds to element [(i, j)] of the output, whatever beta is and in
    whatever order the additions take effect, alpha times the sum over the
    stored rows [k] of the stored entry [(k, i)] times the entry [(k, j)] of
    B, each conjugated as its mode asks. *)
Theorem atomic_launch_accumulates (B_tn : list T) (ldb_tn : Z) (B_tt : list T)
    (ldb_tt : Z) :
  config_ok BLOCKSIZE WF_SIZE w nw ->
  csr_valid K M csr_row_ptr csr_col_ind csr_val idx_base = true ->
  launch_xy_ok BLOCKSIZE WF_SIZE N L ->
  C_valid order M N ldc C = true ->
  dense_valid K N ldb_tn B_tn = true ->
  dense_valid N K ldb_tt B_tt = true ->
  (exists adds,
     grid_adds (csrmmtn_general_device BLOCKSIZE WF_SIZE trans_A trans_B M N K nnz
                  alpha csr_row_ptr csr_col_ind csr_val B_tn ldb_tn beta ldc order
                  idx_base L) (grid_threads L) = Ok adds
     /\ forall order_of_adds, order_of_adds ≡ₚ adds ->
          exists C', apply_adds order_of_adds C = Ok C'
            /\ forall i j, 0 <= i < M -> 0 <= j < N ->
                 zat C' (dense_index order ldc i j)
                 = Tadd (zat C (dense_index order ldc i j))
                     (Tmul alpha
                        (sumZ (fun k =>
                           Tmul (csr_dense (op_conj trans_A) csr_row_ptr csr_col_ind
                                           csr_val idx_base k i)
                                (op_conj trans_B (zat B_tn (k + j * ldb_tn))))
                           0 K)))
  /\ (exists adds,
     grid_adds (csrmmtt_general_device BLOCKSIZE WF_SIZE trans_A trans_B M N K nnz
                  alpha csr_row_ptr csr_col_ind csr_val B_tt ldb_tt beta ldc order
                  idx_base L) (grid_threads L) = Ok adds
     /\ forall order_of_adds, order_of_adds ≡ₚ adds ->
          exists C', apply_adds order_of_adds C = Ok C'
            /\ forall i j, 0 <= i < M -> 0 <= j < N ->
                 zat C' (dense_index order ldc i j)
                 = Tadd (zat C (dense_index order ldc i j))
                     (Tmul alpha
                        (sumZ (fun k =>
                           Tmul (csr_dense (op_conj trans_A) csr_row_ptr csr_col_ind
                                           csr_val idx_base k i)
                                (op_conj trans_B (zat B_tt (ldb_tt * k + j))))
                           0 K))).
Proof.
  intros Hcfg Hcsr HL HC HBn HBt.
  pose proof HL as (_ & _ & Hgx & _).
  split; eexists; (split; [apply grid_adds_items|]).
  - intros t _.
    apply (csrmmtn_thread_adds BLOCKSIZE WF_SIZE w nw Hcfg); assumption.
  - intros sched Hperm.
    destruct (atomic_launch_result BLOCKSIZE WF_SIZE w nw Hcfg trans_A M N K alpha
                csr_row_ptr csr_col_ind csr_val C ldc order idx_base L
                (tn_bval trans_B B_tn ldb_tn) Hcsr HL HC sched Hperm)
      as (C' & E & _ & V & _).
    exists C'. split; [exact E|]. intros i j Hi Hj. exact (V i j Hi Hj).
  - intros t _.
    apply (csrmmtt_thread_adds BLOCKSIZE WF_SIZE w nw Hcfg); assumption.
  - intros sched Hperm.
    destruct (atomic_launch_result BLOCKSIZE WF_SIZE w nw Hcfg trans_A M N K alpha
                csr_row_ptr csr_col_ind csr_val C ldc order idx_base L
                (tt_bval trans_B B_tt ldb_tt) Hcsr HL HC sched Hperm)
      as (C' & E & _ & V & _).
    exists C'. split; [exact E|]. intros i j Hi Hj. exact (V i j Hi Hj).
Qed.

End AtomicAlone.

(** ** The properties on the small problem *)

Lemma ex_launch_scale_sq : launch_scale_ok 2 2 ex_L_scale.
Proof. unfold launch_scale_ok, ex_L_scale. simpl. lia. Qed.

Lemma csrmmnn_launch_postcondition_witness :
  exists C',
    run_grid (csrmmnn_general_device ex_BS ex_WF rocsparse_operation_none
                rocsparse_operation_none 2 2 3 3 2 ex_row_ptr ex_col_ind ex_val
                ex_B_nn 3 3 2 rocsparse_order_column rocsparse_index_base_one ex_L)
             (grid_threads ex_L) ex_C = Ok C'
    /\ length C' = length ex_C
    /\ (forall i j, 0 <= i < 2 -> 0 <= j < 2 ->
          zat C' (dense_index rocsparse_order_column 2 i j)
          = stored_value 2 3 (zat ex_C (dense_index rocsparse_order_column 2 i j))
              (nn_dot ex_WF rocsparse_operation_none rocsparse_operation_none
                      ex_row_ptr ex_col_ind ex_val ex_B_nn 3
                      rocsparse_index_base_one (i, j)))
    /\ (forall a : nat,
          (forall i j, 0 <= i < 2 -> 0 <= j < 2 ->
                       dense_index rocsparse_order_column 2 i j <> Z.of_nat a) ->
          C' !! a = ex_C !! a).
Proof.
  apply (csrmmnn_launch_postcondition (H := Z_Scalar) ex_BS ex_WF 1 2
           rocsparse_operation_none rocsparse_operation_none 2 2 3 3 2
           ex_row_ptr ex_col_ind ex_val ex_B_nn 3 3 ex_C 2 rocsparse_order_column
           rocsparse_index_base_one ex_L (grid_threads ex_L)).
  - exact ex_config.
  - reflexivity.
  - reflexivity.
  - reflexivity.
  - exact ex_launch_xy.
  - reflexivity.
Defined.

Lemma csrmmnt_launch_postcondition_witness :
  exists C',
    run_grid (csrmmnt_general_device ex_BS ex_WF rocsparse_operation_none
                rocsparse_operation_none 0 2 2 2 3 3 2 ex_row_ptr ex_col_ind ex_val
                ex_B_nt 2 3 2 rocsparse_order_column rocsparse_index_base_one ex_L)
             (grid_threads ex_L) ex_C = Ok C'
    /\ length C' = length ex_C
    /\ (forall i j, 0 <= i < 2 -> 0 <= j < 2 ->
          zat C' (dense_index rocsparse_order_column 2 i j)
          = stored_value 2 3 (zat ex_C (dense_index rocsparse_order_column 2 i j))
              (nt_dot ex_WF rocsparse_operation_none rocsparse_operation_none
                      ex_row_ptr ex_col_ind ex_val ex_B_nt 2
                      rocsparse_index_base_one (i, j)))
    /\ (forall a : nat,
          (forall i j, 0 <= i < 2 -> 0 <= j < 2 ->
                       dense_index rocsparse_order_column 2 i j <> Z.of_nat a) ->
          C' !! a = ex_C !! a).
Proof.
  apply (csrmmnt_launch_postcondition (H := Z_Scalar) ex_BS ex_WF 1 2
           rocsparse_operation_none rocsparse_operation_none 2 2 3 3 2
           ex_row_ptr ex_col_ind ex_val ex_B_nt 2 3 ex_C 2 rocsparse_order_column
           rocsparse_index_base_one 0 2 ex_L (grid_threads ex_L)).
  - exact ex_config.
  - reflexivity.
  - lia.
  - reflexivity.
  - reflexivity.
  - exact ex_launch_x.
  - reflexivity.
Defined.

Lemma csrmmnt_column_ranges_compose_witness :
  exists C1 C2,
    run_grid (csrmmnt_general_device ex_BS ex_WF rocsparse_operation_none
                rocsparse_operation_none 0 1 2 2 3 3 2 ex_row_ptr ex_col_ind ex_val
                ex_B_nt 2 3 2 rocsparse_order_column rocsparse_index_base_one ex_L)
             (grid_threads ex_L) ex_C = Ok C1
    /\ run_grid (csrmmnt_general_device ex_BS ex_WF rocsparse_operation_none
                   rocsparse_operation_none 1 2 2 2 3 3 2 ex_row_ptr ex_col_ind
                   ex_val ex_B_nt 2 3 2 rocsparse_order_column
                   rocsparse_index_base_one ex_L)
                (grid_threads ex_L) C1 = Ok C2
    /\ run_grid (csrmmnt_general_device ex_BS ex_WF rocsparse_operation_none
                   rocsparse_operation_none 0 2 2 2 3 3 2 ex_row_ptr ex_col_ind
                   ex_val ex_B_nt 2 3 2 rocsparse_order_column
                   rocsparse_index_base_one ex_L)
                (grid_threads ex_L) ex_C = Ok C2.
Proof.
  apply (csrmmnt_column_ranges_compose (H := Z_Scalar) ex_BS ex_WF 1 2
           rocsparse_operation_none rocsparse_operation_none 2 2 3 3 2
           ex_row_ptr ex_col_ind ex_val ex_B_nt 2 3 ex_C 2 rocsparse_order_column
           rocsparse_index_base_one 0 1 2 ex_L (grid_threads ex_L)
           (grid_threads ex_L) (grid_threads ex_L)).
  - exact ex_config.
  - reflexivity.
  - lia.
  - lia.
  - reflexivity.
  - reflexivity.
  - exact ex_launch_x.
  - reflexivity.
  - reflexivity.
  - reflexivity.
Defined.

Lemma beta_zero_relaunch_is_identity_witness :
  (exists C',
     run_grid (csrmmnn_general_device ex_BS ex_WF rocsparse_operation_none
                 rocsparse_operation_none 2 2 3 3 2 ex_row_ptr ex_col_ind ex_val
                 ex_B_nn 3 0 2 rocsparse_order_column rocsparse_index_base_one ex_L)
              (grid_threads ex_L) ex_C = Ok C'
     /\ run_grid (csrmmnn_general_device ex_BS ex_WF rocsparse_operation_none
                    rocsparse_operation_none 2 2 3 3 2 ex_row_ptr ex_col_ind ex_val
                    ex_B_nn 3 0 2 rocsparse_order_column rocsparse_index_base_one
                    ex_L)
                 (grid_threads ex_L) C' = Ok C')
  /\ (exists C',
     run_grid (csrmmnt_general_device ex_BS ex_WF rocsparse_operation_none
                 rocsparse_operation_none 0 2 2 2 3 3 2 ex_row_ptr ex_col_ind ex_val
                 ex_B_nt 2 0 2 rocsparse_order_column rocsparse_index_base_one ex_L)
              (grid_threads ex_L) ex_C = Ok C'
     /\ run_grid (csrmmnt_general_device ex_BS ex_WF rocsparse_operation_none
                    rocsparse_operation_none 0 2 2 2 3 3 2 ex_row_ptr ex_col_ind
                    ex_val ex_B_nt 2 0 2 rocsparse_order_column
                    rocsparse_index_base_one ex_L)
                 (grid_threads ex_L) C' = Ok C').
Proof.
  apply (beta_zero_relaunch_is_identity (H := Z_Scalar) ex_BS ex_WF 1 2
           rocsparse_operation_none rocsparse_operation_none 2 2 3 3 2
           ex_row_ptr ex_col_ind ex_val ex_B_nn 3 0 ex_C 2 rocsparse_order_column
           rocsparse_index_base_one ex_B_nt 2 0 2 ex_L ex_L
           (grid_threads ex_L) (grid_threads ex_L) (grid_threads ex_L)
           (grid_threads ex_L)).
  - exact ex_config.
  - reflexivity.
  - reflexivity.
  - reflexivity.
  - reflexivity.
  - exact ex_launch_xy.
  - reflexivity.
  - reflexivity.
  - lia.
  - reflexivity.
  - reflexivity.
  - exact ex_launch_x.
  - reflexivity.
  - reflexivity.
Defined.

Lemma csrmm_scale_launch_postcondition_witness :
  exists data',
    run_grid (fun t data => csrmm_scale_device 3 2 3 data 3 rocsparse_order_column
                              ex_L_scale t)
             (grid_threads ex_L_scale) ex_C_t = Ok data'
    /\ length data' = length ex_C_t
    /\ forall i j, 0 <= i < 3 -> 0 <= j < 2 ->
         zat data' (dense_index rocsparse_order_column 3 i j)
         = zat ex_C_t (dense_index rocsparse_order_column 3 i j) * 3.
Proof.
  apply (csrmm_scale_launch_postcondition (H := Z_Scalar) 3 2 3 ex_C_t 3
           rocsparse_order_column ex_L_scale (grid_threads ex_L_scale)).
  - reflexivity.
  - exact ex_launch_scale.
  - reflexivity.
Defined.

Lemma csrmm_scale_twice_witness :
  exists d1 d2,
    run_grid (fun t data => csrmm_scale_device 3 2 3 data 3 rocsparse_order_column
                              ex_L_scale t)
             (grid_threads ex_L_scale) ex_C_t = Ok d1
    /\ run_grid (fun t data => csrmm_scale_device 3 2 2 data 3 rocsparse_order_column
                                 ex_L_scale t)
                (grid_threads ex_L_scale) d1 = Ok d2
    /\ run_grid (fun t data => csrmm_scale_device 3 2 (3 * 2) data 3
                                 rocsparse_order_column ex_L_scale t)
                (grid_threads ex_L_scale) ex_C_t = Ok d2.
Proof.
  apply (csrmm_scale_twice (H := Z_Scalar) 3 2 3 2 ex_C_t 3 rocsparse_order_column
           ex_L_scale ex_L_scale ex_L_scale (grid_threads ex_L_scale)
           (grid_threads ex_L_scale) (grid_threads ex_L_scale)).
  - reflexivity.
  - exact ex_launch_scale.
  - reflexivity.
  - exact ex_launch_scale.
  - reflexivity.
  - exact ex_launch_scale.
  - reflexivity.
Defined.

Lemma atomic_adds_exactly_once_witness :
  (exists adds,
     grid_adds (csrmmtn_general_device ex_BS ex_WF rocsparse_operation_transpose
                  rocsparse_operation_none 3 2 2 3 2 ex_row_ptr ex_col_ind ex_val
                  ex_B_tn 2 3 3 rocsparse_order_column rocsparse_index_base_one ex_L)
               (grid_threads ex_L) = Ok adds
     /\ adds ≡ₚ atomic_work rocsparse_operation_transpose 2 2 2 ex_row_ptr
                  ex_col_ind ex_val 3 rocsparse_order_column
                  rocsparse_index_base_one
                  (tn_bval rocsparse_operation_none ex_B_tn 2))
  /\ (exists adds,
     grid_adds (csrmmtt_general_device ex_BS ex_WF rocsparse_operation_transpose
                  rocsparse_operation_none 3 2 2 3 2 ex_row_ptr ex_col_ind ex_val
                  ex_B_tt 2 3 3 rocsparse_order_column rocsparse_index_base_one ex_L)
               (grid_threads ex_L) = Ok adds
     /\ adds ≡ₚ atomic_work rocsparse_operation_transpose 2 2 2 ex_row_ptr
                  ex_col_ind ex_val 3 rocsparse_order_column
                  rocsparse_index_base_one
                  (tt_bval rocsparse_operation_none ex_B_tt 2)).
Proof.
  apply (atomic_adds_exactly_once (H := Z_Scalar) ex_BS ex_WF 1 2
           rocsparse_operation_transpose rocsparse_operation_none 3 2 2 3 2
           ex_row_ptr ex_col_ind ex_val 3 3 rocsparse_order_column
           rocsparse_index_base_one ex_L ex_B_tn 2 ex_B_tt 2).
  - exact ex_config.
  - reflexivity.
  - exact ex_launch_xy.
  - reflexivity.
  - reflexivity.
Defined.

Lemma atomic_adds_stay_in_output_witness :
  (exists adds,
     grid_adds (csrmmtn_general_device ex_BS ex_WF rocsparse_operation_transpose
                  rocsparse_operation_none 3 2 2 3 2 ex_row_ptr ex_col_ind ex_val
                  ex_B_tn 2 3 3 rocsparse_order_column rocsparse_index_base_one ex_L)
               (grid_threads ex_L) = Ok adds
     /\ forall order_of_adds, order_of_adds ≡ₚ adds ->
          exists C', apply_adds order_of_adds ex_C_t = Ok C'
            /\ length C' = length ex_C_t
            /\ forall a : nat,
                 (forall i j, 0 <= i < 3 -> 0 <= j < 2 ->
                              dense_index rocsparse_order_column 3 i j
                              <> Z.of_nat a) ->
                 C' !! a = ex_C_t !! a)
  /\ (exists adds,
     grid_adds (csrmmtt_general_device ex_BS ex_WF rocsparse_operation_transpose
                  rocsparse_operation_none 3 2 2 3 2 ex_row_ptr ex_col_ind ex_val
                  ex_B_tt 2 3 3 rocsparse_order_column rocsparse_index_base_one ex_L)
               (grid_threads ex_L) = Ok adds
     /\ forall order_of_adds, order_of_adds ≡ₚ adds ->
          exists C', apply_adds order_of_adds ex_C_t = Ok C'
            /\ length C' = length ex_C_t
            /\ forall a : nat,
                 (forall i j, 0 <= i < 3 -> 0 <= j < 2 ->
                              dense_index rocsparse_order_column 3 i j
                              <> Z.of_nat a) ->
                 C' !! a = ex_C_t !! a).
Proof.
  apply (atomic_adds_stay_in_output (H := Z_Scalar) ex_BS ex_WF 1 2
           rocsparse_operation_transpose rocsparse_operation_none 3 2 2 3 2
           ex_row_ptr ex_col_ind ex_val 3 3 rocsparse_order_column
           rocsparse_index_base_one ex_L ex_B_tn 2 ex_B_tt 2 ex_C_t).
  - exact ex_config.
  - reflexivity.
  - exact ex_launch_xy.
  - reflexivity.
  - reflexivity.
  - reflexivity.
Defined.

Lemma empty_problem_touches_nothing_witness :
  (0 <= 0 ->
     run_grid (csrmmnn_general_device ex_BS ex_WF rocsparse_operation_none
                 rocsparse_operation_none 0 2 0 0 2 [] [] [] [] 1 3 1
                 rocsparse_order_column rocsparse_index_base_zero ex_L)
              (grid_threads ex_L) [] = Ok [])
  /\ (0 <= 0 ->
     run_grid (csrmmnt_general_device ex_BS ex_WF rocsparse_operation_none
                 rocsparse_operation_none 0 2 0 2 0 0 2 [] [] [] [] 1 3 1
                 rocsparse_order_column rocsparse_index_base_zero ex_L)
              (grid_threads ex_L) [] = Ok [])
  /\ (0 <= 0 ->
     grid_adds (csrmmtn_general_device ex_BS ex_WF rocsparse_operation_none
                  rocsparse_operation_none 0 2 0 0 2 [] [] [] [] 1 3 1
                  rocsparse_order_column rocsparse_index_base_zero ex_L)
               (grid_threads ex_L) = Ok [])
  /\ (0 <= 0 ->
     grid_adds (csrmmtt_general_device ex_BS ex_WF rocsparse_operation_none
                  rocsparse_operation_none 0 2 0 0 2 [] [] [] [] 1 3 1
                  rocsparse_order_column rocsparse_index_base_zero ex_L)
               (grid_threads ex_L) = Ok [])
  /\ (0 <= 0 \/ 2 <= 0 ->
     run_grid (fun t data => csrmm_scale_device 0 2 3 data 1 rocsparse_order_column
                               ex_L t)
              (grid_threads ex_L) [] = Ok []).
Proof.
  apply (empty_problem_touches_nothing (H := Z_Scalar) ex_BS ex_WF
           rocsparse_operation_none rocsparse_operation_none 0 2 0 0 2 [] [] [] []
           1 3 1 rocsparse_order_column rocsparse_index_base_zero 0 2 ex_L
           (grid_threads ex_L) []).
  - unfold ex_BS. lia.
  - unfold ex_WF. lia.
Defined.

Lemma inline_beta_is_prescaling_witness :
  exists C_scaled,
    run_grid (fun t data => csrmm_scale_device 2 2 3 data 2 rocsparse_order_column
                              ex_L_scale t)
             (grid_threads ex_L_scale) ex_C = Ok C_scaled
    /\ (exists C',
          run_grid (csrmmnn_general_device ex_BS ex_WF rocsparse_operation_none
                      rocsparse_operation_none 2 2 3 3 2 ex_row_ptr ex_col_ind
                      ex_val ex_B_nn 3 1 2 rocsparse_order_column
                      rocsparse_index_base_one ex_L)
                   (grid_threads ex_L) C_scaled = Ok C'
          /\ run_grid (csrmmnn_general_device ex_BS ex_WF rocsparse_operation_none
                         rocsparse_operation_none 2 2 3 3 2 ex_row_ptr ex_col_ind
                         ex_val ex_B_nn 3 3 2 rocsparse_order_column
                         rocsparse_index_base_one ex_L)
                      (grid_threads ex_L) ex_C = Ok C')
    /\ (exists C',
          run_grid (csrmmnt_general_device ex_BS ex_WF rocsparse_operation_none
                      rocsparse_operation_none 0 2 2 2 3 3 2 ex_row_ptr ex_col_ind
                      ex_val ex_B_nt 2 1 2 rocsparse_order_column
                      rocsparse_index_base_one ex_L)
                   (grid_threads ex_L) C_scaled = Ok C'
          /\ run_grid (csrmmnt_general_device ex_BS ex_WF rocsparse_operation_none
                         rocsparse_operation_none 0 2 2 2 3 3 2 ex_row_ptr ex_col_ind
                         ex_val ex_B_nt 2 3 2 rocsparse_order_column
                         rocsparse_index_base_one ex_L)
                      (grid_threads ex_L) ex_C = Ok C').
Proof.
  apply (inline_beta_is_prescaling (H := Z_Scalar) ex_BS ex_WF 1 2
           rocsparse_operation_none rocsparse_operation_none 2 2 3 3 2
           ex_row_ptr ex_col_ind ex_val 3 ex_C 2 rocsparse_order_column
           rocsparse_index_base_one ex_B_nn 3 ex_B_nt 2 ex_L_scale ex_L ex_L
           (grid_threads ex_L_scale) (grid_threads ex_L) (grid_threads ex_L)
           (grid_threads ex_L) (grid_threads ex_L)).
  - exact ex_config.
  - reflexivity.
  - reflexivity.
  - exact ex_launch_scale_sq.
  - reflexivity.
  - reflexivity.
  - exact ex_launch_xy.
  - reflexivity.
  - reflexivity.
  - reflexivity.
  - exact ex_launch_x.
  - reflexivity.
  - reflexivity.
Defined.

Lemma csrmm_scale_returns_only_in_bounds_witness :
  0 <= dense_index rocsparse_order_column 3 2 1 < Z.of_nat (length ex_C_t).
Proof.
  apply (csrmm_scale_returns_only_in_bounds (H := Z_Scalar) 3 2 3 3
           rocsparse_order_column ex_L_scale (grid_threads ex_L_scale) ex_C_t
           [3; 3; 3; 3; 3; 3; 9]).
  - exact ex_launch_scale.
  - reflexivity.
  - reflexivity.
  - lia.
  - lia.
Defined.

Lemma atomic_launch_accumulates_witness :
  (exists adds,
     grid_adds (csrmmtn_general_device ex_BS ex_WF rocsparse_operation_transpose
                  rocsparse_operation_none 3 2 2 3 2 ex_row_ptr ex_col_ind ex_val
                  ex_B_tn 2 3 3 rocsparse_order_column rocsparse_index_base_one ex_L)
               (grid_threads ex_L) = Ok adds
     /\ forall order_of_adds, order_of_adds ≡ₚ adds ->
          exists C', apply_adds order_of_adds ex_C_t = Ok C'
            /\ forall i j, 0 <= i < 3 -> 0 <= j < 2 ->
                 zat C' (dense_index rocsparse_order_column 3 i j)
                 = zat ex_C_t (dense_index rocsparse_order_column 3 i j)
                   + 2 * sumZ (fun k =>
                       csr_dense (op_conj rocsparse_operation_transpose) ex_row_ptr
                                 ex_col_ind ex_val rocsparse_index_base_one k i
                       * op_conj rocsparse_operation_none (zat ex_B_tn (k + j * 2)))
                       0 2)
  /\ (exists adds,
     grid_adds (csrmmtt_general_device ex_BS ex_WF rocsparse_operation_transpose
                  rocsparse_operation_none 3 2 2 3 2 ex_row_ptr ex_col_ind ex_val
                  ex_B_tt 2 3 3 rocsparse_order_column rocsparse_index_base_one ex_L)
               (grid_threads ex_L) = Ok adds
     /\ forall order_of_adds, order_of_adds ≡ₚ adds ->
          exists C', apply_adds order_of_adds ex_C_t = Ok C'
            /\ forall i j, 0 <= i < 3 -> 0 <= j < 2 ->
                 zat C' (dense_index rocsparse_order_column 3 i j)
                 = zat ex_C_t (dense_index rocsparse_order_column 3 i j)
                   + 2 * sumZ (fun k =>
                       csr_dense (op_conj rocsparse_operation_transpose) ex_row_ptr
                                 ex_col_ind ex_val rocsparse_index_base_one k i
                       * op_conj rocsparse_operation_none (zat ex_B_tt (2 * k + j)))
                       0 2).
Proof.
  apply (atomic_launch_accumulates (H := Z_Scalar) ex_BS ex_WF 1 2
           rocsparse_operation_transpose rocsparse_operation_none 3 2 2 3 2
           ex_row_ptr ex_col_ind ex_val 3 ex_C_t 3 rocsparse_order_column
           rocsparse_index_base_one ex_L ex_B_tn 2 ex_B_tt 2).
  - exact ex_config.
  - reflexivity.
  - exact ex_launch_xy.
  - reflexivity.
  - reflexivity.
  - reflexivity.
Defined.

(** * Conjugation: the values the kernels use *)

Section WithoutConj.
Context {T : Type} {H : Scalar T}.
Variables (BLOCKSIZE WF_SIZE : Z).
Variables (trans_A trans_B : rocsparse_operation) (M N K nnz : Z) (alpha : T).
Variables (csr_row_ptr csr_col_ind : list Z) (csr_val B : list T) (ldb : Z).
Variables (beta : T) (ldc : Z) (order : rocsparse_order).
Variable idx_base : rocsparse_index_base.
Variables (L : launch) (t : thread).

Lemma fmap_op_conj_without (trans : rocsparse_operation) (l : list T) :
  @op_conj T (without_conj H) trans <$> l = l.
Proof.
  rewrite <- (list_fmap_id l) at 2. apply list_fmap_ext.
  intros i v _. destruct trans; reflexivity.
Qed.

(** Without a conjugation the modes make no difference: the kernels do what
    they do under the mode none. *)
Lemma kernels_without_conj (offset ncol : Z) (C : list T) :
  @csrmmnn_general_device T (without_conj H) BLOCKSIZE WF_SIZE trans_A trans_B
    M N K nnz alpha csr_row_ptr csr_col_ind csr_val B ldb beta ldc order idx_base
    L t C
  = csrmmnn_general_device BLOCKSIZE WF_SIZE rocsparse_operation_none
      rocsparse_operation_none M N K nnz alpha csr_row_ptr csr_col_ind csr_val B
      ldb beta ldc order idx_base L t C
  /\ @csrmmnt_general_device T (without_conj H) BLOCKSIZE WF_SIZE trans_A trans_B
       offset ncol M N K nnz alpha csr_row_ptr csr_col_ind csr_val B ldb beta ldc
       order idx_base L t C
     = csrmmnt_general_device BLOCKSIZE WF_SIZE rocsparse_operation_none
         rocsparse_operation_none offset ncol M N K nnz alpha csr_row_ptr
         csr_col_ind csr_val B ldb beta ldc order idx_base L t C
  /\ @csrmmtn_general_device T (without_conj H) BLOCKSIZE WF_SIZE trans_A trans_B
       M N K nnz alpha csr_row_ptr csr_col_ind csr_val B ldb beta ldc order
       idx_base L t
     = csrmmtn_general_device BLOCKSIZE WF_SIZE rocsparse_operation_none
         rocsparse_operation_none M N K nnz alpha csr_row_ptr csr_col_ind csr_val
         B ldb beta ldc order idx_base L t
  /\ @csrmmtt_general_device T (without_conj H) BLOCKSIZE WF_SIZE trans_A trans_B
       M N K nnz alpha csr_row_ptr csr_col_ind csr_val B ldb beta ldc order
       idx_base L t
     = csrmmtt_general_device BLOCKSIZE WF_SIZE rocsparse_operation_none
         rocsparse_operation_none M N K nnz alpha csr_row_ptr csr_col_ind csr_val
         B ldb beta ldc order idx_base L t.
Proof.
  pose proof (modes_as_mapped_data (H := without_conj H) BLOCKSIZE WF_SIZE
                trans_A trans_B M N K nnz alpha csr_row_ptr csr_col_ind csr_val B
                ldb beta ldc order idx_base L t offset ncol C)
    as (E1 & E2 & E3 & E4).
  rewrite !fmap_op_conj_without in E1, E2, E3, E4.
  rewrite E1, E2, E3, E4. repeat split; reflexivity.
Qed.

End WithoutConj.

Section ConjugationValues.
Context {T : Type} {H : Scalar T}.
Variables (BLOCKSIZE WF_SIZE : Z) (w nw : nat).
Variables (trans_A trans_B : rocsparse_operation) (M N K nnz : Z) (alpha : T).
Variables (csr_row_ptr csr_col_ind : list Z) (csr_val B : list T) (ldb : Z).
Variables (beta : T) (C : list T) (ldc : Z) (order : rocsparse_order).
Variable idx_base : rocsparse_index_base.
Variables (L : launch) (t : thread).

(** C4.  Every compute kernel uses a value of A conjugated exactly when the
    transpose mode of A is conjugate-transpose and a value of B conjugated
    exactly when the mode of B is, and unmodified under the two other
    modes.  [op_conj] is that choice.  First, on any input and for any
    outcome, a thread of nn, nt, tn or tt does what it does over an element
    type whose conjugation is the identity on the values of A and of B
    passed through [op_conj].  Second, on well-formed inputs the values
    themselves: nn and nt store the final value for the sum of the products
    [op_conj trans_A a * op_conj trans_B b] taken in the order of the source,
    tn and tt add [alpha * op_conj trans_A a * op_conj trans_B b], once for
    each nonzero and column. *)
Theorem conjugation_follows_modes (offset ncol : Z) (sched : list thread) :
  (forall v : T,
     op_conj rocsparse_operation_none v = v
     /\ op_conj rocsparse_operation_transpose v = v
     /\ op_conj rocsparse_operation_conjugate_transpose v = rocsparse_conj v)
  /\ (csrmmnn_general_device BLOCKSIZE WF_SIZE trans_A trans_B M N K nnz alpha
        csr_row_ptr csr_col_ind csr_val B ldb beta ldc order idx_base L t C
      = @csrmmnn_general_device T (without_conj H) BLOCKSIZE WF_SIZE trans_A
          trans_B M N K nnz alpha csr_row_ptr csr_col_ind
          (op_conj trans_A <$> csr_val) (op_conj trans_B <$> B) ldb beta ldc order
          idx_base L t C
      /\ csrmmnt_general_device BLOCKSIZE WF_SIZE trans_A trans_B offset ncol M N K
           nnz alpha csr_row_ptr csr_col_ind csr_val B ldb beta ldc order idx_base
           L t C
         = @csrmmnt_general_device T (without_conj H) BLOCKSIZE WF_SIZE trans_A
             trans_B offset ncol M N K nnz alpha csr_row_ptr csr_col_ind
             (op_conj trans_A <$> csr_val) (op_conj trans_B <$> B) ldb beta ldc
             order idx_base L t C
      /\ csrmmtn_general_device BLOCKSIZE WF_SIZE trans_A trans_B M N K nnz alpha
           csr_row_ptr csr_col_ind csr_val B ldb beta ldc order idx_base L t
         = @csrmmtn_general_device T (without_conj H) BLOCKSIZE WF_SIZE trans_A
             trans_B M N K nnz alpha csr_row_ptr csr_col_ind
             (op_conj trans_A <$> csr_val) (op_conj trans_B <$> B) ldb beta ldc
             order idx_base L t
      /\ csrmmtt_general_device BLOCKSIZE WF_SIZE trans_A trans_B M N K nnz alpha
           csr_row_ptr csr_col_ind csr_val B ldb beta ldc order idx_base L t
         = @csrmmtt_general_device T (without_conj H) BLOCKSIZE WF_SIZE trans_A
             trans_B M N K nnz alpha csr_row_ptr csr_col_ind
             (op_conj trans_A <$> csr_val) (op_conj trans_B <$> B) ldb beta ldc
             order idx_base L t)
  /\ (config_ok BLOCKSIZE WF_SIZE w nw ->
      (csr_valid M K csr_row_ptr csr_col_ind csr_val idx_base = true ->
       dense_valid K N ldb B = true ->
       C_valid order M N ldc C = true ->
       launch_xy_ok BLOCKSIZE WF_SIZE N L ->
       sched ≡ₚ grid_threads L ->
       exists C',
         run_grid (csrmmnn_general_device BLOCKSIZE WF_SIZE trans_A trans_B M N K
                     nnz alpha csr_row_ptr csr_col_ind csr_val B ldb beta ldc order
                     idx_base L) sched C = Ok C'
         /\ forall i j, 0 <= i < M -> 0 <= j < N ->
              zat C' (dense_index order ldc i j)
              = stored_value alpha beta (zat C (dense_index order ldc i j))
                  (dot_tiled WF_SIZE
                     (fun p => op_conj trans_A (zat csr_val p))
                     (fun p => op_conj trans_B
                                 (zat B (zat csr_col_ind p - base_val idx_base
                                         + j * ldb)))
                     (op_conj trans_B (zat B (0 + j * ldb)))
                     (zat csr_row_ptr i - base_val idx_base)
                     (zat csr_row_ptr (i + 1) - base_val idx_base)))
      /\ (csr_valid M K csr_row_ptr csr_col_ind csr_val idx_base = true ->
          dense_valid N K ldb B = true ->
          C_valid order M N ldc C = true ->
          launch_x_ok BLOCKSIZE WF_SIZE M L ->
          sched ≡ₚ grid_threads L ->
          exists C',
            run_grid (csrmmnt_general_device BLOCKSIZE WF_SIZE trans_A trans_B 0 N
                        M N K nnz alpha csr_row_ptr csr_col_ind csr_val B ldb beta
                        ldc order idx_base L) sched C = Ok C'
            /\ forall i j, 0 <= i < M -> 0 <= j < N ->
                 zat C' (dense_index order ldc i j)
                 = stored_value alpha beta (zat C (dense_index order ldc i j))
                     (dot_tiled WF_SIZE
                        (fun p => op_conj trans_A (zat csr_val p))
                        (fun p => op_conj trans_B
                                    (zat B (j + ldb * (zat csr_col_ind p
                                                       - base_val idx_base))))
                        (op_conj trans_B (zat B (j + 0)))
                        (zat csr_row_ptr i - base_val idx_base)
                        (zat csr_row_ptr (i + 1) - base_val idx_base)))
      /\ (csr_valid K M csr_row_ptr csr_col_ind csr_val idx_base = true ->
          dense_valid K N ldb B = true ->
          launch_xy_ok BLOCKSIZE WF_SIZE N L ->
          exists adds,
            grid_adds (csrmmtn_general_device BLOCKSIZE WF_SIZE trans_A trans_B
                         M N K nnz alpha csr_row_ptr csr_col_ind csr_val B ldb beta
                         ldc order idx_base L) (grid_threads L) = Ok adds
            /\ adds ≡ₚ atomic_work trans_A N K alpha csr_row_ptr csr_col_ind
                         csr_val ldc order idx_base
                         (fun k j => op_conj trans_B (zat B (k + j * ldb))))
      /\ (csr_valid K M csr_row_ptr csr_col_ind csr_val idx_base = true ->
          dense_valid N K ldb B = true ->
          launch_xy_ok BLOCKSIZE WF_SIZE N L ->
          exists adds,
            grid_adds (csrmmtt_general_device BLOCKSIZE WF_SIZE trans_A trans_B
                         M N K nnz alpha csr_row_ptr csr_col_ind csr_val B ldb beta
                         ldc order idx_base L) (grid_threads L) = Ok adds
            /\ adds ≡ₚ atomic_work trans_A N K alpha csr_row_ptr csr_col_ind
                         csr_val ldc order idx_base
                         (fun k j => op_conj trans_B (zat B (ldb * k + j))))).
Proof.
  split; [intros v; repeat split|]. split.
  - pose proof (modes_as_mapped_data BLOCKSIZE WF_SIZE trans_A trans_B M N K nnz
                  alpha csr_row_ptr csr_col_ind csr_val B ldb beta ldc order
                  idx_base L t offset ncol C) as (E1 & E2 & E3 & E4).
    pose proof (kernels_without_conj BLOCKSIZE WF_SIZE trans_A trans_B M N K nnz
                  alpha csr_row_ptr csr_col_ind (op_conj trans_A <$> csr_val)
                  (op_conj trans_B <$> B) ldb beta ldc order idx_base L t offset
                  ncol C) as (F1 & F2 & F3 & F4).
    rewrite E1, E2, E3, E4, F1, F2, F3, F4. repeat split; reflexivity.
  - intros Hcfg. split; [|split; [|split]].
    + intros Hcsr HB HC HL Hs.
      destruct (csrmmnn_launch_updates BLOCKSIZE WF_SIZE w nw Hcfg trans_A trans_B
                  M N K nnz alpha csr_row_ptr csr_col_ind csr_val B ldb beta
                  C ldc order idx_base L Hcsr sched HL HB HC Hs C eq_refl)
        as (C' & E & _ & V & _).
      exists C'. split; [exact E|]. intros i j Hi Hj.
      apply (V (i, j)). apply elem_of_block_cells. simpl. lia.
    + intros Hcsr HB HC HL Hs.
      destruct (csrmmnt_launch_updates BLOCKSIZE WF_SIZE w nw Hcfg trans_A trans_B
                  M N K nnz alpha csr_row_ptr csr_col_ind csr_val B ldb beta
                  C ldc order idx_base L Hcsr 0 N sched HL (Z.le_refl 0) HB HC Hs
                  C eq_refl)
        as (C' & E & _ & V & _).
      exists C'. split; [exact E|]. intros i j Hi Hj.
      apply (V (i, j)). apply elem_of_block_cells. simpl. lia.
    + intros Hcsr HB HL. pose proof HL as (_ & _ & Hgx & _).
      eexists. split; [apply grid_adds_items|].
      * intros t' _.
        apply (csrmmtn_thread_adds BLOCKSIZE WF_SIZE w nw Hcfg); assumption.
      * apply (lane_adds_partition BLOCKSIZE WF_SIZE w nw Hcfg). assumption.
    + intros Hcsr HB HL. pose proof HL as (_ & _ & Hgx & _).
      eexists. split; [apply grid_adds_items|].
      * intros t' _.
        apply (csrmmtt_thread_adds BLOCKSIZE WF_SIZE w nw Hcfg); assumption.
      * apply (lane_adds_partition BLOCKSIZE WF_SIZE w nw Hcfg). assumption.
Qed.

End ConjugationValues.

Lemma conjugation_follows_modes_witness :
  (exists C',
     run_grid (csrmmnn_general_device ex_BS ex_WF
                 rocsparse_operation_conjugate_transpose rocsparse_operation_none
                 2 2 3 3 2 ex_row_ptr ex_col_ind ex_val ex_B_nn 3 3 2
                 rocsparse_order_column rocsparse_index_base_one ex_L)
              (grid_threads ex_L) ex_C = Ok C'
     /\ forall i j, 0 <= i < 2 -> 0 <= j < 2 ->
          zat C' (dense_index rocsparse_order_column 2 i j)
          = stored_value 2 3 (zat ex_C (dense_index rocsparse_order_column 2 i j))
              (dot_tiled ex_WF
                 (fun p => op_conj rocsparse_operation_conjugate_transpose
                             (zat ex_val p))
                 (fun p => op_conj rocsparse_operation_none
                             (zat ex_B_nn (zat ex_col_ind p - 1 + j * 3)))
                 (op_conj rocsparse_operation_none (zat ex_B_nn (0 + j * 3)))
                 (zat ex_row_ptr i - 1) (zat ex_row_ptr (i + 1) - 1)))
  /\ (exists C',
     run_grid (csrmmnt_general_device ex_BS ex_WF
                 rocsparse_operation_conjugate_transpose rocsparse_operation_none
                 0 2 2 2 3 3 2 ex_row_ptr ex_col_ind ex_val ex_B_nt 2 3 2
                 rocsparse_order_column rocsparse_index_base_one ex_L)
              (grid_threads ex_L) ex_C = Ok C'
     /\ forall i j, 0 <= i < 2 -> 0 <= j < 2 ->
          zat C' (dense_index rocsparse_order_column 2 i j)
          = stored_value 2 3 (zat ex_C (dense_index rocsparse_order_column 2 i j))
              (dot_tiled ex_WF
                 (fun p => op_conj rocsparse_operation_conjugate_transpose
                             (zat ex_val p))
                 (fun p => op_conj rocsparse_operation_none
                             (zat ex_B_nt (j + 2 * (zat ex_col_ind p - 1))))
                 (op_conj rocsparse_operation_none (zat ex_B_nt (j + 0)))
                 (zat ex_row_ptr i - 1) (zat ex_row_ptr (i + 1) - 1)))
  /\ (exists adds,
     grid_adds (csrmmtn_general_device ex_BS ex_WF
                  rocsparse_operation_conjugate_transpose rocsparse_operation_none
                  3 2 2 3 2 ex_row_ptr ex_col_ind ex_val ex_B_tn 2 3 3
                  rocsparse_order_column rocsparse_index_base_one ex_L)
               (grid_threads ex_L) = Ok adds
     /\ adds ≡ₚ atomic_work rocsparse_operation_conjugate_transpose 2 2 2
                  ex_row_ptr ex_col_ind ex_val 3 rocsparse_order_column
                  rocsparse_index_base_one
                  (fun k j => op_conj rocsparse_operation_none
                                (zat ex_B_tn (k + j * 2))))
  /\ (exists adds,
     grid_adds (csrmmtt_general_device ex_BS ex_WF
                  rocsparse_operation_conjugate_transpose rocsparse_operation_none
                  3 2 2 3 2 ex_row_ptr ex_col_ind ex_val ex_B_tt 2 3 3
                  rocsparse_order_column rocsparse_index_base_one ex_L)
               (grid_threads ex_L) = Ok adds
     /\ adds ≡ₚ atomic_work rocsparse_operation_conjugate_transpose 2 2 2
                  ex_row_ptr ex_col_ind ex_val 3 rocsparse_order_column
                  rocsparse_index_base_one
                  (fun k j => op_conj rocsparse_operation_none
                                (zat ex_B_tt (2 * k + j)))).
Proof.
  split; [|split; [|split]].
  - apply (proj1 (proj2 (proj2 (conjugation_follows_modes (H := Z_Scalar)
             ex_BS ex_WF 1 2 rocsparse_operation_conjugate_transpose
             rocsparse_operation_none 2 2 3 3 2 ex_row_ptr ex_col_ind ex_val
             ex_B_nn 3 3 ex_C 2 rocsparse_order_column rocsparse_index_base_one
             ex_L (Build_thread 0 0 0 0) 0 2 (grid_threads ex_L)))
             ex_config));
      [reflexivity|reflexivity|reflexivity|exact ex_launch_xy|reflexivity].
  - apply (proj1 (proj2 (proj2 (proj2 (conjugation_follows_modes (H := Z_Scalar)
             ex_BS ex_WF 1 2 rocsparse_operation_conjugate_transpose
             rocsparse_operation_none 2 2 3 3 2 ex_row_ptr ex_col_ind ex_val
             ex_B_nt 2 3 ex_C 2 rocsparse_order_column rocsparse_index_base_one
             ex_L (Build_thread 0 0 0 0) 0 2 (grid_threads ex_L)))
             ex_config)));
      [reflexivity|reflexivity|reflexivity|exact ex_launch_x|reflexivity].
  - apply (proj1 (proj2 (proj2 (proj2 (proj2 (conjugation_follows_modes
             (H := Z_Scalar) ex_BS ex_WF 1 2
             rocsparse_operation_conjugate_transpose rocsparse_operation_none
             3 2 2 3 2 ex_row_ptr ex_col_ind ex_val ex_B_tn 2 3 ex_C_t 3
             rocsparse_order_column rocsparse_index_base_one ex_L
             (Build_thread 0 0 0 0) 0 2 (grid_threads ex_L)))
             ex_config))));
      [reflexivity|reflexivity|exact ex_launch_xy].
  - apply (proj2 (proj2 (proj2 (proj2 (proj2 (conjugation_follows_modes
             (H := Z_Scalar) ex_BS ex_WF 1 2
             rocsparse_operation_conjugate_transpose rocsparse_operation_none
             3 2 2 3 2 ex_row_ptr ex_col_ind ex_val ex_B_tt 2 3 ex_C_t 3
             rocsparse_order_column rocsparse_index_base_one ex_L
             (Build_thread 0 0 0 0) 0 2 (grid_threads ex_L)))
             ex_config))));
      [reflexivity|reflexivity|exact ex_launch_xy].
Defined.
